(** * RaisedEdgeEdit: the relief pipeline, embedded and verified

    A shallow embedding of the numeric core of the repository:

    - [utils/edgeProcessor.ts]: [processImageWithEdges],
      [extractSmartContour], [calculateDistanceFieldFast],
      [calculateRoundedDepth], [calculateChamferedDepth];
    - [utils/simpleImageProcessor.ts]: [intelligentEdgeSmoothing], the first
      pipeline ([extractSimpleContour], [createSimpleGrayscale],
      [calculateSimpleDistance]), the resamplers ([edgePreservingUpscale],
      [highQualityDownsample]) and the optimised pipeline
      ([optimizeDepthMapDPI], [performDPIOptimization],
      [estimateDepthMapDPI], [processImageWithEdgesOptimized]);
    - [components/DepthMap3DViewer.tsx]: the geometry built by
      [PreciseDepthMapModel].

    Conventions of the embedding.

    - A JavaScript [number] that holds a measurement (a distance, a width, an
      angle, a smoothing strength, a vertex coordinate) is a real number [R]:
      [Math.sqrt], [Math.tan], [Math.floor], [Math.ceil] and [Math.round] are
      the mathematical functions, rounding error of the binary64 format is not
      modelled, and there is no NaN or infinity.
    - The two edge profiles, whose result is a floor and so can change with
      the last bit of its argument, are embedded a second time in
      [FloatProfile], where the result of every operation is rounded by a
      function [rnd] and [Math.tan] is a function [mathTan].  What is proved
      there holds for every [rnd] that is monotone, exact at 0 and at 1 and
      accurate to a tolerance of [10^-9], and every [mathTan] as accurate on
      [[0, pi/2)].  [Binary64] defines the rounding of binary64 arithmetic
      (to nearest, ties to even, with gradual underflow and without
      overflow) and proves it to be such an [rnd], with the correctly
      rounded tangent as [mathTan].
    - A byte of an [ImageData] buffer is a [Z]; a store into a
      [Uint8ClampedArray] clamps to [0..255].
    - Arrays are lists, read with [!!] and written with [<[i:=v]>]; array
      sizes, pixel coordinates and loop counters are [nat], neighbour
      coordinates (which may leave the raster) are [Z].
    - A [for] loop is a left fold over the list of its counter values; the
      [while] loop of the distance field takes fuel, and is proved to need
      only finitely much. *)

From Stdlib Require Import Reals Lra Lia ZArith List Bool.
From stdpp Require Import base list.

Open Scope R_scope.

(** ** Numbers *)

(** [a < b], [a <= b] on JavaScript numbers, as booleans. *)
Definition Rltb (a b : R) : bool := if Rlt_dec a b then true else false.
Definition Rleb (a b : R) : bool := if Rle_dec a b then true else false.

(** [Math.max(0, Math.min(255, v))] on an integer, which is also what a
    store into a [Uint8ClampedArray] does to one. *)
Definition clampZ (v : Z) : Z := Z.max 0 (Z.min 255 v).

(** ** Edge profiles *)

Module EdgeProfile.

(** [calculateRoundedDepth(distance, edgeWidth)]. *)
Definition calculateRoundedDepth (distance edgeWidth : R) : Z :=
  if Rleb edgeWidth distance then 255%Z
  else
    let t := distance / edgeWidth in
    let circularT := sqrt (1 - (1 - t) * (1 - t)) in
    let depth := Zfloor (circularT * 255) in
    clampZ depth.

(** [calculateChamferedDepth(distance, edgeWidth, angle)]. *)
Definition calculateChamferedDepth (distance edgeWidth angle : R) : Z :=
  if Rleb edgeWidth distance then 255%Z
  else
    let angleRad := (angle * PI) / 180 in
    let maxHeight := edgeWidth * tan angleRad in
    let currentHeight := distance * tan angleRad in
    let normalizedHeight :=
      if Rltb edgeWidth maxHeight
      then (currentHeight / maxHeight) * 255
      else (currentHeight / edgeWidth) * 255 in
    Zfloor (Rmax 0 (Rmin 255 normalizedHeight)).

End EdgeProfile.

(** ** Arrays and loops *)

(** Reads of a byte buffer, a number array and a boolean array.  On the
    well-formed rasters of the theorems every read is in range; a read past
    the end ([undefined] in JavaScript) is [0], respectively [false], here. *)
Definition byteAt (d : list Z) (i : nat) : Z := default 0%Z (d !! i).
Definition numAt (d : list R) (i : nat) : R := default 0 (d !! i).
Definition flagAt (c : list bool) (i : nat) : bool := default false (c !! i).
Definition natAt (d : list nat) (i : nat) : nat := default 0%nat (d !! i).

(** [buf[i] = v] on a [Uint8ClampedArray]. *)
Definition storeByte (buf : list Z) (i : nat) (v : Z) : list Z :=
  <[i := clampZ v]> buf.

(** [for (let i = 0; i < n; i++) body]. *)
Definition for_range {S : Type} (n : nat) (body : nat -> S -> S) (s : S) : S :=
  fold_left (fun st i => body i st) (seq 0 n) s.

(** [for (let i = 0; i < n; i += step) body]. *)
Definition for_step {S : Type} (n step : nat) (body : nat -> S -> S) (s : S) : S :=
  for_range ((n + step - 1) / step)%nat (fun k => body (k * step)%nat) s.

(** [for (let y = 0; y < rows; y++) for (let x = 0; x < cols; x++) body]. *)
Definition for_yx {S : Type} (rows cols : nat) (body : nat -> nat -> S -> S)
    (s : S) : S :=
  for_range rows (fun y => for_range cols (fun x => body y x)) s.

(** The values of [for (let d = -k; d <= k; d++)]. *)
Definition symRange (k : nat) : list Z :=
  map (fun i => (Z.of_nat i - Z.of_nat k)%Z) (seq 0 (2 * k + 1)).

(** ** Rasters *)

Record ImageData := mkImageData {
  width : nat;
  height : nat;
  data : list Z
}.

(** What the browser guarantees of an [ImageData]: four bytes per pixel. *)
Definition wellFormed (img : ImageData) : Prop :=
  length (data img) = (4 * (width img * height img))%nat /\
  Forall (fun b => (0 <= b <= 255)%Z) (data img).

(** [new ImageData(width, height)]: transparent black. *)
Definition newImageData (w h : nat) : ImageData :=
  mkImageData w h (replicate (4 * (w * h)) 0%Z).

(** The four channels of the pixel in column [x] of row [y]. *)
Definition pixelAt (img : ImageData) (x y : nat) : Z * Z * Z * Z :=
  let i := ((y * width img + x) * 4)%nat in
  (byteAt (data img) i, byteAt (data img) (i + 1),
   byteAt (data img) (i + 2), byteAt (data img) (i + 3)).

Definition alphaAt (img : ImageData) (x y : nat) : Z :=
  byteAt (data img) ((y * width img + x) * 4 + 3).

(** The 8 neighbour offsets [(dx, dy)], in the order of the loops
    [for dy = -1..1] [for dx = -1..1] with [(0, 0)] skipped. *)
Definition neighbourOffsets : list (Z * Z) :=
  [(-1, -1); (0, -1); (1, -1); (-1, 0); (1, 0); (-1, 1); (0, 1); (1, 1)]%Z.

(** [nx >= 0 && nx < width && ny >= 0 && ny < height]. *)
Definition inRaster (w h : nat) (nx ny : Z) : bool :=
  (0 <=? nx)%Z && (nx <? Z.of_nat w)%Z && (0 <=? ny)%Z && (ny <? Z.of_nat h)%Z.

(** [ny * width + nx]. *)
Definition cellIndex (w : nat) (nx ny : Z) : nat :=
  Z.to_nat (ny * Z.of_nat w + nx).

(** ** The distance field *)

Module DistanceField.

Record QueueEntry := mkEntry { qx : nat; qy : nat; qdist : R }.

(** The two arrays the function mutates. *)
Record State := mkState { distances : list R; queue : list QueueEntry }.

(** The neighbour scan that sets [isEdge]: the loops stop at the first
    neighbour that is transparent or off the raster. *)
Definition isEdge (contour : list bool) (w h x y : nat) : bool :=
  existsb (fun o : Z * Z =>
             let nx := (Z.of_nat x + fst o)%Z in
             let ny := (Z.of_nat y + snd o)%Z in
             if inRaster w h nx ny
             then negb (flagAt contour (cellIndex w nx ny))
             else true)
          neighbourOffsets.

(** Body of the first pair of loops. *)
Definition seed (contour : list bool) (w h : nat) (maxDistance : R)
    (y x : nat) (st : State) : State :=
  let index := (y * w + x)%nat in
  if flagAt contour index then
    if isEdge contour w h x y
    then mkState (<[index := 0]> (distances st))
                 (queue st ++ [mkEntry x y 0])
    else mkState (<[index := maxDistance]> (distances st)) (queue st)
  else st.

(** Body of the neighbour loops of the propagation, for the queue entry [e]
    and the offset [o = (dx, dy)]. *)
Definition relax (contour : list bool) (w h : nat) (maxDistance : R)
    (e : QueueEntry) (st : State) (o : Z * Z) : State :=
  let nx := (Z.of_nat (qx e) + fst o)%Z in
  let ny := (Z.of_nat (qy e) + snd o)%Z in
  if inRaster w h nx ny then
    let nIndex := cellIndex w nx ny in
    if flagAt contour nIndex then
      let newDist := qdist e + sqrt (IZR (fst o * fst o + snd o * snd o)) in
      if Rltb newDist (numAt (distances st) nIndex) && Rleb newDist maxDistance
      then mkState (<[nIndex := newDist]> (distances st))
                   (queue st ++ [mkEntry (Z.to_nat nx) (Z.to_nat ny) newDist])
      else st
    else st
  else st.

(** One turn of the [while] loop for the entry [e] just taken off the queue. *)
Definition visit (contour : list bool) (w h : nat) (maxDistance : R)
    (e : QueueEntry) (st : State) : State :=
  if Rleb maxDistance (qdist e) then st
  else fold_left (relax contour w h maxDistance e) neighbourOffsets st.

(** [while (queueIndex < queue.length)]: [None] when the fuel runs out. *)
Fixpoint propagate (contour : list bool) (w h : nat) (maxDistance : R)
    (fuel queueIndex : nat) (st : State) : option (list R) :=
  match queue st !! queueIndex with
  | None => Some (distances st)
  | Some e =>
      match fuel with
      | O => None
      | S fuel' =>
          propagate contour w h maxDistance fuel' (S queueIndex)
                    (visit contour w h maxDistance e st)
      end
  end.

Definition seeded (contour : list bool) (w h : nat) (maxDistance : R) : State :=
  for_yx h w (seed contour w h maxDistance)
         (mkState (replicate (w * h) (-1)) []).

(** [calculateDistanceFieldFast(contour, width, height, maxDistance)]. *)
Definition calculateDistanceFieldFast (fuel : nat) (contour : list bool)
    (w h : nat) (maxDistance : R) : option (list R) :=
  propagate contour w h maxDistance fuel 0 (seeded contour w h maxDistance).

End DistanceField.

(** ** The edge processor *)

Module EdgeProcessor.

Import EdgeProfile DistanceField.

Inductive EdgeType := vertical | rounded | chamfered.

Record EdgeProcessorOptions := mkOptions {
  edgeType : EdgeType;
  edgeWidth : R;
  chamferAngle : option R
}.

(** [options.chamferAngle || 45]: a missing or zero angle becomes 45. *)
Definition angleOrDefault (a : option R) : R :=
  match a with
  | Some v => if Req_dec_T v 0 then 45 else v
  | None => 45
  end.

(** [extractSmartContour(imageData)]: [contour[i / 4] = a > 32] for every
    fourth index [i] of the buffer. *)
Definition extractSmartContour (img : ImageData) : list bool :=
  for_step (length (data img)) 4
    (fun i contour =>
       let a := byteAt (data img) (i + 3) in
       <[(i / 4)%nat := (32 <? a)%Z]> contour)
    (replicate (width img * height img) false).

(** The four stores that end both pixel loops. *)
Definition writePixel (buf : list Z) (index : nat) (depth outputAlpha : Z)
    : list Z :=
  storeByte (storeByte (storeByte (storeByte buf index depth)
                                  (index + 1) depth)
                       (index + 2) depth)
            (index + 3) outputAlpha.

(** Body of the loops of the [vertical] branch. *)
Definition verticalPixel (src : ImageData) (y x : nat) (buf : list Z) : list Z :=
  let index := ((y * width src + x) * 4)%nat in
  let originalAlpha := byteAt (data src) (index + 3) in
  if (32 <? originalAlpha)%Z
  then writePixel buf index 255 originalAlpha
  else writePixel buf index 0 0.

(** Body of the loops of the distance-field branch. *)
Definition profilePixel (src : ImageData) (options : EdgeProcessorOptions)
    (distanceField : list R) (y x : nat) (buf : list Z) : list Z :=
  let index := ((y * width src + x) * 4)%nat in
  let distance := numAt distanceField (y * width src + x) in
  let originalAlpha := byteAt (data src) (index + 3) in
  if (32 <? originalAlpha)%Z && Rleb 0 distance then
    let depth :=
      match edgeType options with
      | rounded => calculateRoundedDepth distance (edgeWidth options)
      | chamfered =>
          calculateChamferedDepth distance (edgeWidth options)
                                  (angleOrDefault (chamferAngle options))
      | vertical => 0%Z
      end in
    writePixel buf index depth originalAlpha
  else if (originalAlpha <=? 32)%Z then writePixel buf index 0 0
  else writePixel buf index 0 originalAlpha.

(** [processImageWithEdges(sourceImageData, options)]; the fuel is that of
    the distance field, which the [vertical] branch does not compute. *)
Definition processImageWithEdges (fuel : nat) (src : ImageData)
    (options : EdgeProcessorOptions) : option ImageData :=
  let w := width src in
  let h := height src in
  let result := newImageData w h in
  match edgeType options with
  | vertical =>
      Some (mkImageData w h (for_yx h w (verticalPixel src) (data result)))
  | _ =>
      let contour := extractSmartContour src in
      match calculateDistanceFieldFast fuel contour w h (edgeWidth options) with
      | None => None
      | Some distanceField =>
          Some (mkImageData w h
                  (for_yx h w (profilePixel src options distanceField)
                          (data result)))
      end
  end.

End EdgeProcessor.

(** ** The edge smoother *)

Module EdgeSmoother.

(** [getPixelValue(x, y)]: the R channel, and 0 off the raster. *)
Definition getPixelValue (img : ImageData) (x y : Z) : Z :=
  if (x <? 0)%Z || (x >=? Z.of_nat (width img))%Z
     || (y <? 0)%Z || (y >=? Z.of_nat (height img))%Z
  then 0%Z
  else byteAt (data img) (Z.to_nat ((y * Z.of_nat (width img) + x) * 4)).

(** The array [neighbors] of [isEdgePixel]. *)
Definition neighbours (img : ImageData) (x y : Z) : list Z :=
  [ getPixelValue img (x - 1) (y - 1); getPixelValue img x (y - 1);
    getPixelValue img (x + 1) (y - 1);
    getPixelValue img (x - 1) y; getPixelValue img (x + 1) y;
    getPixelValue img (x - 1) (y + 1); getPixelValue img x (y + 1);
    getPixelValue img (x + 1) (y + 1) ]%Z.

(** [isEdgePixel(x, y)], with [threshold = 8]. *)
Definition isEdgePixel (img : ImageData) (x y : Z) : bool :=
  let centerValue := getPixelValue img x y in
  let threshold := 8%Z in
  existsb (fun neighbor => (threshold <? Z.abs (centerValue - neighbor))%Z)
          (neighbours img x y).

(** The kernel chosen by the smoothing strength. *)
Definition kernelSize (smoothingStrength : R) : nat :=
  if Rleb smoothingStrength (3 / 10) then 1%nat
  else if Rleb smoothingStrength (7 / 10) then 2%nat
  else 3%nat.

Definition weights (smoothingStrength : R) : list (list Z) :=
  if Rleb smoothingStrength (3 / 10) then
    [ [1; 2; 1];
      [2; 4; 2];
      [1; 2; 1] ]%Z
  else if Rleb smoothingStrength (7 / 10) then
    [ [1; 2; 3; 2; 1];
      [2; 4; 6; 4; 2];
      [3; 6; 9; 6; 3];
      [2; 4; 6; 4; 2];
      [1; 2; 3; 2; 1] ]%Z
  else
    [ [1; 2; 3; 4; 3; 2; 1];
      [2; 4; 6; 8; 6; 4; 2];
      [3; 6; 9; 12; 9; 6; 3];
      [4; 8; 12; 16; 12; 8; 4];
      [3; 6; 9; 12; 9; 6; 3];
      [2; 4; 6; 8; 6; 4; 2];
      [1; 2; 3; 4; 3; 2; 1] ]%Z.

Definition weightAt (ws : list (list Z)) (row col : Z) : Z :=
  default 0%Z (default [] (ws !! Z.to_nat row) !! Z.to_nat col).

(** [getSmoothValue(x, y)]; the two sums are sums of integers. *)
Definition getSmoothValue (img : ImageData) (smoothingStrength : R)
    (x y : Z) : R :=
  let centerValue := getPixelValue img x y in
  let kernel := Z.of_nat (kernelSize smoothingStrength) in
  let sums :=
    fold_left (fun acc dy =>
      fold_left (fun (acc : Z * Z) dx =>
        let nx := (x + dx)%Z in
        let ny := (y + dy)%Z in
        let weight := weightAt (weights smoothingStrength)
                               (dy + kernel) (dx + kernel) in
        let value := getPixelValue img nx ny in
        let similarityThreshold := 30 + smoothingStrength * 70 in
        if Rltb (IZR (Z.abs (value - centerValue))) similarityThreshold
        then (fst acc + value * weight, snd acc + weight)%Z
        else acc)
        (symRange (kernelSize smoothingStrength)) acc)
      (symRange (kernelSize smoothingStrength)) (0%Z, 0%Z) in
  let weightedSum := fst sums in
  let totalWeight := snd sums in
  if (0 <? totalWeight)%Z then IZR weightedSum / IZR totalWeight
  else IZR centerValue.

(** [Math.round]. *)
Definition round (v : R) : Z := Zfloor (v + 1 / 2).

(** Body of the pixel loops of one iteration; [tempData] is the copy of
    [result.data] taken when the iteration starts.  [Math.pow(s, 0.5)] is
    [sqrt s]: an iteration runs only for a positive strength. *)
Definition smoothPixel (img : ImageData) (smoothingStrength : R)
    (tempData : list Z) (y x : nat) (buf : list Z) : list Z :=
  if isEdgePixel img (Z.of_nat x) (Z.of_nat y) then
    let smoothValue :=
      getSmoothValue img smoothingStrength (Z.of_nat x) (Z.of_nat y) in
    let index := ((y * width img + x) * 4)%nat in
    let originalValue := byteAt tempData index in
    let enhancedStrength := sqrt smoothingStrength in
    let finalValue := IZR originalValue * (1 - enhancedStrength)
                      + smoothValue * enhancedStrength in
    storeByte (storeByte (storeByte (storeByte buf index (round finalValue))
                                    (index + 1) (round finalValue))
                         (index + 2) (round finalValue))
              (index + 3) (byteAt tempData (index + 3))
  else buf.

Definition iteration (img : ImageData) (smoothingStrength : R)
    (buf : list Z) : list Z :=
  let tempData := buf in
  for_yx (height img) (width img) (smoothPixel img smoothingStrength tempData)
         buf.

(** [result.data.set(data)]. *)
Definition setAll (buf src : list Z) : list Z := src ++ drop (length src) buf.

(** [intelligentEdgeSmoothing(imageData, smoothingStrength)]. *)
Definition intelligentEdgeSmoothing (img : ImageData) (smoothingStrength : R)
    : ImageData :=
  let result := newImageData (width img) (height img) in
  let iterationCount := Zceil (smoothingStrength * 4) in
  mkImageData (width img) (height img)
    (for_range (Z.to_nat iterationCount)
               (fun _ buf => iteration img smoothingStrength buf)
               (setAll (data result) (data img))).

End EdgeSmoother.

(** ** The height-field mesh *)

Module MeshBuilder.

Inductive Quality := low | medium | high | ultra.

(** [qualitySettings[quality].step]. *)
Definition step (quality : Quality) : nat :=
  match quality with
  | low => 8 | medium => 4 | high => 2 | ultra => 1
  end%nat.

(** The arrays handed to the buffer geometry. *)
Record Geometry := mkGeometry {
  vertices : list R;
  colors : list R;
  normals : list R;
  faces : list nat
}.

(** [Math.ceil(size / step)]. *)
Definition gridSize (size stepSize : nat) : nat :=
  Z.to_nat (Zceil (INR size / INR stepSize)).

(** [originalWidth || width]. *)
Definition orElse (original : option nat) (current : nat) : nat :=
  match original with
  | Some v => if (v =? 0)%nat then current else v
  | None => current
  end.

Section Build.

Variables (imageData : ImageData) (modelHeight : R) (width height : nat).
Variables (originalWidth originalHeight : option nat) (quality : Quality).

Definition gridWidth : nat := gridSize width (step quality).
Definition gridHeight : nat := gridSize height (step quality).

(** Body of the vertex loops: one vertex, its colour and a provisional
    normal. *)
Definition vertexBody (y x : nat) (g : Geometry) : Geometry :=
  let imgX := Nat.min (x * step quality) (width - 1) in
  let imgY := Nat.min (y * step quality) (height - 1) in
  let pixelIndex := ((imgY * width + imgX) * 4)%nat in
  let r := byteAt (data imageData) pixelIndex in
  let alpha := byteAt (data imageData) (pixelIndex + 3) in
  let depth := if (32 <? alpha)%Z then IZR r / 255 else 0 in
  let physicalWidth := orElse originalWidth width in
  let physicalHeight := orElse originalHeight height in
  let physicalScale := 10 in
  let worldX := (INR x / (INR gridWidth - 1) - 1 / 2) * physicalScale in
  let worldY := ((INR gridHeight - 1 - INR y) / (INR gridHeight - 1) - 1 / 2)
                * physicalScale * (INR physicalHeight / INR physicalWidth) in
  let worldZ := depth * modelHeight * (5 / 100) in
  let intensity := 7 / 10 + depth * (3 / 10) in
  mkGeometry (vertices g ++ [worldX; worldY; worldZ])
             (colors g ++ [intensity; intensity * (95 / 100);
                           intensity * (9 / 10)])
             (normals g ++ [0; 0; 1])
             (faces g).

(** Body of the face loops: the two triangles of one quad. *)
Definition faceBody (y x : nat) (g : Geometry) : Geometry :=
  let topLeft := (y * gridWidth + x)%nat in
  let topRight := (y * gridWidth + (x + 1))%nat in
  let bottomLeft := ((y + 1) * gridWidth + x)%nat in
  let bottomRight := ((y + 1) * gridWidth + (x + 1))%nat in
  mkGeometry (vertices g) (colors g) (normals g)
             (faces g ++ [topLeft; bottomLeft; topRight;
                          topRight; bottomLeft; bottomRight]).

(** Body of the loop that adds each face normal to its three vertices. *)
Definition accumulateBody (vs : list R) (fs : list nat) (i : nat)
    (normalArray : list R) : list R :=
  let i1 := (natAt fs i * 3)%nat in
  let i2 := (natAt fs (i + 1) * 3)%nat in
  let i3 := (natAt fs (i + 2) * 3)%nat in
  let v1x := numAt vs i2 - numAt vs i1 in
  let v1y := numAt vs (i2 + 1) - numAt vs (i1 + 1) in
  let v1z := numAt vs (i2 + 2) - numAt vs (i1 + 2) in
  let v2x := numAt vs i3 - numAt vs i1 in
  let v2y := numAt vs (i3 + 1) - numAt vs (i1 + 1) in
  let v2z := numAt vs (i3 + 2) - numAt vs (i1 + 2) in
  let nx := v1y * v2z - v1z * v2y in
  let ny := v1z * v2x - v1x * v2z in
  let nz := v1x * v2y - v1y * v2x in
  let len := sqrt (nx * nx + ny * ny + nz * nz) in
  let nnx := if Rltb 0 len then nx / len else 0 in
  let nny := if Rltb 0 len then ny / len else 0 in
  let nnz := if Rltb 0 len then nz / len else 1 in
  fold_left (fun arr vertexIndex =>
               let idx := (vertexIndex * 3)%nat in
               let arr := <[idx := numAt arr idx + nnx]> arr in
               let arr := <[(idx + 1)%nat := numAt arr (idx + 1) + nny]> arr in
               <[(idx + 2)%nat := numAt arr (idx + 2) + nnz]> arr)
            [natAt fs i; natAt fs (i + 1); natAt fs (i + 2)]
            normalArray.

(** Body of the loop that normalises the accumulated normals. *)
Definition normaliseBody (i : nat) (normalArray : list R) : list R :=
  let len := sqrt (numAt normalArray i * numAt normalArray i
                   + numAt normalArray (i + 1) * numAt normalArray (i + 1)
                   + numAt normalArray (i + 2) * numAt normalArray (i + 2)) in
  if Rltb 0 len then
    let arr := <[i := numAt normalArray i / len]> normalArray in
    let arr := <[(i + 1)%nat := numAt arr (i + 1) / len]> arr in
    <[(i + 2)%nat := numAt arr (i + 2) / len]> arr
  else
    <[(i + 2)%nat := 1]> (<[(i + 1)%nat := 0]> (<[i := 0]> normalArray)).

(** The geometry computed in [PreciseDepthMapModel] once the depth map is
    loaded. *)
Definition buildGeometry : Geometry :=
  let g := mkGeometry [] [] [] [] in
  let g := for_yx gridHeight gridWidth vertexBody g in
  let g := for_yx (gridHeight - 1) (gridWidth - 1) faceBody g in
  let normalArray := replicate (length (normals g)) 0 in
  let normalArray :=
    for_step (length (faces g)) 3 (accumulateBody (vertices g) (faces g))
             normalArray in
  let normalArray := for_step (length normalArray) 3 normaliseBody normalArray in
  mkGeometry (vertices g) (colors g) normalArray (faces g).

End Build.

(** [vertices.length / 3] and [faces.length / 3]. *)
Definition vertexCount (g : Geometry) : nat := (length (vertices g) / 3)%nat.
Definition triangleCount (g : Geometry) : nat := (length (faces g) / 3)%nat.

End MeshBuilder.

(** ** Numbers stored into a byte buffer *)

(** A non-integer number stored into a [Uint8ClampedArray] is rounded to the
    nearest integer, a tie going to the even one, and clamped. *)
Definition roundHalfEven (v : R) : Z :=
  let f := Zfloor v in
  if Rltb (v - IZR f) (1 / 2) then f
  else if Rltb (1 / 2) (v - IZR f) then (f + 1)%Z
  else if Z.even f then f else (f + 1)%Z.

Definition storeNumber (buf : list Z) (i : nat) (v : R) : list Z :=
  <[i := clampZ (roundHalfEven v)]> buf.

(** The values of [for (let v = first; v <= last; v++)]. *)
Definition closedRange (first last : Z) : list Z :=
  map (fun i => (first + Z.of_nat i)%Z) (seq 0 (Z.to_nat (last - first + 1))).

(** ** The first pipeline of [simpleImageProcessor.ts] *)

Module SimplePipeline.

(** [extractSimpleContour(imageData)]: a luminance threshold at 128; the
    alpha is kept. *)
Definition contourBody (src : list Z) (i : nat) (buf : list Z) : list Z :=
  let r := byteAt src i in
  let g := byteAt src (i + 1) in
  let b := byteAt src (i + 2) in
  let a := byteAt src (i + 3) in
  let gray := 299 / 1000 * IZR r + 587 / 1000 * IZR g + 114 / 1000 * IZR b in
  let threshold := 128 in
  let value := if Rltb threshold gray then 255%Z else 0%Z in
  storeByte (storeByte (storeByte (storeByte buf i value) (i + 1) value)
                       (i + 2) value)
            (i + 3) a.

Definition extractSimpleContour (img : ImageData) : ImageData :=
  let result := newImageData (width img) (height img) in
  mkImageData (width img) (height img)
    (for_step (length (data img)) 4 (contourBody (data img)) (data result)).

(** [calculateSimpleDistance(x, y, width, height, data)]: the distance to
    the nearest pixel that is not inside, within an 11 by 11 window and
    capped at 10. *)
Definition calculateSimpleDistance (x y w h : nat) (d : list Z) : R :=
  fold_left (fun minDistance dy =>
    fold_left (fun minDistance dx =>
      let nx := (Z.of_nat x + dx)%Z in
      let ny := (Z.of_nat y + dy)%Z in
      if inRaster w h nx ny then
        let nIndex := (cellIndex w nx ny * 4)%nat in
        let nIsInside := (128 <? byteAt d nIndex)%Z in
        if negb nIsInside then
          let distance := sqrt (IZR (dx * dx + dy * dy)) in
          Rmin minDistance distance
        else minDistance
      else minDistance)
      (symRange 5) minDistance)
    (symRange 5) 10.

(** Body of the loops of [createSimpleGrayscale]; [edgeType] is [None] for
    a string that names none of the three styles. *)
Definition grayscaleValue (contourData : ImageData)
    (edgeType : option EdgeProcessor.EdgeType) (y x : nat) : R :=
  let index := ((y * width contourData + x) * 4)%nat in
  let isInside := (128 <? byteAt (data contourData) index)%Z in
  if isInside then
    let distanceToEdge :=
      calculateSimpleDistance x y (width contourData) (height contourData)
                              (data contourData) in
    match edgeType with
    | Some EdgeProcessor.vertical => 255
    | Some EdgeProcessor.rounded => Rmin 255 (distanceToEdge * 20)
    | Some EdgeProcessor.chamfered => Rmin 255 (distanceToEdge * 15)
    | None => 255
    end
  else 0.

Definition grayscaleBody (contourData : ImageData)
    (edgeType : option EdgeProcessor.EdgeType) (y x : nat) (buf : list Z)
    : list Z :=
  let index := ((y * width contourData + x) * 4)%nat in
  let value := grayscaleValue contourData edgeType y x in
  storeByte (storeNumber (storeNumber (storeNumber buf index value)
                                      (index + 1) value)
                         (index + 2) value)
            (index + 3) 255.

(** [createSimpleGrayscale(contourData, edgeType)]. *)
Definition createSimpleGrayscale (contourData : ImageData)
    (edgeType : option EdgeProcessor.EdgeType) : ImageData :=
  let result := newImageData (width contourData) (height contourData) in
  mkImageData (width contourData) (height contourData)
    (for_yx (height contourData) (width contourData)
            (grayscaleBody contourData edgeType) (data result)).

End SimplePipeline.

(** ** Resampling and the optimised pipeline *)

Module Resampler.

(** [estimateDepthMapDPI(imageData)]. *)
Definition estimateDepthMapDPI (img : ImageData) : R :=
  let totalPixels := Z.of_nat (width img * height img) in
  if (totalPixels <? 100000)%Z then 72
  else if (totalPixels <? 400000)%Z then 150
  else if (totalPixels <? 1000000)%Z then 200
  else 300.

(** [getPixel(x, y, channel)] of both resamplers: the coordinates are
    floored and clamped to the raster. *)
Definition getPixel (img : ImageData) (x y : R) (channel : nat) : Z :=
  let clampedX := Z.max 0 (Z.min (Z.of_nat (width img) - 1) (Zfloor x)) in
  let clampedY := Z.max 0 (Z.min (Z.of_nat (height img) - 1) (Zfloor y)) in
  let index := (Z.to_nat ((clampedY * Z.of_nat (width img) + clampedX) * 4)
                + channel)%nat in
  byteAt (data img) index.

(** [isEdgePixel(x, y)] of the upscaler, with [threshold = 10]. *)
Definition isEdgePixel (img : ImageData) (x y : R) : bool :=
  let centerValue := getPixel img x y 0 in
  let threshold := 10%Z in
  existsb (fun o : Z * Z =>
             let neighborValue :=
               getPixel img (x + IZR (fst o)) (y + IZR (snd o)) 0 in
             (threshold <? Z.abs (centerValue - neighborValue))%Z)
          neighbourOffsets.

(** Body of the pixel loops of the upscaler. *)
Definition upscaleBody (img : ImageData) (scaleFactor : R) (newWidth : nat)
    (y x : nat) (buf : list Z) : list Z :=
  let srcX := INR x / scaleFactor in
  let srcY := INR y / scaleFactor in
  let resultIndex := ((y * newWidth + x) * 4)%nat in
  let isNearEdge := isEdgePixel img srcX srcY in
  if isNearEdge then
    let nearestX := EdgeSmoother.round srcX in
    let nearestY := EdgeSmoother.round srcY in
    for_range 4
      (fun channel buf =>
         storeByte buf (resultIndex + channel)
                   (getPixel img (IZR nearestX) (IZR nearestY) channel))
      buf
  else
    let x1 := Zfloor srcX in
    let y1 := Zfloor srcY in
    let x2 := Z.min (x1 + 1) (Z.of_nat (width img) - 1) in
    let y2 := Z.min (y1 + 1) (Z.of_nat (height img) - 1) in
    let fx := srcX - IZR x1 in
    let fy := srcY - IZR y1 in
    for_range 4
      (fun channel buf =>
         let v11 := getPixel img (IZR x1) (IZR y1) channel in
         let v12 := getPixel img (IZR x1) (IZR y2) channel in
         let v21 := getPixel img (IZR x2) (IZR y1) channel in
         let v22 := getPixel img (IZR x2) (IZR y2) channel in
         let v1 := IZR v11 * (1 - fx) + IZR v21 * fx in
         let v2 := IZR v12 * (1 - fx) + IZR v22 * fx in
         let finalValue := v1 * (1 - fy) + v2 * fy in
         storeByte buf (resultIndex + channel) (EdgeSmoother.round finalValue))
      buf.

(** [edgePreservingUpscale(imageData, scaleFactor)].  The new dimensions are
    those of [new ImageData], which takes no negative size. *)
Definition edgePreservingUpscale (img : ImageData) (scaleFactor : R)
    : ImageData :=
  let newWidth :=
    Z.to_nat (EdgeSmoother.round (INR (width img) * scaleFactor)) in
  let newHeight :=
    Z.to_nat (EdgeSmoother.round (INR (height img) * scaleFactor)) in
  let result := newImageData newWidth newHeight in
  mkImageData newWidth newHeight
    (for_yx newHeight newWidth (upscaleBody img scaleFactor newWidth)
            (data result)).

(** [getAreaAverage(centerX, centerY, channel)] of the downsampler. *)
Definition getAreaAverage (img : ImageData) (scaleX scaleY : R)
    (centerX centerY : R) (channel : nat) : R :=
  let radius := Rmax scaleX scaleY * (1 / 2) in
  let startX := Z.max 0 (Zfloor (centerX - radius)) in
  let endX := Z.min (Z.of_nat (width img) - 1) (Zceil (centerX + radius)) in
  let startY := Z.max 0 (Zfloor (centerY - radius)) in
  let endY := Z.min (Z.of_nat (height img) - 1) (Zceil (centerY + radius)) in
  let sums :=
    fold_left (fun acc y =>
      fold_left (fun (acc : Z * Z) x =>
        (fst acc + getPixel img (IZR x) (IZR y) channel, snd acc + 1)%Z)
        (closedRange startX endX) acc)
      (closedRange startY endY) (0%Z, 0%Z) in
  let sum := fst sums in
  let count := snd sums in
  if (0 <? count)%Z then IZR sum / IZR count else 0.

(** Body of the pixel loops of the downsampler. *)
Definition downsampleBody (img : ImageData) (targetWidth targetHeight : nat)
    (y x : nat) (buf : list Z) : list Z :=
  let scaleX := INR (width img) / INR targetWidth in
  let scaleY := INR (height img) / INR targetHeight in
  let srcX := (INR x + 1 / 2) * scaleX in
  let srcY := (INR y + 1 / 2) * scaleY in
  let resultIndex := ((y * targetWidth + x) * 4)%nat in
  for_range 4
    (fun channel buf =>
       let value := getAreaAverage img scaleX scaleY srcX srcY channel in
       storeByte buf (resultIndex + channel) (EdgeSmoother.round value))
    buf.

(** [highQualityDownsample(imageData, targetWidth, targetHeight)]. *)
Definition highQualityDownsample (img : ImageData)
    (targetWidth targetHeight : nat) : ImageData :=
  let result := newImageData targetWidth targetHeight in
  mkImageData targetWidth targetHeight
    (for_yx targetHeight targetWidth
            (downsampleBody img targetWidth targetHeight) (data result)).

(** [performDPIOptimization(imageData, targetDPI, currentDPI)]. *)
Definition performDPIOptimization (img : ImageData) (targetDPI currentDPI : R)
    : ImageData :=
  let scaleFactor := targetDPI / currentDPI in
  edgePreservingUpscale img scaleFactor.

(** [originalDPI || estimateDepthMapDPI(imageData)]. *)
Definition currentDPIOf (img : ImageData) (originalDPI : option R) : R :=
  match originalDPI with
  | Some v => if Req_dec_T v 0 then estimateDepthMapDPI img else v
  | None => estimateDepthMapDPI img
  end.

(** [optimizeDepthMapDPI(imageData, targetDPI, originalDPI,
    enableEdgeSmoothing, smoothingStrength)]. *)
Definition optimizeDepthMapDPI (img : ImageData) (targetDPI : R)
    (originalDPI : option R) (enableEdgeSmoothing : bool)
    (smoothingStrength : R) : ImageData :=
  let currentDPI := currentDPIOf img originalDPI in
  if enableEdgeSmoothing then
    let smoothedImageData :=
      EdgeSmoother.intelligentEdgeSmoothing img smoothingStrength in
    if Rleb targetDPI currentDPI then smoothedImageData
    else performDPIOptimization smoothedImageData targetDPI currentDPI
  else if Rleb targetDPI currentDPI then img
  else performDPIOptimization img targetDPI currentDPI.

(** [processImageWithEdgesOptimized(sourceImageData, options,
    enableDPIOptimization, targetDPI, enableEdgeSmoothing,
    smoothingStrength)]; the fuel is that of the distance field. *)
Definition processImageWithEdgesOptimized (fuel : nat) (src : ImageData)
    (options : EdgeProcessor.EdgeProcessorOptions)
    (enableDPIOptimization : bool) (targetDPI : R)
    (enableEdgeSmoothing : bool) (smoothingStrength : R) : option ImageData :=
  match EdgeProcessor.processImageWithEdges fuel src options with
  | None => None
  | Some processedImageData =>
      if enableDPIOptimization then
        Some (optimizeDepthMapDPI processedImageData targetDPI None
                                  enableEdgeSmoothing smoothingStrength)
      else if enableEdgeSmoothing then
        Some (EdgeSmoother.intelligentEdgeSmoothing processedImageData
                                                    smoothingStrength)
      else Some processedImageData
  end.

End Resampler.

(** ** The edge profiles in floating point *)

(** The two profile functions once more, with the rounding of the number
    format written out.  The result of every arithmetic operation and of
    [Math.sqrt] is the exact result rounded to a number by [rnd];
    [Math.PI] is [rnd PI]; [Math.tan] is the function [mathTan].
    Comparisons, [Math.floor], [Math.max] and [Math.min] are exact.
    [EdgeProfile] is the instance in which nothing is rounded. *)
Module FloatProfile.

Section Arithmetic.

Variable rnd : R -> R.
Variable mathTan : R -> R.

(** [calculateRoundedDepth(distance, edgeWidth)]. *)
Definition calculateRoundedDepth (distance edgeWidth : R) : Z :=
  if Rleb edgeWidth distance then 255%Z
  else
    let t := rnd (distance / edgeWidth) in
    let circularT :=
      rnd (sqrt (rnd (1 - rnd (rnd (1 - t) * rnd (1 - t))))) in
    let depth := Zfloor (rnd (circularT * 255)) in
    clampZ depth.

(** [calculateChamferedDepth(distance, edgeWidth, angle)]. *)
Definition calculateChamferedDepth (distance edgeWidth angle : R) : Z :=
  if Rleb edgeWidth distance then 255%Z
  else
    let angleRad := rnd (rnd (angle * rnd PI) / 180) in
    let maxHeight := rnd (edgeWidth * mathTan angleRad) in
    let currentHeight := rnd (distance * mathTan angleRad) in
    let normalizedHeight :=
      if Rltb edgeWidth maxHeight
      then rnd (rnd (currentHeight / maxHeight) * 255)
      else rnd (rnd (currentHeight / edgeWidth) * 255) in
    Zfloor (Rmax 0 (Rmin 255 normalizedHeight)).

End Arithmetic.

End FloatProfile.

(** ** Binary64 arithmetic *)

(** The rounding of binary64 arithmetic to nearest, ties to even, as a
    function on the reals: 53 significant bits, gradual underflow with the
    least unit [2^-1074], and no overflow (the exponent is not bounded
    above: a result beyond the largest number is rounded like any other
    instead of becoming an infinity). *)
Module Binary64.

(** The exponent [e] of the binade [2^e <= x < 2^(e+1)] of a positive [x]. *)
Definition floorLog2 (x : R) : Z := Zfloor (ln x / ln 2).

(** The exponent of the unit in the last place of a positive [x]. *)
Definition ulpExponent (x : R) : Z := Z.max (-1074) (floorLog2 x - 52).

(** The integer nearest to [m], the even one of two at the same distance. *)
Definition nearestEven (m : R) : Z :=
  let f := Zfloor m in
  if Rltb (m - IZR f) (1 / 2) then f
  else if Rltb (1 / 2) (m - IZR f) then (f + 1)%Z
  else if Z.even f then f else (f + 1)%Z.

(** A positive [x], rounded to a multiple of its unit in the last place. *)
Definition roundPositive (x : R) : R :=
  let ulp := powerRZ 2 (ulpExponent x) in
  IZR (nearestEven (x / ulp)) * ulp.

Definition round (x : R) : R :=
  if Rltb 0 x then roundPositive x
  else if Rltb x 0 then - roundPositive (- x)
  else 0.

(** [Math.tan], taken to be the tangent rounded correctly.  (The standard
    leaves its accuracy to the implementation; the common ones are within
    one unit in the last place.) *)
Definition mathTan (x : R) : R := round (tan x).

(** The two profile functions in binary64 arithmetic. *)
Definition calculateRoundedDepth : R -> R -> Z :=
  FloatProfile.calculateRoundedDepth round.

Definition calculateChamferedDepth : R -> R -> R -> Z :=
  FloatProfile.calculateChamferedDepth round mathTan.

End Binary64.

(** ** Notions of the specification *)

(** The square of the quarter circle's height at the normalised distance
    [t]: the rounded profile is [255 * sqrt (arc t)]. *)
Definition arc (t : R) : R := 1 - (1 - t) * (1 - t).

(** [clamp(v, 0, 1)]. *)
Definition clamp01 (v : R) : R := Rmax 0 (Rmin 1 v).

(** Degrees to radians. *)
Definition radians (angle : R) : R := (angle * PI) / 180.

(** What the [vertical] branch writes at a pixel: its depth and its alpha. *)
Definition verticalDepth (src : ImageData) (y x : nat) : Z :=
  if (32 <? alphaAt src x y)%Z then 255%Z else 0%Z.

Definition keptAlpha (src : ImageData) (y x : nat) : Z :=
  if (32 <? alphaAt src x y)%Z then alphaAt src x y else 0%Z.

(** ** Measuring the propagation loop *)

(** Every distance the loop computes is [a + b * sqrt 2] for natural [a],
    [b]; below a cap there are finitely many of them. *)
Definition latticeValue (ab : nat * nat) : R :=
  INR (fst ab) + INR (snd ab) * sqrt 2.

Definition isLattice (r : R) : Prop := exists ab, r = latticeValue ab.

Definition grid (M : nat) : list (nat * nat) :=
  list_prod (seq 0 (S M)) (seq 0 (S M)).

Fixpoint countBelow (r : R) (l : list (nat * nat)) : nat :=
  match l with
  | [] => 0%nat
  | ab :: t => ((if Rltb (latticeValue ab) r then 1 else 0) + countBelow r t)%nat
  end.

(** How many improvements the array of distances still admits. *)
Definition potential (M : nat) (dists : list R) : nat :=
  fold_right (fun r acc => (countBelow r (grid M) + acc)%nat) 0%nat dists.

Definition measure (M queueIndex : nat) (st : DistanceField.State) : nat :=
  (length (DistanceField.queue st) - queueIndex
   + potential M (DistanceField.distances st))%nat.

(** The shape of the state that termination rests on. *)
Definition shaped (w h : nat) (st : DistanceField.State) : Prop :=
  length (DistanceField.distances st) = (w * h)%nat /\
  Forall (fun e => isLattice (DistanceField.qdist e)) (DistanceField.queue st).

(** What the distance-field branch writes at a pixel, for the distance field
    [df]. *)
Definition profileDepth (src : ImageData)
    (options : EdgeProcessor.EdgeProcessorOptions) (df : list R)
    (y x : nat) : Z :=
  let distance := numAt df (y * width src + x) in
  if (32 <? alphaAt src x y)%Z && Rleb 0 distance then
    match EdgeProcessor.edgeType options with
    | EdgeProcessor.rounded =>
        EdgeProfile.calculateRoundedDepth distance
          (EdgeProcessor.edgeWidth options)
    | EdgeProcessor.chamfered =>
        EdgeProfile.calculateChamferedDepth distance
          (EdgeProcessor.edgeWidth options)
          (EdgeProcessor.angleOrDefault (EdgeProcessor.chamferAngle options))
    | EdgeProcessor.vertical => 0%Z
    end
  else 0%Z.

(** The parameters the specification wants rejected. *)
Definition invalidParameters (options : EdgeProcessor.EdgeProcessorOptions)
    : Prop :=
  EdgeProcessor.edgeWidth options <= 0 \/
  (EdgeProcessor.edgeType options = EdgeProcessor.chamfered /\
   exists a, EdgeProcessor.chamferAngle options = Some a /\ ~ (0 < a < 90)).

(** A call that produces no raster, whatever the fuel.  The source has no
    [throw] on this path, so this is the only way the embedding can fail. *)
Definition rejects (src : ImageData)
    (options : EdgeProcessor.EdgeProcessorOptions) : Prop :=
  forall fuel, EdgeProcessor.processImageWithEdges fuel src options = None.

(** A one-pixel raster. *)
Definition onePixel (r g b a : Z) : ImageData := mkImageData 1 1 [r; g; b; a].

(** ** The two loops of the mesh builder *)

Section MeshLoops.

Variables (imageData : ImageData) (modelHeight : R) (width height : nat).
Variables (originalWidth originalHeight : option nat).
Variable quality : MeshBuilder.Quality.

(** The geometry after the vertex loops. *)
Definition vertexLoop : MeshBuilder.Geometry :=
  for_yx (MeshBuilder.gridHeight height quality)
         (MeshBuilder.gridWidth width quality)
         (MeshBuilder.vertexBody imageData modelHeight width height
                                 originalWidth originalHeight quality)
         (MeshBuilder.mkGeometry [] [] [] []).

(** The geometry after the face loops. *)
Definition faceLoop : MeshBuilder.Geometry :=
  for_yx (MeshBuilder.gridHeight height quality - 1)
         (MeshBuilder.gridWidth width quality - 1)
         (MeshBuilder.faceBody width quality) vertexLoop.

End MeshLoops.

(** ** Near-edge pixels *)

(** A pixel is near an edge when the depth at one of its 8 neighbour
    positions differs from its own by more than 8; as in the smoother, the
    depth is the R channel, and a position off the raster has depth 0. *)
Definition nearEdge (img : ImageData) (x y : nat) : Prop :=
  exists dx dy : Z,
    (-1 <= dx <= 1)%Z /\ (-1 <= dy <= 1)%Z /\ (dx, dy) <> (0, 0)%Z /\
    (8 < Z.abs (EdgeSmoother.getPixelValue img (Z.of_nat x) (Z.of_nat y)
                - EdgeSmoother.getPixelValue img (Z.of_nat x + dx)
                                             (Z.of_nat y + dy)))%Z.

(** The same with the neighbours read literally: one of the neighbouring
    pixels, which are on the raster, has a depth that differs by more than
    8. *)
Definition nearEdgeOnRaster (img : ImageData) (x y : nat) : Prop :=
  exists dx dy : Z,
    (-1 <= dx <= 1)%Z /\ (-1 <= dy <= 1)%Z /\ (dx, dy) <> (0, 0)%Z /\
    inRaster (width img) (height img) (Z.of_nat x + dx) (Z.of_nat y + dy)
    = true /\
    (8 < Z.abs (EdgeSmoother.getPixelValue img (Z.of_nat x) (Z.of_nat y)
                - EdgeSmoother.getPixelValue img (Z.of_nat x + dx)
                                             (Z.of_nat y + dy)))%Z.

(** What the smoother may change: the alpha of every pixel, and all four
    channels of a pixel that is not near an edge, are those of [img]. *)
Definition framed (img : ImageData) (buf : list Z) : Prop :=
  length buf = length (data img) /\
  forall x y, (x < width img)%nat -> (y < height img)%nat ->
    let i := ((y * width img + x) * 4)%nat in
    byteAt buf (i + 3) = byteAt (data img) (i + 3) /\
    (EdgeSmoother.isEdgePixel img (Z.of_nat x) (Z.of_nat y) = false ->
     byteAt buf i = byteAt (data img) i /\
     byteAt buf (i + 1) = byteAt (data img) (i + 1) /\
     byteAt buf (i + 2) = byteAt (data img) (i + 2)).

(** ** Lattice paths and the clamped shortest distance *)

Section LatticePaths.

Variables (contour : list bool) (w h : nat).

(** The index of the lattice point [p = (x, y)]. *)
Definition cell (p : Z * Z) : nat := cellIndex w (fst p) (snd p).

(** An inside pixel: on the raster, and true in the mask. *)
Definition inside (p : Z * Z) : Prop :=
  inRaster w h (fst p) (snd p) = true /\ flagAt contour (cell p) = true.

(** 8-connectivity. *)
Definition adjacent8 (p q : Z * Z) : Prop :=
  p <> q /\ (Z.abs (fst q - fst p) <= 1)%Z /\ (Z.abs (snd q - snd p) <= 1)%Z.

Definition onBoundary (p : Z * Z) : Prop :=
  fst p = 0%Z \/ fst p = (Z.of_nat w - 1)%Z \/
  snd p = 0%Z \/ snd p = (Z.of_nat h - 1)%Z.

(** An edge pixel: an inside pixel on the boundary of the raster, or with a
    mask-false pixel among its 8 neighbours. *)
Definition edgePixel (p : Z * Z) : Prop :=
  inside p /\
  (onBoundary p \/
   exists q, adjacent8 p q /\ inRaster w h (fst q) (snd q) = true /\
             flagAt contour (cell q) = false).

(** An orthogonal step costs 1, a diagonal step [sqrt 2]. *)
Definition stepCost (p q : Z * Z) : R :=
  if ((fst p =? fst q) || (snd p =? snd q))%Z then 1 else sqrt 2.

(** The path [p :: rest]: its length, and that each step goes to one of the
    8 neighbours. *)
Fixpoint pathLength (p : Z * Z) (rest : list (Z * Z)) : R :=
  match rest with
  | [] => 0
  | q :: r => stepCost p q + pathLength q r
  end.

Fixpoint latticePath (p : Z * Z) (rest : list (Z * Z)) : Prop :=
  match rest with
  | [] => True
  | q :: r => adjacent8 p q /\ latticePath q r
  end.

(** [p :: rest] is a lattice path from [p] to an edge pixel. *)
Definition pathToEdge (p : Z * Z) (rest : list (Z * Z)) : Prop :=
  latticePath p rest /\ edgePixel (List.last rest p).

(** [d] is the length of the shortest lattice path from [p] to an edge
    pixel, clamped to [[0, maxDistance]]. *)
Definition clampedShortest (maxDistance : R) (p : Z * Z) (d : R) : Prop :=
  0 <= d <= maxDistance /\
  (forall rest, pathToEdge p rest -> d <= pathLength p rest) /\
  (d = maxDistance \/ exists rest, pathToEdge p rest /\ d = pathLength p rest).

(** *** The invariant of the propagation *)

Definition valueAt (dists : list R) (p : Z * Z) : R := numAt dists (cell p).

Definition entryPixel (e : DistanceField.QueueEntry) : Z * Z :=
  (Z.of_nat (DistanceField.qx e), Z.of_nat (DistanceField.qy e)).

(** No neighbour of [p] can be improved from [p]. *)
Definition settled (dists : list R) (p : Z * Z) : Prop :=
  forall q, adjacent8 p q -> inside q ->
    valueAt dists q <= valueAt dists p + stepCost p q.

(** [p] waits in the queue, at or after [queueIndex], with its current
    distance. *)
Definition pending (queueIndex : nat) (st : DistanceField.State)
    (p : Z * Z) : Prop :=
  exists k e, (queueIndex <= k)%nat /\
    DistanceField.queue st !! k = Some e /\ entryPixel e = p /\
    DistanceField.qdist e = valueAt (DistanceField.distances st) p.

(** Every distance in the state is witnessed by a path, or is the cap. *)
Definition sound (maxDistance : R) (st : DistanceField.State) : Prop :=
  shaped w h st /\
  (forall p, inRaster w h (fst p) (snd p) = true ->
     flagAt contour (cell p) = false ->
     valueAt (DistanceField.distances st) p = -1) /\
  (forall p, inside p ->
     0 <= valueAt (DistanceField.distances st) p <= maxDistance /\
     (edgePixel p -> valueAt (DistanceField.distances st) p = 0) /\
     (valueAt (DistanceField.distances st) p = maxDistance \/
      exists rest, pathToEdge p rest /\
        valueAt (DistanceField.distances st) p = pathLength p rest)) /\
  (forall e, In e (DistanceField.queue st) ->
     inside (entryPixel e) /\
     exists rest, pathToEdge (entryPixel e) rest /\
       DistanceField.qdist e = pathLength (entryPixel e) rest).

(** Every inside pixel is settled or still waits in the queue. *)
Definition complete (queueIndex : nat) (st : DistanceField.State) : Prop :=
  forall p, inside p ->
    pending queueIndex st p \/ settled (DistanceField.distances st) p.

(** The same in the middle of a visit of the entry [e] at [queueIndex],
    after the offsets [done]. *)
Definition visiting (queueIndex : nat) (e : DistanceField.QueueEntry)
    (done : list (Z * Z)) (st : DistanceField.State) : Prop :=
  (forall p, inside p ->
     pending (S queueIndex) st p \/ settled (DistanceField.distances st) p \/
     (p = entryPixel e /\
      valueAt (DistanceField.distances st) p = DistanceField.qdist e)) /\
  (forall o, In o done ->
     let q := (fst (entryPixel e) + fst o, snd (entryPixel e) + snd o)%Z in
     inside q ->
     valueAt (DistanceField.distances st) q
     <= DistanceField.qdist e + sqrt (IZR (fst o * fst o + snd o * snd o))).

(** The value the first pair of loops leaves at the pixel [(x, y)]. *)
Definition seedValue (maxDistance : R) (x y : nat) : R :=
  if flagAt contour (y * w + x) then
    if DistanceField.isEdge contour w h x y then 0 else maxDistance
  else -1.

End LatticePaths.

(** ** Sample inputs *)

(** A fully opaque 3 by 3 mask. *)
Definition mask3x3 : list bool := replicate 9 true.

(** A 2 by 1 raster with the depths 100 and 105. *)
Definition twoPixels : ImageData :=
  mkImageData 2 1 [100; 100; 100; 255; 105; 105; 105; 255]%Z.

(** An opaque 3 by 3 raster of the one depth 100. *)
Definition grey3x3 : ImageData :=
  mkImageData 3 3 (concat (replicate 9 [100; 100; 100; 255]%Z)).

(** ** Notions used by the further properties *)

(** The pixel is grey: its R, G and B channels agree. *)
Definition greyAt (img : ImageData) (x y : nat) : Prop :=
  let i := ((y * width img + x) * 4)%nat in
  byteAt (data img) (i + 1) = byteAt (data img) i /\
  byteAt (data img) (i + 2) = byteAt (data img) i.

(** The depth (R channel) of a pixel. *)
Definition depthAt (img : ImageData) (x y : nat) : Z :=
  byteAt (data img) ((y * width img + x) * 4).

(** What the upscaler stores in channel [channel] of the pixel [(x, y)] of
    its result. *)
Definition upscaleValue (img : ImageData) (scaleFactor : R) (y x : nat)
    (channel : nat) : Z :=
  let srcX := INR x / scaleFactor in
  let srcY := INR y / scaleFactor in
  if Resampler.isEdgePixel img srcX srcY then
    Resampler.getPixel img (IZR (EdgeSmoother.round srcX))
                       (IZR (EdgeSmoother.round srcY)) channel
  else
    let x1 := Zfloor srcX in
    let y1 := Zfloor srcY in
    let x2 := Z.min (x1 + 1) (Z.of_nat (width img) - 1) in
    let y2 := Z.min (y1 + 1) (Z.of_nat (height img) - 1) in
    let fx := srcX - IZR x1 in
    let fy := srcY - IZR y1 in
    let v11 := Resampler.getPixel img (IZR x1) (IZR y1) channel in
    let v12 := Resampler.getPixel img (IZR x1) (IZR y2) channel in
    let v21 := Resampler.getPixel img (IZR x2) (IZR y1) channel in
    let v22 := Resampler.getPixel img (IZR x2) (IZR y2) channel in
    let v1 := IZR v11 * (1 - fx) + IZR v21 * fx in
    let v2 := IZR v12 * (1 - fx) + IZR v22 * fx in
    EdgeSmoother.round (v1 * (1 - fy) + v2 * fy).

(** What the downsampler stores. *)
Definition downsampleValue (img : ImageData) (targetWidth targetHeight : nat)
    (y x : nat) (channel : nat) : Z :=
  let scaleX := INR (width img) / INR targetWidth in
  let scaleY := INR (height img) / INR targetHeight in
  EdgeSmoother.round
    (Resampler.getAreaAverage img scaleX scaleY
       ((INR x + 1 / 2) * scaleX) ((INR y + 1 / 2) * scaleY) channel).

(** Every pixel of the raster has the colour [(r, g, b, a)]. *)
Definition uniform (img : ImageData) (colour : Z * Z * Z * Z) : Prop :=
  forall x y, (x < width img)%nat -> (y < height img)%nat ->
    pixelAt img x y = colour.

(** The channel [channel] of a colour. *)
Definition channelOf (colour : Z * Z * Z * Z) (channel : nat) : Z :=
  match channel with
  | 0%nat => fst (fst (fst colour))
  | 1%nat => snd (fst (fst colour))
  | 2%nat => snd (fst colour)
  | _ => snd colour
  end.

(** The luminance of a pixel and the mask the first pipeline thresholds it
    into. *)
Definition luminance (img : ImageData) (x y : nat) : R :=
  let '(r, g, b, _) := pixelAt img x y in
  299 / 1000 * IZR r + 587 / 1000 * IZR g + 114 / 1000 * IZR b.

Definition luminanceMask (img : ImageData) (x y : nat) : Z :=
  if Rltb 128 (luminance img x y) then 255%Z else 0%Z.

(** ** The vertices of the mesh *)

Section MeshVertices.

Variables (imageData : ImageData) (modelHeight : R) (w h : nat).
Variables (originalWidth originalHeight : option nat).
Variable quality : MeshBuilder.Quality.

(** The depth sampled for the vertex in column [x] of row [y] of the grid:
    [depth] in the vertex loops. *)
Definition vertexDepth (y x : nat) : R :=
  let imgX := Nat.min (x * MeshBuilder.step quality) (w - 1) in
  let imgY := Nat.min (y * MeshBuilder.step quality) (h - 1) in
  let pixelIndex := ((imgY * w + imgX) * 4)%nat in
  let r := byteAt (data imageData) pixelIndex in
  let alpha := byteAt (data imageData) (pixelIndex + 3) in
  if (32 <? alpha)%Z then IZR r / 255 else 0.

(** [worldX], [worldY] and [worldZ] of that vertex. *)
Definition worldX (x : nat) : R :=
  (INR x / (INR (MeshBuilder.gridWidth w quality) - 1) - 1 / 2) * 10.

Definition worldY (y : nat) : R :=
  ((INR (MeshBuilder.gridHeight h quality) - 1 - INR y)
   / (INR (MeshBuilder.gridHeight h quality) - 1) - 1 / 2)
  * 10
  * (INR (MeshBuilder.orElse originalHeight h)
     / INR (MeshBuilder.orElse originalWidth w)).

Definition worldZ (y x : nat) : R := vertexDepth y x * modelHeight * (5 / 100).

(** The three numbers stored for vertex [k] in an array of triples. *)
Definition tripleAt (arr : list R) (k : nat) : R * R * R :=
  (numAt arr (3 * k), numAt arr (3 * k + 1), numAt arr (3 * k + 2)).

(** The three vertex indices of triangle [t]. *)
Definition triangleAt (fs : list nat) (t : nat) : nat * nat * nat :=
  (natAt fs (3 * t), natAt fs (3 * t + 1), natAt fs (3 * t + 2)).

End MeshVertices.

(** The squared length of a vector. *)
Definition normSquared (v : R * R * R) : R :=
  let '(a, b, c) := v in a * a + b * b + c * c.

(** What the last loop of the mesh builder makes of an accumulated normal:
    the unit vector of its direction, or [(0, 0, 1)] for the null vector. *)
Definition normalised (v : R * R * R) : R * R * R :=
  let '(a, b, c) := v in
  let len := sqrt (a * a + b * b + c * c) in
  if Rltb 0 len then (a / len, b / len, c / len) else (0, 0, 1).

(** The unit normal [(nnx, nny, nnz)] that the accumulation loop computes
    for the triangle whose indices start at position [i] of [fs]. *)
Definition faceNormal (vs : list R) (fs : list nat) (i : nat) : R * R * R :=
  let i1 := (natAt fs i * 3)%nat in
  let i2 := (natAt fs (i + 1) * 3)%nat in
  let i3 := (natAt fs (i + 2) * 3)%nat in
  let v1x := numAt vs i2 - numAt vs i1 in
  let v1y := numAt vs (i2 + 1) - numAt vs (i1 + 1) in
  let v1z := numAt vs (i2 + 2) - numAt vs (i1 + 2) in
  let v2x := numAt vs i3 - numAt vs i1 in
  let v2y := numAt vs (i3 + 1) - numAt vs (i1 + 1) in
  let v2z := numAt vs (i3 + 2) - numAt vs (i1 + 2) in
  let nx := v1y * v2z - v1z * v2y in
  let ny := v1z * v2x - v1x * v2z in
  let nz := v1x * v2y - v1y * v2x in
  let len := sqrt (nx * nx + ny * ny + nz * nz) in
  (if Rltb 0 len then nx / len else 0,
   if Rltb 0 len then ny / len else 0,
   if Rltb 0 len then nz / len else 1).

(** Adding a normal to the triple of one vertex. *)
Definition addNormal (n : R * R * R) (arr : list R) (vertexIndex : nat)
    : list R :=
  let idx := (vertexIndex * 3)%nat in
  let arr := <[idx := numAt arr idx + fst (fst n)]> arr in
  let arr := <[(idx + 1)%nat := numAt arr (idx + 1) + snd (fst n)]> arr in
  <[(idx + 2)%nat := numAt arr (idx + 2) + snd n]> arr.

(** The vertex [v] is a corner of triangle [t]. *)
Definition cornerOf (fs : list nat) (t v : nat) : Prop :=
  v = natAt fs (3 * t) \/ v = natAt fs (3 * t + 1) \/ v = natAt fs (3 * t + 2).

(** The components of an equation between triples. *)
Ltac components H Ea Eb Ec :=
  pose proof (f_equal (fun p => fst (fst p)) H) as Ea;
  pose proof (f_equal (fun p => snd (fst p)) H) as Eb;
  pose proof (f_equal snd H) as Ec;
  unfold triangleAt, tripleAt in Ea, Eb, Ec;
  cbn beta in Ea, Eb, Ec; cbn [fst snd] in Ea, Eb, Ec.

(** ** What is assumed of the floating-point arithmetic *)

(** The relative error allowed to one operation, and the magnitude down to
    which it is relative.  Binary64 arithmetic rounded to nearest is far
    inside both: its relative error is [2^-53], and its absolute error on
    the results too small for that is [2^-1075]. *)
Definition tolerance : R := 1 / 1000000000.
Definition tiny : R := / 2 ^ 900.

(** A rounding function: monotone, exact at 0 and at 1, and within the
    tolerance of the exact result. *)
Definition roundsFaithfully (rnd : R -> R) : Prop :=
  (forall x y, x <= y -> rnd x <= rnd y) /\
  rnd 0 = 0 /\ rnd 1 = 1 /\
  (forall x, Rabs (rnd x - x) <= tolerance * (tiny + Rabs x)).

(** A tangent function for it: not negative and within the tolerance of
    the tangent on [[0, pi/2)], which the radians computed for an angle
    below 90 degrees do not leave ([Math.PI] is below [pi]). *)
Definition tangentFaithfully (rnd mathTan : R -> R) : Prop :=
  (forall x, 0 <= x < PI / 2 ->
     0 <= mathTan x /\
     Rabs (mathTan x - tan x) <= tolerance * (tiny + tan x)) /\
  (forall angle, 0 < angle < 90 ->
     rnd (rnd (angle * rnd PI) / 180) < PI / 2).

(** Exact arithmetic. *)
Definition unrounded (x : R) : R := x.

(** The number that [calculateRoundedDepth] floors, as a function of the
    ratio [t] it has computed. *)
Definition roundedHeight (rnd : R -> R) (t : R) : R :=
  rnd (rnd (sqrt (rnd (1 - rnd (rnd (1 - t) * rnd (1 - t))))) * 255).

(** Close the side conditions of a rounding of a rational number to
    [n / 2^k], with the rounding lemma [lem]. *)
Ltac dyadic lem k n :=
  apply (lem _ k n);
  [ lia | cbn [pow]; lra | apply Rabs_def1; cbn [pow]; lra ].

Ltac dyadic_tie lem k n :=
  etransitivity;
  [ apply (lem _ k n); [ lia | cbn [pow]; lra | cbn [pow]; lra ]
  | reflexivity ].

(** * Lemmas and theorems *)

(** ** Comparisons and clamping *)

Lemma Rltb_true a b : Rltb a b = true <-> a < b.
Proof. unfold Rltb. destruct (Rlt_dec a b); split; intros; try easy. Qed.

Lemma Rltb_false a b : Rltb a b = false <-> b <= a.
Proof. unfold Rltb. destruct (Rlt_dec a b); split; intros; try easy; lra. Qed.

Lemma Rleb_true a b : Rleb a b = true <-> a <= b.
Proof. unfold Rleb. destruct (Rle_dec a b); split; intros; try easy. Qed.

Lemma Rleb_false a b : Rleb a b = false <-> b < a.
Proof. unfold Rleb. destruct (Rle_dec a b); split; intros; try easy; lra. Qed.

Lemma clampZ_id v : (0 <= v <= 255)%Z -> clampZ v = v.
Proof. unfold clampZ. lia. Qed.

Lemma clampZ_range v : (0 <= clampZ v <= 255)%Z.
Proof. unfold clampZ. lia. Qed.

(** ** The rounded profile *)

Section RoundedProfile.

Import EdgeProfile.

Lemma arc_range t : 0 <= t < 1 -> 0 <= arc t < 1.
Proof. unfold arc. intros. nra. Qed.

Lemma arc_mono t1 t2 : 0 <= t1 <= t2 -> t2 <= 1 -> arc t1 <= arc t2.
Proof. unfold arc. intros. nra. Qed.

Lemma arc_strict t1 t2 : 0 <= t1 < t2 -> t2 <= 1 -> arc t1 < arc t2.
Proof. unfold arc. intros. nra. Qed.

Lemma sqrt_below_1 u : 0 <= u < 1 -> 0 <= sqrt u < 1.
Proof.
  intros [H0 H1]. split; [apply sqrt_pos|].
  rewrite <- sqrt_1. apply sqrt_lt_1_alt. lra.
Qed.

Lemma ratio_range d W : 0 < W -> 0 <= d < W -> 0 <= d / W < 1.
Proof.
  intros HW [Hd0 HdW].
  assert (Hi : 0 < / W) by now apply Rinv_0_lt_compat.
  assert (H1 : W * / W = 1) by (apply Rinv_r; lra).
  unfold Rdiv. split; nra.
Qed.

Lemma ratio_mono d1 d2 W : 0 < W -> d1 <= d2 -> d1 / W <= d2 / W.
Proof.
  intros HW H. unfold Rdiv. apply Rmult_le_compat_r; [|exact H].
  left. now apply Rinv_0_lt_compat.
Qed.

Lemma ratio_strict d1 d2 W : 0 < W -> d1 < d2 -> d1 / W < d2 / W.
Proof.
  intros HW H. unfold Rdiv. apply Rmult_lt_compat_r; [|exact H].
  now apply Rinv_0_lt_compat.
Qed.

(** Before it is floored, the rounded profile is strictly increasing. *)
Lemma rounded_profile_strict d1 d2 W :
  0 < W -> 0 <= d1 < d2 -> d2 < W ->
  255 * sqrt (arc (d1 / W)) < 255 * sqrt (arc (d2 / W)).
Proof.
  intros HW Hd Hd2. apply Rmult_lt_compat_l; [lra|].
  apply sqrt_lt_1_alt.
  destruct (ratio_range d1 W HW) as [H0 H1]; [lra|].
  destruct (ratio_range d2 W HW) as [H2 H3]; [lra|].
  pose proof (ratio_strict d1 d2 W HW (proj2 Hd)).
  split; [apply arc_range; lra | apply arc_strict; lra].
Qed.

Lemma calculateRoundedDepth_plateau d W :
  W <= d -> calculateRoundedDepth d W = 255%Z.
Proof.
  intros H. unfold calculateRoundedDepth.
  now rewrite (proj2 (Rleb_true W d) H).
Qed.

Lemma calculateRoundedDepth_band d W :
  0 < W -> 0 <= d < W ->
  calculateRoundedDepth d W = Zfloor (255 * sqrt (arc (d / W))) /\
  (0 <= calculateRoundedDepth d W <= 254)%Z.
Proof.
  intros HW Hd. unfold calculateRoundedDepth.
  rewrite (proj2 (Rleb_false W d)) by lra. cbv zeta.
  fold (arc (d / W)).
  pose proof (sqrt_below_1 _ (arc_range _ (ratio_range d W HW Hd))) as [Hs0 Hs1].
  rewrite (Rmult_comm (sqrt _) 255).
  assert (Hlo : (0 <= Zfloor (255 * sqrt (arc (d / W))))%Z).
  { apply Zfloor_lub. simpl. nra. }
  assert (Hhi : (Zfloor (255 * sqrt (arc (d / W))) < 255)%Z).
  { apply lt_IZR. pose proof (Zfloor_bound (255 * sqrt (arc (d / W)))). lra. }
  rewrite clampZ_id by lia. split; [reflexivity | lia].
Qed.

Lemma calculateRoundedDepth_mono d1 d2 W :
  0 < W -> 0 <= d1 <= d2 -> d2 < W ->
  (calculateRoundedDepth d1 W <= calculateRoundedDepth d2 W)%Z.
Proof.
  intros HW Hd Hd2.
  destruct (calculateRoundedDepth_band d1 W HW) as [-> _]; [lra|].
  destruct (calculateRoundedDepth_band d2 W HW) as [-> _]; [lra|].
  apply Zfloor_le. apply Rmult_le_compat_l; [lra|].
  apply sqrt_le_1_alt. apply arc_mono.
  - split; [apply ratio_range; lra | apply ratio_mono; lra].
  - left. apply ratio_range; lra.
Qed.

Lemma calculateRoundedDepth_254 d :
  98 <= d < 100 -> calculateRoundedDepth d 100 = 254%Z.
Proof.
  intros Hd.
  destruct (calculateRoundedDepth_band d 100) as [-> _]; [lra | lra |].
  apply Zfloor_eq.
  assert (Ht : 98 / 100 <= d / 100 < 1) by (split; lra).
  assert (Ha : (254 / 255) * (254 / 255) <= arc (d / 100) < 1).
  { unfold arc. nra. }
  assert (Hs : 254 / 255 <= sqrt (arc (d / 100)) < 1).
  { split.
    - rewrite <- (sqrt_square (254 / 255)) by lra.
      apply sqrt_le_1_alt. lra.
    - apply sqrt_below_1. lra. }
  simpl. lra.
Qed.

End RoundedProfile.

(** ** The chamfered profile *)

Section ChamferedProfile.

Import EdgeProfile.

Lemma scale_clamp q : Rmax 0 (Rmin 255 (q * 255)) = 255 * clamp01 q.
Proof.
  unfold clamp01, Rmax, Rmin.
  repeat (destruct (Rle_dec _ _)); lra.
Qed.

Lemma calculateChamferedDepth_plateau d W angle :
  W <= d -> calculateChamferedDepth d W angle = 255%Z.
Proof.
  intros H. unfold calculateChamferedDepth.
  now rewrite (proj2 (Rleb_true W d) H).
Qed.

Lemma calculateChamferedDepth_band d W angle :
  d < W ->
  calculateChamferedDepth d W angle =
  Zfloor (255 * clamp01 ((d * tan (radians angle))
                         / Rmax (W * tan (radians angle)) W)).
Proof.
  intros Hd. unfold calculateChamferedDepth.
  rewrite (proj2 (Rleb_false W d)) by lra. cbv zeta.
  fold (radians angle). f_equal.
  destruct (Rltb W (W * tan (radians angle))) eqn:E.
  - apply Rltb_true in E. rewrite (Rmax_left (W * _) W) by lra. apply scale_clamp.
  - apply Rltb_false in E. rewrite (Rmax_right (W * _) W) by lra. apply scale_clamp.
Qed.




End ChamferedProfile.

(** ** Loops *)

Section Loops.

Context {S : Type}.

Lemma for_range_S n (body : nat -> S -> S) s :
  for_range (Datatypes.S n) body s = body n (for_range n body s).
Proof.
  unfold for_range. rewrite seq_S, fold_left_app. reflexivity.
Qed.

(** The invariant rule of a counting loop. *)
Lemma for_range_ind (P : nat -> S -> Prop) n (body : nat -> S -> S) s :
  P 0%nat s ->
  (forall i st, (i < n)%nat -> P i st -> P (Datatypes.S i) (body i st)) ->
  P n (for_range n body s).
Proof.
  intros H0 Hstep. induction n as [|n IH].
  - exact H0.
  - rewrite for_range_S. apply Hstep; [lia|]. apply IH.
    intros i st Hi. apply Hstep. lia.
Qed.

(** The invariant rule of the row-major pixel loops: [P k] holds when the
    first [k] pixels have been visited. *)
Lemma for_yx_ind (P : nat -> S -> Prop) rows cols
    (body : nat -> nat -> S -> S) s :
  P 0%nat s ->
  (forall y x st, (y < rows)%nat -> (x < cols)%nat ->
     P (y * cols + x)%nat st ->
     P (Datatypes.S (y * cols + x)) (body y x st)) ->
  P (rows * cols)%nat (for_yx rows cols body s).
Proof.
  intros H0 Hstep. unfold for_yx.
  apply (for_range_ind (fun y st => P (y * cols)%nat st)); [exact H0|].
  intros y st Hy Hst.
  replace (Datatypes.S y * cols)%nat with (y * cols + cols)%nat by lia.
  apply (for_range_ind (fun x st => P (y * cols + x)%nat st)).
  - now rewrite Nat.add_0_r.
  - intros x st' Hx Hst'.
    replace (y * cols + Datatypes.S x)%nat
      with (Datatypes.S (y * cols + x)) by lia.
    now apply Hstep.
Qed.

Lemma for_range_ext n (body1 body2 : nat -> S -> S) s :
  (forall i st, (i < n)%nat -> body1 i st = body2 i st) ->
  for_range n body1 s = for_range n body2 s.
Proof.
  intros H. induction n as [|n IH]; [reflexivity|].
  rewrite !for_range_S, IH; [apply H; lia|].
  intros i st Hi. apply H. lia.
Qed.

Lemma for_yx_ext rows cols (body1 body2 : nat -> nat -> S -> S) s :
  (forall y x st, (y < rows)%nat -> (x < cols)%nat ->
     body1 y x st = body2 y x st) ->
  for_yx rows cols body1 s = for_yx rows cols body2 s.
Proof.
  intros H. unfold for_yx. apply for_range_ext.
  intros y st Hy. apply for_range_ext. intros x st' Hx. now apply H.
Qed.

End Loops.

(** Row-major indices. *)
Lemma cell_lt w h x y : (x < w)%nat -> (y < h)%nat -> (y * w + x < w * h)%nat.
Proof. intros Hx Hy. nia. Qed.

Lemma cell_inj w x y x' y' :
  (x < w)%nat -> (x' < w)%nat ->
  (y * w + x = y' * w + x')%nat -> x = x' /\ y = y'.
Proof.
  intros Hx Hx' H.
  destruct (lt_eq_lt_dec y y') as [[Hlt | Heq] | Hgt].
  - assert ((y + 1) * w <= y' * w)%nat by (apply Nat.mul_le_mono_r; lia). lia.
  - subst. lia.
  - assert ((y' + 1) * w <= y * w)%nat by (apply Nat.mul_le_mono_r; lia). lia.
Qed.

(** ** Array reads after a store *)

Lemma byteAt_insert_eq (buf : list Z) i v :
  (i < length buf)%nat -> byteAt (<[i := v]> buf) i = v.
Proof. intros H. unfold byteAt. now rewrite list_lookup_insert_eq. Qed.

Lemma byteAt_insert_ne (buf : list Z) i j v :
  i <> j -> byteAt (<[i := v]> buf) j = byteAt buf j.
Proof. intros H. unfold byteAt. now rewrite list_lookup_insert_ne. Qed.

Lemma numAt_insert_eq (buf : list R) i v :
  (i < length buf)%nat -> numAt (<[i := v]> buf) i = v.
Proof. intros H. unfold numAt. now rewrite list_lookup_insert_eq. Qed.

Lemma numAt_insert_ne (buf : list R) i j v :
  i <> j -> numAt (<[i := v]> buf) j = numAt buf j.
Proof. intros H. unfold numAt. now rewrite list_lookup_insert_ne. Qed.

Lemma byteAt_replicate n v i : (i < n)%nat -> byteAt (replicate n v) i = v.
Proof.
  intros H. unfold byteAt.
  now rewrite (proj2 (lookup_replicate n v v i) (conj eq_refl H)).
Qed.

Lemma byteAt_range (buf : list Z) i :
  Forall (fun b => (0 <= b <= 255)%Z) buf -> (0 <= byteAt buf i <= 255)%Z.
Proof.
  intros H. unfold byteAt. destruct (buf !! i) as [b|] eqn:E; simpl; [|lia].
  exact (Forall_lookup_1 _ _ _ _ H E).
Qed.

(** ** The pixel loops of the edge processor *)

Section PixelLoops.

Import EdgeProcessor.

Lemma writePixel_length buf i d a :
  length (writePixel buf i d a) = length buf.
Proof. unfold writePixel, storeByte. now rewrite !length_insert. Qed.

Lemma writePixel_other buf i d a j :
  (j < i \/ i + 4 <= j)%nat ->
  byteAt (writePixel buf i d a) j = byteAt buf j.
Proof.
  intros H. unfold writePixel, storeByte.
  rewrite !byteAt_insert_ne by lia. reflexivity.
Qed.

Lemma writePixel_read buf i d a :
  (i + 3 < length buf)%nat ->
  byteAt (writePixel buf i d a) i = clampZ d /\
  byteAt (writePixel buf i d a) (i + 1) = clampZ d /\
  byteAt (writePixel buf i d a) (i + 2) = clampZ d /\
  byteAt (writePixel buf i d a) (i + 3) = clampZ a.
Proof.
  intros H. unfold writePixel, storeByte. repeat split.
  - rewrite !byteAt_insert_ne by lia. apply byteAt_insert_eq. lia.
  - rewrite !byteAt_insert_ne by lia. apply byteAt_insert_eq.
    rewrite !length_insert. lia.
  - rewrite !byteAt_insert_ne by lia. apply byteAt_insert_eq.
    rewrite !length_insert. lia.
  - apply byteAt_insert_eq. rewrite !length_insert. lia.
Qed.

(** A pair of pixel loops that writes each pixel once leaves, at every
    pixel, what its body wrote there. *)
Lemma pixel_loops_spec w h (dep alp : nat -> nat -> Z)
    (body : nat -> nat -> list Z -> list Z) buf0 :
  (forall y x buf, (y < h)%nat -> (x < w)%nat ->
     body y x buf = writePixel buf ((y * w + x) * 4) (dep y x) (alp y x)) ->
  length buf0 = (4 * (w * h))%nat ->
  length (for_yx h w body buf0) = (4 * (w * h))%nat /\
  forall x y, (x < w)%nat -> (y < h)%nat ->
    pixelAt (mkImageData w h (for_yx h w body buf0)) x y =
    (clampZ (dep y x), clampZ (dep y x), clampZ (dep y x), clampZ (alp y x)).
Proof.
  intros Hbody Hlen.
  pose (P := fun (k : nat) (buf : list Z) =>
    length buf = (4 * (w * h))%nat /\
    forall x y, (x < w)%nat -> (y < h)%nat -> (y * w + x < k)%nat ->
      pixelAt (mkImageData w h buf) x y =
      (clampZ (dep y x), clampZ (dep y x), clampZ (dep y x),
       clampZ (alp y x))).
  assert (HP : P (h * w)%nat (for_yx h w body buf0)).
  { apply for_yx_ind.
    - split; [exact Hlen | intros; lia].
    - intros y x st Hy Hx [Hl Hpix]. rewrite Hbody by assumption.
      pose proof (cell_lt w h x y Hx Hy) as Hc.
      split; [now rewrite writePixel_length|].
      intros x' y' Hx' Hy' Hk. unfold pixelAt. simpl.
      destruct (Nat.eq_dec (y' * w + x')%nat (y * w + x)%nat) as [E | NE].
      + destruct (cell_inj w x' y' x y Hx' Hx E) as [-> ->].
        destruct (writePixel_read st ((y * w + x) * 4) (dep y x) (alp y x))
          as (H0 & H1 & H2 & H3); [lia|].
        now rewrite H0, H1, H2, H3.
      + rewrite !writePixel_other by lia.
        apply (Hpix x' y' Hx' Hy'). lia. }
  destruct HP as [Hl Hpix]. split; [exact Hl|].
  intros x y Hx Hy. apply Hpix; try assumption.
  pose proof (cell_lt w h x y Hx Hy). lia.
Qed.

Lemma verticalPixel_writes src y x buf :
  verticalPixel src y x buf =
  writePixel buf ((y * width src + x) * 4)
             (verticalDepth src y x) (keptAlpha src y x).
Proof.
  unfold verticalPixel, verticalDepth, keptAlpha, alphaAt.
  now destruct (32 <? _)%Z.
Qed.

End PixelLoops.

(** ** Termination of the propagation *)

Section Termination.

Import DistanceField.

Lemma sqrt2_ge_1 : 1 <= sqrt 2.
Proof. rewrite <- sqrt_1 at 1. apply sqrt_le_1_alt. lra. Qed.

Lemma latticeValue_nonneg ab : 0 <= latticeValue ab.
Proof.
  unfold latticeValue. pose proof sqrt2_ge_1.
  pose proof (pos_INR (fst ab)). pose proof (pos_INR (snd ab)). nra.
Qed.

Lemma latticeValue_bound a b M :
  latticeValue (a, b) <= INR M -> (a <= M)%nat /\ (b <= M)%nat.
Proof.
  unfold latticeValue. simpl. intros H. pose proof sqrt2_ge_1.
  pose proof (pos_INR a). pose proof (pos_INR b).
  split; apply INR_le; nra.
Qed.

Lemma in_grid a b M : (a <= M)%nat -> (b <= M)%nat -> In (a, b) (grid M).
Proof.
  intros Ha Hb. unfold grid. apply in_prod; apply in_seq; lia.
Qed.

Lemma countBelow_mono r' r l :
  r' <= r -> (countBelow r' l <= countBelow r l)%nat.
Proof.
  intros H. induction l as [|ab t IH]; simpl; [lia|].
  destruct (Rltb (latticeValue ab) r') eqn:E1;
    destruct (Rltb (latticeValue ab) r) eqn:E2; try lia.
  apply Rltb_true in E1. apply Rltb_false in E2. lra.
Qed.

Lemma countBelow_strict r' r l ab :
  In ab l -> r' <= latticeValue ab -> latticeValue ab < r ->
  (countBelow r' l < countBelow r l)%nat.
Proof.
  intros Hin Hlo Hhi. induction l as [|c t IH]; [contradiction|].
  assert (Hle : r' <= r) by lra.
  destruct Hin as [-> | Hin]; simpl.
  - rewrite (proj2 (Rltb_true _ _) Hhi).
    rewrite (proj2 (Rltb_false _ _) Hlo).
    pose proof (countBelow_mono r' r t Hle). lia.
  - specialize (IH Hin).
    destruct (Rltb (latticeValue c) r') eqn:E1;
      destruct (Rltb (latticeValue c) r) eqn:E2; try lia.
    apply Rltb_true in E1. apply Rltb_false in E2. lra.
Qed.

Lemma potential_insert M (dists : list R) i old new :
  dists !! i = Some old ->
  (countBelow new (grid M) < countBelow old (grid M))%nat ->
  (potential M (<[i := new]> dists) < potential M dists)%nat.
Proof.
  revert i. induction dists as [|r t IH]; intros i Hi Hc; [discriminate|].
  destruct i as [|i]; unfold potential in *; simpl in *.
  - injection Hi as ->. lia.
  - specialize (IH i Hi Hc). lia.
Qed.

(** The cost of a step of the neighbour loops. *)
Lemma offset_cost o :
  In o neighbourOffsets ->
  sqrt (IZR (fst o * fst o + snd o * snd o)) =
  if ((fst o =? 0) || (snd o =? 0))%Z then 1 else sqrt 2.
Proof.
  intros H. unfold neighbourOffsets in H. simpl in H.
  repeat (destruct H as [<- | H]; [simpl; try apply sqrt_1; reflexivity|]).
  contradiction.
Qed.

Lemma isLattice_step r o :
  isLattice r -> In o neighbourOffsets ->
  isLattice (r + sqrt (IZR (fst o * fst o + snd o * snd o))).
Proof.
  intros [[a b] ->] Ho. rewrite (offset_cost o Ho).
  destruct ((fst o =? 0) || (snd o =? 0))%Z.
  - exists (S a, b). unfold latticeValue. simpl fst. simpl snd.
    rewrite S_INR. ring.
  - exists (a, S b). unfold latticeValue. simpl fst. simpl snd.
    rewrite S_INR. ring.
Qed.

Lemma inRaster_spec w h nx ny :
  inRaster w h nx ny = true <->
  (0 <= nx < Z.of_nat w)%Z /\ (0 <= ny < Z.of_nat h)%Z.
Proof.
  unfold inRaster. rewrite !andb_true_iff.
  rewrite !Z.leb_le, !Z.ltb_lt. tauto.
Qed.

Lemma cellIndex_lt w h nx ny :
  inRaster w h nx ny = true -> (cellIndex w nx ny < w * h)%nat.
Proof.
  intros H. apply inRaster_spec in H. unfold cellIndex. nia.
Qed.

Lemma cellIndex_of_nat w x y :
  cellIndex w (Z.of_nat x) (Z.of_nat y) = (y * w + x)%nat.
Proof. unfold cellIndex. lia. Qed.

Variables (contour : list bool) (w h : nat) (maxDistance : R) (M : nat).
Hypothesis HM : maxDistance <= INR M.

Lemma unchanged_shaped st :
  shaped w h st ->
  shaped w h st /\
  (exists added, queue st = queue st ++ added) /\
  (length (queue st) + potential M (distances st)
   <= length (queue st) + potential M (distances st))%nat.
Proof.
  intros Hs. split; [exact Hs|]. split; [|lia].
  exists []. now rewrite app_nil_r.
Qed.

(** A step of the neighbour loops keeps the shape, keeps the queue it found
    as a prefix, and pays for every push with potential. *)
Lemma relax_shaped e st o :
  shaped w h st -> isLattice (qdist e) -> In o neighbourOffsets ->
  let st' := relax contour w h maxDistance e st o in
  shaped w h st' /\
  (exists added, queue st' = queue st ++ added) /\
  (length (queue st') + potential M (distances st')
   <= length (queue st) + potential M (distances st))%nat.
Proof.
  intros Hs He Ho. cbv zeta. unfold relax.
  destruct (inRaster w h _ _) eqn:Hin; [|now apply unchanged_shaped].
  destruct (flagAt contour _) eqn:Hc; [|now apply unchanged_shaped].
  destruct (Rltb _ _ && Rleb _ _) eqn:Hcmp; [|now apply unchanged_shaped].
  destruct Hs as [Hlen Hq].
  apply andb_true_iff in Hcmp. destruct Hcmp as [Hlt Hle].
  apply Rltb_true in Hlt. apply Rleb_true in Hle.
  pose proof (cellIndex_lt _ _ _ _ Hin) as Hidx.
  pose proof (isLattice_step _ _ He Ho) as Hnew.
  unfold shaped. cbn [distances queue]. repeat split.
  - now rewrite length_insert.
  - apply Forall_app. split; [exact Hq|]. constructor; [exact Hnew | constructor].
  - eexists. reflexivity.
  - rewrite length_app. simpl.
    destruct (distances st !! cellIndex w (Z.of_nat (qx e) + fst o)
                                       (Z.of_nat (qy e) + snd o)) as [old|] eqn:Eold.
    2:{ apply lookup_ge_None in Eold. lia. }
    unfold numAt in Hlt. rewrite Eold in Hlt. simpl in Hlt.
    destruct Hnew as [[a b] Hab].
    assert (Hb : (a <= M)%nat /\ (b <= M)%nat).
    { apply latticeValue_bound. rewrite <- Hab. lra. }
    pose proof (potential_insert M (distances st) _ old
                  (qdist e + sqrt (IZR (fst o * fst o + snd o * snd o))) Eold) as Hp.
    assert (Hcb : (countBelow (qdist e + sqrt (IZR (fst o * fst o + snd o * snd o))) (grid M)
                   < countBelow old (grid M))%nat).
    { apply (countBelow_strict _ _ _ (a, b)).
      - apply in_grid; tauto.
      - rewrite <- Hab. lra.
      - rewrite <- Hab. exact Hlt. }
    specialize (Hp Hcb). lia.
Qed.

Lemma relax_fold_shaped e os st :
  shaped w h st -> isLattice (qdist e) ->
  (forall o, In o os -> In o neighbourOffsets) ->
  let st' := fold_left (relax contour w h maxDistance e) os st in
  shaped w h st' /\
  (exists added, queue st' = queue st ++ added) /\
  (length (queue st') + potential M (distances st')
   <= length (queue st) + potential M (distances st))%nat.
Proof.
  intros Hs He. revert st Hs. induction os as [|o os IH]; intros st Hs Hos.
  - simpl. now apply unchanged_shaped.
  - simpl.
    destruct (relax_shaped e st o Hs He (Hos o (or_introl eq_refl)))
      as (Hs1 & [a1 Ha1] & Hm1).
    destruct (IH _ Hs1 (fun o' H' => Hos o' (or_intror H')))
      as (Hs2 & [a2 Ha2] & Hm2).
    repeat split; try apply Hs2.
    + exists (a1 ++ a2). rewrite Ha2, Ha1. now rewrite app_assoc.
    + lia.
Qed.

Lemma visit_shaped e st :
  shaped w h st -> isLattice (qdist e) ->
  let st' := visit contour w h maxDistance e st in
  shaped w h st' /\
  (exists added, queue st' = queue st ++ added) /\
  (length (queue st') + potential M (distances st')
   <= length (queue st) + potential M (distances st))%nat.
Proof.
  intros Hs He. cbv zeta. unfold visit. destruct (Rleb maxDistance (qdist e)).
  - now apply unchanged_shaped.
  - apply relax_fold_shaped; auto.
Qed.

Lemma visit_measure qi e st :
  shaped w h st -> queue st !! qi = Some e ->
  shaped w h (visit contour w h maxDistance e st) /\
  (measure M (S qi) (visit contour w h maxDistance e st) < measure M qi st)%nat.
Proof.
  intros Hs Hqi.
  assert (He : isLattice (qdist e)).
  { destruct Hs as [_ Hq]. exact (Forall_lookup_1 _ _ _ _ Hq Hqi). }
  destruct (visit_shaped e st Hs He) as (Hs' & [added Hadd] & Hm).
  split; [exact Hs'|]. unfold measure.
  pose proof (lookup_lt_Some _ _ _ Hqi) as Hlt.
  rewrite Hadd in *. rewrite length_app in *. lia.
Qed.

(** The [while] loop under an invariant: with fuel above the measure it
    returns, in a state that satisfies the invariant and whose queue is
    exhausted. *)
Lemma propagate_invariant (Inv : nat -> State -> Prop) :
  (forall qi st, Inv qi st -> shaped w h st) ->
  (forall qi st e, Inv qi st -> queue st !! qi = Some e ->
     Inv (S qi) (visit contour w h maxDistance e st)) ->
  forall n qi st, Inv qi st -> (measure M qi st <= n)%nat ->
  forall fuel, (n <= fuel)%nat ->
  exists qi' st',
    propagate contour w h maxDistance fuel qi st = Some (distances st') /\
    Inv qi' st' /\ queue st' !! qi' = None.
Proof.
  intros Hshape Hstep. induction n as [|n IH]; intros qi st HI Hm fuel Hf.
  - destruct (queue st !! qi) as [e|] eqn:E.
    + pose proof (lookup_lt_Some _ _ _ E). unfold measure in Hm. lia.
    + exists qi, st. destruct fuel; simpl; rewrite E; auto.
  - destruct (queue st !! qi) as [e|] eqn:E.
    + destruct fuel as [|fuel]; [lia|]. simpl. rewrite E.
      destruct (visit_measure qi e st (Hshape _ _ HI) E) as [_ Hdec].
      apply (IH (S qi)); [now apply Hstep | lia | lia].
    + exists qi, st. destruct fuel; simpl; rewrite E; auto.
Qed.

End Termination.

(** ** The distance field and the edge processor return *)

Section Returns.

Import EdgeProfile DistanceField EdgeProcessor.

Lemma seed_shaped contour w h maxDistance y x st :
  shaped w h st -> shaped w h (seed contour w h maxDistance y x st).
Proof.
  intros [Hlen Hq]. unfold seed.
  destruct (flagAt contour _); [|now split].
  destruct (isEdge contour w h x y); split; cbn [distances queue];
    rewrite ?length_insert; auto.
  apply Forall_app. split; [exact Hq|]. constructor; [|constructor].
  exists (0%nat, 0%nat). unfold latticeValue. simpl. lra.
Qed.

Lemma seeded_shaped contour w h maxDistance :
  shaped w h (seeded contour w h maxDistance).
Proof.
  unfold seeded.
  apply (for_yx_ind (fun _ st => shaped w h st)).
  - split; cbn [distances queue]; [now rewrite length_replicate | constructor].
  - intros y x st _ _ Hs. now apply seed_shaped.
Qed.

Lemma cap_exists (r : R) : exists M : nat, r <= INR M.
Proof.
  destruct (Rle_dec r 0) as [H | H].
  - exists 0%nat. simpl. exact H.
  - exists (Z.to_nat (up r)). rewrite INR_IZR_INZ.
    destruct (archimed r) as [Hup _].
    rewrite Z2Nat.id; [lra|]. apply le_IZR. lra.
Qed.

(** The distance field is computed with finite fuel, whatever the cap. *)
Lemma calculateDistanceFieldFast_returns contour w h maxDistance :
  exists fuel0, forall fuel, (fuel0 <= fuel)%nat ->
  exists df,
    calculateDistanceFieldFast fuel contour w h maxDistance = Some df /\
    length df = (w * h)%nat.
Proof.
  destruct (cap_exists maxDistance) as [M HM].
  exists (measure M 0 (seeded contour w h maxDistance)). intros fuel Hf.
  destruct (propagate_invariant contour w h maxDistance M HM
              (fun _ st => shaped w h st)
              (fun _ _ H => H)
              (fun qi st e Hs Hq =>
                 proj1 (visit_measure contour w h maxDistance M HM qi e st Hs Hq))
              _ 0%nat _ (seeded_shaped contour w h maxDistance)
              (Nat.le_refl _) fuel Hf)
    as (qi' & st' & Hrun & [Hlen _] & _).
  exists (distances st'). split; [exact Hrun | exact Hlen].
Qed.

Lemma calculateRoundedDepth_range d W :
  (0 <= calculateRoundedDepth d W <= 255)%Z.
Proof.
  unfold calculateRoundedDepth. destruct (Rleb W d); [lia|].
  apply clampZ_range.
Qed.

Lemma calculateChamferedDepth_range d W angle :
  (0 <= calculateChamferedDepth d W angle <= 255)%Z.
Proof.
  unfold calculateChamferedDepth. destruct (Rleb W d); [lia|]. cbv zeta.
  set (v := if Rltb _ _ then _ else _).
  assert (H : 0 <= Rmax 0 (Rmin 255 v) <= 255).
  { split; [apply Rmax_l|]. apply Rmax_lub; [lra | apply Rmin_l]. }
  split.
  - apply Zfloor_lub. simpl. tauto.
  - apply le_IZR. pose proof (Zfloor_bound (Rmax 0 (Rmin 255 v))). lra.
Qed.

Lemma profileDepth_range src options df y x :
  (0 <= profileDepth src options df y x <= 255)%Z.
Proof.
  unfold profileDepth. cbv zeta. destruct (_ && _); [|lia].
  destruct (edgeType options);
    [lia | apply calculateRoundedDepth_range
         | apply calculateChamferedDepth_range].
Qed.

Lemma profilePixel_writes src options df y x buf :
  profilePixel src options df y x buf =
  writePixel buf ((y * width src + x) * 4)
             (profileDepth src options df y x) (keptAlpha src y x).
Proof.
  unfold profilePixel, profileDepth, keptAlpha, alphaAt. cbv zeta.
  destruct (32 <? _)%Z eqn:Ea; simpl.
  - destruct (Rleb 0 _); [reflexivity|].
    apply Z.ltb_lt in Ea.
    now rewrite (proj2 (Z.leb_gt _ _) Ea).
  - apply Z.ltb_ge in Ea. now rewrite (proj2 (Z.leb_le _ _) Ea).
Qed.

Lemma newImageData_length w h :
  length (data (newImageData w h)) = (4 * (w * h))%nat.
Proof. unfold newImageData. simpl. apply length_replicate. Qed.

(** The [vertical] branch, pixel by pixel. *)
Lemma processImageWithEdges_vertical fuel src options :
  edgeType options = vertical ->
  exists out,
    processImageWithEdges fuel src options = Some out /\
    width out = width src /\ height out = height src /\
    length (data out) = (4 * (width src * height src))%nat /\
    forall x y, (x < width src)%nat -> (y < height src)%nat ->
      pixelAt out x y =
      (verticalDepth src y x, verticalDepth src y x, verticalDepth src y x,
       clampZ (keptAlpha src y x)).
Proof.
  intros Hv. unfold processImageWithEdges. rewrite Hv. cbv zeta.
  eexists. split; [reflexivity|]. cbn [width height data].
  destruct (pixel_loops_spec (width src) (height src)
              (verticalDepth src) (keptAlpha src) (verticalPixel src)
              (data (newImageData (width src) (height src))))
    as [Hl Hp].
  - intros. apply verticalPixel_writes.
  - apply newImageData_length.
  - repeat split; [exact Hl|]. intros x y Hx Hy.
    rewrite (Hp x y Hx Hy). rewrite clampZ_id; [reflexivity|].
    unfold verticalDepth. destruct (32 <? _)%Z; lia.
Qed.

(** The distance-field branch, pixel by pixel. *)
Lemma processImageWithEdges_profile src options :
  edgeType options <> vertical ->
  exists fuel0, forall fuel, (fuel0 <= fuel)%nat ->
  exists out df,
    calculateDistanceFieldFast fuel (extractSmartContour src)
      (width src) (height src) (edgeWidth options) = Some df /\
    processImageWithEdges fuel src options = Some out /\
    width out = width src /\ height out = height src /\
    length (data out) = (4 * (width src * height src))%nat /\
    forall x y, (x < width src)%nat -> (y < height src)%nat ->
      pixelAt out x y =
      (profileDepth src options df y x, profileDepth src options df y x,
       profileDepth src options df y x, clampZ (keptAlpha src y x)).
Proof.
  intros Hv.
  destruct (calculateDistanceFieldFast_returns (extractSmartContour src)
              (width src) (height src) (edgeWidth options)) as [fuel0 Hfuel].
  exists fuel0. intros fuel Hf. destruct (Hfuel fuel Hf) as (df & Hdf & _).
  destruct (pixel_loops_spec (width src) (height src)
              (profileDepth src options df) (keptAlpha src)
              (profilePixel src options df)
              (data (newImageData (width src) (height src))))
    as [Hl Hp].
  { intros. apply profilePixel_writes. }
  { apply newImageData_length. }
  eexists. exists df. split; [exact Hdf|].
  unfold processImageWithEdges. cbv zeta. rewrite Hdf.
  split; [destruct (edgeType options); [contradiction | reflexivity..]|].
  cbn [width height data]. repeat split; [exact Hl|].
  intros x y Hx Hy. rewrite (Hp x y Hx Hy).
  rewrite clampZ_id by apply profileDepth_range. reflexivity.
Qed.

Lemma keptAlpha_outside src y x :
  (alphaAt src x y <= 32)%Z -> keptAlpha src y x = 0%Z.
Proof.
  intros H. unfold keptAlpha. now rewrite (proj2 (Z.ltb_ge _ _) H).
Qed.

Lemma keptAlpha_inside src y x :
  (32 < alphaAt src x y)%Z -> keptAlpha src y x = alphaAt src x y.
Proof.
  intros H. unfold keptAlpha. now rewrite (proj2 (Z.ltb_lt _ _) H).
Qed.

(** Every call returns a raster of the dimensions of its input, and each
    pixel of it holds a depth in R, G and B and the alpha kept from the
    input. *)
Lemma processImageWithEdges_returns src options :
  exists fuel0, forall fuel, (fuel0 <= fuel)%nat ->
  exists out,
    processImageWithEdges fuel src options = Some out /\
    width out = width src /\ height out = height src /\
    length (data out) = (4 * (width src * height src))%nat /\
    forall x y, (x < width src)%nat -> (y < height src)%nat ->
    exists depth,
      pixelAt out x y = (depth, depth, depth, clampZ (keptAlpha src y x)) /\
      (0 <= depth <= 255)%Z /\
      ((alphaAt src x y <= 32)%Z -> depth = 0%Z).
Proof.
  destruct (edgeType options) eqn:Et.
  - exists 0%nat. intros fuel _.
    destruct (processImageWithEdges_vertical fuel src options Et)
      as (out & Hrun & Hw & Hh & Hl & Hp).
    exists out. repeat split; try assumption.
    intros x y Hx Hy. exists (verticalDepth src y x).
    split; [now apply Hp|]. unfold verticalDepth.
    destruct (32 <? alphaAt src x y)%Z eqn:E; [apply Z.ltb_lt in E|]; lia.
  - destruct (processImageWithEdges_profile src options) as [fuel0 H];
      [congruence|].
    exists fuel0. intros fuel Hf.
    destruct (H fuel Hf) as (out & df & _ & Hrun & Hw & Hh & Hl & Hp).
    exists out. repeat split; try assumption.
    intros x y Hx Hy. exists (profileDepth src options df y x).
    split; [now apply Hp|]. split; [apply profileDepth_range|].
    intros Ha. unfold profileDepth. cbv zeta.
    now rewrite (proj2 (Z.ltb_ge _ _) Ha).
  - destruct (processImageWithEdges_profile src options) as [fuel0 H];
      [congruence|].
    exists fuel0. intros fuel Hf.
    destruct (H fuel Hf) as (out & df & _ & Hrun & Hw & Hh & Hl & Hp).
    exists out. repeat split; try assumption.
    intros x y Hx Hy. exists (profileDepth src options df y x).
    split; [now apply Hp|]. split; [apply profileDepth_range|].
    intros Ha. unfold profileDepth. cbv zeta.
    now rewrite (proj2 (Z.ltb_ge _ _) Ha).
Qed.

End Returns.

(** ** The mesh *)

Section Mesh.

Import MeshBuilder.

Lemma step_pos quality : (0 < step quality)%nat.
Proof. destruct quality; simpl; lia. Qed.

Lemma Zceil_nonneg x : 0 <= x -> (0 <= Zceil x)%Z.
Proof.
  intros H. apply le_IZR. pose proof (Zceil_bound x). simpl. lra.
Qed.

Lemma Zceil_pos x : 0 < x -> (0 < Zceil x)%Z.
Proof.
  intros H. apply lt_IZR. pose proof (Zceil_bound x). simpl. lra.
Qed.

Lemma ratio_nonneg (n s : nat) : (0 < s)%nat -> 0 <= INR n / INR s.
Proof.
  intros Hs. pose proof (pos_INR n). apply lt_0_INR in Hs.
  pose proof (Rinv_0_lt_compat _ Hs). unfold Rdiv. nra.
Qed.

Lemma ratio_pos (n s : nat) : (0 < n)%nat -> (0 < s)%nat -> 0 < INR n / INR s.
Proof.
  intros Hn Hs. apply lt_0_INR in Hn. apply lt_0_INR in Hs.
  pose proof (Rinv_0_lt_compat _ Hs). unfold Rdiv. nra.
Qed.

Lemma gridSize_ceil size s :
  (0 < s)%nat -> Z.of_nat (gridSize size s) = Zceil (INR size / INR s).
Proof.
  intros Hs. unfold gridSize. apply Z2Nat.id.
  apply Zceil_nonneg. now apply ratio_nonneg.
Qed.

Lemma gridSize_pos size s :
  (0 < size)%nat -> (0 < s)%nat -> (0 < gridSize size s)%nat.
Proof.
  intros Hn Hs. pose proof (gridSize_ceil size s Hs).
  pose proof (Zceil_pos _ (ratio_pos size s Hn Hs)). lia.
Qed.

(** The ceiling of the quotient, in integer arithmetic. *)
Lemma gridSize_div size s :
  (0 < s)%nat -> gridSize size s = ((size + s - 1) / s)%nat.
Proof.
  intros Hs. unfold gridSize.
  set (q := ((size + s - 1) / s)%nat).
  assert (Hlo : (q * s <= size + s - 1)%nat).
  { unfold q. rewrite Nat.mul_comm. apply Nat.Div0.mul_div_le. }
  assert (Hhi : (size + s - 1 < (q + 1) * s)%nat).
  { unfold q. rewrite Nat.mul_comm, Nat.add_1_r.
    apply Nat.mul_succ_div_gt. lia. }
  assert (H1 : (q * s + 1 <= size + s)%nat) by lia.
  assert (H2 : (size <= q * s)%nat) by lia.
  apply le_INR in H1, H2.
  rewrite !plus_INR, !mult_INR in H1. rewrite mult_INR in H2.
  simpl in H1.
  pose proof (lt_0_INR s Hs) as HS.
  pose proof (Rinv_0_lt_compat _ HS) as HI.
  assert (HSI : INR s * / INR s = 1) by (apply Rinv_r; lra).
  rewrite (Zceil_eq (Z.of_nat q)); [apply Nat2Z.id|].
  rewrite <- INR_IZR_INZ. unfold Rdiv. split.
  - assert ((INR q - 1) * INR s < INR size) by lra.
    assert ((INR q - 1) * INR s * / INR s < INR size * / INR s)
      by (apply Rmult_lt_compat_r; lra).
    replace ((INR q - 1) * INR s * / INR s) with ((INR q - 1) * (INR s * / INR s))
      in * by ring.
    rewrite HSI in *. lra.
  - assert (INR size * / INR s <= INR q * INR s * / INR s)
      by (apply Rmult_le_compat_r; lra).
    replace (INR q * INR s * / INR s) with (INR q * (INR s * / INR s))
      in * by ring.
    rewrite HSI in *. lra.
Qed.

Variables (imageData : ImageData) (modelHeight : R) (width height : nat).
Variables (originalWidth originalHeight : option nat) (quality : Quality).

Lemma vertexLoop_lengths :
  let g := vertexLoop imageData modelHeight width height originalWidth
                      originalHeight quality in
  length (vertices g)
  = (3 * (gridHeight height quality * gridWidth width quality))%nat /\
  length (colors g)
  = (3 * (gridHeight height quality * gridWidth width quality))%nat /\
  length (normals g)
  = (3 * (gridHeight height quality * gridWidth width quality))%nat /\
  faces g = [].
Proof.
  cbv zeta. unfold vertexLoop.
  apply (for_yx_ind (fun k g =>
           length (vertices g) = (3 * k)%nat /\
           length (colors g) = (3 * k)%nat /\
           length (normals g) = (3 * k)%nat /\
           faces g = [])).
  - simpl. auto.
  - intros y x g _ _ (Hv & Hc & Hn & Hf). unfold vertexBody.
    cbn [vertices colors normals faces]. rewrite !length_app. simpl.
    repeat split; try lia. exact Hf.
Qed.

Lemma faceLoop_faces :
  let g := faceLoop imageData modelHeight width height originalWidth
                    originalHeight quality in
  vertices g
  = vertices (vertexLoop imageData modelHeight width height originalWidth
                         originalHeight quality) /\
  length (faces g)
  = (6 * ((gridHeight height quality - 1)
          * (gridWidth width quality - 1)))%nat /\
  Forall (fun i => (i < gridHeight height quality
                        * gridWidth width quality)%nat) (faces g).
Proof.
  cbv zeta. unfold faceLoop.
  set (gw := gridWidth width quality). set (gh := gridHeight height quality).
  set (vl := vertexLoop _ _ _ _ _ _ _).
  apply (for_yx_ind (fun k g =>
           vertices g = vertices vl /\
           length (faces g) = (6 * k)%nat /\
           Forall (fun i => (i < gh * gw)%nat) (faces g))).
  - destruct (vertexLoop_lengths) as (_ & _ & _ & Hf). fold vl in Hf.
    rewrite Hf. repeat split. constructor.
  - intros y x g Hy Hx (Hv & Hl & Hall). unfold faceBody. fold gw.
    cbn [vertices colors normals faces]. rewrite length_app. simpl.
    repeat split; try assumption; try lia.
    apply Forall_app. split; [exact Hall|].
    assert (Hrow : ((y + 1) * gw <= (gh - 1) * gw)%nat)
      by (apply Nat.mul_le_mono_r; lia).
    assert (Hrow' : (y * gw <= (y + 1) * gw)%nat)
      by (apply Nat.mul_le_mono_r; lia).
    assert (Htot : ((gh - 1) * gw + gw = gh * gw)%nat).
    { destruct gh; simpl; lia. }
    repeat constructor; lia.
Qed.

Lemma buildGeometry_arrays :
  vertices (buildGeometry imageData modelHeight width height originalWidth
                          originalHeight quality)
  = vertices (faceLoop imageData modelHeight width height originalWidth
                       originalHeight quality) /\
  faces (buildGeometry imageData modelHeight width height originalWidth
                       originalHeight quality)
  = faces (faceLoop imageData modelHeight width height originalWidth
                    originalHeight quality).
Proof.
  unfold buildGeometry. cbv zeta. cbn [vertices faces].
  split; reflexivity.
Qed.

End Mesh.

(** ** The edge smoother *)

Section Smoother.

Import EdgeSmoother.

Lemma isEdgePixel_nearEdge img x y :
  isEdgePixel img (Z.of_nat x) (Z.of_nat y) = true <-> nearEdge img x y.
Proof.
  unfold isEdgePixel, nearEdge, neighbours. cbv zeta. split.
  - intros H. apply existsb_exists in H. destruct H as (nb & Hin & Hnb).
    apply Z.ltb_lt in Hnb. simpl in Hin.
    destruct Hin as [<- | [<- | [<- | [<- | [<- | [<- | [<- | [<- | []]]]]]]]].
    + exists (-1)%Z, (-1)%Z. repeat split; try lia; try congruence; exact Hnb.
    + exists 0%Z, (-1)%Z. rewrite Z.add_0_r.
      repeat split; try lia; try congruence; exact Hnb.
    + exists 1%Z, (-1)%Z. repeat split; try lia; try congruence; exact Hnb.
    + exists (-1)%Z, 0%Z. rewrite Z.add_0_r.
      repeat split; try lia; try congruence; exact Hnb.
    + exists 1%Z, 0%Z. rewrite Z.add_0_r.
      repeat split; try lia; try congruence; exact Hnb.
    + exists (-1)%Z, 1%Z. repeat split; try lia; try congruence; exact Hnb.
    + exists 0%Z, 1%Z. rewrite Z.add_0_r.
      repeat split; try lia; try congruence; exact Hnb.
    + exists 1%Z, 1%Z. repeat split; try lia; try congruence; exact Hnb.
  - intros (dx & dy & Hdx & Hdy & Hne & Hd).
    apply Z.ltb_lt in Hd. apply existsb_exists.
    eexists. split; [|exact Hd]. simpl.
    assert (Hx : dx = (-1)%Z \/ dx = 0%Z \/ dx = 1%Z) by lia.
    assert (Hy : dy = (-1)%Z \/ dy = 0%Z \/ dy = 1%Z) by lia.
    destruct Hx as [-> | [-> | ->]]; destruct Hy as [-> | [-> | ->]];
      rewrite ?Z.add_0_r; try congruence; tauto.
Qed.

Lemma setAll_full (buf src : list Z) :
  length buf = length src -> setAll buf src = src.
Proof.
  intros H. unfold setAll. rewrite drop_ge by lia. apply app_nil_r.
Qed.

Variables (img : ImageData) (smoothingStrength : R).
Hypothesis Hwf : wellFormed img.

Lemma framed_data : framed img (data img).
Proof. split; [reflexivity|]. intros x y Hx Hy. cbv zeta. auto. Qed.

(** A pixel of the loops keeps the frame, provided the copy it reads the
    alpha from does. *)
Lemma smoothPixel_framed tempData y x buf :
  (y < height img)%nat -> (x < width img)%nat ->
  framed img tempData -> framed img buf ->
  framed img (smoothPixel img smoothingStrength tempData y x buf).
Proof.
  intros Hy Hx [_ Ht] [Hl Hb]. unfold smoothPixel.
  destruct (isEdgePixel img (Z.of_nat x) (Z.of_nat y)) eqn:He;
    [|now split].
  cbv zeta. unfold storeByte. split; [now rewrite !length_insert|].
  intros x' y' Hx' Hy'. cbv zeta.
  destruct Hwf as [Hlen Hbytes].
  pose proof (cell_lt _ _ x y Hx Hy) as Hc.
  destruct (Nat.eq_dec (y' * width img + x')%nat (y * width img + x)%nat)
    as [E | NE].
  - destruct (cell_inj _ x' y' x y Hx' Hx E) as [-> ->].
    split; [|intros Hf; congruence].
    rewrite byteAt_insert_eq by (rewrite !length_insert; lia).
    destruct (Ht x y Hx Hy) as [-> _].
    apply clampZ_id. now apply byteAt_range.
  - rewrite !byteAt_insert_ne by lia. now apply Hb.
Qed.

Lemma iteration_framed buf :
  framed img buf -> framed img (iteration img smoothingStrength buf).
Proof.
  intros Hb. unfold iteration. cbv zeta.
  apply (for_yx_ind (fun _ b => framed img b)); [exact Hb|].
  intros y x st Hy Hx Hst. now apply smoothPixel_framed.
Qed.

Lemma intelligentEdgeSmoothing_framed :
  framed img (data (intelligentEdgeSmoothing img smoothingStrength)).
Proof.
  unfold intelligentEdgeSmoothing. cbv zeta. cbn [data].
  rewrite setAll_full.
  2:{ simpl. rewrite length_replicate. destruct Hwf as [-> _]. reflexivity. }
  apply (for_range_ind (fun _ b => framed img b)); [apply framed_data|].
  intros i st _ Hst. now apply iteration_framed.
Qed.

End Smoother.

(** ** The lattice *)

Section Lattice.

Import DistanceField.

Lemma offsets_spec o :
  In o neighbourOffsets <->
  (-1 <= fst o <= 1)%Z /\ (-1 <= snd o <= 1)%Z /\ o <> (0, 0)%Z.
Proof.
  unfold neighbourOffsets. split.
  - simpl. intros H.
    repeat (destruct H as [<- | H];
            [simpl; repeat split; try lia; congruence|]).
    contradiction.
  - destruct o as [dx dy]. simpl. intros (Hx & Hy & Hne).
    assert (Hdx : dx = (-1)%Z \/ dx = 0%Z \/ dx = 1%Z) by lia.
    assert (Hdy : dy = (-1)%Z \/ dy = 0%Z \/ dy = 1%Z) by lia.
    destruct Hdx as [-> | [-> | ->]]; destruct Hdy as [-> | [-> | ->]];
      try congruence; tauto.
Qed.

Variables (contour : list bool) (w h : nat).

Lemma offset_adjacent p o :
  In o neighbourOffsets ->
  adjacent8 p (fst p + fst o, snd p + snd o)%Z.
Proof.
  intros H. apply offsets_spec in H. destruct H as (Hx & Hy & Hne).
  destruct p as [px py], o as [dx dy]. unfold adjacent8. simpl in *.
  split; [|lia]. intros E. injection E as E1 E2.
  apply Hne. f_equal; lia.
Qed.

Lemma adjacent_offset p q :
  adjacent8 p q ->
  exists o, In o neighbourOffsets /\
            q = (fst p + fst o, snd p + snd o)%Z.
Proof.
  intros (Hne & Hx & Hy). exists (fst q - fst p, snd q - snd p)%Z. split.
  - apply offsets_spec. simpl. split; [lia|]. split; [lia|].
    intros E. injection E as E1 E2. apply Hne.
    destruct p, q. simpl in *. f_equal; lia.
  - destruct p, q. simpl. f_equal; lia.
Qed.

Lemma adjacent8_sym p q : adjacent8 p q -> adjacent8 q p.
Proof.
  intros (Hne & Hx & Hy). unfold adjacent8. split; [congruence | lia].
Qed.

Lemma stepCost_sym p q : stepCost p q = stepCost q p.
Proof.
  unfold stepCost. now rewrite (Z.eqb_sym (fst p)), (Z.eqb_sym (snd p)).
Qed.

Lemma stepCost_offset p o :
  In o neighbourOffsets ->
  stepCost p (fst p + fst o, snd p + snd o)%Z
  = sqrt (IZR (fst o * fst o + snd o * snd o)).
Proof.
  intros H. rewrite (offset_cost o H). unfold stepCost. simpl fst. simpl snd.
  destruct (Z.eqb_spec (fst p) (fst p + fst o));
    destruct (Z.eqb_spec (snd p) (snd p + snd o));
    destruct (Z.eqb_spec (fst o) 0); destruct (Z.eqb_spec (snd o) 0);
    simpl; try reflexivity; lia.
Qed.

Lemma stepCost_ge_1 p q : 1 <= stepCost p q.
Proof.
  unfold stepCost. destruct (_ || _); [lra | apply sqrt2_ge_1].
Qed.

Lemma pathLength_nonneg p rest : 0 <= pathLength p rest.
Proof.
  revert p. induction rest as [|q r IH]; intros p; simpl; [lra|].
  pose proof (stepCost_ge_1 p q). specialize (IH q). lra.
Qed.

Lemma cell_raster_inj p q :
  inRaster w h (fst p) (snd p) = true ->
  inRaster w h (fst q) (snd q) = true ->
  cell w p = cell w q -> p = q.
Proof.
  intros Hp Hq E. apply inRaster_spec in Hp, Hq. unfold cell, cellIndex in E.
  destruct p as [px py], q as [qx' qy']. simpl in *.
  assert (E' : (py * Z.of_nat w + px = qy' * Z.of_nat w + qx')%Z) by nia.
  assert (py = qy').
  { destruct (Z.lt_trichotomy py qy') as [Hl | [He | Hg]]; [|exact He|]; nia. }
  subst. f_equal. lia.
Qed.

Lemma inRaster_nat p :
  inRaster w h (fst p) (snd p) = true ->
  exists x y, p = (Z.of_nat x, Z.of_nat y) /\ (x < w)%nat /\ (y < h)%nat.
Proof.
  intros H. apply inRaster_spec in H.
  exists (Z.to_nat (fst p)), (Z.to_nat (snd p)).
  destruct p as [px py]. simpl in *. split; [f_equal; lia | lia].
Qed.

Lemma inRaster_of_nat x y :
  (x < w)%nat -> (y < h)%nat ->
  inRaster w h (Z.of_nat x) (Z.of_nat y) = true.
Proof. intros. apply inRaster_spec. lia. Qed.

Lemma cell_of_nat x y : cell w (Z.of_nat x, Z.of_nat y) = (y * w + x)%nat.
Proof. unfold cell. simpl. apply cellIndex_of_nat. Qed.

(** The neighbour scan finds exactly the edge pixels. *)
Lemma isEdge_edgePixel x y :
  (x < w)%nat -> (y < h)%nat -> flagAt contour (y * w + x) = true ->
  isEdge contour w h x y = true <->
  edgePixel contour w h (Z.of_nat x, Z.of_nat y).
Proof.
  intros Hx Hy Hflag.
  assert (Hin : inside contour w h (Z.of_nat x, Z.of_nat y)).
  { split; [now apply inRaster_of_nat | now rewrite cell_of_nat]. }
  unfold isEdge. rewrite existsb_exists. split.
  - intros (o & Ho & Hcond). split; [exact Hin|].
    pose proof (proj1 (offsets_spec o) Ho) as (Hox & Hoy & _).
    destruct (inRaster w h _ _) eqn:Hr.
    + right. exists (Z.of_nat x + fst o, Z.of_nat y + snd o)%Z.
      split; [exact (offset_adjacent (Z.of_nat x, Z.of_nat y) o Ho)|].
      split; [exact Hr|]. unfold cell. simpl.
      now apply negb_true_iff in Hcond.
    + left. unfold onBoundary. simpl.
      destruct (inRaster_spec w h (Z.of_nat x + fst o) (Z.of_nat y + snd o))
        as [_ Hspec].
      assert (Hn : ~ ((0 <= Z.of_nat x + fst o < Z.of_nat w)%Z /\
                      (0 <= Z.of_nat y + snd o < Z.of_nat h)%Z)).
      { intros Hc. rewrite (Hspec Hc) in Hr. discriminate. }
      lia.
  - intros (_ & [Hb | (q & Hadj & Hr & Hf)]).
    + unfold onBoundary in Hb. simpl in Hb.
      assert (Hout : forall o, In o neighbourOffsets ->
                ~ ((0 <= Z.of_nat x + fst o < Z.of_nat w)%Z /\
                   (0 <= Z.of_nat y + snd o < Z.of_nat h)%Z) ->
                exists o', In o' neighbourOffsets /\
                  (if inRaster w h (Z.of_nat x + fst o') (Z.of_nat y + snd o')
                   then negb (flagAt contour
                                (cellIndex w (Z.of_nat x + fst o')
                                           (Z.of_nat y + snd o')))
                   else true) = true).
      { intros o Ho Hn. exists o. split; [exact Ho|].
        destruct (inRaster w h _ _) eqn:Hr; [|reflexivity].
        apply inRaster_spec in Hr. tauto. }
      destruct Hb as [Hb | [Hb | [Hb | Hb]]].
      * apply (Hout (-1, 0)%Z); [simpl; tauto | simpl; lia].
      * apply (Hout (1, 0)%Z); [simpl; tauto | simpl; lia].
      * apply (Hout (0, -1)%Z); [simpl; tauto | simpl; lia].
      * apply (Hout (0, 1)%Z); [simpl; tauto | simpl; lia].
    + destruct (adjacent_offset _ _ Hadj) as (o & Ho & ->).
      exists o. split; [exact Ho|]. simpl in Hr, Hf |- *.
      rewrite Hr. unfold cell in Hf. simpl in Hf. now rewrite Hf.
Qed.

Lemma edgePixel_decide p :
  inside contour w h p ->
  edgePixel contour w h p \/ ~ edgePixel contour w h p.
Proof.
  intros [Hr Hf]. destruct (inRaster_nat p Hr) as (x & y & -> & Hx & Hy).
  rewrite cell_of_nat in Hf.
  pose proof (isEdge_edgePixel x y Hx Hy Hf) as Hiff.
  destruct (isEdge contour w h x y).
  - left. now apply Hiff.
  - right. intros He. apply Hiff in He. discriminate.
Qed.

(** Around an inside pixel that is not an edge pixel, all is inside. *)
Lemma interior_neighbour_inside p q :
  inside contour w h p -> ~ edgePixel contour w h p -> adjacent8 p q ->
  inside contour w h q.
Proof.
  intros Hin Hne Hadj.
  assert (Hnb : ~ onBoundary w h p).
  { intros Hb. apply Hne. split; [exact Hin | now left]. }
  assert (Hr : inRaster w h (fst q) (snd q) = true).
  { destruct Hin as [Hp _]. apply inRaster_spec in Hp. apply inRaster_spec.
    destruct Hadj as (_ & Hx & Hy). unfold onBoundary in Hnb. lia. }
  split; [exact Hr|].
  destruct (flagAt contour (cell w q)) eqn:Hf; [reflexivity|].
  exfalso. apply Hne. split; [exact Hin|]. right. exists q. auto.
Qed.

Lemma last_cons_default (q : Z * Z) r p :
  List.last (q :: r) p = List.last r q.
Proof.
  revert q p. induction r as [|a r IH]; intros q p; [reflexivity|].
  change (List.last (q :: a :: r) p) with (List.last (a :: r) p).
  rewrite (IH a p). symmetry. apply IH.
Qed.

Lemma pathToEdge_here p :
  edgePixel contour w h p -> pathToEdge contour w h p [].
Proof. intros H. split; [exact I | exact H]. Qed.

Lemma pathToEdge_step p q r :
  adjacent8 p q -> pathToEdge contour w h q r ->
  pathToEdge contour w h p (q :: r).
Proof.
  intros Hadj [Hpath Hend]. split; [split; assumption|].
  now rewrite last_cons_default.
Qed.

End Lattice.

(** ** The invariant of the propagation *)

Section Correctness.

Import DistanceField.

Variables (contour : list bool) (w h : nat) (maxDistance : R) (M : nat).
Hypothesis HM : maxDistance <= INR M.
Hypothesis Hcap : 0 <= maxDistance.

Lemma Forall_In {A} (P : A -> Prop) l x : Forall P l -> In x l -> P x.
Proof.
  intros H. induction H as [|a l Ha Hl IH]; [contradiction|].
  intros [<- | Hin]; auto.
Qed.

Lemma lookup_In {A} (l : list A) k x : l !! k = Some x -> In x l.
Proof.
  revert k. induction l as [|a l IH]; intros k Hk; [discriminate|].
  destruct k as [|k]; simpl in Hk.
  - injection Hk as ->. now left.
  - right. eapply IH. exact Hk.
Qed.

Lemma In_lookup {A} (l : list A) x : In x l -> exists k, l !! k = Some x.
Proof.
  induction l as [|a l IH]; [contradiction|].
  intros [-> | Hin].
  - now exists 0%nat.
  - destruct (IH Hin) as [k Hk]. now exists (S k).
Qed.

Lemma valueAt_update_same dists v nd :
  inRaster w h (fst v) (snd v) = true -> length dists = (w * h)%nat ->
  valueAt w (<[cell w v := nd]> dists) v = nd.
Proof.
  intros Hr Hl. unfold valueAt. apply numAt_insert_eq.
  pose proof (cellIndex_lt _ _ _ _ Hr). unfold cell. lia.
Qed.

Lemma valueAt_update_other dists v p nd :
  inRaster w h (fst v) (snd v) = true ->
  inRaster w h (fst p) (snd p) = true -> p <> v ->
  valueAt w (<[cell w v := nd]> dists) p = valueAt w dists p.
Proof.
  intros Hv Hp Hne. unfold valueAt. apply numAt_insert_ne.
  intros E. apply Hne. symmetry. now apply (cell_raster_inj w h).
Qed.

Lemma valueAt_update_le dists v q nd :
  inRaster w h (fst v) (snd v) = true ->
  inRaster w h (fst q) (snd q) = true -> length dists = (w * h)%nat ->
  nd < valueAt w dists v ->
  valueAt w (<[cell w v := nd]> dists) q <= valueAt w dists q.
Proof.
  intros Hv Hq Hl Hlt.
  destruct (decide (q = v)) as [-> | Hne].
  - rewrite valueAt_update_same by assumption. lra.
  - rewrite valueAt_update_other by assumption. lra.
Qed.

(** The two outcomes of a step of the neighbour loops. *)
Lemma relax_cases e st o :
  let v := (fst (entryPixel e) + fst o, snd (entryPixel e) + snd o)%Z in
  let nd := qdist e + sqrt (IZR (fst o * fst o + snd o * snd o)) in
  (relax contour w h maxDistance e st o = st /\
   (inside contour w h v ->
    valueAt w (distances st) v <= nd \/ maxDistance < nd)) \/
  (inside contour w h v /\ nd < valueAt w (distances st) v /\
   nd <= maxDistance /\
   relax contour w h maxDistance e st o
   = mkState (<[cell w v := nd]> (distances st))
             (queue st ++ [mkEntry (Z.to_nat (fst v)) (Z.to_nat (snd v)) nd])).
Proof.
  cbv zeta. unfold relax, inside, valueAt, cell, entryPixel. simpl fst. simpl snd.
  destruct (inRaster w h _ _) eqn:Hr; [|left; split; [reflexivity|]; intros [? _]; discriminate].
  destruct (flagAt contour _) eqn:Hf; [|left; split; [reflexivity|]; intros [_ ?]; discriminate].
  destruct (Rltb _ _) eqn:Hlt; simpl.
  - destruct (Rleb _ _) eqn:Hle.
    + right. apply Rltb_true in Hlt. apply Rleb_true in Hle. auto.
    + left. split; [reflexivity|]. intros _. right. now apply Rleb_false.
  - left. split; [reflexivity|]. intros _. left. now apply Rltb_false.
Qed.

Lemma entry_lattice st e :
  shaped w h st -> In e (queue st) -> isLattice (qdist e).
Proof. intros [_ Hq] Hin. exact (Forall_In _ _ _ Hq Hin). Qed.

(** A step of the neighbour loops keeps every distance witnessed. *)
Lemma relax_sound e st o :
  sound contour w h maxDistance st -> In e (queue st) ->
  In o neighbourOffsets ->
  sound contour w h maxDistance (relax contour w h maxDistance e st o).
Proof.
  intros Hs He Ho.
  pose proof Hs as (Hshape & Hout & Hin & Hq).
  pose proof (proj1 (relax_shaped contour w h maxDistance M HM e st o Hshape
                       (entry_lattice st e Hshape He) Ho)) as Hshape'.
  destruct (relax_cases e st o) as [[-> _] | (Hv & Hlt & Hle & Heq)];
    [exact Hs|].
  rewrite Heq in *. clear Heq.
  set (v := (fst (entryPixel e) + fst o, snd (entryPixel e) + snd o)%Z) in *.
  set (nd := qdist e + sqrt (IZR (fst o * fst o + snd o * snd o))) in *.
  destruct Hshape as [Hlen _]. destruct (Hq e He) as (Hein & rest & Hpath & Hd).
  assert (Hadj : adjacent8 v (entryPixel e)).
  { apply adjacent8_sym. exact (offset_adjacent (entryPixel e) o Ho). }
  assert (Hcost : stepCost v (entryPixel e)
                  = sqrt (IZR (fst o * fst o + snd o * snd o))).
  { rewrite stepCost_sym. exact (stepCost_offset (entryPixel e) o Ho). }
  assert (Hnd : pathToEdge contour w h v (entryPixel e :: rest) /\
                nd = pathLength v (entryPixel e :: rest)).
  { split; [now apply pathToEdge_step|]. simpl. rewrite Hcost, <- Hd.
    unfold nd. lra. }
  assert (Hnd1 : 1 <= nd).
  { destruct Hnd as [_ ->]. simpl.
    pose proof (stepCost_ge_1 v (entryPixel e)).
    pose proof (pathLength_nonneg (entryPixel e) rest). lra. }
  split; [exact Hshape'|]. cbn [distances queue]. split; [|split].
  - intros p Hr Hf. rewrite valueAt_update_other; [now apply Hout | apply Hv | exact Hr |].
    intros ->. destruct Hv as [_ Hvf]. congruence.
  - intros p Hp. destruct (decide (p = v)) as [-> | Hne].
    + rewrite valueAt_update_same by (try apply Hv; exact Hlen).
      split; [lra|]. split.
      * intros Hedge. destruct (Hin v Hv) as (_ & H0 & _).
        rewrite (H0 Hedge) in Hlt. lra.
      * right. exists (entryPixel e :: rest). exact Hnd.
    + rewrite valueAt_update_other; [now apply Hin | apply Hv | apply Hp | exact Hne].
  - intros e' He'. apply in_app_or in He'. destruct He' as [He' | [<- | []]].
    + now apply Hq.
    + assert (Hvz : entryPixel (mkEntry (Z.to_nat (fst v)) (Z.to_nat (snd v)) nd) = v).
      { destruct Hv as [Hr _]. apply inRaster_spec in Hr.
        unfold entryPixel. cbn [qx qy]. destruct v as [vx vy]. simpl in *.
        f_equal; lia. }
      rewrite Hvz. split; [exact Hv|].
      exists (entryPixel e :: rest). exact Hnd.
Qed.

Lemma relax_queue_prefix e st o k e' :
  queue st !! k = Some e' ->
  queue (relax contour w h maxDistance e st o) !! k = Some e'.
Proof.
  intros Hk.
  destruct (relax_cases e st o) as [[-> _] | (_ & _ & _ & ->)]; [exact Hk|].
  cbn [queue]. rewrite lookup_app_l; [exact Hk|].
  now apply lookup_lt_Some in Hk.
Qed.

(** A step of the neighbour loops, seen from the middle of a visit. *)
Lemma relax_visiting qi e done st o :
  sound contour w h maxDistance st -> queue st !! qi = Some e ->
  In o neighbourOffsets ->
  visiting contour w h qi e done st ->
  visiting contour w h qi e (done ++ [o])
           (relax contour w h maxDistance e st o).
Proof.
  intros Hs Hqi Ho [Hall Hdone].
  pose proof Hs as ([Hlen _] & _ & Hin & _).
  destruct (relax_cases e st o) as [[-> Hno] | (Hv & Hlt & Hle & ->)].
  - split; [exact Hall|]. intros o' Ho'. apply in_app_or in Ho'.
    destruct Ho' as [Ho' | [<- | []]]; [now apply Hdone|].
    cbv zeta. intros Hq. destruct (Hno Hq) as [Hle | Hgt]; [exact Hle|].
    destruct (Hin _ Hq) as [[_ Hmax] _]. lra.
  - set (v := (fst (entryPixel e) + fst o, snd (entryPixel e) + snd o)%Z) in *.
    set (nd := qdist e + sqrt (IZR (fst o * fst o + snd o * snd o))) in *.
    cbn [distances queue].
    assert (Hmono : forall q, inside contour w h q ->
              valueAt w (<[cell w v := nd]> (distances st)) q
              <= valueAt w (distances st) q).
    { intros q Hq. apply valueAt_update_le; try assumption; [apply Hv | apply Hq]. }
    split.
    + intros p Hp. destruct (decide (p = v)) as [-> | Hne].
      * left. exists (length (queue st)), (mkEntry (Z.to_nat (fst v)) (Z.to_nat (snd v)) nd).
        split; [apply lookup_lt_Some in Hqi; lia|].
        cbn [queue distances qdist]. split; [|split].
        -- rewrite lookup_app_r by lia. now rewrite Nat.sub_diag.
        -- destruct Hv as [Hr _]. apply inRaster_spec in Hr.
           unfold entryPixel. cbn [qx qy]. destruct v as [vx vy]. simpl in *.
           f_equal; lia.
        -- rewrite valueAt_update_same; [reflexivity | apply Hv | exact Hlen].
      * assert (Hsame : valueAt w (<[cell w v := nd]> (distances st)) p
                        = valueAt w (distances st) p).
        { apply valueAt_update_other; [apply Hv | apply Hp | exact Hne]. }
        destruct (Hall p Hp) as [(k & e' & Hk & Hlook & Hpix & Hd) | [Hset | Hself]].
        -- left. exists k, e'. cbn [queue distances].
           split; [exact Hk|]. split; [|split; [exact Hpix|]].
           ++ rewrite lookup_app_l; [exact Hlook|].
              now apply lookup_lt_Some in Hlook.
           ++ now rewrite Hsame.
        -- right. left. intros q Hadj Hq. cbn [distances]. rewrite Hsame.
           specialize (Hset q Hadj Hq). specialize (Hmono q Hq). lra.
        -- right. right. cbn [distances]. now rewrite Hsame.
    + intros o' Ho'. apply in_app_or in Ho'. cbv zeta.
      destruct Ho' as [Ho' | [<- | []]].
      * intros Hq. cbn [distances].
        pose proof (Hdone o' Ho' Hq) as Hd. pose proof (Hmono _ Hq) as Hm.
        cbv zeta in Hd. lra.
      * intros _. cbn [distances]. fold v.
        rewrite valueAt_update_same; [unfold nd; lra | apply Hv | exact Hlen].
Qed.

Lemma relax_fold_correct qi e todo : forall done st,
  (forall o, In o todo -> In o neighbourOffsets) ->
  sound contour w h maxDistance st -> queue st !! qi = Some e ->
  visiting contour w h qi e done st ->
  let st' := fold_left (relax contour w h maxDistance e) todo st in
  sound contour w h maxDistance st' /\ queue st' !! qi = Some e /\
  visiting contour w h qi e (done ++ todo) st'.
Proof.
  induction todo as [|o todo IH]; intros done st Hos Hs Hqi Hvis.
  - simpl. rewrite app_nil_r. auto.
  - simpl.
    assert (Ho : In o neighbourOffsets) by (apply Hos; now left).
    pose proof (relax_sound e st o Hs (lookup_In _ _ _ Hqi) Ho) as Hs1.
    pose proof (relax_queue_prefix e st o qi e Hqi) as Hq1.
    pose proof (relax_visiting qi e done st o Hs Hqi Ho Hvis) as Hv1.
    destruct (IH (done ++ [o]) _ (fun o' H' => Hos o' (or_intror H')) Hs1 Hq1 Hv1)
      as (Hs2 & Hq2 & Hv2).
    rewrite <- app_assoc in Hv2. auto.
Qed.

(** One turn of the [while] loop keeps the invariant. *)
Lemma visit_correct qi e st :
  sound contour w h maxDistance st -> complete contour w h qi st ->
  queue st !! qi = Some e ->
  sound contour w h maxDistance (visit contour w h maxDistance e st) /\
  complete contour w h (S qi) (visit contour w h maxDistance e st).
Proof.
  intros Hs Hc Hqi. pose proof Hs as (_ & _ & Hin & _).
  assert (Hstart : forall p, inside contour w h p ->
            pending w (S qi) st p \/ settled contour w h (distances st) p \/
            (p = entryPixel e /\ valueAt w (distances st) p = qdist e)).
  { intros p Hp. destruct (Hc p Hp) as [(k & e' & Hk & Hlook & Hpix & Hd) | Hset];
      [|now right; left].
    destruct (decide (k = qi)) as [-> | Hne].
    - right. right. rewrite Hqi in Hlook. injection Hlook as <-. auto.
    - left. exists k, e'. repeat split; try assumption. lia. }
  unfold visit. destruct (Rleb maxDistance (qdist e)) eqn:Hstop.
  - apply Rleb_true in Hstop. split; [exact Hs|]. intros p Hp.
    destruct (Hstart p Hp) as [Hpend | [Hset | [-> Hval]]]; auto.
    right. intros q Hadj Hq.
    destruct (Hin q Hq) as [[_ Hmax] _].
    pose proof (stepCost_ge_1 (entryPixel e) q). lra.
  - destruct (relax_fold_correct qi e neighbourOffsets [] st
                (fun o H => H) Hs Hqi (conj Hstart (fun o (H : In o []) => match H with end)))
      as (Hs' & _ & [Hall Hdone]).
    split; [exact Hs'|]. intros p Hp.
    destruct (Hall p Hp) as [Hpend | [Hset | [-> Hval]]]; auto.
    right. intros q Hadj Hq.
    destruct (adjacent_offset _ _ Hadj) as (o & Ho & ->).
    specialize (Hdone o Ho Hq). simpl in Hdone.
    rewrite (stepCost_offset (entryPixel e) o Ho), Hval. exact Hdone.
Qed.

(** When the queue is exhausted every distance is a lower bound of the
    paths to the edge. *)
Lemma exhausted_lower_bound qi st :
  sound contour w h maxDistance st -> complete contour w h qi st ->
  queue st !! qi = None ->
  forall rest p, inside contour w h p -> pathToEdge contour w h p rest ->
    valueAt w (distances st) p <= pathLength p rest.
Proof.
  intros Hs Hc Hend.
  assert (Hset : forall p, inside contour w h p ->
            settled contour w h (distances st) p).
  { intros p Hp. destruct (Hc p Hp) as [(k & e & Hk & Hlook & _) | H];
      [|exact H].
    apply lookup_ge_None in Hend. apply lookup_lt_Some in Hlook. lia. }
  destruct Hs as (_ & _ & Hin & _).
  induction rest as [|q r IH]; intros p Hp [Hpath Hedge].
  - simpl in *. destruct (Hin p Hp) as (_ & H0 & _). rewrite (H0 Hedge). lra.
  - destruct (edgePixel_decide contour w h p Hp) as [He | Hne].
    + destruct (Hin p Hp) as (_ & H0 & _). rewrite (H0 He).
      apply pathLength_nonneg.
    + destruct Hpath as [Hadj Hpath].
      pose proof (interior_neighbour_inside contour w h p q Hp Hne Hadj) as Hq.
      rewrite last_cons_default in Hedge.
      specialize (IH q Hq (conj Hpath Hedge)).
      pose proof (Hset q Hq p (adjacent8_sym _ _ Hadj) Hp) as Hstep.
      rewrite stepCost_sym in Hstep. simpl. lra.
Qed.

Lemma exhausted_correct qi st :
  sound contour w h maxDistance st -> complete contour w h qi st ->
  queue st !! qi = None ->
  forall p, inside contour w h p ->
    clampedShortest contour w h maxDistance p (valueAt w (distances st) p) /\
    (edgePixel contour w h p -> valueAt w (distances st) p = 0).
Proof.
  intros Hs Hc Hend p Hp.
  pose proof (exhausted_lower_bound qi st Hs Hc Hend) as Hlow.
  destruct Hs as (_ & _ & Hin & _).
  destruct (Hin p Hp) as (Hrange & H0 & Hwit).
  split; [|exact H0]. split; [exact Hrange|]. split; [|exact Hwit].
  intros rest Hpath. now apply Hlow.
Qed.

End Correctness.

(** ** The state after the first pair of loops *)

Section Seeded.

Import DistanceField.

Variables (contour : list bool) (w h : nat) (maxDistance : R).
Hypothesis Hcap : 0 <= maxDistance.

Lemma seeded_spec :
  let st := seeded contour w h maxDistance in
  length (distances st) = (w * h)%nat /\
  (forall x y, (x < w)%nat -> (y < h)%nat ->
     numAt (distances st) (y * w + x) = seedValue contour w h maxDistance x y) /\
  (forall e, In e (queue st) ->
     qdist e = 0 /\ (qx e < w)%nat /\ (qy e < h)%nat /\
     flagAt contour (qy e * w + qx e) = true /\
     isEdge contour w h (qx e) (qy e) = true) /\
  (forall x y, (x < w)%nat -> (y < h)%nat ->
     flagAt contour (y * w + x) = true -> isEdge contour w h x y = true ->
     In (mkEntry x y 0) (queue st)).
Proof.
  cbv zeta.
  pose (P := fun (k : nat) (st : State) =>
    length (distances st) = (w * h)%nat /\
    (forall x y, (x < w)%nat -> (y < h)%nat ->
       numAt (distances st) (y * w + x)
       = if (y * w + x <? k)%nat then seedValue contour w h maxDistance x y
         else -1) /\
    (forall e, In e (queue st) ->
       qdist e = 0 /\ (qx e < w)%nat /\ (qy e < h)%nat /\
       flagAt contour (qy e * w + qx e) = true /\
       isEdge contour w h (qx e) (qy e) = true) /\
    (forall x y, (x < w)%nat -> (y < h)%nat -> (y * w + x < k)%nat ->
       flagAt contour (y * w + x) = true -> isEdge contour w h x y = true ->
       In (mkEntry x y 0) (queue st))).
  assert (HP : P (h * w)%nat (seeded contour w h maxDistance)).
  { unfold seeded. apply for_yx_ind.
    - unfold P. cbn [distances queue]. split; [apply length_replicate|].
      split; [|split; [intros e []|intros; lia]].
      intros x y Hx Hy. pose proof (cell_lt w h x y Hx Hy) as Hc.
      unfold numAt.
      rewrite (proj2 (lookup_replicate (w * h) (-1) (-1) (y * w + x))
                 (conj eq_refl Hc)).
      reflexivity.
    - intros y x st Hy Hx (Hlen & Hval & Hq & Hin).
      pose proof (cell_lt w h x y Hx Hy) as Hc.
      assert (Hother : forall x' y', (x' < w)%nat -> (y' < h)%nat ->
                (y' * w + x')%nat <> (y * w + x)%nat ->
                (y' * w + x' <? S (y * w + x))%nat
                = (y' * w + x' <? y * w + x)%nat).
      { intros x' y' _ _ Hne.
        destruct (Nat.ltb_spec (y' * w + x') (S (y * w + x)));
          destruct (Nat.ltb_spec (y' * w + x') (y * w + x)); lia || reflexivity. }
      assert (Hself : (y * w + x <? S (y * w + x))%nat = true)
        by (apply Nat.ltb_lt; lia).
      unfold P, seed.
      destruct (flagAt contour (y * w + x)) eqn:Hf;
        [destruct (isEdge contour w h x y) eqn:He|];
        cbn [distances queue]; rewrite ?length_insert;
        (split; [exact Hlen|]); (split; [|split]).
      + intros x' y' Hx' Hy'.
        destruct (Nat.eq_dec (y' * w + x')%nat (y * w + x)%nat) as [E | NE].
        * destruct (cell_inj w x' y' x y Hx' Hx E) as [-> ->].
          rewrite numAt_insert_eq by lia. rewrite Hself.
          unfold seedValue. now rewrite Hf, He.
        * rewrite numAt_insert_ne by lia. rewrite Hother by assumption.
          now apply Hval.
      + intros e Hin'. apply in_app_or in Hin'.
        destruct Hin' as [Hin' | [<- | []]]; [now apply Hq|].
        cbn [qx qy qdist]. auto.
      + intros x' y' Hx' Hy' Hk Hf' He'. apply in_or_app.
        destruct (Nat.eq_dec (y' * w + x')%nat (y * w + x)%nat) as [E | NE].
        * destruct (cell_inj w x' y' x y Hx' Hx E) as [-> ->].
          right. now left.
        * left. apply Hin; try assumption. lia.
      + intros x' y' Hx' Hy'.
        destruct (Nat.eq_dec (y' * w + x')%nat (y * w + x)%nat) as [E | NE].
        * destruct (cell_inj w x' y' x y Hx' Hx E) as [-> ->].
          rewrite numAt_insert_eq by lia. rewrite Hself.
          unfold seedValue. now rewrite Hf, He.
        * rewrite numAt_insert_ne by lia. rewrite Hother by assumption.
          now apply Hval.
      + exact Hq.
      + intros x' y' Hx' Hy' Hk Hf' He'.
        destruct (Nat.eq_dec (y' * w + x')%nat (y * w + x)%nat) as [E | NE].
        * destruct (cell_inj w x' y' x y Hx' Hx E) as [-> ->]. congruence.
        * apply Hin; try assumption. lia.
      + intros x' y' Hx' Hy'.
        destruct (Nat.eq_dec (y' * w + x')%nat (y * w + x)%nat) as [E | NE].
        * destruct (cell_inj w x' y' x y Hx' Hx E) as [-> ->].
          rewrite Hself. rewrite (Hval x y Hx Hy).
          rewrite Nat.ltb_irrefl. unfold seedValue. now rewrite Hf.
        * rewrite Hother by assumption. now apply Hval.
      + exact Hq.
      + intros x' y' Hx' Hy' Hk Hf' He'.
        destruct (Nat.eq_dec (y' * w + x')%nat (y * w + x)%nat) as [E | NE].
        * destruct (cell_inj w x' y' x y Hx' Hx E) as [-> ->]. congruence.
        * apply Hin; try assumption. lia. }
  destruct HP as (Hlen & Hval & Hq & Hin).
  split; [exact Hlen|]. split; [|split; [exact Hq|]].
  - intros x y Hx Hy. rewrite (Hval x y Hx Hy).
    pose proof (cell_lt w h x y Hx Hy) as Hc.
    replace (h * w)%nat with (w * h)%nat by lia.
    now rewrite (proj2 (Nat.ltb_lt _ _) Hc).
  - intros x y Hx Hy. apply Hin; try assumption.
    pose proof (cell_lt w h x y Hx Hy). lia.
Qed.

(** The invariant holds when the propagation starts. *)
Lemma seeded_correct :
  sound contour w h maxDistance (seeded contour w h maxDistance) /\
  complete contour w h 0 (seeded contour w h maxDistance).
Proof.
  destruct seeded_spec as (Hlen & Hval & Hq & Hin).
  set (st := seeded contour w h maxDistance) in *.
  assert (Hvalue : forall x y, (x < w)%nat -> (y < h)%nat ->
            valueAt w (distances st) (Z.of_nat x, Z.of_nat y)
            = seedValue contour w h maxDistance x y).
  { intros x y Hx Hy. unfold valueAt. rewrite cell_of_nat. now apply Hval. }
  assert (Hinside : forall p, inside contour w h p ->
            exists x y, p = (Z.of_nat x, Z.of_nat y) /\
              (x < w)%nat /\ (y < h)%nat /\
              flagAt contour (y * w + x) = true /\
              valueAt w (distances st) p
              = if isEdge contour w h x y then 0 else maxDistance).
  { intros p [Hr Hf]. destruct (inRaster_nat w h p Hr) as (x & y & -> & Hx & Hy).
    rewrite cell_of_nat in Hf. exists x, y. repeat split; try assumption.
    rewrite (Hvalue x y Hx Hy). unfold seedValue. now rewrite Hf. }
  split; [split; [|split; [|split]]|].
  - split; [exact Hlen|]. fold st.
    clear - Hq. induction (queue st) as [|e q IH]; constructor.
    + destruct (Hq e (or_introl eq_refl)) as [-> _].
      exists (0%nat, 0%nat). unfold latticeValue. simpl. lra.
    + apply IH. intros e' He'. apply Hq. now right.
  - intros p Hr Hf. destruct (inRaster_nat w h p Hr) as (x & y & -> & Hx & Hy).
    rewrite cell_of_nat in Hf. rewrite (Hvalue x y Hx Hy).
    unfold seedValue. now rewrite Hf.
  - intros p Hp. destruct (Hinside p Hp) as (x & y & -> & Hx & Hy & Hf & Hv).
    fold st. rewrite Hv.
    pose proof (isEdge_edgePixel contour w h x y Hx Hy Hf) as Hiff.
    destruct (isEdge contour w h x y).
    + split; [lra|]. split; [reflexivity|]. right. exists [].
      split; [apply pathToEdge_here; now apply Hiff | reflexivity].
    + split; [lra|]. split; [|now left].
      intros He. apply Hiff in He. discriminate.
  - intros e He. destruct (Hq e He) as (Hd & Hx & Hy & Hf & Hedge).
    assert (Hep : edgePixel contour w h (entryPixel e)).
    { unfold entryPixel. now apply (isEdge_edgePixel contour w h). }
    split; [apply Hep|]. exists []. split; [now apply pathToEdge_here|].
    simpl. exact Hd.
  - intros p Hp. destruct (Hinside p Hp) as (x & y & -> & Hx & Hy & Hf & Hv).
    destruct (isEdge contour w h x y) eqn:He.
    + left. destruct (In_lookup _ _ (Hin x y Hx Hy Hf He)) as [k Hk].
      exists k, (mkEntry x y 0). split; [lia|]. split; [exact Hk|].
      split; [reflexivity|]. cbn [qdist]. fold st. now rewrite Hv.
    + right. intros q Hadj Hq'.
      destruct (Hinside q Hq') as (x' & y' & -> & _ & _ & _ & Hv').
      fold st. rewrite Hv, Hv'.
      pose proof (stepCost_ge_1 (Z.of_nat x, Z.of_nat y) (Z.of_nat x', Z.of_nat y')).
      destruct (isEdge contour w h x' y'); lra.
Qed.

End Seeded.

(** ** The embedding on sample inputs *)

Section Examples.

Import EdgeProfile DistanceField EdgeProcessor.

Example vertical_opaque_pixel :
  processImageWithEdges 0 (onePixel 10 20 30 200) (mkOptions vertical 5 None)
  = Some (onePixel 255 255 255 200).
Proof. reflexivity. Qed.

Example vertical_faint_pixel :
  processImageWithEdges 0 (onePixel 10 20 30 32) (mkOptions vertical 5 None)
  = Some (onePixel 0 0 0 0).
Proof. reflexivity. Qed.

Example contour_of_one_pixel :
  extractSmartContour (onePixel 10 20 30 33) = [true] /\
  extractSmartContour (onePixel 10 20 30 32) = [false].
Proof. split; reflexivity. Qed.

Example isEdge_3x3 :
  isEdge mask3x3 3 3 0 0 = true /\ isEdge mask3x3 3 3 1 0 = true /\
  isEdge mask3x3 3 3 1 1 = false.
Proof. repeat split; reflexivity. Qed.

(** On the border the smoother reads depth 0 off the raster: both pixels of
    [twoPixels] are near an edge, although they differ by 5 only. *)
Example isEdgePixel_border :
  EdgeSmoother.isEdgePixel twoPixels 0 0 = true /\
  EdgeSmoother.isEdgePixel twoPixels 1 0 = true.
Proof. split; reflexivity. Qed.

(** The outer ring of a shape has depth 0 in the rounded style. *)
Example rounded_depth_at_edge W : 0 < W -> calculateRoundedDepth 0 W = 0%Z.
Proof.
  intros HW.
  destruct (calculateRoundedDepth_band 0 W HW) as [-> _]; [lra|].
  unfold arc, Rdiv. rewrite Rmult_0_l.
  replace (1 - (1 - 0) * (1 - 0)) with 0 by ring.
  rewrite sqrt_0, Rmult_0_r. apply (ZfloorZ 0).
Qed.

(** A single opaque pixel: the queue holds it once, nothing is relaxed,
    whatever the cap. *)
Example distance_field_of_one_pixel maxDistance :
  calculateDistanceFieldFast 1 [true] 1 1 maxDistance = Some [0].
Proof.
  unfold calculateDistanceFieldFast, seeded, for_yx, for_range. simpl.
  unfold seed. simpl. unfold visit. cbn [qdist].
  destruct (Rleb maxDistance 0); reflexivity.
Qed.

Example chamfered_depth_at_edge W angle :
  0 < W -> calculateChamferedDepth 0 W angle = 0%Z.
Proof.
  intros HW. rewrite calculateChamferedDepth_band by lra.
  unfold Rdiv. rewrite !Rmult_0_l. unfold clamp01.
  rewrite Rmin_right by lra. rewrite Rmax_left by lra.
  rewrite Rmult_0_r. apply (ZfloorZ 0).
Qed.

Example chamfered_depth_45 : calculateChamferedDepth 1 2 45 = 127%Z.
Proof.
  rewrite calculateChamferedDepth_band by lra.
  replace (radians 45) with (PI / 4) by (unfold radians; field).
  rewrite tan_PI4, !Rmult_1_r, Rmax_left by lra.
  unfold clamp01. rewrite Rmin_right by lra. rewrite Rmax_right by lra.
  apply Zfloor_eq. simpl. lra.
Qed.

Example rounded_depth_half : calculateRoundedDepth 1 2 = 220%Z.
Proof.
  destruct (calculateRoundedDepth_band 1 2) as [-> _]; [lra | lra |].
  apply Zfloor_eq.
  assert (Ha : (220 / 255) * (220 / 255) <= arc (1 / 2)
               < (221 / 255) * (221 / 255)) by (unfold arc; lra).
  assert (Hs : 220 / 255 <= sqrt (arc (1 / 2)) < 221 / 255).
  { split.
    - rewrite <- (sqrt_square (220 / 255)) by lra. apply sqrt_le_1_alt. lra.
    - rewrite <- (sqrt_square (221 / 255)) by lra.
      apply sqrt_lt_1_alt. unfold arc in *. lra. }
  simpl. lra.
Qed.

Example rounded_one_pixel :
  processImageWithEdges 1 (onePixel 10 20 30 200) (mkOptions rounded 2 None)
  = Some (onePixel 0 0 0 200).
Proof.
  unfold processImageWithEdges. cbn [edgeType edgeWidth].
  change (extractSmartContour (onePixel 10 20 30 200)) with [true].
  cbv zeta. cbn [width height onePixel].
  rewrite distance_field_of_one_pixel.
  unfold for_yx, for_range. simpl fold_left.
  unfold profilePixel. cbn [edgeType edgeWidth width data onePixel].
  change (numAt [0] (0 * 1 + 0)) with 0.
  rewrite (proj2 (Rleb_true 0 0)) by lra.
  rewrite rounded_depth_at_edge by lra. reflexivity.
Qed.

(** The three styles on a single opaque pixel, also with parameters outside
    their documented ranges. *)
Example rounded_zero_width :
  processImageWithEdges 1 (onePixel 0 0 0 255) (mkOptions rounded 0 None)
  = Some (onePixel 255 255 255 255).
Proof.
  unfold processImageWithEdges. cbn [edgeType edgeWidth].
  change (extractSmartContour (onePixel 0 0 0 255)) with [true].
  cbv zeta. cbn [width height onePixel].
  rewrite distance_field_of_one_pixel.
  unfold for_yx, for_range. simpl fold_left.
  unfold profilePixel. cbn [edgeType edgeWidth width data onePixel].
  change (numAt [0] (0 * 1 + 0)) with 0.
  rewrite (proj2 (Rleb_true 0 0)) by lra.
  rewrite calculateRoundedDepth_plateau by lra. reflexivity.
Qed.

Example chamfered_obtuse_angle :
  processImageWithEdges 1 (onePixel 0 0 0 255)
    (mkOptions chamfered 5 (Some 120))
  = Some (onePixel 0 0 0 255).
Proof.
  unfold processImageWithEdges. cbn [edgeType edgeWidth].
  change (extractSmartContour (onePixel 0 0 0 255)) with [true].
  cbv zeta. cbn [width height onePixel].
  rewrite distance_field_of_one_pixel.
  unfold for_yx, for_range. simpl fold_left.
  unfold profilePixel. cbn [edgeType edgeWidth chamferAngle width data onePixel].
  change (numAt [0] (0 * 1 + 0)) with 0.
  rewrite (proj2 (Rleb_true 0 0)) by lra.
  rewrite chamfered_depth_at_edge by lra. reflexivity.
Qed.

Example mesh_grid_sizes :
  MeshBuilder.gridWidth 5 MeshBuilder.high = 3%nat /\
  MeshBuilder.gridWidth 5 MeshBuilder.low = 1%nat /\
  MeshBuilder.gridHeight 16 MeshBuilder.medium = 4%nat.
Proof.
  unfold MeshBuilder.gridWidth, MeshBuilder.gridHeight.
  rewrite !gridSize_div by (simpl; lia). repeat split; reflexivity.
Qed.

(** The 3 by 3 mask: the centre is the only pixel that is not an edge
    pixel, and it is one orthogonal step away from the edge. *)
Lemma mask3x3_centre :
  ~ edgePixel mask3x3 3 3 (1, 1)%Z /\
  pathToEdge mask3x3 3 3 (1, 1)%Z [(1, 0)%Z] /\
  pathLength (1, 1)%Z [(1, 0)%Z] = 1.
Proof.
  split; [|split].
  - intros He.
    apply (isEdge_edgePixel mask3x3 3 3 1 1) in He; try lia; try reflexivity.
    discriminate.
  - split.
    + simpl. split; [|exact I]. unfold adjacent8. simpl.
      split; [congruence | lia].
    + simpl. apply (isEdge_edgePixel mask3x3 3 3 1 0); try lia; reflexivity.
  - simpl. unfold stepCost. simpl. lra.
Qed.

Lemma mask3x3_corner : edgePixel mask3x3 3 3 (0, 0)%Z.
Proof.
  apply (isEdge_edgePixel mask3x3 3 3 0 0); try lia; reflexivity.
Qed.

Lemma mask3x3_centre_distance d :
  clampedShortest mask3x3 3 3 2 (1, 1)%Z d -> d = 1.
Proof.
  intros (_ & Hlow & Hwit).
  destruct mask3x3_centre as (Hne & Hpath & Hlen).
  pose proof (Hlow _ Hpath) as Hle. rewrite Hlen in Hle.
  destruct Hwit as [-> | (rest & Hrest & ->)]; [lra|].
  destruct rest as [|q r].
  - destruct Hrest as [_ He]. simpl in He. contradiction.
  - simpl in *. pose proof (stepCost_ge_1 (1, 1)%Z q).
    pose proof (pathLength_nonneg q r). lra.
Qed.

(** One pass of the 3 by 3 kernel over [twoPixels]: both pixels are on the
    border, are near an edge, and move towards each other. *)
Lemma quarter_threshold z :
  Rltb (IZR z) (30 + 1 / 4 * 70) = (z <? 48)%Z.
Proof.
  destruct (Z.ltb_spec z 48) as [H | H].
  - apply Rltb_true. assert (z <= 47)%Z as H' by lia.
    apply IZR_le in H'. lra.
  - apply Rltb_false. apply IZR_le in H. lra.
Qed.

Lemma quarter_kernel :
  EdgeSmoother.kernelSize (1 / 4) = 1%nat /\
  EdgeSmoother.weights (1 / 4) = [ [1; 2; 1]; [2; 4; 2]; [1; 2; 1] ]%Z.
Proof.
  unfold EdgeSmoother.kernelSize, EdgeSmoother.weights.
  rewrite (proj2 (Rleb_true (1 / 4) (3 / 10))) by lra. auto.
Qed.

Lemma fold_left_pointwise {A B} (f g : A -> B -> A) l a :
  (forall a b, f a b = g a b) -> fold_left f l a = fold_left g l a.
Proof.
  intros H. revert a. induction l as [|b l IH]; intros a; [reflexivity|].
  simpl. rewrite H. apply IH.
Qed.

Lemma getSmoothValue_twoPixels :
  EdgeSmoother.getSmoothValue twoPixels (1 / 4) 0 0 = IZR 610 / IZR 6 /\
  EdgeSmoother.getSmoothValue twoPixels (1 / 4) 1 0 = IZR 620 / IZR 6.
Proof.
  destruct quarter_kernel as [Hk Hw].
  unfold EdgeSmoother.getSmoothValue. rewrite Hk, Hw. cbv zeta.
  split.
  - match goal with |- context [fold_left ?f ?l ?a] =>
      assert (Hs : fold_left f l a = (610, 6)%Z)
    end.
    { etransitivity.
      - apply fold_left_pointwise. intros acc dy.
        apply fold_left_pointwise. intros acc' dx.
        rewrite quarter_threshold. reflexivity.
      - vm_compute. reflexivity. }
    rewrite Hs. reflexivity.
  - match goal with |- context [fold_left ?f ?l ?a] =>
      assert (Hs : fold_left f l a = (620, 6)%Z)
    end.
    { etransitivity.
      - apply fold_left_pointwise. intros acc dy.
        apply fold_left_pointwise. intros acc' dx.
        rewrite quarter_threshold. reflexivity.
      - vm_compute. reflexivity. }
    rewrite Hs. reflexivity.
Qed.

Example smoothing_two_pixels :
  EdgeSmoother.intelligentEdgeSmoothing twoPixels (1 / 4)
  = mkImageData 2 1 [101; 101; 101; 255; 104; 104; 104; 255]%Z.
Proof.
  destruct getSmoothValue_twoPixels as [H0 H1].
  unfold EdgeSmoother.intelligentEdgeSmoothing. cbv zeta.
  replace (Zceil (1 / 4 * 4)) with 1%Z by (symmetry; apply Zceil_eq; simpl; lra).
  change (EdgeSmoother.setAll _ _) with (data twoPixels).
  change (Z.to_nat 1) with 1%nat.
  unfold for_range. change (seq 0 1) with [0%nat]. cbn [fold_left].
  unfold EdgeSmoother.iteration, for_yx, for_range. cbv zeta.
  cbn [height width twoPixels data].
  change (seq 0 1) with [0%nat]. change (seq 0 2) with [0%nat; 1%nat].
  cbn [fold_left].
  unfold EdgeSmoother.smoothPixel.
  change (EdgeSmoother.isEdgePixel twoPixels (Z.of_nat 0) (Z.of_nat 0))
    with true.
  change (EdgeSmoother.isEdgePixel twoPixels (Z.of_nat 1) (Z.of_nat 0))
    with true.
  cbv iota. cbv zeta.
  change (Z.of_nat 0) with 0%Z. change (Z.of_nat 1) with 1%Z.
  rewrite H0, H1.
  replace (sqrt (1 / 4)) with (1 / 2)
    by (rewrite <- (sqrt_square (1 / 2)) at 1 by lra; f_equal; lra).
  cbn [data width twoPixels].
  change (byteAt [100; 100; 100; 255; 105; 105; 105; 255]%Z ((0 * 2 + 0) * 4))
    with 100%Z.
  change (byteAt [100; 100; 100; 255; 105; 105; 105; 255]%Z ((0 * 2 + 1) * 4))
    with 105%Z.
  replace (EdgeSmoother.round (IZR 100 * (1 - 1 / 2) + IZR 610 / IZR 6 * (1 / 2)))
    with 101%Z by (symmetry; apply Zfloor_eq; simpl; lra).
  replace (EdgeSmoother.round (IZR 105 * (1 - 1 / 2) + IZR 620 / IZR 6 * (1 / 2)))
    with 104%Z by (symmetry; apply Zfloor_eq; simpl; lra).
  reflexivity.
Qed.

End Examples.

(** The raster [grey3x3]: well formed, an all-true mask, and its centre
    neither near an edge nor an edge pixel of the mask. *)
Lemma grey3x3_wellFormed : wellFormed grey3x3.
Proof.
  split; [reflexivity|]. unfold grey3x3. simpl. repeat constructor; lia.
Qed.

Lemma grey3x3_centre_not_nearEdge : ~ nearEdge grey3x3 1 1.
Proof.
  intros (dx & dy & Hdx & Hdy & Hne & Hdiff).
  assert (Ex : dx = (-1)%Z \/ dx = 0%Z \/ dx = 1%Z) by lia.
  assert (Ey : dy = (-1)%Z \/ dy = 0%Z \/ dy = 1%Z) by lia.
  destruct Ex as [-> | [-> | ->]]; destruct Ey as [-> | [-> | ->]];
    vm_compute in Hdiff; congruence.
Qed.

Lemma grey3x3_corner_nearEdge : nearEdge grey3x3 0 0.
Proof.
  exists (-1)%Z, (-1)%Z. repeat split; try lia; try congruence.
Qed.

Lemma grey3x3_mask : EdgeProcessor.extractSmartContour grey3x3 = mask3x3.
Proof. reflexivity. Qed.


(** ** The profiles in floating point *)

Lemma tolerance_pos : 0 < tolerance.
Proof. unfold tolerance. lra. Qed.

Lemma tiny_range : 0 < tiny <= 1.
Proof.
  unfold tiny.
  assert (H1 : 1 <= 2 ^ 900) by (apply pow_R1_Rle; lra).
  split; [apply Rinv_0_lt_compat; lra|].
  rewrite <- Rinv_1. apply Rinv_le_contravar; lra.
Qed.

Lemma Rabs_bounds a b : Rabs a <= b -> - b <= a <= b.
Proof. unfold Rabs. destruct (Rcase_abs a); lra. Qed.

(** Two reals less than one apart have floors at most one apart. *)
Lemma Zfloor_near a b :
  Rabs (a - b) < 1 -> (Z.abs (Zfloor a - Zfloor b) <= 1)%Z.
Proof.
  intros H. apply Rabs_def2 in H.
  pose proof (Zfloor_bound a) as Ha. pose proof (Zfloor_bound b) as Hb.
  assert (H1 : (Zfloor a < Zfloor b + 2)%Z).
  { apply lt_IZR. rewrite plus_IZR. lra. }
  assert (H2 : (Zfloor b < Zfloor a + 2)%Z).
  { apply lt_IZR. rewrite plus_IZR. lra. }
  lia.
Qed.

(** The square root is Hoelder-continuous. *)
Lemma sqrt_near a b : 0 <= a -> 0 <= b ->
  Rabs (sqrt a - sqrt b) <= sqrt (Rabs (a - b)).
Proof.
  assert (Hhalf : forall u v, 0 <= v <= u -> sqrt u - sqrt v <= sqrt (u - v)).
  { intros u v [Hv Hu].
    pose proof (sqrt_pos u) as Pu. pose proof (sqrt_pos v) as Pv.
    pose proof (sqrt_pos (u - v)) as Pw.
    pose proof (sqrt_sqrt u ltac:(lra)) as Su.
    pose proof (sqrt_sqrt v Hv) as Sv.
    pose proof (sqrt_sqrt (u - v) ltac:(lra)) as Sw.
    nra. }
  intros Ha Hb. destruct (Rle_dec b a) as [H | H].
  - rewrite (Rabs_pos_eq (a - b)) by lra.
    rewrite Rabs_pos_eq; [apply Hhalf; lra|].
    pose proof (sqrt_le_1_alt b a H). lra.
  - rewrite (Rabs_left (a - b)) by lra.
    assert (Hs : sqrt a <= sqrt b) by (apply sqrt_le_1_alt; lra).
    rewrite Rabs_minus_sym. rewrite Rabs_pos_eq by lra.
    replace (- (a - b)) with (b - a) by lra. apply Hhalf; lra.
Qed.

Lemma sqrt_below c y : 0 <= c -> y <= c * c -> sqrt y <= c.
Proof.
  intros Hc Hy. rewrite <- (sqrt_square c Hc). now apply sqrt_le_1_alt.
Qed.

Section Rounding.

Variable rnd : R -> R.
Hypothesis Hrnd : roundsFaithfully rnd.

Lemma rnd_mono x y : x <= y -> rnd x <= rnd y.
Proof. apply Hrnd. Qed.

Lemma rnd_0 : rnd 0 = 0.
Proof. apply Hrnd. Qed.

Lemma rnd_1 : rnd 1 = 1.
Proof. apply Hrnd. Qed.

Lemma rnd_nonneg x : 0 <= x -> 0 <= rnd x.
Proof. intros H. rewrite <- rnd_0. now apply rnd_mono. Qed.

Lemma rnd_nonpos x : x <= 0 -> rnd x <= 0.
Proof. intros H. rewrite <- rnd_0. now apply rnd_mono. Qed.

Lemma rnd_unit x : 0 <= x <= 1 -> 0 <= rnd x <= 1.
Proof.
  intros [H0 H1]. split; [now apply rnd_nonneg|].
  rewrite <- rnd_1. now apply rnd_mono.
Qed.

Lemma rnd_error x : Rabs (rnd x - x) <= tolerance * (tiny + Rabs x).
Proof. apply Hrnd. Qed.

(** The error on a result of magnitude at most [b]. *)
Lemma rnd_near x b : Rabs x <= b ->
  x - tolerance * (1 + b) <= rnd x <= x + tolerance * (1 + b).
Proof.
  intros Hb. pose proof (rnd_error x) as He.
  pose proof tolerance_pos. pose proof tiny_range.
  assert (Ht : tolerance * (tiny + Rabs x) <= tolerance * (1 + b)) by nra.
  apply Rabs_bounds in He. lra.
Qed.

End Rounding.

(** ** The rounded profile in floating point *)

Section FloatRounded.

Variable rnd : R -> R.
Hypothesis Hrnd : roundsFaithfully rnd.

Local Abbreviation roundedHeight := (roundedHeight rnd).

Lemma float_rounded_unfold d W : d < W ->
  FloatProfile.calculateRoundedDepth rnd d W
  = clampZ (Zfloor (roundedHeight (rnd (d / W)))).
Proof.
  intros H. unfold FloatProfile.calculateRoundedDepth.
  now rewrite (proj2 (Rleb_false W d)) by exact H.
Qed.

Lemma float_rounded_plateau d W :
  W <= d -> FloatProfile.calculateRoundedDepth rnd d W = 255%Z.
Proof.
  intros H. unfold FloatProfile.calculateRoundedDepth.
  now rewrite (proj2 (Rleb_true W d)) by exact H.
Qed.

Lemma float_rounded_range d W :
  (0 <= FloatProfile.calculateRoundedDepth rnd d W <= 255)%Z.
Proof.
  unfold FloatProfile.calculateRoundedDepth.
  destruct (Rleb W d); [lia | apply clampZ_range].
Qed.

(** Every intermediate result stays in the unit interval. *)
Lemma roundedHeight_steps t : 0 <= t <= 1 ->
  let a := rnd (1 - t) in
  let p := rnd (a * a) in
  let x := rnd (1 - p) in
  let s := rnd (sqrt x) in
  (0 <= a <= 1) /\ (0 <= p <= 1) /\ (0 <= x <= 1) /\ (0 <= s <= 1).
Proof.
  intros Ht a p x s.
  assert (Ha : 0 <= a <= 1) by (apply (rnd_unit rnd Hrnd); lra).
  assert (Hp : 0 <= p <= 1) by (apply (rnd_unit rnd Hrnd); nra).
  assert (Hx : 0 <= x <= 1) by (apply (rnd_unit rnd Hrnd); lra).
  assert (Hs : 0 <= s <= 1).
  { apply (rnd_unit rnd Hrnd). split; [apply sqrt_pos|].
    rewrite <- sqrt_1. apply sqrt_le_1_alt. lra. }
  auto.
Qed.

Lemma roundedHeight_mono t1 t2 :
  0 <= t1 <= t2 -> t2 <= 1 -> roundedHeight t1 <= roundedHeight t2.
Proof.
  intros Ht1 Ht2. unfold roundedHeight.
  destruct (roundedHeight_steps t1) as (Ha1 & Hp1 & Hx1 & Hs1); [lra|].
  destruct (roundedHeight_steps t2) as (Ha2 & Hp2 & Hx2 & Hs2); [lra|].
  cbv zeta in *.
  assert (Ha : rnd (1 - t2) <= rnd (1 - t1))
    by (apply (rnd_mono rnd Hrnd); lra).
  assert (Hp : rnd (rnd (1 - t2) * rnd (1 - t2))
               <= rnd (rnd (1 - t1) * rnd (1 - t1)))
    by (apply (rnd_mono rnd Hrnd); nra).
  apply (rnd_mono rnd Hrnd). apply Rmult_le_compat_r; [lra|].
  apply (rnd_mono rnd Hrnd). apply sqrt_le_1_alt.
  apply (rnd_mono rnd Hrnd). lra.
Qed.

Lemma roundedHeight_nonneg t : 0 <= t <= 1 -> 0 <= roundedHeight t.
Proof.
  intros Ht. destruct (roundedHeight_steps t Ht) as (_ & _ & _ & Hs).
  cbv zeta in Hs. unfold roundedHeight.
  apply (rnd_nonneg rnd Hrnd). lra.
Qed.

(** The accumulated error of the six operations. *)
Lemma roundedHeight_near t0 : 0 <= t0 < 1 ->
  Rabs (roundedHeight (rnd t0) - 255 * sqrt (arc t0)) <= 3 / 100.
Proof.
  intros Ht0. pose proof tolerance_pos as Htol.
  assert (Etol : tolerance = 1 / 1000000000) by reflexivity.
  set (t := rnd t0).
  assert (Ht : 0 <= t <= 1) by (apply (rnd_unit rnd Hrnd); lra).
  assert (Et : t0 - 2 * tolerance <= t <= t0 + 2 * tolerance).
  { pose proof (rnd_near rnd Hrnd t0 1) as H.
    rewrite Rabs_pos_eq in H by lra. fold t in H. lra. }
  destruct (roundedHeight_steps t Ht) as (Ha & Hp & Hx & Hs).
  unfold roundedHeight.
  set (a := rnd (1 - t)) in *. set (p := rnd (a * a)) in *.
  set (x := rnd (1 - p)) in *. set (s := rnd (sqrt x)) in *.
  cbv zeta in Ha, Hp, Hx, Hs.
  assert (Ea : (1 - t) - 2 * tolerance <= a <= (1 - t) + 2 * tolerance).
  { pose proof (rnd_near rnd Hrnd (1 - t) 1) as H.
    rewrite Rabs_pos_eq in H by lra. fold a in H. lra. }
  assert (Ep : a * a - 2 * tolerance <= p <= a * a + 2 * tolerance).
  { pose proof (rnd_near rnd Hrnd (a * a) 1) as H.
    rewrite Rabs_pos_eq in H by nra. fold p in H.
    assert (a * a <= 1) by nra. lra. }
  assert (Ex : (1 - p) - 2 * tolerance <= x <= (1 - p) + 2 * tolerance).
  { pose proof (rnd_near rnd Hrnd (1 - p) 1) as H.
    rewrite Rabs_pos_eq in H by lra. fold x in H. lra. }
  assert (Harc : 0 <= arc t0 < 1) by (apply arc_range; lra).
  assert (Exa : Rabs (x - arc t0) <= 12 * tolerance).
  { apply Rabs_le. unfold arc. nra. }
  assert (Hsq : Rabs (sqrt x - sqrt (arc t0)) <= 11 / 100000).
  { eapply Rle_trans; [apply sqrt_near; lra|].
    apply sqrt_below; lra. }
  apply Rabs_bounds in Hsq.
  assert (Hsx : 0 <= sqrt x <= 1).
  { split; [apply sqrt_pos|]. rewrite <- sqrt_1. apply sqrt_le_1_alt. lra. }
  assert (Es : sqrt x - 2 * tolerance <= s <= sqrt x + 2 * tolerance).
  { pose proof (rnd_near rnd Hrnd (sqrt x) 1) as H.
    rewrite Rabs_pos_eq in H by lra. fold s in H. lra. }
  pose proof (rnd_near rnd Hrnd (s * 255) 255) as Eq.
  rewrite Rabs_pos_eq in Eq by lra.
  apply Rabs_le. lra.
Qed.

(** In the band the depth is within one of the floor of the exact
    profile. *)
Lemma float_rounded_near d W : 0 < W -> 0 <= d < W ->
  (Z.abs (FloatProfile.calculateRoundedDepth rnd d W
          - Zfloor (255 * sqrt (arc (d / W)))) <= 1)%Z.
Proof.
  intros HW Hd. rewrite float_rounded_unfold by lra.
  pose proof (ratio_range d W HW Hd) as Ht0.
  pose proof (roundedHeight_near (d / W) Ht0) as Hn.
  assert (Hv : 0 <= 255 * sqrt (arc (d / W)) < 255).
  { pose proof (sqrt_below_1 (arc (d / W)) (arc_range _ Ht0)). lra. }
  assert (Hq : 0 <= roundedHeight (rnd (d / W))).
  { apply roundedHeight_nonneg. apply (rnd_unit rnd Hrnd). lra. }
  assert (Hf : (Z.abs (Zfloor (roundedHeight (rnd (d / W)))
                       - Zfloor (255 * sqrt (arc (d / W)))) <= 1)%Z).
  { apply Zfloor_near. lra. }
  assert (H0 : (0 <= Zfloor (roundedHeight (rnd (d / W))))%Z)
    by (apply (Zfloor_lub 0); exact Hq).
  assert (H1 : (0 <= Zfloor (255 * sqrt (arc (d / W))) < 255)%Z).
  { split; [apply (Zfloor_lub 0); lra|].
    apply lt_IZR. pose proof (Zfloor_bound (255 * sqrt (arc (d / W)))). lra. }
  rewrite clampZ_id by lia. exact Hf.
Qed.

(** The depth is non-decreasing in the distance. *)
Lemma float_rounded_mono d1 d2 W : 0 < W -> 0 <= d1 <= d2 ->
  (FloatProfile.calculateRoundedDepth rnd d1 W
   <= FloatProfile.calculateRoundedDepth rnd d2 W)%Z.
Proof.
  intros HW Hd. destruct (Rle_dec W d2) as [Hp | Hp].
  - rewrite (float_rounded_plateau d2 W Hp). apply float_rounded_range.
  - rewrite !float_rounded_unfold by lra.
    assert (Hr1 : 0 <= d1 / W < 1) by (apply ratio_range; lra).
    assert (Hr2 : 0 <= d2 / W < 1) by (apply ratio_range; lra).
    assert (Hr : d1 / W <= d2 / W) by (apply ratio_mono; lra).
    assert (Hm : roundedHeight (rnd (d1 / W)) <= roundedHeight (rnd (d2 / W))).
    { apply roundedHeight_mono.
      - split; [apply (rnd_nonneg rnd Hrnd); lra|].
        now apply (rnd_mono rnd Hrnd).
      - apply (rnd_unit rnd Hrnd). lra. }
    apply Zfloor_le in Hm. unfold clampZ. lia.
Qed.

End FloatRounded.

(** Without rounding the profiles are the exact ones. *)
Lemma unrounded_faithful : roundsFaithfully unrounded.
Proof.
  unfold roundsFaithfully, unrounded. repeat split; try easy.
  intros x. replace (x - x) with 0 by lra. rewrite Rabs_R0.
  pose proof tolerance_pos. pose proof tiny_range.
  pose proof (Rabs_pos x). nra.
Qed.

Lemma unrounded_calculateRoundedDepth d W :
  FloatProfile.calculateRoundedDepth unrounded d W
  = EdgeProfile.calculateRoundedDepth d W.
Proof. reflexivity. Qed.

Lemma unrounded_calculateChamferedDepth d W angle :
  FloatProfile.calculateChamferedDepth unrounded tan d W angle
  = EdgeProfile.calculateChamferedDepth d W angle.
Proof. reflexivity. Qed.

(** ** The tangent near an angle *)

Lemma sin_abs_le h : Rabs (sin h) <= Rabs h.
Proof.
  assert (Hpos : forall x, 0 <= x -> Rabs (sin x) <= x).
  { intros x Hx. destruct (Rle_dec x 1) as [H1 | H1].
    - destruct (Req_dec x 0) as [-> | Hn].
      + rewrite sin_0, Rabs_R0. lra.
      + assert (H0 : 0 < sin x).
        { apply sin_gt_0; [lra|]. pose proof PI2_1. lra. }
        rewrite Rabs_pos_eq by lra. left. apply sin_lt_x. lra.
    - pose proof (SIN_bound x). apply Rabs_le. lra. }
  destruct (Rle_dec 0 h) as [H | H].
  - rewrite (Rabs_pos_eq h) by exact H. now apply Hpos.
  - rewrite (Rabs_left h) by lra.
    rewrite <- (Rabs_Ropp (sin h)), <- sin_neg. apply Hpos. lra.
Qed.

Lemma cos_near_1 h : 1 - Rabs h <= cos h.
Proof.
  pose proof (sin_abs_le (h / 2)) as Hs. pose proof (SIN_bound (h / 2)) as Hb.
  replace h with (2 * (h / 2)) at 2 by lra. rewrite cos_2a_sin.
  assert (Hh : Rabs (h / 2) = Rabs h / 2).
  { unfold Rdiv. rewrite Rabs_mult, (Rabs_pos_eq (/ 2)); lra. }
  rewrite Hh in Hs. pose proof (Rabs_pos h) as Hp.
  apply Rabs_bounds in Hs.
  destruct (Rle_dec (Rabs h) 1) as [H1 | H1]; [nra|].
  nra.
Qed.

(** Where the tangent is at most 2 it moves by at most 6 times the
    angle. *)
Lemma tan_near x y delta :
  0 <= x < PI / 2 -> 0 <= y < PI / 2 -> tan x <= 2 ->
  Rabs (y - x) <= delta -> delta <= 1 / 1000 ->
  Rabs (tan y - tan x) <= 6 * delta.
Proof.
  intros Hx Hy Ht Hd Hsmall.
  assert (Cx : 0 < cos x) by (apply cos_gt_0; lra).
  assert (Cy : 0 < cos y) by (apply cos_gt_0; lra).
  rewrite tan_diff by lra.
  pose proof (sin2_cos2 x) as Hsc. unfold Rsqr in Hsc.
  assert (Hsx : sin x = tan x * cos x).
  { unfold tan. field. lra. }
  assert (Hcx : 44 / 100 <= cos x).
  { rewrite Hsx in Hsc.
    assert (0 <= tan x).
    { destruct (Req_dec x 0) as [-> | Hn]; [rewrite tan_0; lra|].
      left. apply tan_gt_0; lra. }
    assert (H4 : tan x * tan x <= 4) by nra.
    assert (H5 : tan x * tan x * (cos x * cos x) <= 4 * (cos x * cos x)).
    { apply Rmult_le_compat_r; [nra | exact H4]. }
    assert (H6 : 1 <= 5 * (cos x * cos x)) by lra.
    destruct (Rle_dec (44 / 100) (cos x)) as [Hc | Hc]; [exact Hc|].
    exfalso. nra. }
  pose proof (sin_abs_le (y - x)) as Hsin.
  pose proof (cos_near_1 (y - x)) as Hcos.
  pose proof (COS_bound (y - x)) as Hcb.
  pose proof (SIN_bound x) as Hsb.
  pose proof (Rabs_pos (y - x)) as Hp.
  assert (Hcy : 43 / 100 <= cos y).
  { replace y with (x + (y - x)) by lra. rewrite cos_plus.
    apply Rabs_bounds in Hsin. nra. }
  assert (Hprod : 18 / 100 <= cos y * cos x) by nra.
  assert (Hi : 0 < / (cos y * cos x)) by (apply Rinv_0_lt_compat; nra).
  assert (Hone : (cos y * cos x) * / (cos y * cos x) = 1)
    by (apply Rinv_r; nra).
  unfold Rdiv. rewrite Rabs_mult, (Rabs_pos_eq (/ _)) by lra.
  assert (Hinv : / (cos y * cos x) <= 6) by nra.
  pose proof (Rabs_pos (sin (y - x))).
  nra.
Qed.

Lemma tan_nonneg x : 0 <= x < PI / 2 -> 0 <= tan x.
Proof.
  intros Hx. destruct (Req_dec x 0) as [-> | Hn]; [rewrite tan_0; lra|].
  left. apply tan_gt_0; lra.
Qed.

(** A quotient by a positive number, bounded through its product. *)
Lemma quotient_bounds X K m :
  0 < m -> - (K * m) <= X <= K * m -> - K <= X / m <= K.
Proof.
  intros Hm HX. assert (Hi : 0 < / m) by now apply Rinv_0_lt_compat.
  assert (H1 : m * / m = 1) by (apply Rinv_r; lra).
  unfold Rdiv. split; nra.
Qed.

(** The claimed chamfer profile is the ramp [d / W] scaled by the tangent
    where that is below 1. *)
Lemma chamfer_formula_ramp d W tau :
  0 < W -> 0 <= d < W -> 0 < tau ->
  clamp01 (d * tau / Rmax (W * tau) W) = d / W * Rmin tau 1.
Proof.
  intros HW Hd Htau.
  pose proof (ratio_range d W HW Hd) as Hr.
  assert (Hi : 0 < / W) by now apply Rinv_0_lt_compat.
  assert (Hc : forall v, 0 <= v <= 1 -> clamp01 v = v).
  { intros v Hv. unfold clamp01. rewrite Rmin_right by lra.
    rewrite Rmax_right by lra. reflexivity. }
  destruct (Rle_dec 1 tau) as [H1 | H1].
  - rewrite Rmax_left by nra. rewrite Rmin_right by lra.
    replace (d * tau / (W * tau)) with (d / W) by (field; lra).
    rewrite Hc by lra. lra.
  - rewrite Rmax_right by nra. rewrite Rmin_left by lra.
    replace (d * tau / W) with (d / W * tau) by (field; lra).
    apply Hc. nra.
Qed.

(** ** The chamfered profile in floating point *)

Section FloatChamfered.

Variable rnd : R -> R.
Variable mathTan : R -> R.
Hypothesis Hrnd : roundsFaithfully rnd.
Hypothesis Htan : tangentFaithfully rnd mathTan.

Lemma radians_acute angle : 0 < angle < 90 -> 0 < radians angle < PI / 2.
Proof. intros H. unfold radians. pose proof PI_RGT_0. nra. Qed.

(** The computed radians are within 8 tolerances of the exact ones. *)
Lemma angleRad_near angle : 0 < angle < 90 ->
  let angleRad := rnd (rnd (angle * rnd PI) / 180) in
  0 <= angleRad < PI / 2 /\
  Rabs (angleRad - radians angle) <= 8 * tolerance.
Proof.
  intros Ha angleRad. pose proof tolerance_pos as Htol.
  assert (Etol : tolerance = 1 / 1000000000) by reflexivity.
  pose proof PI_RGT_0 as Hpi0. pose proof PI_4 as Hpi4.
  assert (Hp0 : 0 <= rnd PI) by (apply (rnd_nonneg rnd Hrnd); lra).
  pose proof (rnd_near rnd Hrnd PI 4) as Ep.
  rewrite Rabs_pos_eq in Ep by lra. specialize (Ep Hpi4).
  assert (HA0 : 0 <= angle * rnd PI <= 361) by nra.
  pose proof (rnd_near rnd Hrnd (angle * rnd PI) 361) as EA.
  rewrite Rabs_pos_eq in EA by lra. specialize (EA (proj2 HA0)).
  assert (HA : 0 <= rnd (angle * rnd PI))
    by (apply (rnd_nonneg rnd Hrnd); lra).
  assert (EA' : angle * PI - 812 * tolerance <= rnd (angle * rnd PI)
                <= angle * PI + 812 * tolerance) by nra.
  set (B0 := rnd (angle * rnd PI) / 180) in *.
  assert (HB0 : 0 <= B0 <= 21 / 10) by (unfold B0; nra).
  pose proof (rnd_near rnd Hrnd B0 (21 / 10)) as EB.
  rewrite Rabs_pos_eq in EB by lra. specialize (EB (proj2 HB0)).
  split.
  - split; [apply (rnd_nonneg rnd Hrnd); lra|]. now apply Htan.
  - fold angleRad in EB. apply Rabs_le. unfold radians, B0 in *. lra.
Qed.

(** The computed tangent: near the exact one where that is at most 3/2,
    and well above 1 otherwise. *)
Lemma mathTan_cases angle : 0 < angle < 90 ->
  let T := mathTan (rnd (rnd (angle * rnd PI) / 180)) in
  let tau := tan (radians angle) in
  0 <= T /\
  ((tau <= 3 / 2 /\ Rabs (T - tau) <= 52 * tolerance) \/
   (3 / 2 < tau /\ 139 / 100 < T)).
Proof.
  intros Ha T tau. pose proof tolerance_pos as Htol.
  assert (Etol : tolerance = 1 / 1000000000) by reflexivity.
  destruct (angleRad_near angle Ha) as [Hr Hn]. cbv zeta in Hr, Hn.
  pose proof (radians_acute angle Ha) as Hth.
  set (angleRad := rnd (rnd (angle * rnd PI) / 180)) in *.
  destruct (proj1 Htan angleRad Hr) as [HT0 HT]. fold T in HT0, HT.
  pose proof (tan_nonneg angleRad Hr) as Hu. pose proof tiny_range as Htiny.
  apply Rabs_bounds in HT.
  split; [exact HT0|].
  destruct (Rle_dec tau (3 / 2)) as [Hc | Hc].
  - left. split; [exact Hc|].
    pose proof (tan_near (radians angle) angleRad (8 * tolerance)) as Hclose.
    fold tau in Hclose.
    apply Rabs_bounds in Hclose; [|lra|lra|lra|exact Hn|lra].
    apply Rabs_le. nra.
  - right. split; [lra|].
    assert (Hu14 : 14 / 10 < tan angleRad).
    { destruct (Rlt_dec (14 / 10) (tan angleRad)) as [H | H]; [exact H|].
      exfalso.
      pose proof (tan_near angleRad (radians angle) (8 * tolerance)) as Hclose.
      fold tau in Hclose. rewrite Rabs_minus_sym in Hn.
      apply Rabs_bounds in Hclose; [|lra|lra|lra|exact Hn|lra].
      lra. }
    nra.
Qed.

(** The number that is clamped and floored is within 1/10 of the claimed
    profile. *)
Lemma normalizedHeight_near d W angle :
  tiny <= W -> 0 <= d < W -> 0 < angle < 90 ->
  let T := mathTan (rnd (rnd (angle * rnd PI) / 180)) in
  let maxHeight := rnd (W * T) in
  let currentHeight := rnd (d * T) in
  let normalizedHeight :=
    if Rltb W maxHeight
    then rnd (rnd (currentHeight / maxHeight) * 255)
    else rnd (rnd (currentHeight / W) * 255) in
  Rabs (normalizedHeight - 255 * (d / W * Rmin (tan (radians angle)) 1))
  <= 1 / 10.
Proof.
  intros HW Hd Ha T maxHeight currentHeight normalizedHeight.
  pose proof tolerance_pos as Htol. pose proof tiny_range as Htiny.
  assert (Etol : tolerance = 1 / 1000000000) by reflexivity.
  destruct (mathTan_cases angle Ha) as [HT0 Hcases]. cbv zeta in HT0, Hcases.
  fold T in HT0, Hcases.
  set (tau := tan (radians angle)) in *.
  assert (HW0 : 0 < W) by lra.
  pose proof (ratio_range d W HW0 Hd) as Hr.
  set (r0 := d / W) in *.
  assert (Ed : d = r0 * W) by (unfold r0; field; lra).
  assert (Htau : 0 < tau).
  { unfold tau. apply tan_gt_0; apply (radians_acute angle Ha). }
  (* the two products *)
  pose proof (rnd_error rnd Hrnd (W * T)) as EM.
  rewrite (Rabs_pos_eq (W * T)) in EM by (apply Rmult_le_pos; lra).
  fold maxHeight in EM.
  apply Rabs_bounds in EM.
  pose proof (rnd_error rnd Hrnd (d * T)) as EC.
  rewrite (Rabs_pos_eq (d * T)) in EC by (apply Rmult_le_pos; lra).
  fold currentHeight in EC.
  apply Rabs_bounds in EC.
  assert (HC : 0 <= d * T <= W * T) by nra.
  (* the last two operations, from a quotient near [q] *)
  assert (Hlast : forall r q, 0 <= q <= 2 ->
            - (5 * tolerance) <= r - q <= 5 * tolerance ->
            Rabs (rnd (rnd r * 255) - 255 * q) <= 4000 * tolerance).
  { intros r q Hq Hrq.
    pose proof (rnd_near rnd Hrnd r 3) as E1.
    assert (Hr3 : Rabs r <= 3) by (apply Rabs_le; lra).
    specialize (E1 Hr3).
    pose proof (rnd_near rnd Hrnd (rnd r * 255) 1000) as E2.
    assert (Hq3 : Rabs (rnd r * 255) <= 1000) by (apply Rabs_le; lra).
    specialize (E2 Hq3). apply Rabs_le. lra. }
  unfold normalizedHeight.
  destruct (Rltb W maxHeight) eqn:Eb.
  - (* the tangent is above 1: the ramp [d / W] *)
    apply Rltb_true in Eb.
    assert (HT1 : 1 - 2 * tolerance < T) by nra.
    assert (Hquot : - (5 * tolerance) <= currentHeight / maxHeight - r0
                    <= 5 * tolerance).
    { replace (currentHeight / maxHeight - r0)
        with ((currentHeight - r0 * maxHeight) / maxHeight)
        by (field; lra).
      apply quotient_bounds; [lra|].
      assert (HM : W * T <= (1 + 3 * tolerance) * maxHeight) by nra.
      replace (d * T) with (r0 * (W * T)) in EC by (rewrite Ed; ring).
      nra. }
    pose proof (Hlast _ r0 ltac:(lra) Hquot) as Hn.
    apply Rabs_bounds in Hn.
    assert (Hmin : 1 - 54 * tolerance <= Rmin tau 1 <= 1).
    { split; [|apply Rmin_r].
      apply Rmin_glb; [|lra].
      destruct Hcases as [[_ Hc] | [Hc _]]; [|lra].
      apply Rabs_bounds in Hc. lra. }
    apply Rabs_le. nra.
  - (* the tangent is at most 1: the ramp scaled by it *)
    apply Rltb_false in Eb.
    assert (HT1 : T <= 1 + 3 * tolerance) by nra.
    destruct Hcases as [[Hc1 Hc] | [_ Hc]]; [|lra].
    apply Rabs_bounds in Hc.
    assert (Hquot : - (5 * tolerance) <= currentHeight / W - r0 * T
                    <= 5 * tolerance).
    { replace (currentHeight / W - r0 * T)
        with ((currentHeight - d * T) / W) by (unfold r0; field; lra).
      apply quotient_bounds; [lra|]. nra. }
    assert (Hq : 0 <= r0 * T <= 2) by nra.
    pose proof (Hlast _ (r0 * T) Hq Hquot) as Hn.
    apply Rabs_bounds in Hn.
    assert (Hmin : - (52 * tolerance) <= T - Rmin tau 1 <= 52 * tolerance).
    { destruct (Rle_dec tau 1) as [H | H].
      - rewrite Rmin_left by exact H. lra.
      - rewrite Rmin_right by lra. lra. }
    apply Rabs_le. nra.
Qed.

Lemma float_chamfered_plateau d W angle :
  W <= d -> FloatProfile.calculateChamferedDepth rnd mathTan d W angle = 255%Z.
Proof.
  intros H. unfold FloatProfile.calculateChamferedDepth.
  now rewrite (proj2 (Rleb_true W d)) by exact H.
Qed.

(** In the band the depth is within one of the floor of the claimed
    profile. *)
Lemma float_chamfered_near d W angle :
  tiny <= W -> 0 <= d < W -> 0 < angle < 90 ->
  (Z.abs (FloatProfile.calculateChamferedDepth rnd mathTan d W angle
          - Zfloor (255 * clamp01 (d * tan (radians angle)
                                   / Rmax (W * tan (radians angle)) W)))
   <= 1)%Z.
Proof.
  intros HW Hd Ha. pose proof tiny_range as Htiny.
  assert (HW0 : 0 < W) by lra.
  assert (Htau : 0 < tan (radians angle)).
  { apply tan_gt_0; apply (radians_acute angle Ha). }
  rewrite chamfer_formula_ramp by assumption.
  unfold FloatProfile.calculateChamferedDepth.
  rewrite (proj2 (Rleb_false W d)) by lra.
  pose proof (normalizedHeight_near d W angle HW Hd Ha) as Hn.
  cbv zeta in Hn. apply Rabs_bounds in Hn.
  set (N := if Rltb W _ then _ else _) in *.
  pose proof (ratio_range d W HW0 Hd) as Hr.
  set (F := d / W * Rmin (tan (radians angle)) 1) in *.
  assert (HF : 0 <= F < 1).
  { unfold F. pose proof (Rmin_r (tan (radians angle)) 1).
    assert (0 < Rmin (tan (radians angle)) 1) by (apply Rmin_glb_lt; lra).
    nra. }
  apply Zfloor_near. apply Rabs_def1.
  - unfold Rmax, Rmin. repeat destruct (Rle_dec _ _); lra.
  - unfold Rmax, Rmin. repeat destruct (Rle_dec _ _); lra.
Qed.

End FloatChamfered.

(** A width that is not extreme. *)
Lemma moderate_width W : 1 <= W <= 1000 -> tiny <= W <= / tiny.
Proof.
  intros HW. pose proof tiny_range. split; [lra|].
  unfold tiny. rewrite Rinv_inv.
  assert (H1 : 2 ^ 10 <= 2 ^ 900) by (apply Rle_pow; [lra | lia]).
  assert (H2 : 2 ^ 10 = 1024) by (simpl; lra).
  lra.
Qed.

(** ** Binary64 rounding is faithful *)

Section Binary64Rounding.

Import Binary64.

Lemma powerRZ_exp z : powerRZ 2 z = exp (IZR z * ln 2).
Proof. rewrite powerRZ_Rpower by lra. reflexivity. Qed.

Lemma ln2_pos : 0 < ln 2.
Proof. rewrite <- ln_1. apply ln_increasing; lra. Qed.

Lemma powerRZ_pos z : 0 < powerRZ 2 z.
Proof. apply powerRZ_lt. lra. Qed.

Lemma powerRZ_mono a b : (a <= b)%Z -> powerRZ 2 a <= powerRZ 2 b.
Proof.
  intros H. rewrite !powerRZ_exp. apply IZR_le in H.
  pose proof ln2_pos as Hl.
  destruct (Req_dec (IZR a) (IZR b)) as [-> | Hne]; [lra|].
  left. apply exp_increasing. nra.
Qed.

Lemma powerRZ_split a b : powerRZ 2 (a + b) = powerRZ 2 a * powerRZ 2 b.
Proof. apply powerRZ_add. lra. Qed.

Lemma powerRZ_IZR n : (0 <= n)%Z -> powerRZ 2 n = IZR (2 ^ n).
Proof.
  intros Hn. rewrite <- (Z2Nat.id n Hn) at 1. rewrite <- pow_powerRZ.
  rewrite pow_IZR, Z2Nat.id by exact Hn. reflexivity.
Qed.

(** The binade of a positive number. *)
Lemma floorLog2_bounds x : 0 < x ->
  powerRZ 2 (floorLog2 x) <= x < powerRZ 2 (floorLog2 x + 1).
Proof.
  intros Hx. unfold floorLog2. pose proof ln2_pos as Hl.
  pose proof (Zfloor_bound (ln x / ln 2)) as [H0 H1].
  set (L := Zfloor (ln x / ln 2)) in *.
  assert (Hq : ln x / ln 2 * ln 2 = ln x) by (field; lra).
  assert (Ex : x = exp (ln x)) by (symmetry; now apply exp_ln).
  rewrite !powerRZ_exp, plus_IZR.
  split; rewrite Ex.
  - destruct (Req_dec (IZR L * ln 2) (ln x)) as [-> | Hne]; [lra|].
    left. apply exp_increasing. nra.
  - apply exp_increasing. nra.
Qed.

Lemma floorLog2_mono x y : 0 < x -> x <= y -> (floorLog2 x <= floorLog2 y)%Z.
Proof.
  intros Hx Hxy. unfold floorLog2. apply Zfloor_le.
  pose proof ln2_pos as Hl.
  assert (Hln : ln x <= ln y).
  { destruct (Req_dec x y) as [-> | Hne]; [lra|].
    left. apply ln_increasing; lra. }
  unfold Rdiv. apply Rmult_le_compat_r; [|exact Hln].
  left. now apply Rinv_0_lt_compat.
Qed.

Lemma ulpExponent_mono x y :
  0 < x -> x <= y -> (ulpExponent x <= ulpExponent y)%Z.
Proof.
  intros Hx Hxy. unfold ulpExponent.
  pose proof (floorLog2_mono x y Hx Hxy). lia.
Qed.

(** A positive number is below [2^53] units in its last place, and a normal
    one is at least [2^52] of them. *)
Lemma ulpExponent_above x : 0 < x -> x < powerRZ 2 (ulpExponent x + 53).
Proof.
  intros Hx. destruct (floorLog2_bounds x Hx) as [_ H].
  eapply Rlt_le_trans; [exact H|]. apply powerRZ_mono.
  unfold ulpExponent. lia.
Qed.

Lemma ulpExponent_below x : 0 < x -> (-1074 < ulpExponent x)%Z ->
  powerRZ 2 (ulpExponent x + 52) <= x.
Proof.
  intros Hx Hn. destruct (floorLog2_bounds x Hx) as [H _].
  eapply Rle_trans; [|exact H]. apply powerRZ_mono.
  unfold ulpExponent in *. lia.
Qed.

(** Rounding to the nearest integer. *)
Lemma nearestEven_cases m :
  (nearestEven m = Zfloor m /\ m - IZR (Zfloor m) <= 1 / 2) \/
  (nearestEven m = (Zfloor m + 1)%Z /\ 1 / 2 <= m - IZR (Zfloor m)).
Proof.
  unfold nearestEven. cbv zeta.
  destruct (Rltb (m - IZR (Zfloor m)) (1 / 2)) eqn:E1.
  { apply Rltb_true in E1. left. split; [reflexivity | lra]. }
  apply Rltb_false in E1.
  destruct (Rltb (1 / 2) (m - IZR (Zfloor m))) eqn:E2.
  { right. split; [reflexivity | lra]. }
  apply Rltb_false in E2.
  destruct (Z.even (Zfloor m)); [left | right]; split; auto; lra.
Qed.

Lemma nearestEven_near m : Rabs (IZR (nearestEven m) - m) <= 1 / 2.
Proof.
  pose proof (Zfloor_bound m) as Hb.
  destruct (nearestEven_cases m) as [[-> H] | [-> H]];
    [|rewrite plus_IZR]; apply Rabs_le; lra.
Qed.

Lemma nearestEven_IZR k : nearestEven (IZR k) = k.
Proof.
  unfold nearestEven. rewrite ZfloorZ. cbv zeta.
  rewrite (proj2 (Rltb_true _ _)) by lra. reflexivity.
Qed.

Lemma nearestEven_mono m m' : m <= m' -> (nearestEven m <= nearestEven m')%Z.
Proof.
  intros H. pose proof (Zfloor_le m m' H) as Hf.
  destruct (Z.eq_dec (Zfloor m) (Zfloor m')) as [He | Hne].
  - unfold nearestEven. cbv zeta. rewrite <- He.
    destruct (Rltb (m - IZR (Zfloor m)) (1 / 2)) eqn:E1.
    { destruct (Rltb (m' - _) _); [lia|].
      destruct (Rltb _ (m' - _)); [lia|]. destruct (Z.even _); lia. }
    apply Rltb_false in E1.
    rewrite (proj2 (Rltb_false (m' - IZR (Zfloor m)) (1 / 2))) by lra.
    destruct (Rltb (1 / 2) (m - IZR (Zfloor m))) eqn:E2.
    { apply Rltb_true in E2.
      rewrite (proj2 (Rltb_true (1 / 2) (m' - IZR (Zfloor m)))) by lra. lia. }
    destruct (Rltb (1 / 2) (m' - IZR (Zfloor m))); [|lia].
    destruct (Z.even _); lia.
  - destruct (nearestEven_cases m) as [[-> _] | [-> _]];
      destruct (nearestEven_cases m') as [[-> _] | [-> _]]; lia.
Qed.

(** Rounding of the positive numbers. *)
Lemma roundPositive_error x : 0 < x ->
  Rabs (roundPositive x - x) <= powerRZ 2 (ulpExponent x) / 2.
Proof.
  intros Hx. unfold roundPositive. cbv zeta.
  set (u := powerRZ 2 (ulpExponent x)).
  assert (Hu : 0 < u) by apply powerRZ_pos.
  pose proof (nearestEven_near (x / u)) as Hn.
  replace (IZR (nearestEven (x / u)) * u - x)
    with ((IZR (nearestEven (x / u)) - x / u) * u) by (field; lra).
  rewrite Rabs_mult, (Rabs_pos_eq u) by lra.
  pose proof (Rabs_pos (IZR (nearestEven (x / u)) - x / u)). nra.
Qed.

Lemma roundPositive_le_power x k : 0 < x -> (ulpExponent x <= k)%Z ->
  x <= powerRZ 2 k -> roundPositive x <= powerRZ 2 k.
Proof.
  intros Hx Hk Hle. unfold roundPositive. cbv zeta.
  set (c := ulpExponent x) in *. set (u := powerRZ 2 c).
  assert (Hu : 0 < u) by apply powerRZ_pos.
  assert (Ek : powerRZ 2 k = IZR (2 ^ (k - c)) * u).
  { rewrite <- powerRZ_IZR by lia. unfold u. rewrite <- powerRZ_split.
    f_equal. lia. }
  rewrite Ek. apply Rmult_le_compat_r; [lra|]. apply IZR_le.
  rewrite <- (nearestEven_IZR (2 ^ (k - c))). apply nearestEven_mono.
  apply Rmult_le_reg_r with u; [exact Hu|].
  replace (x / u * u) with x by (field; lra). lra.
Qed.

Lemma roundPositive_ge_power x k : 0 < x -> (ulpExponent x <= k)%Z ->
  powerRZ 2 k <= x -> powerRZ 2 k <= roundPositive x.
Proof.
  intros Hx Hk Hle. unfold roundPositive. cbv zeta.
  set (c := ulpExponent x) in *. set (u := powerRZ 2 c).
  assert (Hu : 0 < u) by apply powerRZ_pos.
  assert (Ek : powerRZ 2 k = IZR (2 ^ (k - c)) * u).
  { rewrite <- powerRZ_IZR by lia. unfold u. rewrite <- powerRZ_split.
    f_equal. lia. }
  rewrite Ek. apply Rmult_le_compat_r; [lra|]. apply IZR_le.
  rewrite <- (nearestEven_IZR (2 ^ (k - c))). apply nearestEven_mono.
  apply Rmult_le_reg_r with u; [exact Hu|].
  replace (x / u * u) with x by (field; lra). lra.
Qed.

Lemma roundPositive_nonneg x : 0 < x -> 0 <= roundPositive x.
Proof.
  intros Hx. unfold roundPositive. cbv zeta.
  set (u := powerRZ 2 (ulpExponent x)).
  assert (Hu : 0 < u) by apply powerRZ_pos.
  apply Rmult_le_pos; [|lra]. apply IZR_le.
  rewrite <- (nearestEven_IZR 0). apply nearestEven_mono.
  apply Rmult_le_reg_r with u; [exact Hu|].
  replace (x / u * u) with x by (field; lra). lra.
Qed.

Lemma roundPositive_mono x y :
  0 < x -> x <= y -> roundPositive x <= roundPositive y.
Proof.
  intros Hx Hxy.
  pose proof (ulpExponent_mono x y Hx Hxy) as Hc.
  destruct (Z.eq_dec (ulpExponent x) (ulpExponent y)) as [He | Hne].
  - unfold roundPositive. cbv zeta. rewrite He.
    set (u := powerRZ 2 (ulpExponent y)).
    assert (Hu : 0 < u) by apply powerRZ_pos.
    apply Rmult_le_compat_r; [lra|]. apply IZR_le, nearestEven_mono.
    unfold Rdiv. apply Rmult_le_compat_r; [|exact Hxy].
    left. now apply Rinv_0_lt_compat.
  - set (k := (ulpExponent y + 52)%Z).
    pose proof (ulpExponent_above x Hx) as Ha.
    assert (Hy : (-1074 < ulpExponent y)%Z)
      by (unfold ulpExponent in *; lia).
    pose proof (ulpExponent_below y ltac:(lra) Hy) as Hb. fold k in Hb.
    assert (Hk : powerRZ 2 (ulpExponent x + 53) <= powerRZ 2 k)
      by (apply powerRZ_mono; unfold k; lia).
    apply Rle_trans with (powerRZ 2 k).
    + apply roundPositive_le_power; [exact Hx | unfold k; lia | lra].
    + apply roundPositive_ge_power; [lra | unfold k; lia | exact Hb].
Qed.

Lemma roundPositive_1 : roundPositive 1 = 1.
Proof.
  assert (Hc : ulpExponent 1 = (-52)%Z).
  { unfold ulpExponent, floorLog2. rewrite ln_1.
    replace (0 / ln 2) with (IZR 0) by (unfold Rdiv; ring).
    rewrite ZfloorZ. reflexivity. }
  unfold roundPositive. cbv zeta. rewrite Hc.
  assert (Hu : powerRZ 2 (-52) * IZR (2 ^ 52) = 1).
  { rewrite <- (powerRZ_IZR 52) by lia. rewrite <- powerRZ_split.
    reflexivity. }
  assert (Hp : 0 < powerRZ 2 (-52)) by apply powerRZ_pos.
  replace (1 / powerRZ 2 (-52)) with (IZR (2 ^ 52)).
  - rewrite nearestEven_IZR. lra.
  - apply Rmult_eq_reg_l with (powerRZ 2 (-52)); [|lra].
    rewrite Hu. field. lra.
Qed.

(** The error of one rounding is within the tolerance. *)
Lemma roundPositive_tolerance x : 0 < x ->
  Rabs (roundPositive x - x) <= tolerance * (tiny + x).
Proof.
  intros Hx. pose proof (roundPositive_error x Hx) as He.
  pose proof tolerance_pos as Htol. pose proof tiny_range as Htiny.
  assert (H30 : powerRZ 2 (-30) <= tolerance).
  { change (-30)%Z with (- Z.of_nat 30)%Z.
    rewrite powerRZ_neg', <- pow_powerRZ by lra.
    assert (H : 1000000000 <= 2 ^ 30) by (simpl; lra).
    unfold tolerance, Rdiv. rewrite Rmult_1_l.
    apply Rinv_le_contravar; lra. }
  destruct (Z.eq_dec (ulpExponent x) (-1074)%Z) as [Hs | Hn].
  - rewrite Hs in He.
    assert (Hu : powerRZ 2 (-1074) <= tolerance * tiny).
    { replace (-1074)%Z with (-174 + - Z.of_nat 900)%Z by lia.
      rewrite powerRZ_split, powerRZ_neg', <- pow_powerRZ by lra.
      fold tiny.
      pose proof (powerRZ_mono (-174) (-30) ltac:(lia)).
      pose proof (powerRZ_pos (-174)). nra. }
    pose proof (powerRZ_pos (-1074)). nra.
  - assert (Hc : (-1074 < ulpExponent x)%Z) by (unfold ulpExponent in *; lia).
    pose proof (ulpExponent_below x Hx Hc) as Hb.
    rewrite Z.add_comm, powerRZ_split in Hb.
    assert (H52 : powerRZ 2 52 = IZR (2 ^ 52)) by (apply powerRZ_IZR; lia).
    rewrite H52 in Hb.
    assert (Hbig : 2 * 1000000000 <= IZR (2 ^ 52)).
    { change (2 * 1000000000) with (IZR 2 * IZR 1000000000).
      rewrite <- mult_IZR. apply IZR_le. vm_compute. discriminate. }
    pose proof (powerRZ_pos (ulpExponent x)) as Hp.
    unfold tolerance in *. nra.
Qed.

(** Binary64 rounding is a faithful rounding. *)
Lemma binary64_faithful : roundsFaithfully round.
Proof.
  assert (Hpos : forall x, 0 < x -> round x = roundPositive x).
  { intros x Hx. unfold round.
    now rewrite (proj2 (Rltb_true 0 x)) by exact Hx. }
  assert (Hneg : forall x, x < 0 -> round x = - roundPositive (- x)).
  { intros x Hx. unfold round.
    rewrite (proj2 (Rltb_false 0 x)) by lra.
    now rewrite (proj2 (Rltb_true x 0)) by exact Hx. }
  assert (H0 : round 0 = 0).
  { unfold round. now rewrite !(proj2 (Rltb_false 0 0)) by lra. }
  split; [|split; [exact H0 | split]].
  - intros x y Hxy.
    destruct (Rlt_dec 0 x) as [Hx | Hx].
    + rewrite !Hpos by lra. now apply roundPositive_mono.
    + destruct (Rlt_dec x 0) as [Hx' | Hx'].
      * rewrite (Hneg x Hx').
        pose proof (roundPositive_nonneg (- x) ltac:(lra)) as Hn.
        destruct (Rlt_dec 0 y) as [Hy | Hy].
        { rewrite Hpos by exact Hy.
          pose proof (roundPositive_nonneg y Hy). lra. }
        destruct (Rlt_dec y 0) as [Hy' | Hy'].
        { rewrite (Hneg y Hy').
          pose proof (roundPositive_mono (- y) (- x) ltac:(lra) ltac:(lra)).
          lra. }
        replace y with 0 by lra. rewrite H0. lra.
      * replace x with 0 by lra. rewrite H0.
        destruct (Rlt_dec 0 y) as [Hy | Hy].
        { rewrite Hpos by exact Hy. now apply roundPositive_nonneg. }
        replace y with 0 by lra. rewrite H0. lra.
  - rewrite Hpos by lra. exact roundPositive_1.
  - intros x. destruct (Rlt_dec 0 x) as [Hx | Hx].
    + rewrite Hpos by exact Hx. rewrite (Rabs_pos_eq x) by lra.
      now apply roundPositive_tolerance.
    + destruct (Rlt_dec x 0) as [Hx' | Hx'].
      * rewrite (Hneg x Hx'). rewrite (Rabs_left x) by exact Hx'.
        replace (- roundPositive (- x) - x)
          with (- (roundPositive (- x) - - x)) by ring.
        rewrite Rabs_Ropp. apply roundPositive_tolerance. lra.
      * replace x with 0 by lra. rewrite H0.
        replace (0 - 0) with 0 by ring. rewrite Rabs_R0.
        pose proof tolerance_pos. pose proof tiny_range. nra.
Qed.

End Binary64Rounding.

(** ** Evaluating binary64 rounding *)

Section Binary64Evaluation.

Import Binary64.

Lemma floorLog2_unique x e :
  powerRZ 2 e <= x < powerRZ 2 (e + 1) -> floorLog2 x = e.
Proof.
  intros [Hlo Hhi]. pose proof (powerRZ_pos e) as Hp.
  destruct (floorLog2_bounds x ltac:(lra)) as [Llo Lhi].
  destruct (Z_lt_le_dec (floorLog2 x) e) as [H | H].
  - pose proof (powerRZ_mono (floorLog2 x + 1) e ltac:(lia)). lra.
  - destruct (Z_lt_le_dec e (floorLog2 x)) as [H' | H']; [|lia].
    pose proof (powerRZ_mono (e + 1) (floorLog2 x) ltac:(lia)). lra.
Qed.

Lemma nearestEven_at m n : Rabs (m - IZR n) < 1 / 2 -> nearestEven m = n.
Proof.
  intros H. pose proof (nearestEven_near m) as Hn.
  apply Rabs_def2 in H. apply Rabs_bounds in Hn.
  assert (H1 : (nearestEven m < n + 1)%Z)
    by (apply lt_IZR; rewrite plus_IZR; lra).
  assert (H2 : (n < nearestEven m + 1)%Z)
    by (apply lt_IZR; rewrite plus_IZR; lra).
  lia.
Qed.

Lemma nearestEven_tie f :
  nearestEven (IZR f + 1 / 2) = if Z.even f then f else (f + 1)%Z.
Proof.
  assert (Hf : Zfloor (IZR f + 1 / 2) = f) by (apply Zfloor_eq; lra).
  unfold nearestEven. cbv zeta. rewrite Hf.
  rewrite (proj2 (Rltb_false _ _)) by lra.
  rewrite (proj2 (Rltb_false _ _)) by lra. reflexivity.
Qed.

Lemma powerRZ_inv_pow (k : nat) : powerRZ 2 (- Z.of_nat k) = / 2 ^ k.
Proof. rewrite powerRZ_neg', <- pow_powerRZ by lra. reflexivity. Qed.

(** The unit in the last place of a normal number scaled into
    [[2^52, 2^53)] by [2^k]. *)
Lemma ulpExponent_at x (k : nat) :
  (k <= 1074)%nat -> 2 ^ 52 <= x * 2 ^ k < 2 ^ 53 ->
  0 < x /\ powerRZ 2 (ulpExponent x) = / 2 ^ k.
Proof.
  intros Hk [Hlo Hhi].
  assert (Hp : 0 < 2 ^ k) by (apply pow_lt; lra).
  assert (Hi : 0 < / 2 ^ k) by now apply Rinv_0_lt_compat.
  assert (H1 : 2 ^ k * / 2 ^ k = 1) by (apply Rinv_r; lra).
  assert (H52 : 0 < 2 ^ 52) by (apply pow_lt; lra).
  assert (Hx : 0 < x) by nra.
  split; [exact Hx|].
  assert (He : floorLog2 x = (- Z.of_nat k + 52)%Z).
  { apply floorLog2_unique.
    replace (- Z.of_nat k + 52 + 1)%Z with (- Z.of_nat k + Z.of_nat 53)%Z
      by lia.
    change 52%Z with (Z.of_nat 52).
    rewrite !powerRZ_split, powerRZ_inv_pow, <- !pow_powerRZ.
    split; nra. }
  unfold ulpExponent. rewrite He.
  replace (Z.max (-1074) (- Z.of_nat k + 52 - 52)) with (- Z.of_nat k)%Z
    by lia.
  apply powerRZ_inv_pow.
Qed.

(** Rounding to the nearest multiple [n / 2^k] of the unit in the last
    place. *)
Lemma round_to x (k : nat) (n : Z) :
  (k <= 1074)%nat -> 2 ^ 52 <= x * 2 ^ k < 2 ^ 53 ->
  Rabs (x * 2 ^ k - IZR n) < 1 / 2 ->
  round x = IZR n / 2 ^ k.
Proof.
  intros Hk Hr Hn. destruct (ulpExponent_at x k Hk Hr) as [Hx Hu].
  assert (Hp : 0 < 2 ^ k) by (apply pow_lt; lra).
  unfold round. rewrite (proj2 (Rltb_true 0 x)) by exact Hx.
  unfold roundPositive. cbv zeta. rewrite Hu.
  replace (x / / 2 ^ k) with (x * 2 ^ k) by (field; lra).
  rewrite (nearestEven_at _ n Hn). reflexivity.
Qed.

(** Rounding a number halfway between two multiples. *)
Lemma round_tie x (k : nat) (f : Z) :
  (k <= 1074)%nat -> 2 ^ 52 <= x * 2 ^ k < 2 ^ 53 ->
  x * 2 ^ k = IZR f + 1 / 2 ->
  round x = IZR (if Z.even f then f else (f + 1)%Z) / 2 ^ k.
Proof.
  intros Hk Hr Hn. destruct (ulpExponent_at x k Hk Hr) as [Hx Hu].
  assert (Hp : 0 < 2 ^ k) by (apply pow_lt; lra).
  unfold round. rewrite (proj2 (Rltb_true 0 x)) by exact Hx.
  unfold roundPositive. cbv zeta. rewrite Hu.
  replace (x / / 2 ^ k) with (x * 2 ^ k) by (field; lra).
  rewrite Hn, nearestEven_tie. reflexivity.
Qed.

End Binary64Evaluation.

(** ** [Math.PI] and the radians of 45 and 90 degrees *)

Section Binary64Angles.

Import Binary64.

(** [pi] to 18 decimals, from Machin's formula. *)
Lemma PI_digits :
  3141592653589793238 / 1000000000000000000 < PI
  < 3141592653589793239 / 1000000000000000000.
Proof.
  pose proof (PI_2_3_7_ineq 10) as H.
  unfold PI_2_3_7_tg, tg_alt, Ratan_seq in H. simpl in H. lra.
Qed.

Lemma round_PI : round PI = 7074237752028440 / 2 ^ 51.
Proof. pose proof PI_digits. dyadic round_to 51%nat 7074237752028440%Z. Qed.

Lemma radians_45 :
  round (round (45 * round PI) / 180) = 7074237752028440 / 2 ^ 53.
Proof.
  rewrite round_PI.
  replace (round (45 * (7074237752028440 / 2 ^ 51)))
    with (4974073419394997 / 2 ^ 45)
    by (symmetry; dyadic round_to 45%nat 4974073419394997%Z).
  dyadic round_to 53%nat 7074237752028440%Z.
Qed.

Lemma radians_90 :
  round (round (90 * round PI) / 180) = 7074237752028440 / 2 ^ 52.
Proof.
  rewrite round_PI.
  replace (round (90 * (7074237752028440 / 2 ^ 51)))
    with (4974073419394997 / 2 ^ 44)
    by (symmetry; dyadic round_to 44%nat 4974073419394997%Z).
  dyadic round_to 52%nat 7074237752028440%Z.
Qed.

End Binary64Angles.

(** ** The binary64 tangent *)

Section Binary64Tangent.

Import Binary64.

Lemma round_nonneg x : 0 <= x -> 0 <= round x.
Proof. apply (rnd_nonneg round binary64_faithful). Qed.

(** Binary64 arithmetic with a correctly rounded tangent is a faithful
    arithmetic. *)
Lemma binary64_tangent : tangentFaithfully round mathTan.
Proof.
  split.
  - intros x Hx. pose proof (tan_nonneg x Hx) as Ht. unfold mathTan.
    split; [now apply round_nonneg|].
    pose proof (rnd_error round binary64_faithful (tan x)) as He.
    now rewrite (Rabs_pos_eq (tan x)) in He by exact Ht.
  - intros angle Ha. pose proof PI_digits as Hpi.
    assert (Hp : 0 <= round PI) by (apply round_nonneg; lra).
    assert (H1 : round (angle * round PI) <= round (90 * round PI)).
    { apply (rnd_mono round binary64_faithful). nra. }
    assert (H2 : round (round (angle * round PI) / 180)
                 <= round (round (90 * round PI) / 180)).
    { apply (rnd_mono round binary64_faithful). lra. }
    rewrite radians_90 in H2. cbn [pow] in H2. lra.
Qed.

(** The tangent just below [pi / 4]. *)
Lemma sin_lower a : 0 <= a <= 1 -> a - a * a * a / 6 <= sin a.
Proof.
  intros Ha. pose proof PI2_1 as Hpi.
  destruct (SIN a) as [H _]; [lra | lra |].
  unfold sin_lb, sin_approx, sin_term in H. simpl in H.
  assert (H5 : 0 <= a * a * a * a * a) by (repeat apply Rmult_le_pos; lra).
  assert (H2 : a * a <= 1) by nra.
  assert (H7 : a * a * a * a * a * (a * a) <= a * a * a * a * a * 1)
    by (apply Rmult_le_compat_l; lra).
  lra.
Qed.

Lemma tan_below_PI4 e : 0 < e <= 1 / 1000 ->
  1 - 2 * e - 2 * e * e <= tan (PI / 4 - e) <= 1 - 2 * e + 4 * e * e.
Proof.
  intros He. pose proof PI_digits as Hpi.
  assert (C4 : 0 < cos (PI / 4)) by (apply cos_gt_0; lra).
  assert (Ce : 0 < cos e) by (apply cos_gt_0; lra).
  assert (Cd : 0 < cos (PI / 4 - e)) by (apply cos_gt_0; lra).
  assert (Ht : 0 < tan e) by (apply tan_gt_0; lra).
  rewrite tan_minus by (try rewrite tan_PI4; lra). rewrite tan_PI4.
  rewrite Rmult_1_l.
  (* bounds of [tan e] *)
  pose proof (sin_lower e ltac:(lra)) as Hs.
  pose proof (sin_lt_x e ltac:(lra)) as Hs'.
  pose proof (cos_near_1 e) as Hc. rewrite Rabs_pos_eq in Hc by lra.
  pose proof (COS_bound e) as Hc'.
  assert (Hsin : sin e = tan e * cos e) by (unfold tan; field; lra).
  assert (Hlo : e - e * e * e / 6 <= tan e) by nra.
  assert (Hhi : tan e <= e + 2 * e * e).
  { assert (tan e * (1 - e) <= e) by nra. nra. }
  assert (Hd : 0 < 1 + tan e) by lra.
  split.
  - apply Rmult_le_reg_r with (1 + tan e); [exact Hd|].
    replace ((1 - tan e) / (1 + tan e) * (1 + tan e)) with (1 - tan e)
      by (field; lra).
    nra.
  - apply Rmult_le_reg_r with (1 + tan e); [exact Hd|].
    replace ((1 - tan e) / (1 + tan e) * (1 + tan e)) with (1 - tan e)
      by (field; lra).
    nra.
Qed.

(** At the radians of 45 degrees the tangent rounds to the number below
    1. *)
Lemma mathTan_45 :
  mathTan (7074237752028440 / 2 ^ 53) = 9007199254740991 / 2 ^ 53.
Proof.
  pose proof PI_digits as Hpi. unfold mathTan.
  set (e := PI / 4 - 7074237752028440 / 2 ^ 53).
  assert (He : 30 / 10 ^ 18 < e < 31 / 10 ^ 18).
  { unfold e. cbn [pow]. lra. }
  replace (7074237752028440 / 2 ^ 53) with (PI / 4 - e) by (unfold e; ring).
  cbn [pow] in He.
  pose proof (tan_below_PI4 e ltac:(lra)) as Ht.
  assert (He2 : 0 <= e * e <= 1 / 10 ^ 33) by (cbn [pow]; nra).
  cbn [pow] in He2.
  dyadic round_to 53%nat 9007199254740991%Z.
Qed.

End Binary64Tangent.

(** ** The chamfered depth at distance 2 of width 5 at 45 degrees *)

Section Binary64Chamfer.

Import Binary64.

Lemma chamferedDepth_2_5_45 : calculateChamferedDepth 2 5 45 = 101%Z.
Proof.
  unfold calculateChamferedDepth, FloatProfile.calculateChamferedDepth.
  rewrite (proj2 (Rleb_false 5 2)) by lra. cbv zeta.
  rewrite radians_45, mathTan_45.
  replace (round (5 * (9007199254740991 / 2 ^ 53)))
    with (5629499534213119 / 2 ^ 50)
    by (symmetry; dyadic round_to 50%nat 5629499534213119%Z).
  replace (round (2 * (9007199254740991 / 2 ^ 53)))
    with (9007199254740991 / 2 ^ 52)
    by (symmetry; dyadic round_to 52%nat 9007199254740991%Z).
  rewrite (proj2 (Rltb_false 5 _)) by (cbn [pow]; lra).
  replace (round (9007199254740991 / 2 ^ 52 / 5))
    with (7205759403792793 / 2 ^ 54)
    by (symmetry; dyadic round_to 54%nat 7205759403792793%Z).
  replace (round (7205759403792793 / 2 ^ 54 * 255))
    with (7177611906121727 / 2 ^ 46)
    by (symmetry; dyadic round_to 46%nat 7177611906121727%Z).
  rewrite Rmin_right by (cbn [pow]; lra).
  rewrite Rmax_right by (cbn [pow]; lra).
  apply Zfloor_eq. cbn [pow]. lra.
Qed.

End Binary64Chamfer.

(** ** The rounded depth at four sample points *)

Section Binary64Rounded.

Import Binary64.

(** Rounding a square root to the nearest multiple [n / 2^k]. *)
Lemma round_sqrt x (k : nat) (n : Z) :
  (k <= 1074)%nat -> 2 ^ 52 + 1 / 2 <= IZR n <= 2 ^ 53 - 1 / 2 ->
  (IZR n - 1 / 2) * (IZR n - 1 / 2) < x * (2 ^ k * 2 ^ k)
  < (IZR n + 1 / 2) * (IZR n + 1 / 2) ->
  round (sqrt x) = IZR n / 2 ^ k.
Proof.
  intros Hk Hn Hx.
  assert (Hp : 0 < 2 ^ k) by (apply pow_lt; lra).
  assert (H52 : 0 < 2 ^ 52) by (apply pow_lt; lra).
  assert (Hs : sqrt x * 2 ^ k = sqrt (x * (2 ^ k * 2 ^ k))).
  { assert (Hx0 : 0 <= x).
    { destruct (Rle_dec 0 x) as [H | H]; [exact H|]. exfalso.
      assert (0 < 2 ^ k * 2 ^ k) by nra. nra. }
    rewrite sqrt_mult by nra. rewrite sqrt_square by lra. reflexivity. }
  assert (Hlo : IZR n - 1 / 2 < sqrt (x * (2 ^ k * 2 ^ k))).
  { rewrite <- (sqrt_square (IZR n - 1 / 2)) by lra.
    apply sqrt_lt_1_alt. nra. }
  assert (Hhi : sqrt (x * (2 ^ k * 2 ^ k)) < IZR n + 1 / 2).
  { rewrite <- (sqrt_square (IZR n + 1 / 2)) by lra.
    apply sqrt_lt_1_alt. nra. }
  apply round_to; [exact Hk | rewrite Hs; lra |].
  rewrite Hs. apply Rabs_def1; lra.
Qed.

Lemma roundedDepth_98_100 : calculateRoundedDepth 98 100 = 254%Z.
Proof.
  unfold calculateRoundedDepth, FloatProfile.calculateRoundedDepth.
  rewrite (proj2 (Rleb_false 100 98)) by lra. cbv zeta.
  replace (round (98 / 100))
    with (8827055269646172 / 2 ^ 53)
    by (symmetry; dyadic round_to 53%nat 8827055269646172%Z).
  replace (round (1 - 8827055269646172 / 2 ^ 53))
    with (5764607523034240 / 2 ^ 58)
    by (symmetry; dyadic round_to 58%nat 5764607523034240%Z).
  replace (round (5764607523034240 / 2 ^ 58 * (5764607523034240 / 2 ^ 58)))
    with (7378697629483834 / 2 ^ 64)
    by (symmetry; dyadic round_to 64%nat 7378697629483834%Z).
  replace (round (1 - 7378697629483834 / 2 ^ 64))
    with (9003596375039096 / 2 ^ 53)
    by (symmetry; dyadic round_to 53%nat 9003596375039096%Z).
  replace (round (sqrt (9003596375039096 / 2 ^ 53)))
    with (9005397634710021 / 2 ^ 53)
    by (symmetry; apply (round_sqrt _ 53%nat 9005397634710021%Z);
        [lia | cbn [pow]; lra | cbn [pow]; lra]).
  replace (round (9005397634710021 / 2 ^ 53 * 255))
    with (8970220300199435 / 2 ^ 45)
    by (symmetry; dyadic round_to 45%nat 8970220300199435%Z).
  assert (Hf : Zfloor (8970220300199435 / 2 ^ 45) = 254%Z)
    by (apply Zfloor_eq; cbn [pow]; lra).
  rewrite Hf. reflexivity.
Qed.

Lemma roundedDepth_99_100 : calculateRoundedDepth 99 100 = 254%Z.
Proof.
  unfold calculateRoundedDepth, FloatProfile.calculateRoundedDepth.
  rewrite (proj2 (Rleb_false 100 99)) by lra. cbv zeta.
  replace (round (99 / 100))
    with (8917127262193582 / 2 ^ 53)
    by (symmetry; dyadic round_to 53%nat 8917127262193582%Z).
  replace (round (1 - 8917127262193582 / 2 ^ 53))
    with (5764607523034240 / 2 ^ 59)
    by (symmetry; dyadic round_to 59%nat 5764607523034240%Z).
  replace (round (5764607523034240 / 2 ^ 59 * (5764607523034240 / 2 ^ 59)))
    with (7378697629483834 / 2 ^ 66)
    by (symmetry; dyadic round_to 66%nat 7378697629483834%Z).
  replace (round (1 - 7378697629483834 / 2 ^ 66))
    with (9006298534815518 / 2 ^ 53)
    by (symmetry; dyadic round_to 53%nat 9006298534815518%Z).
  replace (round (sqrt (9006298534815518 / 2 ^ 53)))
    with (9006748883518693 / 2 ^ 53)
    by (symmetry; apply (round_sqrt _ 53%nat 9006748883518693%Z);
        [lia | cbn [pow]; lra | cbn [pow]; lra]).
  replace (round (9006748883518693 / 2 ^ 53 * 255))
    with (8971566270692448 / 2 ^ 45)
    by (symmetry; dyadic round_to 45%nat 8971566270692448%Z).
  assert (Hf : Zfloor (8971566270692448 / 2 ^ 45) = 254%Z)
    by (apply Zfloor_eq; cbn [pow]; lra).
  rewrite Hf. reflexivity.
Qed.

Lemma roundedDepth_1_5 : calculateRoundedDepth 1 5 = 152%Z.
Proof.
  unfold calculateRoundedDepth, FloatProfile.calculateRoundedDepth.
  rewrite (proj2 (Rleb_false 5 1)) by lra. cbv zeta.
  replace (round (1 / 5))
    with (7205759403792794 / 2 ^ 55)
    by (symmetry; dyadic round_to 55%nat 7205759403792794%Z).
  replace (round (1 - 7205759403792794 / 2 ^ 55))
    with (7205759403792794 / 2 ^ 53)
    by (symmetry; dyadic_tie round_tie 53%nat 7205759403792793%Z).
  replace (round (7205759403792794 / 2 ^ 53 * (7205759403792794 / 2 ^ 53)))
    with (5764607523034236 / 2 ^ 53)
    by (symmetry; dyadic round_to 53%nat 5764607523034236%Z).
  replace (round (1 - 5764607523034236 / 2 ^ 53))
    with (6485183463413512 / 2 ^ 54)
    by (symmetry; dyadic round_to 54%nat 6485183463413512%Z).
  replace (round (sqrt (6485183463413512 / 2 ^ 54)))
    with (5404319552844594 / 2 ^ 53)
    by (symmetry; apply (round_sqrt _ 53%nat 5404319552844594%Z);
        [lia | cbn [pow]; lra | cbn [pow]; lra]).
  replace (round (5404319552844594 / 2 ^ 53 * 255))
    with (5383208929591295 / 2 ^ 45)
    by (symmetry; dyadic round_to 45%nat 5383208929591295%Z).
  assert (Hf : Zfloor (5383208929591295 / 2 ^ 45) = 152%Z)
    by (apply Zfloor_eq; cbn [pow]; lra).
  rewrite Hf. reflexivity.
Qed.

(** Inside the band the depth can be 255: at distance 1 of the width
    [1.0000000001] (as a binary64 number) the argument of the square root
    rounds to 1. *)
Lemma roundedDepth_inside_band :
  calculateRoundedDepth 1 (4503599627820856 / 2 ^ 52) = 255%Z.
Proof.
  unfold calculateRoundedDepth, FloatProfile.calculateRoundedDepth.
  rewrite (proj2 (Rleb_false _ 1)) by (cbn [pow]; lra). cbv zeta.
  replace (round (1 / (4503599627820856 / 2 ^ 52)))
    with (9007199253840272 / 2 ^ 53)
    by (symmetry; dyadic round_to 53%nat 9007199253840272%Z).
  replace (round (1 - 9007199253840272 / 2 ^ 53))
    with (7737125885706240 / 2 ^ 86)
    by (symmetry; dyadic round_to 86%nat 7737125885706240%Z).
  replace (round (7737125885706240 / 2 ^ 86 * (7737125885706240 / 2 ^ 86)))
    with (6646141078732800 / 2 ^ 119)
    by (symmetry; dyadic round_to 119%nat 6646141078732800%Z).
  replace (round (1 - 6646141078732800 / 2 ^ 119))
    with 1
    by (symmetry; etransitivity;
        [dyadic round_to 53%nat 9007199254740992%Z | cbn [pow]; lra]).
  rewrite sqrt_1, (rnd_1 round binary64_faithful).
  replace (round (1 * 255)) with (8972014882652160 / 2 ^ 45)
    by (symmetry; dyadic round_to 45%nat 8972014882652160%Z).
  assert (Hf : Zfloor (8972014882652160 / 2 ^ 45) = 255%Z)
    by (apply Zfloor_eq; cbn [pow]; lra).
  rewrite Hf. reflexivity.
Qed.

End Binary64Rounded.

(** * The claims about the edge profiles and the edge processor *)

Section ProfileClaims.

Import EdgeProfile.

(** C2 (as stated, refuted).  The rounded depth is not strictly increasing
    over the band: with [edgeWidth = 100] the distances 98 and 99 both get
    the depth 254, because the profile is floored to an integer; this is so
    in exact and in binary64 arithmetic.  Nor is the depth always the floor
    of the exact profile: at distance 1 of width 5 that is 153, and the
    depth computed in binary64 is 152. *)
Lemma rounded_depth_not_strictly_increasing :
  0 <= 98 < 99 /\ 99 < 100 /\
  calculateRoundedDepth 98 100 = 254%Z /\
  calculateRoundedDepth 99 100 = 254%Z /\
  ~ (calculateRoundedDepth 98 100 < calculateRoundedDepth 99 100)%Z /\
  Binary64.calculateRoundedDepth 98 100 = 254%Z /\
  Binary64.calculateRoundedDepth 99 100 = 254%Z /\
  Binary64.calculateRoundedDepth 1 5 = 152%Z /\
  Zfloor (255 * sqrt (1 - (1 - 1 / 5) * (1 - 1 / 5))) = 153%Z.
Proof.
  assert (H98 : calculateRoundedDepth 98 100 = 254%Z)
    by (apply calculateRoundedDepth_254; lra).
  assert (H99 : calculateRoundedDepth 99 100 = 254%Z)
    by (apply calculateRoundedDepth_254; lra).
  assert (H153 : Zfloor (255 * sqrt (1 - (1 - 1 / 5) * (1 - 1 / 5))) = 153%Z).
  { replace (1 - (1 - 1 / 5) * (1 - 1 / 5)) with (3 / 5 * (3 / 5)) by lra.
    rewrite sqrt_square by lra. apply Zfloor_eq. simpl IZR. lra. }
  repeat split; try lra; try assumption.
  - rewrite H98, H99. lia.
  - exact roundedDepth_98_100.
  - exact roundedDepth_99_100.
  - exact roundedDepth_1_5.
Qed.

(** C2 (amended).  For the rounded style with [edgeWidth = W > 0], computed
    in binary64 or any other faithful floating-point arithmetic: the depth
    is exactly 255 whenever [distance >= W]; for a distance in [[0, W)] it
    is within one of [floor (255 * sqrt (1 - (1 - t)^2))] with
    [t = distance / W]; and the depth is non-decreasing in the distance. *)
Theorem rounded_depth_profile (rnd : R -> R) (W d d' : R) :
  roundsFaithfully rnd -> 0 < W -> 0 <= d -> d <= d' ->
  (W <= d -> FloatProfile.calculateRoundedDepth rnd d W = 255%Z) /\
  (d < W ->
   (Z.abs (FloatProfile.calculateRoundedDepth rnd d W
           - Zfloor (255 * sqrt (1 - (1 - d / W) * (1 - d / W)))) <= 1)%Z) /\
  (FloatProfile.calculateRoundedDepth rnd d W
   <= FloatProfile.calculateRoundedDepth rnd d' W)%Z.
Proof.
  intros Hrnd HW Hd Hdd. split; [apply float_rounded_plateau|]. split.
  - intros HdW. apply (float_rounded_near rnd Hrnd d W HW). lra.
  - apply (float_rounded_mono rnd Hrnd); lra.
Qed.

Lemma rounded_depth_profile_witness :
  (Z.abs (Binary64.calculateRoundedDepth 1 2
          - Zfloor (255 * sqrt (1 - (1 - 1 / 2) * (1 - 1 / 2)))) <= 1)%Z /\
  (Binary64.calculateRoundedDepth 1 2
   <= Binary64.calculateRoundedDepth 3 2)%Z /\
  Binary64.calculateRoundedDepth 3 2 = 255%Z.
Proof.
  destruct (rounded_depth_profile Binary64.round 2 1 3 binary64_faithful)
    as (_ & Hband & Hmono); [lra..|].
  destruct (rounded_depth_profile Binary64.round 2 3 3 binary64_faithful)
    as (Hplateau & _); [lra..|].
  split; [apply Hband; lra|]. split; [exact Hmono | apply Hplateau; lra].
Defined.

(** C3 (as stated, refuted).  The chamfered depth is not always the floor of
    the claimed profile.  At the default angle of 45 degrees that profile is
    the ramp [255 * distance / edgeWidth], which is 102 at distance 2 of
    width 5; but the tangent of the radians computed for 45 degrees rounds
    to [0.9999999999999999], not to 1, and the depth computed in binary64
    is 101. *)
Lemma chamfered_depth_misses_formula_at_45_degrees :
  Binary64.calculateChamferedDepth 2 5 45 = 101%Z /\
  Zfloor (255 * clamp01 ((2 * tan (radians 45))
                         / Rmax (5 * tan (radians 45)) 5)) = 102%Z.
Proof.
  split; [exact chamferedDepth_2_5_45|].
  assert (H45 : radians 45 = PI / 4) by (unfold radians; field).
  rewrite H45, tan_PI4.
  rewrite Rmax_left by lra. unfold clamp01.
  rewrite Rmin_right by lra. rewrite Rmax_right by lra.
  apply Zfloor_eq. simpl IZR. lra.
Qed.

(** C3 (amended).  For the chamfered style, computed in binary64 or any
    other faithful floating-point arithmetic, with an [edgeWidth] that is
    not extreme (from [2^-900] to [2^900]) and an angle in (0, 90): the
    depth is exactly 255 whenever [distance >= edgeWidth], and for a
    distance in [[0, edgeWidth)] it is within one of
    [floor (255 * clamp (distance * tan angle
                         / max (edgeWidth * tan angle) edgeWidth, 0, 1))]. *)
Theorem chamfered_depth_within_one_of_formula (rnd mathTan : R -> R)
    (edgeWidth angle distance : R) :
  roundsFaithfully rnd -> tangentFaithfully rnd mathTan ->
  tiny <= edgeWidth <= / tiny -> 0 < angle < 90 -> 0 <= distance ->
  (edgeWidth <= distance ->
   FloatProfile.calculateChamferedDepth rnd mathTan distance edgeWidth angle
   = 255%Z) /\
  (distance < edgeWidth ->
   (Z.abs
      (FloatProfile.calculateChamferedDepth rnd mathTan distance edgeWidth
                                            angle
       - Zfloor (255 * clamp01 ((distance * tan (radians angle))
                                / Rmax (edgeWidth * tan (radians angle))
                                       edgeWidth))) <= 1)%Z).
Proof.
  intros Hrnd Htan HW Ha Hd. split.
  - apply float_chamfered_plateau.
  - intros HdW.
    apply (float_chamfered_near rnd mathTan Hrnd Htan); [lra | lra | exact Ha].
Qed.

Lemma chamfered_depth_within_one_of_formula_witness :
  Binary64.calculateChamferedDepth 7 5 45 = 255%Z /\
  (Z.abs (Binary64.calculateChamferedDepth 2 5 45
          - Zfloor (255 * clamp01 ((2 * tan (radians 45))
                                   / Rmax (5 * tan (radians 45)) 5)))
   <= 1)%Z.
Proof.
  destruct (chamfered_depth_within_one_of_formula Binary64.round
              Binary64.mathTan 5 45 7 binary64_faithful binary64_tangent)
    as [H1 _]; [apply moderate_width; lra | lra..|].
  destruct (chamfered_depth_within_one_of_formula Binary64.round
              Binary64.mathTan 5 45 2 binary64_faithful binary64_tangent)
    as [_ H2]; [apply moderate_width; lra | lra..|].
  split; [apply H1; lra | apply H2; lra].
Defined.



End ProfileClaims.

Section ProcessorClaims.

Import EdgeProcessor.

Lemma alphaAt_pixelAt img x y : alphaAt img x y = snd (pixelAt img x y).
Proof. reflexivity. Qed.

Lemma onePixel_wellFormed r g b a :
  (0 <= r <= 255)%Z -> (0 <= g <= 255)%Z -> (0 <= b <= 255)%Z ->
  (0 <= a <= 255)%Z -> wellFormed (onePixel r g b a).
Proof.
  intros. split; [reflexivity|]. unfold onePixel. simpl.
  repeat constructor; lia.
Qed.

(** C4.  For the vertical style the call returns with any fuel, even none
    (no distance field is computed), the raster it returns does not depend
    on [edgeWidth] or [chamferAngle], and at every pixel the depth is 255 if
    the input alpha exceeds 32 and 0 otherwise. *)
Theorem vertical_depth_is_binary (src : ImageData)
    (edgeWidth edgeWidth' : R) (chamferAngle chamferAngle' : option R)
    (fuel fuel' : nat) :
  exists out,
    processImageWithEdges fuel src (mkOptions vertical edgeWidth chamferAngle)
    = Some out /\
    processImageWithEdges fuel' src
      (mkOptions vertical edgeWidth' chamferAngle') = Some out /\
    forall x y, (x < width src)%nat -> (y < height src)%nat ->
    exists depth alpha,
      pixelAt out x y = (depth, depth, depth, alpha) /\
      depth = (if (32 <? alphaAt src x y)%Z then 255%Z else 0%Z) /\
      (depth = 0%Z \/ depth = 255%Z).
Proof.
  destruct (processImageWithEdges_vertical fuel src
              (mkOptions vertical edgeWidth chamferAngle) eq_refl)
    as (out & Hrun & _ & _ & _ & Hp).
  exists out. split; [exact Hrun|]. split; [exact Hrun|].
  intros x y Hx Hy. exists (verticalDepth src y x), (clampZ (keptAlpha src y x)).
  split; [now apply Hp|]. split; [reflexivity|].
  unfold verticalDepth. destruct (32 <? _)%Z; auto.
Qed.

(** C5.  For every style and every input raster the call returns, and every
    pixel whose input alpha is at most 32 has depth 0 in R, G and B and
    alpha 0 in the raster returned. *)
Theorem outside_pixels_are_background (src : ImageData)
    (options : EdgeProcessorOptions) :
  exists fuel0, forall fuel, (fuel0 <= fuel)%nat ->
  exists out,
    processImageWithEdges fuel src options = Some out /\
    forall x y, (x < width src)%nat -> (y < height src)%nat ->
      (alphaAt src x y <= 32)%Z ->
      pixelAt out x y = (0, 0, 0, 0)%Z.
Proof.
  destruct (processImageWithEdges_returns src options) as [fuel0 H].
  exists fuel0. intros fuel Hf.
  destruct (H fuel Hf) as (out & Hrun & _ & _ & _ & Hp).
  exists out. split; [exact Hrun|]. intros x y Hx Hy Ha.
  destruct (Hp x y Hx Hy) as (depth & Hpix & _ & H0).
  rewrite Hpix, (H0 Ha), (keptAlpha_outside src y x Ha). reflexivity.
Qed.

(** C10.  For every style and every well-formed input raster the call
    returns, and every pixel whose input alpha exceeds 32 keeps that alpha
    in the raster returned; hence every value from 33 to 255 occurs as an
    output alpha. *)
Theorem inside_alpha_is_copied (src : ImageData)
    (options : EdgeProcessorOptions) :
  wellFormed src ->
  (exists fuel0, forall fuel, (fuel0 <= fuel)%nat ->
   exists out,
     processImageWithEdges fuel src options = Some out /\
     forall x y, (x < width src)%nat -> (y < height src)%nat ->
       (32 < alphaAt src x y)%Z ->
       alphaAt out x y = alphaAt src x y) /\
  (forall a, (33 <= a <= 255)%Z ->
   exists fuel out,
     processImageWithEdges fuel (onePixel 0 0 0 a) options = Some out /\
     alphaAt out 0 0 = a).
Proof.
  intros [Hlen Hbytes].
  assert (Hgen : forall img, Forall (fun b => (0 <= b <= 255)%Z) (data img) ->
    exists fuel0, forall fuel, (fuel0 <= fuel)%nat ->
    exists out,
      processImageWithEdges fuel img options = Some out /\
      forall x y, (x < width img)%nat -> (y < height img)%nat ->
        (32 < alphaAt img x y)%Z ->
        alphaAt out x y = alphaAt img x y).
  { intros img Hb.
    destruct (processImageWithEdges_returns img options) as [fuel0 H].
    exists fuel0. intros fuel Hf.
    destruct (H fuel Hf) as (out & Hrun & _ & _ & _ & Hp).
    exists out. split; [exact Hrun|]. intros x y Hx Hy Ha.
    destruct (Hp x y Hx Hy) as (depth & Hpix & _ & _).
    rewrite alphaAt_pixelAt, Hpix. simpl.
    rewrite (keptAlpha_inside img y x Ha). apply clampZ_id.
    unfold alphaAt. now apply byteAt_range. }
  split; [now apply Hgen|].
  intros a Ha.
  destruct (Hgen (onePixel 0 0 0 a)) as [fuel0 H].
  { apply onePixel_wellFormed; lia. }
  destruct (H fuel0 (Nat.le_refl _)) as (out & Hrun & Hp).
  exists fuel0, out. split; [exact Hrun|].
  rewrite (Hp 0%nat 0%nat); [reflexivity | simpl; lia | simpl; lia |].
  unfold alphaAt, onePixel, byteAt. simpl. lia.
Qed.

Lemma inside_alpha_is_copied_witness :
  exists fuel0, forall fuel, (fuel0 <= fuel)%nat ->
  exists out,
    processImageWithEdges fuel (onePixel 10 20 30 200)
      (mkOptions rounded 2 None) = Some out /\
    forall x y, (x < 1)%nat -> (y < 1)%nat ->
      (32 < alphaAt (onePixel 10 20 30 200) x y)%Z ->
      alphaAt out x y = alphaAt (onePixel 10 20 30 200) x y.
Proof.
  apply (inside_alpha_is_copied (onePixel 10 20 30 200)
           (mkOptions rounded 2 None)).
  split; [reflexivity|]. unfold onePixel. simpl. repeat constructor; lia.
Defined.

(** C6 (as stated, refuted).  Invalid parameters are not rejected: on a
    single opaque pixel the rounded style with [edgeWidth = 0] returns the
    full height 255, and the chamfered style with an angle of 120 degrees
    returns the depth 0. *)
Lemma invalid_parameters_are_accepted :
  invalidParameters (mkOptions rounded 0 None) /\
  processImageWithEdges 1 (onePixel 0 0 0 255) (mkOptions rounded 0 None)
  = Some (onePixel 255 255 255 255) /\
  ~ rejects (onePixel 0 0 0 255) (mkOptions rounded 0 None) /\
  invalidParameters (mkOptions chamfered 5 (Some 120)) /\
  processImageWithEdges 1 (onePixel 0 0 0 255)
    (mkOptions chamfered 5 (Some 120))
  = Some (onePixel 0 0 0 255) /\
  ~ rejects (onePixel 0 0 0 255) (mkOptions chamfered 5 (Some 120)).
Proof.
  split; [left; simpl; lra|].
  split; [exact rounded_zero_width|].
  split.
  { intros Hrej. pose proof rounded_zero_width as H.
    rewrite (Hrej 1%nat) in H. discriminate. }
  split.
  { right. split; [reflexivity|]. exists 120. split; [reflexivity|]. lra. }
  split; [exact chamfered_obtuse_angle|].
  intros Hrej. pose proof chamfered_obtuse_angle as H.
  rewrite (Hrej 1%nat) in H. discriminate.
Qed.

(** C6 (amended).  [processImageWithEdges] validates no parameter: for every
    [edgeWidth] and every [chamferAngle], also [edgeWidth <= 0] and an angle
    outside (0, 90), it returns a depth raster of the dimensions of its
    input. *)
Theorem parameters_are_never_rejected (src : ImageData)
    (options : EdgeProcessorOptions) :
  exists fuel0, forall fuel, (fuel0 <= fuel)%nat ->
  exists out,
    processImageWithEdges fuel src options = Some out /\
    width out = width src /\ height out = height src /\
    length (data out) = (4 * (width src * height src))%nat.
Proof.
  destruct (processImageWithEdges_returns src options) as [fuel0 H].
  exists fuel0. intros fuel Hf.
  destruct (H fuel Hf) as (out & Hrun & Hw & Hh & Hl & _).
  exists out. auto.
Qed.

End ProcessorClaims.

(** * The claim about the mesh *)

Section MeshClaim.

Import MeshBuilder.

(** C7.  For a depth raster of width [w > 0] and height [h > 0] and each of
    the sampling steps 1, 2, 4 and 8 (the four quality tiers), the grid is
    [ceil (w / step)] by [ceil (h / step)], the mesh has exactly
    [gridWidth * gridHeight] vertices and
    [2 * (gridWidth - 1) * (gridHeight - 1)] triangles, and every triangle
    index is below the vertex count. *)
Theorem mesh_topology (imageData : ImageData) (modelHeight : R)
    (w h : nat) (originalWidth originalHeight : option nat)
    (quality : Quality) :
  (0 < w)%nat -> (0 < h)%nat ->
  let g := buildGeometry imageData modelHeight w h originalWidth
                         originalHeight quality in
  let gw := gridWidth w quality in
  let gh := gridHeight h quality in
  In (step quality) [1; 2; 4; 8]%nat /\
  Z.of_nat gw = Zceil (INR w / INR (step quality)) /\
  Z.of_nat gh = Zceil (INR h / INR (step quality)) /\
  length (vertices g) = (3 * (gw * gh))%nat /\
  vertexCount g = (gw * gh)%nat /\
  length (faces g) = (3 * (2 * ((gw - 1) * (gh - 1))))%nat /\
  Z.of_nat (triangleCount g)
  = (2 * (Z.of_nat gw - 1) * (Z.of_nat gh - 1))%Z /\
  Forall (fun i => (i < vertexCount g)%nat) (faces g).
Proof.
  intros Hw Hh g gw gh.
  pose proof (step_pos quality) as Hs.
  pose proof (gridSize_pos w _ Hw Hs) as Hgw. fold (gridWidth w quality) in Hgw.
  pose proof (gridSize_pos h _ Hh Hs) as Hgh. fold (gridHeight h quality) in Hgh.
  destruct (buildGeometry_arrays imageData modelHeight w h originalWidth
              originalHeight quality) as [Hv Hf].
  destruct (faceLoop_faces imageData modelHeight w h originalWidth
              originalHeight quality) as (Hfv & Hfl & Hfa).
  destruct (vertexLoop_lengths imageData modelHeight w h originalWidth
              originalHeight quality) as (Hvl & _).
  fold g in Hv, Hf. fold gw gh in Hfl, Hfa, Hvl.
  assert (Lv : length (vertices g) = (3 * (gw * gh))%nat).
  { rewrite Hv, Hfv, Hvl. lia. }
  assert (Lf : length (faces g) = (3 * (2 * ((gw - 1) * (gh - 1))))%nat).
  { rewrite Hf, Hfl. lia. }
  assert (Cv : vertexCount g = (gw * gh)%nat).
  { unfold vertexCount. rewrite Lv, Nat.mul_comm. apply Nat.div_mul. lia. }
  assert (Cf : triangleCount g = (2 * ((gw - 1) * (gh - 1)))%nat).
  { unfold triangleCount. rewrite Lf, Nat.mul_comm. apply Nat.div_mul. lia. }
  split; [destruct quality; simpl; tauto|].
  split; [apply gridSize_ceil, Hs|].
  split; [apply gridSize_ceil, Hs|].
  split; [exact Lv|]. split; [exact Cv|]. split; [exact Lf|].
  split.
  - rewrite Cf. fold gw in Hgw. fold gh in Hgh. nia.
  - rewrite Cv, Hf. eapply Forall_impl; [exact Hfa|].
    simpl. intros i Hi. lia.
Qed.

Lemma mesh_topology_witness :
  let g := buildGeometry (newImageData 5 3) 10 5 3 None None high in
  vertexCount g = (gridWidth 5 high * gridHeight 3 high)%nat /\
  gridWidth 5 high = 3%nat /\ gridHeight 3 high = 2%nat /\
  Forall (fun i => (i < vertexCount g)%nat) (faces g).
Proof.
  destruct (mesh_topology (newImageData 5 3) 10 5 3 None None high)
    as (_ & _ & _ & _ & Hc & _ & _ & Hi); [lia | lia |].
  split; [exact Hc|]. split; [|split; [|exact Hi]].
  - unfold gridWidth. rewrite gridSize_div by (simpl; lia). reflexivity.
  - unfold gridHeight. rewrite gridSize_div by (simpl; lia). reflexivity.
Defined.

End MeshClaim.

(** * The claim about the edge smoother *)

Section SmootherClaim.

Import EdgeSmoother.

(** C8 (as stated, refuted).  A pixel none of whose neighbours on the raster
    differs from it by more than 8 can be changed.  The two pixels of
    [twoPixels] have the depths 100 and 105 and are each other's only
    neighbour, yet one pass at strength 1/4 takes the first from 100 to 101:
    the positions off the raster count as neighbours of depth 0. *)
Lemma smoothing_changes_a_pixel_with_close_neighbours :
  wellFormed twoPixels /\
  ~ nearEdgeOnRaster twoPixels 0 0 /\
  pixelAt twoPixels 0 0 = (100, 100, 100, 255)%Z /\
  pixelAt (intelligentEdgeSmoothing twoPixels (1 / 4)) 0 0
  = (101, 101, 101, 255)%Z.
Proof.
  split; [|split; [|split]].
  - split; [reflexivity|]. unfold twoPixels. simpl.
    repeat constructor; lia.
  - intros (dx & dy & Hdx & Hdy & Hne & Hin & Hdiff).
    assert (Ex : dx = (-1)%Z \/ dx = 0%Z \/ dx = 1%Z) by lia.
    assert (Ey : dy = (-1)%Z \/ dy = 0%Z \/ dy = 1%Z) by lia.
    destruct Ex as [-> | [-> | ->]]; destruct Ey as [-> | [-> | ->]];
      vm_compute in Hin, Hdiff; congruence.
  - reflexivity.
  - rewrite smoothing_two_pixels. reflexivity.
Qed.

(** C8 (amended).  For every well-formed raster and every smoothing
    strength, the smoother returns a raster of the same dimensions in which
    the alpha of every pixel, and all four channels of every pixel that is
    not near an edge, are the bytes of the input; here a pixel is near an
    edge when the depth at one of its 8 neighbour positions differs from
    its own by more than 8, a position off the raster having depth 0. *)
Theorem smoothing_changes_only_near_edge_depth (img : ImageData)
    (smoothingStrength : R) :
  wellFormed img ->
  let out := intelligentEdgeSmoothing img smoothingStrength in
  width out = width img /\ height out = height img /\
  length (data out) = length (data img) /\
  forall x y, (x < width img)%nat -> (y < height img)%nat ->
    alphaAt out x y = alphaAt img x y /\
    (~ nearEdge img x y -> pixelAt out x y = pixelAt img x y).
Proof.
  intros Hwf out.
  destruct (intelligentEdgeSmoothing_framed img smoothingStrength Hwf)
    as [Hl Hf].
  fold out in Hl, Hf.
  split; [reflexivity|]. split; [reflexivity|]. split; [exact Hl|].
  intros x y Hx Hy. destruct (Hf x y Hx Hy) as [Ha Hrest].
  split; [exact Ha|]. intros Hne.
  destruct Hrest as (H0 & H1 & H2).
  { destruct (isEdgePixel img (Z.of_nat x) (Z.of_nat y)) eqn:E;
      [|reflexivity].
    exfalso. apply Hne. now apply isEdgePixel_nearEdge. }
  unfold pixelAt. change (width out) with (width img).
  now rewrite H0, H1, H2, Ha.
Qed.

Lemma smoothing_changes_only_near_edge_depth_witness :
  let out := intelligentEdgeSmoothing grey3x3 (6 / 10) in
  length (data out) = 36%nat /\
  nearEdge grey3x3 0 0 /\ alphaAt out 0 0 = 255%Z /\
  ~ nearEdge grey3x3 1 1 /\ pixelAt out 1 1 = (100, 100, 100, 255)%Z.
Proof.
  destruct (smoothing_changes_only_near_edge_depth grey3x3 (6 / 10)
              grey3x3_wellFormed) as (_ & _ & Hl & Hp).
  split; [exact Hl|].
  split; [exact grey3x3_corner_nearEdge|].
  destruct (Hp 0%nat 0%nat) as [Ha _]; [simpl; lia | simpl; lia |].
  split; [exact Ha|].
  split; [exact grey3x3_centre_not_nearEdge|].
  destruct (Hp 1%nat 1%nat) as [_ Hk]; [simpl; lia | simpl; lia |].
  exact (Hk grey3x3_centre_not_nearEdge).
Defined.

End SmootherClaim.

(** * The claim about the distance field *)

Section DistanceFieldClaim.

Import DistanceField.

(** C1.  For every mask and every [maxDistance > 0], the propagation returns
    (with finite fuel) a distance field that holds exactly -1 at every pixel
    where the mask is false, and at every pixel where the mask is true the
    length of the shortest 8-connected lattice path (orthogonal steps cost
    1, diagonal steps [sqrt 2]) from that pixel to an edge pixel, clamped to
    [[0, maxDistance]]; edge pixels get 0. *)
Theorem distance_field_is_clamped_shortest_path (contour : list bool)
    (w h : nat) (maxDistance : R) :
  0 < maxDistance ->
  exists fuel0, forall fuel, (fuel0 <= fuel)%nat ->
  exists df,
    calculateDistanceFieldFast fuel contour w h maxDistance = Some df /\
    length df = (w * h)%nat /\
    forall x y, (x < w)%nat -> (y < h)%nat ->
      let p := (Z.of_nat x, Z.of_nat y) in
      let d := numAt df (y * w + x) in
      (flagAt contour (y * w + x) = false <-> d = -1) /\
      (flagAt contour (y * w + x) = true ->
       clampedShortest contour w h maxDistance p d /\
       (edgePixel contour w h p -> d = 0)).
Proof.
  intros Hpos. assert (Hcap : 0 <= maxDistance) by lra.
  destruct (cap_exists maxDistance) as [M HM].
  pose (Inv := fun qi st => sound contour w h maxDistance st /\
                            complete contour w h qi st).
  exists (measure M 0 (seeded contour w h maxDistance)). intros fuel Hf.
  destruct (propagate_invariant contour w h maxDistance M HM Inv) with
    (n := measure M 0 (seeded contour w h maxDistance)) (qi := 0%nat)
    (st := seeded contour w h maxDistance) (fuel := fuel)
    as (qi' & st' & Hrun & [Hs Hc] & Hend).
  - intros qi st [Hs _]. apply Hs.
  - intros qi st e [Hs Hc] Hq.
    exact (visit_correct contour w h maxDistance M HM qi e st Hs Hc Hq).
  - exact (seeded_correct contour w h maxDistance Hcap).
  - lia.
  - exact Hf.
  - exists (distances st'). split; [exact Hrun|].
    pose proof Hs as ([Hlen _] & Hout & Hin & _).
    split; [exact Hlen|]. intros x y Hx Hy. cbv zeta.
    pose proof (inRaster_of_nat w h x y Hx Hy) as Hr.
    pose proof (cell_of_nat w x y) as Hcell.
    assert (Hval : valueAt w (distances st') (Z.of_nat x, Z.of_nat y)
                   = numAt (distances st') (y * w + x)).
    { unfold valueAt. now rewrite Hcell. }
    rewrite <- Hval. split.
    + split.
      * intros Hf0. apply Hout; [exact Hr | now rewrite Hcell].
      * intros Hd. destruct (flagAt contour (y * w + x)) eqn:Hf1; [|reflexivity].
        assert (Hp : inside contour w h (Z.of_nat x, Z.of_nat y)).
        { split; [exact Hr | now rewrite Hcell]. }
        destruct (Hin _ Hp) as [[H0 _] _]. lra.
    + intros Hf1.
      apply (exhausted_correct contour w h maxDistance qi' st' Hs Hc Hend).
      split; [exact Hr | now rewrite Hcell].
Qed.

Lemma distance_field_is_clamped_shortest_path_witness :
  exists fuel0, forall fuel, (fuel0 <= fuel)%nat ->
  exists df,
    calculateDistanceFieldFast fuel mask3x3 3 3 2 = Some df /\
    length df = 9%nat /\ numAt df 0 = 0 /\ numAt df 4 = 1.
Proof.
  destruct (distance_field_is_clamped_shortest_path mask3x3 3 3 2)
    as [fuel0 H]; [lra|].
  exists fuel0. intros fuel Hf. destruct (H fuel Hf) as (df & Hrun & Hlen & Hp).
  exists df. split; [exact Hrun|]. split; [exact Hlen|]. split.
  - destruct (Hp 0%nat 0%nat) as [_ H0]; [lia | lia |].
    destruct (H0 eq_refl) as [_ Hedge]. exact (Hedge mask3x3_corner).
  - destruct (Hp 1%nat 1%nat) as [_ H1]; [lia | lia |].
    destruct (H1 eq_refl) as [Hshort _].
    exact (mask3x3_centre_distance _ Hshort).
Defined.

End DistanceFieldClaim.

(** * Further properties *)

(** ** The mask and the distance field *)

Section FieldProperties.

Import EdgeProfile DistanceField EdgeProcessor.

Lemma flagAt_replicate n i : flagAt (replicate n false) i = false.
Proof.
  unfold flagAt.
  destruct (replicate n false !! i) as [b|] eqn:E; [|reflexivity].
  apply lookup_replicate in E. now destruct E as [-> _].
Qed.

Lemma flagAt_insert_eq (c : list bool) i v :
  (i < length c)%nat -> flagAt (<[i := v]> c) i = v.
Proof. intros H. unfold flagAt. now rewrite list_lookup_insert_eq. Qed.

Lemma flagAt_insert_ne (c : list bool) i j v :
  i <> j -> flagAt (<[i := v]> c) j = flagAt c j.
Proof. intros H. unfold flagAt. now rewrite list_lookup_insert_ne. Qed.

(** The mask is the alpha channel thresholded at 32. *)
Lemma extractSmartContour_spec src :
  length (extractSmartContour src) = (width src * height src)%nat /\
  forall p, (p < width src * height src)%nat ->
    flagAt (extractSmartContour src) p
    = (32 <? byteAt (data src) (p * 4 + 3))%Z.
Proof.
  unfold extractSmartContour, for_step.
  set (n := ((length (data src) + 4 - 1) / 4)%nat).
  set (wh := (width src * height src)%nat).
  pose (P := fun (k : nat) (c : list bool) =>
    length c = wh /\
    forall p, (p < wh)%nat ->
      flagAt c p = if (p <? k)%nat
                   then (32 <? byteAt (data src) (p * 4 + 3))%Z else false).
  assert (HP : P n (for_range n
            (fun k contour =>
               <[(k * 4 / 4)%nat := (32 <? byteAt (data src) (k * 4 + 3))%Z]>
                 contour)
            (replicate wh false))).
  { apply for_range_ind.
    - split; [apply length_replicate|]. intros p _. apply flagAt_replicate.
    - intros k c Hk [Hl Hc]. rewrite Nat.div_mul by lia.
      split; [now rewrite length_insert|]. intros p Hp.
      destruct (Nat.eq_dec p k) as [-> | Hne].
      + rewrite flagAt_insert_eq by lia.
        now rewrite (proj2 (Nat.ltb_lt k (S k))) by lia.
      + rewrite flagAt_insert_ne by lia. rewrite (Hc p Hp).
        destruct (Nat.ltb_spec p k); destruct (Nat.ltb_spec p (S k));
          try reflexivity; lia. }
  destruct HP as [Hl Hc]. split; [exact Hl|]. intros p Hp. rewrite (Hc p Hp).
  destruct (Nat.ltb_spec p n) as [Hlt | Hge]; [reflexivity|].
  assert (Hlen : (length (data src) <= p * 4 + 3)%nat).
  { unfold n in Hge.
    pose proof (Nat.mul_succ_div_gt (length (data src) + 4 - 1) 4
                  ltac:(lia)).
    lia. }
  unfold byteAt. rewrite (proj2 (lookup_ge_None _ _) Hlen). reflexivity.
Qed.

Lemma extractSmartContour_alpha src x y :
  (x < width src)%nat -> (y < height src)%nat ->
  flagAt (extractSmartContour src) (y * width src + x)
  = (32 <? alphaAt src x y)%Z.
Proof.
  intros Hx Hy. destruct (extractSmartContour_spec src) as [_ H].
  rewrite H by (apply cell_lt; assumption). reflexivity.
Qed.

(** With finite fuel the propagation ends in a state that satisfies the
    invariant and whose queue is exhausted. *)
Lemma calculateDistanceFieldFast_exhausted contour w h maxDistance :
  0 <= maxDistance ->
  exists fuel0, forall fuel, (fuel0 <= fuel)%nat ->
  exists qi st,
    calculateDistanceFieldFast fuel contour w h maxDistance
    = Some (distances st) /\
    sound contour w h maxDistance st /\ complete contour w h qi st /\
    queue st !! qi = None.
Proof.
  intros Hcap. destruct (cap_exists maxDistance) as [M HM].
  pose (Inv := fun qi st => sound contour w h maxDistance st /\
                            complete contour w h qi st).
  exists (measure M 0 (seeded contour w h maxDistance)). intros fuel Hf.
  destruct (propagate_invariant contour w h maxDistance M HM Inv) with
    (n := measure M 0 (seeded contour w h maxDistance)) (qi := 0%nat)
    (st := seeded contour w h maxDistance) (fuel := fuel)
    as (qi' & st' & Hrun & [Hs Hc] & Hend).
  - intros qi st [Hs _]. apply Hs.
  - intros qi st e [Hs Hc] Hq.
    exact (visit_correct contour w h maxDistance M HM qi e st Hs Hc Hq).
  - exact (seeded_correct contour w h maxDistance Hcap).
  - lia.
  - exact Hf.
  - exists qi', st'. auto.
Qed.

(** With a cap that is not positive nothing is relaxed: the field is what
    the first pair of loops left. *)
Lemma propagate_capless contour w h maxDistance st :
  maxDistance <= 0 ->
  (forall e, In e (queue st) -> qdist e = 0) ->
  forall fuel qi, (length (queue st) <= fuel + qi)%nat ->
    propagate contour w h maxDistance fuel qi st = Some (distances st).
Proof.
  intros Hcap Hq. induction fuel as [|fuel IH]; intros qi Hlen.
  - simpl. rewrite (proj2 (lookup_ge_None _ _)) by lia. reflexivity.
  - simpl. destruct (queue st !! qi) as [e|] eqn:E; [|reflexivity].
    assert (Hv : visit contour w h maxDistance e st = st).
    { unfold visit. rewrite (Hq e (lookup_In _ _ _ E)).
      now rewrite (proj2 (Rleb_true maxDistance 0) Hcap). }
    rewrite Hv. apply IH. lia.
Qed.

Lemma seeded_queue_length contour w h maxDistance :
  (length (queue (seeded contour w h maxDistance)) <= w * h)%nat.
Proof.
  unfold seeded.
  assert (H : (length (queue (for_yx h w (seed contour w h maxDistance)
                 (mkState (replicate (w * h) (-1)%R) []))) <= h * w)%nat).
  { apply (for_yx_ind (fun k st => (length (queue st) <= k)%nat)).
    - simpl. lia.
    - intros y x st _ _ Hk. unfold seed.
      destruct (flagAt contour _); [|lia].
      destruct (isEdge contour w h x y); cbn [queue];
        rewrite ?length_app; simpl; lia. }
  lia.
Qed.

Lemma calculateDistanceFieldFast_capless contour w h maxDistance fuel :
  maxDistance <= 0 -> (w * h <= fuel)%nat ->
  exists df,
    calculateDistanceFieldFast fuel contour w h maxDistance = Some df /\
    length df = (w * h)%nat /\
    forall x y, (x < w)%nat -> (y < h)%nat ->
      numAt df (y * w + x) = seedValue contour w h maxDistance x y.
Proof.
  intros Hcap Hf.
  destruct (seeded_spec contour w h maxDistance) as (Hlen & Hval & Hq & _).
  exists (distances (seeded contour w h maxDistance)).
  split; [|split; assumption].
  unfold calculateDistanceFieldFast. apply propagate_capless; [exact Hcap | |].
  - intros e He. now destruct (Hq e He) as [-> _].
  - pose proof (seeded_queue_length contour w h maxDistance). lia.
Qed.

(** The clamped shortest distance is unique, and clamping commutes with
    the cap. *)
Lemma clampedShortest_cap contour w h cap1 cap2 p d1 d2 :
  cap1 <= cap2 ->
  clampedShortest contour w h cap1 p d1 ->
  clampedShortest contour w h cap2 p d2 ->
  d1 = Rmin cap1 d2.
Proof.
  intros Hcap ([_ H1] & Hlow1 & Hwit1) ([_ H2] & Hlow2 & Hwit2).
  destruct Hwit1 as [-> | (r1 & Hp1 & E1)].
  - rewrite Rmin_left; [reflexivity|].
    destruct Hwit2 as [-> | (r2 & Hp2 & ->)]; [exact Hcap|].
    now apply Hlow1.
  - assert (Hle : d2 <= d1) by (rewrite E1; now apply Hlow2).
    assert (Hge : d1 <= d2).
    { destruct Hwit2 as [-> | (r2 & Hp2 & ->)]; [lra | now apply Hlow1]. }
    assert (d1 = d2) by lra. subst d2. now rewrite Rmin_right.
Qed.

End FieldProperties.

(** ** The edge processor: degenerate widths, the edge ring, the plateau *)

Section ProcessorProperties.

Import EdgeProfile DistanceField EdgeProcessor.

Lemma flag_lists_eq (c1 c2 : list bool) :
  length c1 = length c2 ->
  (forall p, (p < length c1)%nat -> flagAt c1 p = flagAt c2 p) ->
  c1 = c2.
Proof.
  intros Hl H. apply list_eq. intros i.
  destruct (Nat.lt_ge_cases i (length c1)) as [Hi | Hi].
  - specialize (H i Hi). unfold flagAt in H.
    destruct (lookup_lt_is_Some_2 c1 i Hi) as [b1 E1].
    destruct (lookup_lt_is_Some_2 c2 i ltac:(lia)) as [b2 E2].
    rewrite E1, E2 in *. simpl in H. now subst.
  - rewrite (proj2 (lookup_ge_None c1 i)) by lia.
    rewrite (proj2 (lookup_ge_None c2 i)) by lia. reflexivity.
Qed.

Lemma cell_split w h p :
  (p < w * h)%nat ->
  exists x y, (x < w)%nat /\ (y < h)%nat /\ p = (y * w + x)%nat.
Proof.
  intros Hp. assert (Hw : (0 < w)%nat) by nia.
  exists (p mod w)%nat, (p / w)%nat. split; [|split].
  - apply Nat.mod_upper_bound. lia.
  - apply Nat.Div0.div_lt_upper_bound. lia.
  - rewrite (Nat.div_mod_eq p w) at 1. lia.
Qed.

Lemma calculateChamferedDepth_below d W angle :
  0 < W -> 0 <= d < W -> (calculateChamferedDepth d W angle < 255)%Z.
Proof.
  intros HW Hd. unfold calculateChamferedDepth.
  rewrite (proj2 (Rleb_false W d)) by lra. cbv zeta.
  set (t := tan (angle * PI / 180)).
  destruct (ratio_range d W HW Hd) as [Hq0 Hq1].
  assert (Hn : (if Rltb W (W * t) then d * t / (W * t) * 255
                else d * t / W * 255) < 255).
  { destruct (Rltb W (W * t)) eqn:E.
    - apply Rltb_true in E. assert (Ht : t <> 0) by nra.
      replace (d * t / (W * t)) with (d / W) by (field; lra). lra.
    - apply Rltb_false in E. assert (Ht : t <= 1) by nra.
      replace (d * t / W) with (d / W * t) by (unfold Rdiv; ring). nra. }
  apply lt_IZR.
  match goal with |- IZR (Zfloor ?v) < _ =>
    pose proof (Zfloor_bound v) as Hb; assert (Hv : v < 255)
  end.
  { apply Rmax_lub_lt; [lra|]. eapply Rle_lt_trans; [apply Rmin_r | exact Hn]. }
  lra.
Qed.

(** The depth of the band is below the full height, in both styles. *)
Lemma profile_below_plateau style d W angle :
  style <> vertical -> 0 < W -> 0 <= d < W ->
  (match style with
   | rounded => calculateRoundedDepth d W
   | chamfered => calculateChamferedDepth d W angle
   | vertical => 0%Z
   end < 255)%Z.
Proof.
  intros Hs HW Hd. destruct style; [contradiction | |].
  - destruct (calculateRoundedDepth_band d W HW Hd) as [_ H]. lia.
  - now apply calculateChamferedDepth_below.
Qed.

Lemma profile_at_plateau style d W angle :
  style <> vertical -> W <= d ->
  match style with
  | rounded => calculateRoundedDepth d W
  | chamfered => calculateChamferedDepth d W angle
  | vertical => 0%Z
  end = 255%Z.
Proof.
  intros Hs Hd. destruct style; [contradiction | |].
  - now apply calculateRoundedDepth_plateau.
  - now apply calculateChamferedDepth_plateau.
Qed.

Lemma profile_at_edge style W angle :
  style <> vertical -> 0 < W ->
  match style with
  | rounded => calculateRoundedDepth 0 W
  | chamfered => calculateChamferedDepth 0 W angle
  | vertical => 0%Z
  end = 0%Z.
Proof.
  intros Hs HW. destruct style; [contradiction | |].
  - now apply rounded_depth_at_edge.
  - now apply chamfered_depth_at_edge.
Qed.

(** The distance-field branch with its distance field in the terminal state
    of the propagation. *)
Lemma processImageWithEdges_exhausted src options :
  edgeType options <> vertical -> 0 <= edgeWidth options ->
  exists fuel0, forall fuel, (fuel0 <= fuel)%nat ->
  exists out qi st,
    processImageWithEdges fuel src options = Some out /\
    sound (extractSmartContour src) (width src) (height src)
          (edgeWidth options) st /\
    complete (extractSmartContour src) (width src) (height src) qi st /\
    queue st !! qi = None /\
    forall x y, (x < width src)%nat -> (y < height src)%nat ->
      pixelAt out x y =
      (profileDepth src options (distances st) y x,
       profileDepth src options (distances st) y x,
       profileDepth src options (distances st) y x,
       clampZ (keptAlpha src y x)).
Proof.
  intros Hv Hcap.
  destruct (processImageWithEdges_profile src options Hv) as [f1 H1].
  destruct (calculateDistanceFieldFast_exhausted (extractSmartContour src)
              (width src) (height src) (edgeWidth options) Hcap) as [f2 H2].
  exists (Nat.max f1 f2). intros fuel Hf.
  destruct (H1 fuel ltac:(lia)) as (out & df & Hdf & Hrun & _ & _ & _ & Hp).
  destruct (H2 fuel ltac:(lia)) as (qi & st & Hdf' & Hs & Hc & Hend).
  rewrite Hdf in Hdf'. injection Hdf' as ->.
  exists out, qi, st. auto.
Qed.

Lemma inside_of_alpha src x y :
  (x < width src)%nat -> (y < height src)%nat ->
  (32 < alphaAt src x y)%Z ->
  inside (extractSmartContour src) (width src) (height src)
         (Z.of_nat x, Z.of_nat y).
Proof.
  intros Hx Hy Ha. split; [now apply inRaster_of_nat|].
  rewrite cell_of_nat, extractSmartContour_alpha by assumption.
  now apply Z.ltb_lt.
Qed.

Lemma inside_alpha src x y :
  (x < width src)%nat -> (y < height src)%nat ->
  inside (extractSmartContour src) (width src) (height src)
         (Z.of_nat x, Z.of_nat y) ->
  (32 < alphaAt src x y)%Z.
Proof.
  intros Hx Hy [_ Hf].
  rewrite cell_of_nat, extractSmartContour_alpha in Hf by assumption.
  now apply Z.ltb_lt.
Qed.

Lemma profileDepth_inside src options df y x :
  (32 < alphaAt src x y)%Z -> 0 <= numAt df (y * width src + x) ->
  profileDepth src options df y x
  = match edgeType options with
    | rounded =>
        calculateRoundedDepth (numAt df (y * width src + x)) (edgeWidth options)
    | chamfered =>
        calculateChamferedDepth (numAt df (y * width src + x))
          (edgeWidth options) (angleOrDefault (chamferAngle options))
    | vertical => 0%Z
    end.
Proof.
  intros Ha Hd. unfold profileDepth. cbv zeta.
  rewrite (proj2 (Z.ltb_lt _ _) Ha), (proj2 (Rleb_true _ _) Hd). reflexivity.
Qed.

Lemma depthAt_first img x y :
  depthAt img x y = fst (fst (fst (pixelAt img x y))).
Proof. reflexivity. Qed.

Lemma alphaAt_fourth img x y : alphaAt img x y = snd (pixelAt img x y).
Proof. reflexivity. Qed.

(** From the pixels to the bytes of a buffer. *)
Lemma bytes_of_pixels (img : ImageData) (P : Z -> Prop) :
  length (data img) = (4 * (width img * height img))%nat ->
  (forall x y c, (x < width img)%nat -> (y < height img)%nat -> (c < 4)%nat ->
     P (byteAt (data img) ((y * width img + x) * 4 + c))) ->
  Forall P (data img).
Proof.
  intros Hl H. apply Forall_lookup. intros i b Hi.
  pose proof (lookup_lt_Some _ _ _ Hi) as Hlt.
  assert (Hp : (i / 4 < width img * height img)%nat).
  { apply Nat.Div0.div_lt_upper_bound. lia. }
  destruct (cell_split _ _ _ Hp) as (x & y & Hx & Hy & Hxy).
  specialize (H x y (i mod 4)%nat Hx Hy
                ltac:(apply Nat.mod_upper_bound; lia)).
  rewrite <- Hxy in H.
  replace (i / 4 * 4 + i mod 4)%nat with i in H
    by (rewrite (Nat.div_mod_eq i 4) at 1; lia).
  unfold byteAt in H. now rewrite Hi in H.
Qed.

Lemma pixel_channels (img : ImageData) x y c :
  (c < 4)%nat ->
  byteAt (data img) ((y * width img + x) * 4 + c)
  = match c with
    | 0%nat => fst (fst (fst (pixelAt img x y)))
    | 1%nat => snd (fst (fst (pixelAt img x y)))
    | 2%nat => snd (fst (pixelAt img x y))
    | _ => snd (pixelAt img x y)
    end.
Proof.
  intros Hc. unfold pixelAt. cbv zeta. cbn [fst snd].
  destruct c as [|[|[|[|c]]]]; try lia; try reflexivity.
  now rewrite Nat.add_0_r.
Qed.

Lemma clamp_mono v1 v2 :
  v1 <= v2 -> Rmax 0 (Rmin 255 v1) <= Rmax 0 (Rmin 255 v2).
Proof.
  intros H. unfold Rmax, Rmin. repeat (destruct (Rle_dec _ _)); lra.
Qed.

(** The chamfered depth never decreases with the distance, whatever the
    angle. *)
Lemma calculateChamferedDepth_mono d1 d2 W angle :
  0 < W -> 0 <= d1 <= d2 ->
  (calculateChamferedDepth d1 W angle <= calculateChamferedDepth d2 W angle)%Z.
Proof.
  intros HW Hd.
  destruct (Rle_dec W d2) as [Hge | Hlt].
  - rewrite (calculateChamferedDepth_plateau d2 W angle Hge).
    apply calculateChamferedDepth_range.
  - unfold calculateChamferedDepth.
    rewrite (proj2 (Rleb_false W d1)), (proj2 (Rleb_false W d2)) by lra.
    cbv zeta. set (t := tan (angle * PI / 180)).
    apply Zfloor_le.
    pose proof (Rinv_0_lt_compat W HW) as HiW.
    destruct (Rltb W (W * t)) eqn:E.
    + apply Rltb_true in E. assert (Ht : 0 < t) by nra.
      assert (HWt : 0 < W * t) by nra.
      pose proof (Rinv_0_lt_compat _ HWt) as Hi.
      apply clamp_mono. unfold Rdiv.
      assert (0 <= t * / (W * t)) by nra.
      replace (d1 * t * / (W * t) * 255) with (d1 * (t * / (W * t)) * 255)
        by ring.
      replace (d2 * t * / (W * t) * 255) with (d2 * (t * / (W * t)) * 255)
        by ring.
      nra.
    + destruct (Rle_dec 0 t) as [Ht | Ht].
      * apply clamp_mono. unfold Rdiv.
        assert (0 <= t * / W) by nra.
        replace (d1 * t * / W * 255) with (d1 * (t * / W) * 255) by ring.
        replace (d2 * t * / W * 255) with (d2 * (t * / W) * 255) by ring.
        nra.
      * assert (Hn : forall d, 0 <= d -> d * t / W * 255 <= 0).
        { intros d Hd0. unfold Rdiv.
          replace (d * t * / W * 255) with (- (d * (- t * / W) * 255)) by ring.
          assert (0 <= - t * / W) by nra. nra. }
        pose proof (Hn d1 ltac:(lra)). pose proof (Hn d2 ltac:(lra)).
        rewrite !Rmax_left; try lra.
        -- rewrite Rmin_right by lra. lra.
        -- rewrite Rmin_right by lra. lra.
Qed.

(** Both profiles never decrease with the distance. *)
Lemma profile_mono style d1 d2 W angle :
  0 < W -> 0 <= d1 <= d2 ->
  (match style with
   | rounded => calculateRoundedDepth d1 W
   | chamfered => calculateChamferedDepth d1 W angle
   | vertical => 0%Z
   end
   <= match style with
      | rounded => calculateRoundedDepth d2 W
      | chamfered => calculateChamferedDepth d2 W angle
      | vertical => 0%Z
      end)%Z.
Proof.
  intros HW Hd. destruct style; [lia | |].
  - destruct (Rle_dec W d2) as [Hge | Hlt].
    + rewrite (calculateRoundedDepth_plateau d2 W Hge).
      apply calculateRoundedDepth_range.
    + apply calculateRoundedDepth_mono; lra.
  - now apply calculateChamferedDepth_mono.
Qed.

(** What every run returns, as a raster. *)
Lemma processImageWithEdges_raster src options :
  exists fuel0, forall fuel, (fuel0 <= fuel)%nat ->
  exists out,
    processImageWithEdges fuel src options = Some out /\
    width out = width src /\ height out = height src /\
    wellFormed out /\
    (forall x y, (x < width out)%nat -> (y < height out)%nat ->
       greyAt out x y) /\
    forall x y, (x < width src)%nat -> (y < height src)%nat ->
      alphaAt out x y = clampZ (keptAlpha src y x).
Proof.
  destruct (processImageWithEdges_returns src options) as [fuel0 H].
  exists fuel0. intros fuel Hf.
  destruct (H fuel Hf) as (out & Hrun & Hw & Hh & Hl & Hp).
  exists out. split; [exact Hrun|]. split; [exact Hw|]. split; [exact Hh|].
  split; [split|split].
  - now rewrite Hl, Hw, Hh.
  - apply bytes_of_pixels; [now rewrite Hl, Hw, Hh|].
    intros x y c Hx Hy Hc. rewrite pixel_channels by exact Hc.
    rewrite Hw in Hx. rewrite Hh in Hy.
    destruct (Hp x y Hx Hy) as (depth & -> & Hd & _). cbn [fst snd].
    pose proof (clampZ_range (keptAlpha src y x)).
    destruct c as [|[|[|c]]]; lia.
  - intros x y Hx Hy. rewrite Hw in Hx. rewrite Hh in Hy.
    destruct (Hp x y Hx Hy) as (depth & E & _).
    unfold pixelAt in E. cbv zeta in E. injection E as E0 E1 E2 _.
    unfold greyAt. cbv zeta. now rewrite E0, E1, E2.
  - intros x y Hx Hy. destruct (Hp x y Hx Hy) as (depth & E & _).
    rewrite alphaAt_fourth, E. reflexivity.
Qed.

End ProcessorProperties.

(** ** The smoother: fixed points and grey rasters *)

Section SmootherProperties.

Import EdgeSmoother.

Lemma fold_left_preserves {A B} (P : A -> Prop) (f : A -> B -> A) l a :
  (forall a b, P a -> P (f a b)) -> P a -> P (fold_left f l a).
Proof.
  intros H. revert a. induction l as [|b l IH]; intros a Ha; [exact Ha|].
  simpl. apply IH. now apply H.
Qed.

Lemma round_IZR z : round (IZR z) = z.
Proof. unfold round. apply Zfloor_eq. lra. Qed.

Lemma storeByte_same (buf : list Z) i v :
  (i < length buf)%nat -> byteAt buf i = v -> (0 <= v <= 255)%Z ->
  storeByte buf i v = buf.
Proof.
  intros Hi Hv Hr. unfold storeByte. rewrite clampZ_id by exact Hr.
  apply list_insert_id. unfold byteAt in Hv.
  destruct (lookup_lt_is_Some_2 buf i Hi) as [b Hb]. rewrite Hb in *.
  simpl in Hv. now subst.
Qed.

Lemma storeByte_length buf i v : length (storeByte buf i v) = length buf.
Proof. unfold storeByte. apply length_insert. Qed.

Lemma storeByte_range buf i v :
  Forall (fun b => (0 <= b <= 255)%Z) buf ->
  Forall (fun b => (0 <= b <= 255)%Z) (storeByte buf i v).
Proof.
  intros H. unfold storeByte. apply Forall_insert; [exact H|].
  apply clampZ_range.
Qed.

Lemma storeByte_read buf i v :
  (i < length buf)%nat -> byteAt (storeByte buf i v) i = clampZ v.
Proof. intros H. unfold storeByte. now apply byteAt_insert_eq. Qed.

Lemma storeByte_other buf i j v :
  i <> j -> byteAt (storeByte buf i v) j = byteAt buf j.
Proof. intros H. unfold storeByte. now apply byteAt_insert_ne. Qed.

Variables (img : ImageData) (smoothingStrength : R).
Hypothesis Hwf : wellFormed img.

Lemma getPixelValue_depthAt x y :
  (x < width img)%nat -> (y < height img)%nat ->
  getPixelValue img (Z.of_nat x) (Z.of_nat y) = depthAt img x y.
Proof.
  intros Hx Hy. unfold getPixelValue, depthAt.
  rewrite !Z.geb_leb.
  rewrite (proj2 (Z.ltb_ge (Z.of_nat x) 0)) by lia.
  rewrite (proj2 (Z.ltb_ge (Z.of_nat y) 0)) by lia.
  rewrite (proj2 (Z.leb_gt (Z.of_nat (width img)) (Z.of_nat x))) by lia.
  rewrite (proj2 (Z.leb_gt (Z.of_nat (height img)) (Z.of_nat y))) by lia.
  simpl. f_equal. lia.
Qed.

(** Either the position is off the raster and reads 0, or it is a pixel. *)
Lemma getPixelValue_cases x y :
  getPixelValue img x y = 0%Z \/
  exists x' y', (x' < width img)%nat /\ (y' < height img)%nat /\
    getPixelValue img x y = depthAt img x' y'.
Proof.
  destruct (inRaster (width img) (height img) x y) eqn:E.
  - apply inRaster_spec in E. right.
    exists (Z.to_nat x), (Z.to_nat y).
    split; [lia|]. split; [lia|].
    rewrite <- getPixelValue_depthAt by lia. f_equal; lia.
  - left. unfold getPixelValue.
    destruct ((x <? 0)%Z || (x >=? Z.of_nat (width img))%Z
              || (y <? 0)%Z || (y >=? Z.of_nat (height img))%Z) eqn:E';
      [reflexivity|].
    exfalso. apply orb_false_iff in E'. destruct E' as [E' E4].
    apply orb_false_iff in E'. destruct E' as [E' E3].
    apply orb_false_iff in E'. destruct E' as [E1 E2].
    rewrite Z.geb_leb in E2, E4.
    apply Z.ltb_ge in E1, E3. apply Z.leb_gt in E2, E4.
    assert (inRaster (width img) (height img) x y = true)
      by (apply inRaster_spec; lia).
    congruence.
Qed.

(** *** A raster that holds only the depths 0 and 255 *)

Hypothesis Hbinary :
  forall x y, (x < width img)%nat -> (y < height img)%nat ->
    greyAt img x y /\ (depthAt img x y = 0%Z \/ depthAt img x y = 255%Z).
Hypothesis Hthreshold : 30 + smoothingStrength * 70 <= 255.

Lemma getPixelValue_binary x y :
  getPixelValue img x y = 0%Z \/ getPixelValue img x y = 255%Z.
Proof.
  destruct (getPixelValue_cases x y) as [H | (x' & y' & Hx & Hy & ->)];
    [now left|].
  apply (Hbinary x' y' Hx Hy).
Qed.

(** Only equal depths pass the similarity test, so the weighted average is
    the depth of the centre. *)
Lemma getSmoothValue_binary x y :
  getSmoothValue img smoothingStrength x y = IZR (getPixelValue img x y).
Proof.
  unfold getSmoothValue. cbv zeta.
  set (c := getPixelValue img x y).
  match goal with
  | |- context [fold_left ?f ?l ?a] => set (sums := fold_left f l a)
  end.
  assert (Hs : fst sums = (c * snd sums)%Z).
  { unfold sums.
    apply (fold_left_preserves (fun acc : Z * Z => fst acc = (c * snd acc)%Z));
      [|simpl; lia].
    intros acc dy Hacc.
    apply (fold_left_preserves (fun acc : Z * Z => fst acc = (c * snd acc)%Z));
      [|exact Hacc].
    intros acc' dx Hacc'.
    destruct (Rltb _ _) eqn:E; [|exact Hacc'].
    apply Rltb_true in E. cbn [fst snd].
    set (v := getPixelValue img (x + dx) (y + dy)) in *.
    assert (Hv : v = c).
    { destruct (getPixelValue_binary (x + dx) (y + dy)) as [Hv | Hv];
        destruct (getPixelValue_binary x y) as [Hc | Hc];
        fold v in Hv; fold c in Hc; try congruence;
        exfalso;
        (assert (Habs : Z.abs (v - c) = 255%Z)
           by (rewrite Hv, Hc; reflexivity));
        rewrite Habs in E; lra. }
    rewrite Hv, Hacc'. ring. }
  destruct (0 <? snd sums)%Z eqn:E; [|reflexivity].
  apply Z.ltb_lt in E. rewrite Hs, mult_IZR.
  apply IZR_lt in E. field. lra.
Qed.

Lemma smoothPixel_binary y x :
  (y < height img)%nat -> (x < width img)%nat ->
  smoothPixel img smoothingStrength (data img) y x (data img) = data img.
Proof.
  intros Hy Hx. unfold smoothPixel.
  destruct (isEdgePixel img (Z.of_nat x) (Z.of_nat y)); [|reflexivity].
  cbv zeta. rewrite getSmoothValue_binary, getPixelValue_depthAt by assumption.
  destruct Hwf as [Hlen Hbytes].
  pose proof (cell_lt _ _ x y Hx Hy) as Hc.
  destruct (Hbinary x y Hx Hy) as [[Hg Hb] Hd].
  unfold depthAt in *. cbv zeta in Hg, Hb.
  set (i := ((y * width img + x) * 4)%nat) in *.
  set (c := byteAt (data img) i) in *.
  replace (IZR c * (1 - sqrt smoothingStrength)
           + IZR c * sqrt smoothingStrength)
    with (IZR c) by ring.
  rewrite round_IZR.
  assert (Hr : (0 <= c <= 255)%Z) by lia.
  rewrite (storeByte_same (data img) i c) by (try reflexivity; try lia).
  rewrite (storeByte_same (data img) (i + 1) c) by (try assumption; lia).
  rewrite (storeByte_same (data img) (i + 2) c) by (try assumption; lia).
  apply storeByte_same; [lia | reflexivity | now apply byteAt_range].
Qed.

Lemma iteration_binary :
  iteration img smoothingStrength (data img) = data img.
Proof.
  unfold iteration. cbv zeta.
  apply (for_yx_ind (fun _ b => b = data img)); [reflexivity|].
  intros y x st Hy Hx ->. now apply smoothPixel_binary.
Qed.

(** Hence no pass changes the raster. *)
Lemma intelligentEdgeSmoothing_binary :
  intelligentEdgeSmoothing img smoothingStrength = img.
Proof.
  unfold intelligentEdgeSmoothing. cbv zeta.
  rewrite setAll_full
    by (simpl; rewrite length_replicate; destruct Hwf as [-> _]; reflexivity).
  assert (Hfix : for_range (Z.to_nat (Zceil (smoothingStrength * 4)))
                   (fun _ buf => iteration img smoothingStrength buf)
                   (data img) = data img).
  { apply (for_range_ind (fun _ b => b = data img)); [reflexivity|].
    intros i st _ ->. apply iteration_binary. }
  rewrite Hfix. now destruct img.
Qed.

End SmootherProperties.

(** ** The resamplers *)

Section ResamplerProperties.

Import Resampler.

Lemma for_range_4 {S : Type} (f : nat -> S -> S) s :
  for_range 4 f s = f 3%nat (f 2%nat (f 1%nat (f 0%nat s))).
Proof. reflexivity. Qed.

(** A pair of pixel loops that stores the four channels of each pixel once
    leaves, in every channel, what its body stored there. *)
Lemma channel_loops_spec w h (val : nat -> nat -> nat -> Z)
    (body : nat -> nat -> list Z -> list Z) buf0 :
  (forall y x buf, (y < h)%nat -> (x < w)%nat ->
     body y x buf
     = for_range 4
         (fun channel b => storeByte b ((y * w + x) * 4 + channel)
                                     (val y x channel)) buf) ->
  length buf0 = (4 * (w * h))%nat ->
  Forall (fun b => (0 <= b <= 255)%Z) buf0 ->
  length (for_yx h w body buf0) = (4 * (w * h))%nat /\
  Forall (fun b => (0 <= b <= 255)%Z) (for_yx h w body buf0) /\
  forall x y c, (x < w)%nat -> (y < h)%nat -> (c < 4)%nat ->
    byteAt (for_yx h w body buf0) ((y * w + x) * 4 + c) = clampZ (val y x c).
Proof.
  intros Hbody Hlen Hr.
  pose (P := fun (k : nat) (buf : list Z) =>
    length buf = (4 * (w * h))%nat /\
    Forall (fun b => (0 <= b <= 255)%Z) buf /\
    forall x y c, (x < w)%nat -> (y < h)%nat -> (c < 4)%nat ->
      (y * w + x < k)%nat ->
      byteAt buf ((y * w + x) * 4 + c) = clampZ (val y x c)).
  assert (HP : P (h * w)%nat (for_yx h w body buf0)).
  { apply for_yx_ind.
    - split; [exact Hlen|]. split; [exact Hr|]. intros; lia.
    - intros y x st Hy Hx (Hl & Hrange & Hpix).
      rewrite Hbody by assumption. rewrite for_range_4.
      pose proof (cell_lt w h x y Hx Hy) as Hc.
      split; [now rewrite !storeByte_length|].
      split; [now repeat apply storeByte_range|].
      intros x' y' c Hx' Hy' Hc' Hk.
      destruct (Nat.eq_dec (y' * w + x')%nat (y * w + x)%nat) as [E | NE].
      + destruct (cell_inj w x' y' x y Hx' Hx E) as [-> ->].
        destruct c as [|[|[|[|c]]]]; try lia.
        * rewrite !(storeByte_other _ (_ + S _)) by lia.
          apply storeByte_read. lia.
        * rewrite !(storeByte_other _ (_ + S (S _))) by lia.
          apply storeByte_read. rewrite !storeByte_length. lia.
        * rewrite !(storeByte_other _ (_ + 3)) by lia.
          apply storeByte_read. rewrite !storeByte_length. lia.
        * apply storeByte_read. rewrite !storeByte_length. lia.
      + rewrite !storeByte_other by lia. apply Hpix; try assumption. lia. }
  destruct HP as (Hl & Hrange & Hpix). split; [exact Hl|].
  split; [exact Hrange|]. intros x y c Hx Hy Hc. apply Hpix; try assumption.
  pose proof (cell_lt w h x y Hx Hy). lia.
Qed.

Lemma replicate_range n :
  Forall (fun b => (0 <= b <= 255)%Z) (replicate n 0%Z).
Proof. apply Forall_replicate. lia. Qed.

Lemma upscaleBody_stores img scaleFactor newWidth y x buf :
  upscaleBody img scaleFactor newWidth y x buf
  = for_range 4
      (fun channel b =>
         storeByte b ((y * newWidth + x) * 4 + channel)
                   (upscaleValue img scaleFactor y x channel)) buf.
Proof.
  unfold upscaleBody, upscaleValue. cbv zeta.
  destruct (isEdgePixel img _ _); reflexivity.
Qed.

(** The pixels of the upscaled raster. *)
Lemma edgePreservingUpscale_spec img scaleFactor :
  let out := edgePreservingUpscale img scaleFactor in
  wellFormed out /\
  forall x y c, (x < width out)%nat -> (y < height out)%nat -> (c < 4)%nat ->
    byteAt (data out) ((y * width out + x) * 4 + c)
    = clampZ (upscaleValue img scaleFactor y x c).
Proof.
  cbv zeta. unfold edgePreservingUpscale. cbv zeta. cbn [width height data].
  set (nw := Z.to_nat (EdgeSmoother.round (INR (width img) * scaleFactor))).
  set (nh := Z.to_nat (EdgeSmoother.round (INR (height img) * scaleFactor))).
  destruct (channel_loops_spec nw nh (upscaleValue img scaleFactor)
              (upscaleBody img scaleFactor nw) (replicate (4 * (nw * nh)) 0%Z))
    as (Hl & Hr & Hp).
  - intros. apply upscaleBody_stores.
  - apply length_replicate.
  - apply replicate_range.
  - split; [split; assumption|]. exact Hp.
Qed.

(** [getPixel] at a pixel of the raster. *)
Lemma getPixel_at img (x y : Z) c :
  (0 <= x < Z.of_nat (width img))%Z -> (0 <= y < Z.of_nat (height img))%Z ->
  getPixel img (IZR x) (IZR y) c
  = byteAt (data img)
           ((Z.to_nat y * width img + Z.to_nat x) * 4 + c).
Proof.
  intros Hx Hy. unfold getPixel. cbv zeta. rewrite !ZfloorZ.
  f_equal. rewrite !Z.min_r, !Z.max_r by lia. nia.
Qed.

(** Wherever it is asked, [getPixel] reads a pixel of the raster. *)
Lemma getPixel_some img (x y : R) c :
  (0 < width img)%nat -> (0 < height img)%nat ->
  exists x' y', (x' < width img)%nat /\ (y' < height img)%nat /\
    getPixel img x y c
    = byteAt (data img) ((y' * width img + x') * 4 + c).
Proof.
  intros Hw Hh. unfold getPixel. cbv zeta.
  set (cx := Z.max 0 (Z.min (Z.of_nat (width img) - 1) (Zfloor x))).
  set (cy := Z.max 0 (Z.min (Z.of_nat (height img) - 1) (Zfloor y))).
  exists (Z.to_nat cx), (Z.to_nat cy).
  split; [unfold cx; lia|]. split; [unfold cy; lia|].
  f_equal. assert (0 <= cx)%Z by (unfold cx; lia).
  assert (0 <= cy)%Z by (unfold cy; lia). nia.
Qed.

Lemma INR_as_IZR n : INR n = IZR (Z.of_nat n).
Proof. apply INR_IZR_INZ. Qed.

Lemma round_ge_nat n v : INR n <= v -> (Z.of_nat n <= EdgeSmoother.round v)%Z.
Proof.
  intros H. unfold EdgeSmoother.round. apply Zfloor_lub.
  rewrite <- INR_IZR_INZ. lra.
Qed.

Lemma bytes_eq (l1 l2 : list Z) :
  length l1 = length l2 ->
  (forall i, (i < length l1)%nat -> byteAt l1 i = byteAt l2 i) ->
  l1 = l2.
Proof.
  intros Hl H. apply list_eq. intros i.
  destruct (Nat.lt_ge_cases i (length l1)) as [Hi | Hi].
  - specialize (H i Hi). unfold byteAt in H.
    destruct (lookup_lt_is_Some_2 l1 i Hi) as [b1 E1].
    destruct (lookup_lt_is_Some_2 l2 i ltac:(lia)) as [b2 E2].
    rewrite E1, E2 in *. simpl in H. now subst.
  - rewrite (proj2 (lookup_ge_None l1 i)) by lia.
    rewrite (proj2 (lookup_ge_None l2 i)) by lia. reflexivity.
Qed.

(** Two buffers of a [w] by [h] raster that agree in every channel of every
    pixel are equal. *)
Lemma raster_bytes_eq w h (l1 l2 : list Z) :
  length l1 = (4 * (w * h))%nat -> length l2 = (4 * (w * h))%nat ->
  (forall x y c, (x < w)%nat -> (y < h)%nat -> (c < 4)%nat ->
     byteAt l1 ((y * w + x) * 4 + c) = byteAt l2 ((y * w + x) * 4 + c)) ->
  l1 = l2.
Proof.
  intros H1 H2 H. apply bytes_eq; [lia|]. intros i Hi.
  assert (Hp : (i / 4 < w * h)%nat)
    by (apply Nat.Div0.div_lt_upper_bound; lia).
  destruct (cell_split _ _ _ Hp) as (x & y & Hx & Hy & Hxy).
  specialize (H x y (i mod 4)%nat Hx Hy
                ltac:(apply Nat.mod_upper_bound; lia)).
  rewrite <- Hxy in H.
  replace (i / 4 * 4 + i mod 4)%nat with i in H
    by (rewrite (Nat.div_mod_eq i 4) at 1; lia).
  exact H.
Qed.

(** Where the source coordinate is a pixel of the source, the upscaler
    stores that pixel, on both of its paths. *)
Lemma upscaleValue_on_grid img scaleFactor X Y x y c :
  (x < width img)%nat -> (y < height img)%nat ->
  INR X / scaleFactor = INR x -> INR Y / scaleFactor = INR y ->
  upscaleValue img scaleFactor Y X c
  = byteAt (data img) ((y * width img + x) * 4 + c).
Proof.
  intros Hx Hy HX HY. unfold upscaleValue. cbv zeta.
  rewrite HX, HY, !INR_as_IZR.
  assert (Hat : getPixel img (IZR (Z.of_nat x)) (IZR (Z.of_nat y)) c
                = byteAt (data img) ((y * width img + x) * 4 + c)).
  { rewrite getPixel_at by lia. now rewrite !Nat2Z.id. }
  destruct (isEdgePixel img _ _).
  - now rewrite !round_IZR.
  - rewrite !ZfloorZ.
    set (v11 := getPixel img (IZR (Z.of_nat x)) (IZR (Z.of_nat y)) c) in *.
    match goal with |- EdgeSmoother.round ?e = _ =>
      replace e with (IZR v11) by ring
    end.
    now rewrite round_IZR.
Qed.

Lemma uniform_channel img colour x y c :
  wellFormed img -> uniform img colour ->
  (x < width img)%nat -> (y < height img)%nat -> (c < 4)%nat ->
  byteAt (data img) ((y * width img + x) * 4 + c) = channelOf colour c /\
  (0 <= channelOf colour c <= 255)%Z.
Proof.
  intros [_ Hb] Hu Hx Hy Hc.
  assert (E : byteAt (data img) ((y * width img + x) * 4 + c)
              = channelOf colour c).
  { rewrite pixel_channels by exact Hc. now rewrite (Hu x y Hx Hy). }
  split; [exact E|]. rewrite <- E. now apply byteAt_range.
Qed.

Lemma upscaleValue_uniform img scaleFactor colour Y X c :
  wellFormed img -> (0 < width img)%nat -> (0 < height img)%nat ->
  uniform img colour -> (c < 4)%nat ->
  upscaleValue img scaleFactor Y X c = channelOf colour c.
Proof.
  intros Hwf Hw Hh Hu Hc.
  assert (Hget : forall x y, getPixel img x y c = channelOf colour c).
  { intros x y. destruct (getPixel_some img x y c Hw Hh)
      as (x' & y' & Hx' & Hy' & ->).
    now apply uniform_channel. }
  unfold upscaleValue. cbv zeta. destruct (isEdgePixel img _ _).
  - apply Hget.
  - rewrite !Hget.
    match goal with |- EdgeSmoother.round ?e = _ =>
      replace e with (IZR (channelOf colour c)) by ring
    end.
    apply round_IZR.
Qed.

Lemma estimateDepthMapDPI_pos img : 0 < estimateDepthMapDPI img.
Proof.
  unfold estimateDepthMapDPI. cbv zeta.
  repeat (destruct (_ <? _)%Z); lra.
Qed.

Lemma upscaled_size n scaleFactor :
  1 <= scaleFactor ->
  (n <= Z.to_nat (EdgeSmoother.round (INR n * scaleFactor)))%nat.
Proof.
  intros Hs. pose proof (pos_INR n).
  pose proof (round_ge_nat n (INR n * scaleFactor) ltac:(nra)). lia.
Qed.

Lemma currentDPIOf_pos img originalDPI :
  (forall v, originalDPI = Some v -> 0 <= v) ->
  0 < currentDPIOf img originalDPI.
Proof.
  intros Horig. unfold currentDPIOf. destruct originalDPI as [v|];
    [|apply estimateDepthMapDPI_pos].
  destruct (Req_dec_T v 0) as [_ | Hne]; [apply estimateDepthMapDPI_pos|].
  specialize (Horig v eq_refl). lra.
Qed.

Lemma performDPIOptimization_size img targetDPI currentDPI :
  0 < currentDPI -> currentDPI <= targetDPI ->
  (width img <= width (performDPIOptimization img targetDPI currentDPI))%nat /\
  (height img <= height (performDPIOptimization img targetDPI currentDPI))%nat.
Proof.
  intros Hcur Hle. unfold performDPIOptimization, edgePreservingUpscale.
  cbv zeta. cbn [width height].
  assert (Hsf : 1 <= targetDPI / currentDPI).
  { unfold Rdiv. pose proof (Rinv_0_lt_compat _ Hcur).
    assert (currentDPI * / currentDPI = 1) by (apply Rinv_r; lra). nra. }
  split; now apply upscaled_size.
Qed.

Lemma optimizeDepthMapDPI_size img targetDPI originalDPI enableEdgeSmoothing
    smoothingStrength :
  (forall v, originalDPI = Some v -> 0 <= v) ->
  let out := optimizeDepthMapDPI img targetDPI originalDPI
                                 enableEdgeSmoothing smoothingStrength in
  (width img <= width out)%nat /\ (height img <= height out)%nat /\
  (targetDPI <= currentDPIOf img originalDPI ->
   width out = width img /\ height out = height img).
Proof.
  intros Horig. cbv zeta.
  pose proof (currentDPIOf_pos img originalDPI Horig) as Hcur.
  set (cur := currentDPIOf img originalDPI) in *.
  unfold optimizeDepthMapDPI. cbv zeta. fold cur.
  destruct enableEdgeSmoothing; destruct (Rleb targetDPI cur) eqn:E.
  - apply Rleb_true in E.
    cbn [width height EdgeSmoother.intelligentEdgeSmoothing].
    repeat split; lia.
  - apply Rleb_false in E.
    destruct (performDPIOptimization_size
                (EdgeSmoother.intelligentEdgeSmoothing img smoothingStrength)
                targetDPI cur Hcur ltac:(lra)) as [H1 H2].
    split; [exact H1|]. split; [exact H2|]. intros. lra.
  - apply Rleb_true in E. repeat split; lia.
  - apply Rleb_false in E.
    destruct (performDPIOptimization_size img targetDPI cur Hcur ltac:(lra))
      as [H1 H2].
    split; [exact H1|]. split; [exact H2|]. intros. lra.
Qed.

(** *** The downsampler *)

Lemma downsampleBody_stores img targetWidth targetHeight y x buf :
  downsampleBody img targetWidth targetHeight y x buf
  = for_range 4
      (fun channel b =>
         storeByte b ((y * targetWidth + x) * 4 + channel)
                   (downsampleValue img targetWidth targetHeight y x channel))
      buf.
Proof. reflexivity. Qed.

Lemma highQualityDownsample_spec img targetWidth targetHeight :
  let out := highQualityDownsample img targetWidth targetHeight in
  wellFormed out /\
  forall x y c, (x < targetWidth)%nat -> (y < targetHeight)%nat ->
    (c < 4)%nat ->
    byteAt (data out) ((y * targetWidth + x) * 4 + c)
    = clampZ (downsampleValue img targetWidth targetHeight y x c).
Proof.
  cbv zeta. unfold highQualityDownsample. cbv zeta. cbn [width height data].
  destruct (channel_loops_spec targetWidth targetHeight
              (downsampleValue img targetWidth targetHeight)
              (downsampleBody img targetWidth targetHeight)
              (replicate (4 * (targetWidth * targetHeight)) 0%Z))
    as (Hl & Hr & Hp).
  { intros. apply downsampleBody_stores. }
  { apply length_replicate. }
  { apply replicate_range. }
  split; [split; [exact Hl | exact Hr] | exact Hp].
Qed.

(** The sum and the count over an area of equal values. *)
Lemma area_sums (g : Z -> Z -> Z) c xs ys :
  (forall x y, g x y = c) ->
  fold_left (fun acc y =>
    fold_left (fun (acc : Z * Z) x => (fst acc + g x y, snd acc + 1)%Z)
              xs acc)
    ys (0%Z, 0%Z)
  = (c * Z.of_nat (length ys * length xs), Z.of_nat (length ys * length xs))%Z.
Proof.
  intros Hg.
  assert (Hin : forall y acc,
            fold_left (fun (acc : Z * Z) x =>
                         (fst acc + g x y, snd acc + 1)%Z) xs acc
            = (fst acc + c * Z.of_nat (length xs),
               snd acc + Z.of_nat (length xs))%Z).
  { intros y. induction xs as [|x xs IH]; intros [s n]; simpl fold_left.
    - simpl. f_equal; lia.
    - rewrite IH, Hg. cbn [fst snd length]. f_equal; lia. }
  assert (Hout : forall acc,
            fold_left (fun acc y =>
              fold_left (fun (acc : Z * Z) x =>
                           (fst acc + g x y, snd acc + 1)%Z) xs acc) ys acc
            = (fst acc + c * Z.of_nat (length ys * length xs),
               snd acc + Z.of_nat (length ys * length xs))%Z).
  { induction ys as [|y ys IH]; intros [s n]; simpl fold_left.
    - simpl. f_equal; lia.
    - rewrite Hin, IH. cbn [fst snd length]. f_equal; lia. }
  rewrite Hout. cbn [fst snd]. f_equal; lia.
Qed.

Lemma closedRange_length first last :
  (first <= last)%Z -> (0 < length (closedRange first last))%nat.
Proof.
  intros H. unfold closedRange. rewrite length_map, length_seq. lia.
Qed.

(** The area sampled around a point of the source is not empty. *)
Lemma area_nonempty (size : nat) (centre radius : R) :
  (0 < size)%nat -> 0 <= radius -> 0 < centre < INR size ->
  (Z.max 0 (Zfloor (centre - radius))
   <= Z.min (Z.of_nat size - 1) (Zceil (centre + radius)))%Z.
Proof.
  intros Hs Hr [Hc0 Hc1].
  pose proof (Zfloor_bound (centre - radius)) as [Hf _].
  pose proof (Zceil_bound (centre + radius)) as [_ Hc].
  rewrite INR_as_IZR in Hc1.
  assert (Zfloor (centre - radius) < Z.of_nat size)%Z by (apply lt_IZR; lra).
  assert (0 < Zceil (centre + radius))%Z by (apply lt_IZR; simpl; lra).
  assert (Zfloor (centre - radius) <= Zceil (centre + radius))%Z
    by (apply le_IZR; lra).
  lia.
Qed.

Lemma sample_centre (size target i : nat) :
  (0 < size)%nat -> (i < target)%nat ->
  0 < INR size / INR target /\
  0 < (INR i + 1 / 2) * (INR size / INR target) < INR size.
Proof.
  intros Hs Hi.
  assert (Ht : 0 < INR target) by (apply lt_0_INR; lia).
  apply lt_0_INR in Hs.
  assert (Hi' : INR i + 1 <= INR target).
  { apply le_INR in Hi. rewrite S_INR in Hi. exact Hi. }
  pose proof (pos_INR i) as Hi0.
  pose proof (Rinv_0_lt_compat _ Ht) as Hinv.
  assert (Hu : INR target * / INR target = 1) by (apply Rinv_r; lra).
  unfold Rdiv. set (q := INR size * / INR target).
  assert (Hq : 0 < q) by (unfold q; nra).
  split; [exact Hq|]. split; [nra|].
  assert (INR target * q = INR size) by (unfold q; nra).
  nra.
Qed.

Lemma downsampleValue_uniform img targetWidth targetHeight colour y x c :
  wellFormed img -> (0 < width img)%nat -> (0 < height img)%nat ->
  uniform img colour ->
  (x < targetWidth)%nat -> (y < targetHeight)%nat -> (c < 4)%nat ->
  downsampleValue img targetWidth targetHeight y x c = channelOf colour c.
Proof.
  intros Hwf Hw Hh Hu Hx Hy Hc.
  assert (Hget : forall x y, getPixel img x y c = channelOf colour c).
  { intros x0 y0. destruct (getPixel_some img x0 y0 c Hw Hh)
      as (x' & y' & Hx' & Hy' & ->).
    now apply uniform_channel. }
  destruct (sample_centre (width img) targetWidth x Hw Hx) as [Hsx Hcx].
  destruct (sample_centre (height img) targetHeight y Hh Hy) as [Hsy Hcy].
  unfold downsampleValue, getAreaAverage. cbv zeta.
  set (sx := INR (width img) / INR targetWidth) in *.
  set (sy := INR (height img) / INR targetHeight) in *.
  set (r := Rmax sx sy * (1 / 2)).
  assert (Hr : 0 <= r).
  { unfold r. pose proof (Rmax_l sx sy). lra. }
  pose proof (area_nonempty (width img) _ r Hw Hr Hcx) as Hxs.
  pose proof (area_nonempty (height img) _ r Hh Hr Hcy) as Hys.
  apply closedRange_length in Hxs, Hys.
  rewrite (area_sums (fun x y => getPixel img (IZR x) (IZR y) c)
             (channelOf colour c))
    by (intros; apply Hget).
  cbn [fst snd].
  set (n := (length (closedRange _ _) * length (closedRange _ _))%nat).
  assert (Hn : (0 < n)%nat) by (unfold n; nia).
  rewrite (proj2 (Z.ltb_lt 0 (Z.of_nat n))) by lia.
  rewrite mult_IZR.
  assert (Hz : 0 < IZR (Z.of_nat n)) by (apply IZR_lt; lia).
  replace (IZR (channelOf colour c) * IZR (Z.of_nat n) / IZR (Z.of_nat n))
    with (IZR (channelOf colour c)) by (field; lra).
  apply round_IZR.
Qed.

End ResamplerProperties.

(** ** The first pipeline *)

Section SimpleProperties.

Import EdgeProcessor SimplePipeline.

Lemma roundHalfEven_cases v :
  roundHalfEven v = Zfloor v \/
  (roundHalfEven v = (Zfloor v + 1)%Z /\ 1 / 2 <= v - IZR (Zfloor v)).
Proof.
  unfold roundHalfEven. cbv zeta.
  destruct (Rltb (v - IZR (Zfloor v)) (1 / 2)) eqn:E1; [now left|].
  apply Rltb_false in E1.
  destruct (Rltb (1 / 2) (v - IZR (Zfloor v))); [now right|].
  destruct (Z.even (Zfloor v)); [now left | now right].
Qed.

(** Rounding to the nearest integer keeps a number between two integers
    between them. *)
Lemma roundHalfEven_bounds (a b : Z) v :
  IZR a <= v <= IZR b -> (a <= roundHalfEven v <= b)%Z.
Proof.
  intros [Ha Hb].
  assert (Hfa : (a <= Zfloor v)%Z) by now apply Zfloor_lub.
  pose proof (Zfloor_bound v) as [Hf1 Hf2].
  assert (Hfb : (Zfloor v <= b)%Z) by (apply le_IZR; lra).
  destruct (roundHalfEven_cases v) as [-> | [-> Hhalf]]; [lia|].
  split; [lia|].
  assert (Zfloor v < b)%Z by (apply lt_IZR; lra). lia.
Qed.

Lemma roundHalfEven_IZR z : roundHalfEven (IZR z) = z.
Proof.
  pose proof (roundHalfEven_bounds z z (IZR z) ltac:(lra)). lia.
Qed.

(** A scan over the pixels of a buffer that writes each pixel once leaves,
    at every pixel, what its body wrote there. *)
Lemma pixel_scan_spec n (dep alp : nat -> Z)
    (body : nat -> list Z -> list Z) buf0 :
  (forall p buf, (p < n)%nat ->
     body (p * 4)%nat buf = writePixel buf (p * 4) (dep p) (alp p)) ->
  length buf0 = (4 * n)%nat ->
  length (for_step (4 * n) 4 body buf0) = (4 * n)%nat /\
  forall p, (p < n)%nat ->
    byteAt (for_step (4 * n) 4 body buf0) (p * 4) = clampZ (dep p) /\
    byteAt (for_step (4 * n) 4 body buf0) (p * 4 + 1) = clampZ (dep p) /\
    byteAt (for_step (4 * n) 4 body buf0) (p * 4 + 2) = clampZ (dep p) /\
    byteAt (for_step (4 * n) 4 body buf0) (p * 4 + 3) = clampZ (alp p).
Proof.
  intros Hbody Hlen. unfold for_step.
  replace ((4 * n + 4 - 1) / 4)%nat with n.
  2:{ apply Nat.div_unique with (r := 3%nat); lia. }
  pose (P := fun (k : nat) (buf : list Z) =>
    length buf = (4 * n)%nat /\
    forall p, (p < k)%nat ->
      byteAt buf (p * 4) = clampZ (dep p) /\
      byteAt buf (p * 4 + 1) = clampZ (dep p) /\
      byteAt buf (p * 4 + 2) = clampZ (dep p) /\
      byteAt buf (p * 4 + 3) = clampZ (alp p)).
  assert (HP : P n (for_range n (fun k => body (k * 4)%nat) buf0)).
  { apply for_range_ind.
    - split; [exact Hlen | intros; lia].
    - intros k st Hk [Hl Hpix]. rewrite Hbody by exact Hk.
      split; [now rewrite writePixel_length|].
      intros p Hp. destruct (Nat.eq_dec p k) as [-> | Hne].
      + apply writePixel_read. lia.
      + rewrite !writePixel_other by lia. apply Hpix. lia. }
  destruct HP as [Hl Hpix]. split; [exact Hl|]. exact Hpix.
Qed.

(** The contour of a well-formed raster: the luminance mask in R, G and B,
    the alpha of the source. *)
Lemma extractSimpleContour_spec img :
  wellFormed img ->
  wellFormed (extractSimpleContour img) /\
  forall x y, (x < width img)%nat -> (y < height img)%nat ->
    pixelAt (extractSimpleContour img) x y
    = (luminanceMask img x y, luminanceMask img x y, luminanceMask img x y,
       alphaAt img x y).
Proof.
  intros [Hlen Hbytes].
  set (n := (width img * height img)%nat).
  set (dep := fun p : nat =>
    if Rltb 128 (299 / 1000 * IZR (byteAt (data img) (p * 4))
                 + 587 / 1000 * IZR (byteAt (data img) (p * 4 + 1))
                 + 114 / 1000 * IZR (byteAt (data img) (p * 4 + 2)))
    then 255%Z else 0%Z).
  set (alp := fun p : nat => byteAt (data img) (p * 4 + 3)).
  destruct (pixel_scan_spec n dep alp (contourBody (data img))
              (replicate (4 * n) 0%Z)) as [Hl Hpix].
  { intros p buf _. reflexivity. }
  { apply length_replicate. }
  assert (Hdata : data (extractSimpleContour img)
                  = for_step (4 * n) 4 (contourBody (data img))
                             (replicate (4 * n) 0%Z)).
  { unfold extractSimpleContour. cbv zeta. cbn [data newImageData].
    now rewrite Hlen. }
  assert (Hdep : forall p, (0 <= dep p <= 255)%Z).
  { intros p. unfold dep. destruct (Rltb _ _); lia. }
  assert (Hpixel : forall x y, (x < width img)%nat -> (y < height img)%nat ->
    pixelAt (extractSimpleContour img) x y
    = (luminanceMask img x y, luminanceMask img x y, luminanceMask img x y,
       alphaAt img x y)).
  { intros x y Hx Hy. unfold pixelAt at 1. cbv zeta. rewrite Hdata.
    change (width (extractSimpleContour img)) with (width img).
    pose proof (cell_lt _ _ x y Hx Hy) as Hp. fold n in Hp.
    destruct (Hpix _ Hp) as (H0 & H1 & H2 & H3).
    rewrite H0, H1, H2, H3, !clampZ_id
      by (try apply Hdep; unfold alp; now apply byteAt_range).
    reflexivity. }
  split; [split|exact Hpixel].
  - rewrite Hdata, Hl. reflexivity.
  - apply bytes_of_pixels.
    + rewrite Hdata, Hl. reflexivity.
    + intros x y c Hx Hy Hc. rewrite pixel_channels by exact Hc.
      rewrite (Hpixel x y Hx Hy). cbn [fst snd].
      assert (Hm : (0 <= luminanceMask img x y <= 255)%Z)
        by (unfold luminanceMask; destruct (Rltb _ _); lia).
      assert (Ha : (0 <= alphaAt img x y <= 255)%Z)
        by (unfold alphaAt; now apply byteAt_range).
      destruct c as [|[|[|c]]]; lia.
Qed.

(** The mask of a grey pixel of depth 0 or 255 is that depth. *)
Lemma luminanceMask_binary img x y v a :
  pixelAt img x y = (v, v, v, a) -> v = 0%Z \/ v = 255%Z ->
  luminanceMask img x y = v.
Proof.
  intros E Hv. unfold luminanceMask, luminance. rewrite E.
  destruct Hv as [-> | ->].
  - rewrite (proj2 (Rltb_false _ _)) by lra. reflexivity.
  - rewrite (proj2 (Rltb_true _ _)) by lra. reflexivity.
Qed.

Lemma luminanceMask_cases img x y :
  luminanceMask img x y = 0%Z \/ luminanceMask img x y = 255%Z.
Proof. unfold luminanceMask. destruct (Rltb _ _); auto. Qed.

(** The window distance is between 1 and 10 at an inside pixel. *)
Lemma calculateSimpleDistance_range x y w h d :
  calculateSimpleDistance x y w h d <= 10 /\
  ((128 < byteAt d ((y * w + x) * 4))%Z ->
   1 <= calculateSimpleDistance x y w h d).
Proof.
  unfold calculateSimpleDistance.
  split.
  - apply (fold_left_preserves (fun m => m <= 10)); [|lra].
    intros m dy Hm.
    apply (fold_left_preserves (fun m => m <= 10)); [|exact Hm].
    intros m' dx Hm'. cbv zeta.
    destruct (inRaster _ _ _ _); [|exact Hm'].
    destruct (negb _); [|exact Hm'].
    pose proof (Rmin_l m' (sqrt (IZR (dx * dx + dy * dy)))). lra.
  - intros Hin.
    apply (fold_left_preserves (fun m => 1 <= m)); [|lra].
    intros m dy Hm.
    apply (fold_left_preserves (fun m => 1 <= m)); [|exact Hm].
    intros m' dx Hm'. cbv zeta.
    destruct (inRaster w h (Z.of_nat x + dx) (Z.of_nat y + dy)) eqn:Er;
      [|exact Hm'].
    destruct (Z.eq_dec dx 0%Z) as [-> | Hdx];
      [destruct (Z.eq_dec dy 0%Z) as [-> | Hdy]|].
    + rewrite !Z.add_0_r.
      replace (cellIndex w (Z.of_nat x) (Z.of_nat y)) with (y * w + x)%nat
        by (unfold cellIndex; lia).
      rewrite (proj2 (Z.ltb_lt _ _) Hin). exact Hm'.
    + destruct (negb _); [|exact Hm'].
      apply Rmin_glb; [exact Hm'|].
      rewrite <- sqrt_1. apply sqrt_le_1_alt. apply IZR_le. nia.
    + destruct (negb _); [|exact Hm'].
      apply Rmin_glb; [exact Hm'|].
      rewrite <- sqrt_1. apply sqrt_le_1_alt. apply IZR_le. nia.
Qed.

Lemma fold_left_preserves_In {A B} (P : A -> Prop) (f : A -> B -> A) l a :
  (forall a b, In b l -> P a -> P (f a b)) -> P a -> P (fold_left f l a).
Proof.
  revert a. induction l as [|b l IH]; intros a H Ha; [exact Ha|].
  simpl. apply IH.
  - intros a' b' Hb'. apply H. now right.
  - apply H; [now left | exact Ha].
Qed.

(** A fold that never increases its accumulator ends below every bound
    that one of its steps enforces. *)
Lemma fold_left_reaches {B} (f : R -> B -> R) l m0 b0 bound :
  (forall m b, f m b <= m) -> In b0 l -> (forall m, f m b0 <= bound) ->
  fold_left f l m0 <= bound.
Proof.
  intros Hdec. revert m0. induction l as [|b l IH]; intros m0 Hin Hb;
    [destruct Hin|].
  simpl. destruct Hin as [-> | Hin].
  - apply Rle_trans with (f m0 b0); [|apply Hb].
    apply (fold_left_preserves (fun m => m <= f m0 b0)); [|lra].
    intros m b' Hm. pose proof (Hdec m b'). lra.
  - now apply IH.
Qed.

Lemma symRange_5 dv : In dv (symRange 5) <-> (-5 <= dv <= 5)%Z.
Proof.
  change (symRange 5) with [-5; -4; -3; -2; -1; 0; 1; 2; 3; 4; 5]%Z.
  simpl. lia.
Qed.

(** The step of the inner loop of the window distance. *)
Lemma simple_step_cases x y w h d dy m dx :
  let step :=
    if inRaster w h (Z.of_nat x + dx) (Z.of_nat y + dy) then
      if negb (128 <? byteAt d (cellIndex w (Z.of_nat x + dx)
                                          (Z.of_nat y + dy) * 4))%Z
      then Rmin m (sqrt (IZR (dx * dx + dy * dy))) else m
    else m in
  step <= m /\
  (inRaster w h (Z.of_nat x + dx) (Z.of_nat y + dy) = true ->
   (byteAt d (cellIndex w (Z.of_nat x + dx) (Z.of_nat y + dy) * 4) <= 128)%Z ->
   step <= sqrt (IZR (dx * dx + dy * dy))) /\
  (step = m \/
   (inRaster w h (Z.of_nat x + dx) (Z.of_nat y + dy) = true /\
    (byteAt d (cellIndex w (Z.of_nat x + dx) (Z.of_nat y + dy) * 4) <= 128)%Z /\
    step = sqrt (IZR (dx * dx + dy * dy)))).
Proof.
  cbv zeta.
  destruct (inRaster w h (Z.of_nat x + dx) (Z.of_nat y + dy));
    [|split; [lra | split; [discriminate | now left]]].
  destruct (128 <? _)%Z eqn:E; cbn [negb].
  - apply Z.ltb_lt in E. split; [lra | split; [lia | now left]].
  - apply Z.ltb_ge in E.
    split; [apply Rmin_l|]. split; [intros; apply Rmin_r|].
    unfold Rmin. destruct (Rle_dec _ _); [now left | right; auto].
Qed.

(** The grey value of a pixel, by style. *)
Lemma grayscaleValue_levels contourData edgeType y x :
  let v := grayscaleValue contourData edgeType y x in
  ((byteAt (data contourData) ((y * width contourData + x) * 4) <= 128)%Z ->
   v = 0) /\
  ((128 < byteAt (data contourData) ((y * width contourData + x) * 4))%Z ->
   match edgeType with
   | Some rounded => 20 <= v <= 200
   | Some chamfered => 15 <= v <= 150
   | _ => v = 255
   end).
Proof.
  cbv zeta. unfold grayscaleValue. cbv zeta. split.
  - intros H. now rewrite (proj2 (Z.ltb_ge _ _) H).
  - intros H. rewrite (proj2 (Z.ltb_lt _ _) H).
    destruct (calculateSimpleDistance_range x y (width contourData)
                (height contourData) (data contourData)) as [Hle Hge].
    specialize (Hge H).
    set (d := calculateSimpleDistance _ _ _ _ _) in *.
    destruct edgeType as [[| |]|]; try reflexivity.
    + rewrite Rmin_right by lra. lra.
    + rewrite Rmin_right by lra. lra.
Qed.

(** The grey raster, pixel by pixel. *)
Lemma createSimpleGrayscale_spec contourData edgeType :
  length (data (createSimpleGrayscale contourData edgeType))
  = (4 * (width contourData * height contourData))%nat /\
  forall x y, (x < width contourData)%nat -> (y < height contourData)%nat ->
    let v := clampZ (roundHalfEven (grayscaleValue contourData edgeType y x)) in
    pixelAt (createSimpleGrayscale contourData edgeType) x y
    = (v, v, v, 255%Z).
Proof.
  unfold createSimpleGrayscale. cbv zeta. cbn [data width height].
  destruct (pixel_loops_spec (width contourData) (height contourData)
              (fun y x =>
                 roundHalfEven (grayscaleValue contourData edgeType y x))
              (fun _ _ => 255%Z) (grayscaleBody contourData edgeType)
              (replicate (4 * (width contourData * height contourData)) 0%Z))
    as [Hl Hp].
  { intros y x buf _ _. reflexivity. }
  { apply length_replicate. }
  split; [exact Hl|]. intros x y Hx Hy. exact (Hp x y Hx Hy).
Qed.

End SimpleProperties.

(** ** The vertices, faces and normals of the mesh *)

Section MeshProperties.

Import MeshBuilder.

Lemma numAt_app_l (l l' : list R) i :
  (i < length l)%nat -> numAt (l ++ l') i = numAt l i.
Proof. intros H. unfold numAt. now rewrite lookup_app_l. Qed.

Lemma numAt_app_r (l l' : list R) i :
  numAt (l ++ l') (length l + i) = numAt l' i.
Proof.
  unfold numAt. rewrite lookup_app_r by lia.
  now replace (length l + i - length l)%nat with i by lia.
Qed.

Lemma natAt_app_l (l l' : list nat) i :
  (i < length l)%nat -> natAt (l ++ l') i = natAt l i.
Proof. intros H. unfold natAt. now rewrite lookup_app_l. Qed.

Lemma natAt_app_r (l l' : list nat) i :
  natAt (l ++ l') (length l + i) = natAt l' i.
Proof.
  unfold natAt. rewrite lookup_app_r by lia.
  now replace (length l + i - length l)%nat with i by lia.
Qed.

Lemma tripleAt_app_l (l l' : list R) k :
  (3 * k + 2 < length l)%nat -> tripleAt (l ++ l') k = tripleAt l k.
Proof. intros H. unfold tripleAt. now rewrite !numAt_app_l by lia. Qed.

Lemma tripleAt_app_r (l : list R) a b c k :
  length l = (3 * k)%nat -> tripleAt (l ++ [a; b; c]) k = (a, b, c).
Proof.
  intros H. unfold tripleAt.
  replace (3 * k)%nat with (length l + 0)%nat at 1 by lia.
  replace (3 * k + 1)%nat with (length l + 1)%nat by lia.
  replace (3 * k + 2)%nat with (length l + 2)%nat by lia.
  now rewrite !numAt_app_r.
Qed.

Lemma triangleAt_app_l (l l' : list nat) t :
  (3 * t + 2 < length l)%nat -> triangleAt (l ++ l') t = triangleAt l t.
Proof. intros H. unfold triangleAt. now rewrite !natAt_app_l by lia. Qed.

Lemma triangleAt_app_r (l : list nat) a b c a' b' c' q :
  length l = (6 * q)%nat ->
  triangleAt (l ++ [a; b; c; a'; b'; c']) (2 * q) = (a, b, c) /\
  triangleAt (l ++ [a; b; c; a'; b'; c']) (2 * q + 1) = (a', b', c').
Proof.
  intros H. unfold triangleAt.
  replace (3 * (2 * q))%nat with (length l + 0)%nat at 1 by lia.
  replace (3 * (2 * q) + 1)%nat with (length l + 1)%nat by lia.
  replace (3 * (2 * q) + 2)%nat with (length l + 2)%nat by lia.
  replace (3 * (2 * q + 1))%nat with (length l + 3)%nat at 1 by lia.
  replace (3 * (2 * q + 1) + 1)%nat with (length l + 4)%nat by lia.
  replace (3 * (2 * q + 1) + 2)%nat with (length l + 5)%nat by lia.
  now rewrite !natAt_app_r.
Qed.

Lemma numAt_replicate_zero n i : numAt (replicate n 0) i = 0.
Proof.
  unfold numAt. destruct (replicate n 0 !! i) as [r|] eqn:E; [|reflexivity].
  apply lookup_replicate in E. now destruct E as [-> _].
Qed.

Lemma orElse_pos original current :
  (0 < current)%nat -> (0 < orElse original current)%nat.
Proof.
  intros H. unfold orElse. destruct original as [v|]; [|exact H].
  destruct (Nat.eqb_spec v 0); lia.
Qed.

Lemma gridSize_zero s : gridSize 0 s = 0%nat.
Proof.
  unfold gridSize. simpl. unfold Rdiv. rewrite Rmult_0_l.
  now rewrite (Zceil_eq 0 0) by (simpl; lra).
Qed.

(** The unit vector of a direction. *)
Lemma normalised_unit v : normSquared (normalised v) = 1.
Proof.
  destruct v as [[a b] c]. unfold normalised. cbv zeta.
  set (s := a * a + b * b + c * c).
  destruct (Rltb 0 (sqrt s)) eqn:E; [|simpl; ring].
  apply Rltb_true in E.
  assert (Hs : 0 <= s) by (unfold s; nra).
  pose proof (sqrt_sqrt s Hs) as Hsq.
  unfold normSquared. unfold Rdiv.
  set (i := / sqrt s).
  assert (Hi : sqrt s * i = 1) by (apply Rinv_r; lra).
  replace (a * i * (a * i) + b * i * (b * i) + c * i * (c * i))
    with (s * (i * i)) by (unfold s; ring).
  rewrite <- Hsq.
  replace (sqrt s * sqrt s * (i * i)) with ((sqrt s * i) * (sqrt s * i))
    by ring.
  rewrite Hi. ring.
Qed.

Lemma normalised_up a b c : 0 < c -> 0 < snd (normalised (a, b, c)).
Proof.
  intros Hc. unfold normalised. cbv zeta.
  set (s := a * a + b * b + c * c).
  assert (Hs : 0 < s) by (unfold s; nra).
  pose proof (sqrt_lt_R0 s Hs) as Hl.
  rewrite (proj2 (Rltb_true 0 (sqrt s)) Hl). cbn [snd].
  apply Rdiv_lt_0_compat; assumption.
Qed.

(** One step of the last loop. *)
Lemma normaliseBody_triple arr k :
  (3 * k + 2 < length arr)%nat ->
  length (normaliseBody (k * 3) arr) = length arr /\
  tripleAt (normaliseBody (k * 3) arr) k = normalised (tripleAt arr k) /\
  forall j, j <> k -> tripleAt (normaliseBody (k * 3) arr) j = tripleAt arr j.
Proof.
  intros Hk. rewrite (Nat.mul_comm k 3).
  unfold normaliseBody, normalised, tripleAt. cbv zeta.
  set (a := numAt arr (3 * k)). set (b := numAt arr (3 * k + 1)).
  set (c := numAt arr (3 * k + 2)).
  destruct (Rltb 0 (sqrt (a * a + b * b + c * c))).
  - split; [now rewrite !length_insert|]. split.
    + rewrite !numAt_insert_ne by lia.
      rewrite numAt_insert_eq by lia.
      rewrite (numAt_insert_ne _ (3 * k + 2)) by lia.
      rewrite numAt_insert_eq by (rewrite length_insert; lia).
      rewrite numAt_insert_eq by (rewrite !length_insert; lia).
      rewrite !numAt_insert_ne by lia. reflexivity.
    + intros j Hj. now rewrite !numAt_insert_ne by lia.
  - split; [now rewrite !length_insert|]. split.
    + rewrite !numAt_insert_ne by lia.
      rewrite numAt_insert_eq by lia.
      rewrite (numAt_insert_ne _ (3 * k + 2)) by lia.
      rewrite numAt_insert_eq by (rewrite length_insert; lia).
      rewrite numAt_insert_eq by (rewrite !length_insert; lia).
      reflexivity.
    + intros j Hj. now rewrite !numAt_insert_ne by lia.
Qed.

(** The last loop normalises every triple. *)
Lemma normalise_loop arr n :
  length arr = (3 * n)%nat ->
  length (for_step (length arr) 3 normaliseBody arr) = (3 * n)%nat /\
  forall k, (k < n)%nat ->
    tripleAt (for_step (length arr) 3 normaliseBody arr) k
    = normalised (tripleAt arr k).
Proof.
  intros Hlen. unfold for_step. rewrite Hlen.
  replace ((3 * n + 3 - 1) / 3)%nat with n
    by (apply Nat.div_unique with (r := 2%nat); lia).
  pose (P := fun (j : nat) (buf : list R) =>
    length buf = (3 * n)%nat /\
    forall k, (k < n)%nat ->
      tripleAt buf k
      = if (k <? j)%nat then normalised (tripleAt arr k) else tripleAt arr k).
  assert (HP : P n (for_range n (fun k => normaliseBody (k * 3)) arr)).
  { apply for_range_ind.
    - split; [exact Hlen|]. intros k _. reflexivity.
    - intros j buf Hj [Hl Hb].
      destruct (normaliseBody_triple buf j ltac:(lia)) as (Hl' & Hj' & Ho).
      split; [lia|]. intros k Hk.
      destruct (Nat.eq_dec k j) as [-> | Hne].
      + rewrite Hj', (Hb j Hj), Nat.ltb_irrefl.
        now rewrite (proj2 (Nat.ltb_lt j (S j))) by lia.
      + rewrite (Ho k Hne), (Hb k Hk).
        destruct (Nat.ltb_spec k j); destruct (Nat.ltb_spec k (S j));
          try reflexivity; lia. }
  destruct HP as [Hl Hb]. split; [exact Hl|]. intros k Hk.
  now rewrite (Hb k Hk), (proj2 (Nat.ltb_lt k n)) by exact Hk.
Qed.

(** The accumulation keeps the length of the array. *)
Lemma accumulateBody_length vs fs i arr :
  length (accumulateBody vs fs i arr) = length arr.
Proof.
  unfold accumulateBody. cbv zeta.
  apply (fold_left_preserves (fun a => length a = length arr));
    [|reflexivity].
  intros a v Ha. now rewrite !length_insert.
Qed.

Lemma accumulate_length vs fs n arr :
  length (for_step n 3 (accumulateBody vs fs) arr) = length arr.
Proof.
  unfold for_step.
  apply (for_range_ind (fun _ a => length a = length arr)); [reflexivity|].
  intros i a _ Ha. now rewrite accumulateBody_length.
Qed.

(** The accumulation, as a fold of [addNormal]. *)
Lemma accumulateBody_fold vs fs i arr :
  accumulateBody vs fs i arr
  = fold_left (addNormal (faceNormal vs fs i))
              [natAt fs i; natAt fs (i + 1); natAt fs (i + 2)] arr.
Proof. reflexivity. Qed.

Lemma addNormal_length n arr vi : length (addNormal n arr vi) = length arr.
Proof. unfold addNormal. cbv zeta. now rewrite !length_insert. Qed.

(** Adding a normal changes the third component of one vertex only. *)
Lemma addNormal_z n arr vi v :
  (3 * vi + 2 < length arr)%nat ->
  numAt (addNormal n arr vi) (3 * v + 2)
  = numAt arr (3 * v + 2) + (if (v =? vi)%nat then snd n else 0).
Proof.
  intros Hvi. unfold addNormal. cbv zeta.
  destruct (Nat.eqb_spec v vi) as [-> | Hne].
  - replace (vi * 3 + 2)%nat with (3 * vi + 2)%nat by lia.
    rewrite numAt_insert_eq by (rewrite !length_insert; lia).
    rewrite !numAt_insert_ne by lia. reflexivity.
  - rewrite !numAt_insert_ne by lia. lra.
Qed.

(** One step of the accumulation never lowers a third component, and
    raises those of the three corners by the third component of the face
    normal. *)
Lemma accumulateBody_z vs fs t arr v :
  (3 * natAt fs (3 * t) + 2 < length arr)%nat ->
  (3 * natAt fs (3 * t + 1) + 2 < length arr)%nat ->
  (3 * natAt fs (3 * t + 2) + 2 < length arr)%nat ->
  0 < snd (faceNormal vs fs (t * 3)) ->
  numAt arr (3 * v + 2) <= numAt (accumulateBody vs fs (t * 3) arr) (3 * v + 2)
  /\ (cornerOf fs t v ->
      numAt arr (3 * v + 2)
      < numAt (accumulateBody vs fs (t * 3) arr) (3 * v + 2)).
Proof.
  intros Ha Hb Hc Hn. rewrite accumulateBody_fold.
  replace (t * 3)%nat with (3 * t)%nat in * by lia.
  set (n := faceNormal vs fs (3 * t)) in *.
  cbn [fold_left].
  rewrite addNormal_z by (rewrite !addNormal_length; exact Hc).
  rewrite addNormal_z by (rewrite !addNormal_length; exact Hb).
  rewrite addNormal_z by exact Ha.
  unfold cornerOf.
  destruct (Nat.eqb_spec v (natAt fs (3 * t)));
    destruct (Nat.eqb_spec v (natAt fs (3 * t + 1)));
    destruct (Nat.eqb_spec v (natAt fs (3 * t + 2)));
    (split; [lra | intros [H | [H | H]]; try contradiction; lra]).
Qed.

(** If every face normal points up, the accumulated normal of every
    vertex that is a corner of a triangle points up. *)
Lemma accumulate_up vs fs n T :
  length fs = (3 * T)%nat ->
  (forall t, (t < T)%nat ->
     (natAt fs (3 * t) < n)%nat /\ (natAt fs (3 * t + 1) < n)%nat /\
     (natAt fs (3 * t + 2) < n)%nat /\
     0 < snd (faceNormal vs fs (t * 3))) ->
  forall v t, (t < T)%nat -> cornerOf fs t v ->
    0 < numAt (for_step (length fs) 3 (accumulateBody vs fs)
                        (replicate (3 * n) 0)) (3 * v + 2).
Proof.
  intros Hlen Hfaces. unfold for_step. rewrite Hlen.
  replace ((3 * T + 3 - 1) / 3)%nat with T
    by (apply Nat.div_unique with (r := 2%nat); lia).
  pose (P := fun (j : nat) (acc : list R) =>
    length acc = (3 * n)%nat /\
    forall v, 0 <= numAt acc (3 * v + 2) /\
      forall t, (t < j)%nat -> cornerOf fs t v ->
        0 < numAt acc (3 * v + 2)).
  assert (HP : P T (for_range T (fun k => accumulateBody vs fs (k * 3))
                              (replicate (3 * n) 0))).
  { apply for_range_ind.
    - split; [apply length_replicate|]. intros v. split; [|intros; lia].
      unfold numAt.
      destruct (replicate (3 * n) 0 !! (3 * v + 2)%nat) as [r|] eqn:E;
        simpl; [|lra].
      apply lookup_replicate in E. destruct E as [-> _]. lra.
    - intros j acc Hj [Hl Hacc].
      destruct (Hfaces j Hj) as (Ha & Hb & Hc & Hn).
      split; [now rewrite accumulateBody_length|]. intros v.
      destruct (accumulateBody_z vs fs j acc v) as [Hle Hlt];
        try lia; try exact Hn.
      destruct (Hacc v) as [H0 Hprev].
      split; [lra|]. intros t Ht Hcorner.
      destruct (Nat.eq_dec t j) as [-> | Hne].
      + specialize (Hlt Hcorner). lra.
      + specialize (Hprev t ltac:(lia) Hcorner). lra. }
  destruct HP as [_ Hacc]. intros v t Ht Hcorner.
  exact (proj2 (Hacc v) t Ht Hcorner).
Qed.

(** The face normal of a triangle that turns counter-clockwise in the
    plane, seen from above, points up. *)
Lemma faceNormal_up vs fs t a b c x1 y1 z1 x2 y2 z2 x3 y3 z3 :
  triangleAt fs t = (a, b, c) ->
  tripleAt vs a = (x1, y1, z1) -> tripleAt vs b = (x2, y2, z2) ->
  tripleAt vs c = (x3, y3, z3) ->
  0 < (x2 - x1) * (y3 - y1) - (y2 - y1) * (x3 - x1) ->
  0 < snd (faceNormal vs fs (t * 3)).
Proof.
  intros Ht Ha Hb Hc Hz.
  components Ht Ea Eb Ec. components Ha Ex1 Ey1 Ez1.
  components Hb Ex2 Ey2 Ez2. components Hc Ex3 Ey3 Ez3.
  unfold faceNormal. cbv zeta. cbn [snd].
  replace (t * 3)%nat with (3 * t)%nat by lia.
  rewrite Ea, Eb, Ec.
  replace (a * 3)%nat with (3 * a)%nat by lia.
  replace (b * 3)%nat with (3 * b)%nat by lia.
  replace (c * 3)%nat with (3 * c)%nat by lia.
  rewrite Ex1, Ey1, Ez1, Ex2, Ey2, Ez2, Ex3, Ey3, Ez3.
  set (nx := (y2 - y1) * (z3 - z1) - (z2 - z1) * (y3 - y1)).
  set (ny := (z2 - z1) * (x3 - x1) - (x2 - x1) * (z3 - z1)).
  set (nz := (x2 - x1) * (y3 - y1) - (y2 - y1) * (x3 - x1)) in *.
  destruct (Rltb 0 (sqrt (nx * nx + ny * ny + nz * nz))) eqn:E; [|lra].
  apply Rltb_true in E. now apply Rdiv_lt_0_compat.
Qed.

Variables (imageData : ImageData) (modelHeight : R) (w h : nat).
Variables (originalWidth originalHeight : option nat) (quality : Quality).

Local Abbreviation gw := (gridWidth w quality).
Local Abbreviation gh := (gridHeight h quality).
Local Abbreviation vl :=
  (vertexLoop imageData modelHeight w h originalWidth originalHeight quality).
Local Abbreviation fl :=
  (faceLoop imageData modelHeight w h originalWidth originalHeight quality).
Local Abbreviation geometry :=
  (buildGeometry imageData modelHeight w h originalWidth originalHeight
                 quality).
Local Abbreviation wX := (worldX w quality).
Local Abbreviation wY := (worldY w h originalWidth originalHeight quality).
Local Abbreviation wZ := (worldZ imageData modelHeight w h quality).
Local Abbreviation depthOf := (vertexDepth imageData w h quality).

(** The vertex loops store, for the vertex in column [x] of row [y], its
    position and its colour at the triple [y * gridWidth + x]. *)
Lemma vertexLoop_vertex x y :
  (x < gw)%nat -> (y < gh)%nat ->
  tripleAt (vertices vl) (y * gw + x)
  = (wX x, wY y, wZ y x) /\
  tripleAt (colors vl) (y * gw + x)
  = (7 / 10 + depthOf y x * (3 / 10),
     (7 / 10 + depthOf y x * (3 / 10)) * (95 / 100),
     (7 / 10 + depthOf y x * (3 / 10)) * (9 / 10)).
Proof.
  intros Hx Hy.
  pose (V := fun (g : Geometry) (x y : nat) =>
    tripleAt (vertices g) (y * gw + x)
    = (wX x, wY y, wZ y x) /\
    tripleAt (colors g) (y * gw + x)
    = (7 / 10 + depthOf y x * (3 / 10),
       (7 / 10 + depthOf y x * (3 / 10)) * (95 / 100),
       (7 / 10 + depthOf y x * (3 / 10)) * (9 / 10))).
  assert (HP : length (vertices vl) = (3 * (gh * gw))%nat /\
               length (colors vl) = (3 * (gh * gw))%nat /\
               forall x y, (x < gw)%nat -> (y < gh)%nat ->
                 (y * gw + x < gh * gw)%nat -> V vl x y).
  { unfold vertexLoop.
    apply (for_yx_ind (fun k g =>
             length (vertices g) = (3 * k)%nat /\
             length (colors g) = (3 * k)%nat /\
             forall x y, (x < gw)%nat -> (y < gh)%nat ->
               (y * gw + x < k)%nat -> V g x y)).
    - simpl. repeat split; intros; lia.
    - intros y0 x0 g Hy0 Hx0 (Hlv & Hlc & Hprev).
      unfold vertexBody. cbv zeta. cbn [vertices colors].
      rewrite !length_app. simpl length.
      split; [lia|]. split; [lia|].
      intros x' y' Hx' Hy' Hk. unfold V. cbn [vertices colors].
      destruct (Nat.eq_dec (y' * gw + x')%nat (y0 * gw + x0)%nat)
        as [E | NE].
      + destruct (cell_inj gw x' y' x0 y0 Hx' Hx0 E) as [-> ->].
        rewrite !tripleAt_app_r by assumption. split; reflexivity.
      + rewrite !tripleAt_app_l by lia.
        apply (Hprev x' y' Hx' Hy'). lia. }
  destruct HP as (_ & _ & HV).
  apply (HV x y Hx Hy).
  rewrite (Nat.mul_comm gh gw). now apply cell_lt.
Qed.

(** The face loops keep the vertices, colours and provisional normals, and
    store the two triangles of the quad in column [x] of row [y] as the
    triangles [2 q] and [2 q + 1], for [q = y * (gridWidth - 1) + x]. *)
Lemma faceLoop_content :
  vertices fl = vertices vl /\
  colors fl = colors vl /\
  normals fl = normals vl /\
  forall x y, (x < gw - 1)%nat -> (y < gh - 1)%nat ->
    let q := (y * (gw - 1) + x)%nat in
    triangleAt (faces fl) (2 * q)
    = ((y * gw + x)%nat, ((y + 1) * gw + x)%nat,
       (y * gw + (x + 1))%nat) /\
    triangleAt (faces fl) (2 * q + 1)
    = ((y * gw + (x + 1))%nat, ((y + 1) * gw + x)%nat,
       ((y + 1) * gw + (x + 1))%nat).
Proof.
  pose (Q := fun (g : Geometry) (x y : nat) =>
    triangleAt (faces g) (2 * (y * (gw - 1) + x))
    = ((y * gw + x)%nat, ((y + 1) * gw + x)%nat,
       (y * gw + (x + 1))%nat) /\
    triangleAt (faces g) (2 * (y * (gw - 1) + x) + 1)
    = ((y * gw + (x + 1))%nat, ((y + 1) * gw + x)%nat,
       ((y + 1) * gw + (x + 1))%nat)).
  assert (HP : vertices fl = vertices vl /\
               colors fl = colors vl /\
               normals fl = normals vl /\
               length (faces fl)
               = (6 * ((gh - 1) * (gw - 1)))%nat /\
               forall x y, (x < gw - 1)%nat -> (y < gh - 1)%nat ->
                 (y * (gw - 1) + x < (gh - 1) * (gw - 1))%nat ->
                 Q fl x y).
  { unfold faceLoop at 1 2 3 4 5.
    apply (for_yx_ind (fun k g =>
             vertices g = vertices vl /\
             colors g = colors vl /\
             normals g = normals vl /\
             length (faces g) = (6 * k)%nat /\
             forall x y, (x < gw - 1)%nat -> (y < gh - 1)%nat ->
               (y * (gw - 1) + x < k)%nat -> Q g x y)).
    - destruct (vertexLoop_lengths imageData modelHeight w h originalWidth
                  originalHeight quality) as (_ & _ & _ & Hf).
      rewrite Hf. repeat split; intros; try reflexivity;
        exfalso; eapply Nat.nlt_0_r; eassumption.
    - intros y0 x0 g Hy0 Hx0 (Hv & Hc & Hn & Hl & Hprev).
      unfold faceBody. cbv zeta. cbn [vertices colors normals faces].
      rewrite length_app. simpl length.
      split; [exact Hv|]. split; [exact Hc|]. split; [exact Hn|].
      split; [lia|].
      intros x' y' Hx' Hy' Hk. unfold Q. cbn [faces].
      destruct (Nat.eq_dec (y' * (gw - 1) + x')%nat
                           (y0 * (gw - 1) + x0)%nat) as [E | NE].
      + destruct (cell_inj (gw - 1) x' y' x0 y0 Hx' Hx0 E) as [-> ->].
        now apply triangleAt_app_r.
      + rewrite !triangleAt_app_l by lia.
        apply (Hprev x' y' Hx' Hy'). lia. }
  destruct HP as (Hv & Hc & Hn & _ & HQ).
  split; [exact Hv|]. split; [exact Hc|]. split; [exact Hn|].
  intros x y Hx Hy. apply (HQ x y Hx Hy).
  rewrite (Nat.mul_comm (gh - 1) (gw - 1)). now apply cell_lt.
Qed.

(** The geometry, in terms of the two loops that precede the normals. *)
Lemma buildGeometry_unfold :
  geometry
  = let acc := for_step (length (faces fl)) 3
                 (accumulateBody (vertices fl) (faces fl))
                 (replicate (length (normals fl)) 0) in
    mkGeometry (vertices fl) (colors fl)
               (for_step (length acc) 3 normaliseBody acc) (faces fl).
Proof. reflexivity. Qed.

(** The arrays of the geometry. *)
Lemma buildGeometry_fields :
  vertices geometry = vertices vl /\
  colors geometry = colors vl /\
  faces geometry = faces fl /\
  length (normals geometry) = (3 * (gh * gw))%nat /\
  forall k, (k < gh * gw)%nat ->
    tripleAt (normals geometry) k
    = normalised
        (tripleAt
           (for_step (length (faces fl)) 3
              (accumulateBody (vertices vl) (faces fl))
              (replicate (3 * (gh * gw)) 0))
           k).
Proof.
  destruct faceLoop_content as (Hv & Hc & Hn & _).
  destruct (vertexLoop_lengths imageData modelHeight w h originalWidth
              originalHeight quality) as (_ & _ & Hln & _).
  rewrite buildGeometry_unfold. cbv zeta. cbn [vertices colors normals faces].
  split; [exact Hv|]. split; [exact Hc|]. split; [reflexivity|].
  rewrite Hv, Hn, Hln.
  set (acc := for_step (length (faces fl)) 3
                (accumulateBody (vertices vl) (faces fl))
                (replicate (3 * (gh * gw)) 0)).
  assert (Hacc : length acc = (3 * (gh * gw))%nat).
  { unfold acc. rewrite accumulate_length. apply length_replicate. }
  exact (normalise_loop acc _ Hacc).
Qed.

Lemma grid_nonempty size :
  (2 <= gridSize size (step quality))%nat -> (0 < size)%nat.
Proof.
  intros H. destruct size; [|lia]. rewrite gridSize_zero in H. lia.
Qed.

(** Columns run to the right and rows run down. *)
Lemma worldX_step x :
  (2 <= gw)%nat -> 0 < wX (x + 1) - wX x.
Proof.
  intros Hg. unfold worldX. rewrite plus_INR. simpl (INR 1).
  apply le_INR in Hg. simpl in Hg.
  set (G := INR gw) in *. unfold Rdiv.
  assert (Hi : 0 < / (G - 1)) by (apply Rinv_0_lt_compat; lra).
  nra.
Qed.

Lemma worldY_step y :
  (2 <= gw)%nat -> (2 <= gh)%nat ->
  wY (y + 1) - wY y < 0.
Proof.
  intros Hgw Hgh. unfold worldY. rewrite plus_INR. simpl (INR 1).
  pose proof (orElse_pos originalWidth w (grid_nonempty w Hgw)) as Hw.
  pose proof (orElse_pos originalHeight h (grid_nonempty h Hgh)) as Hh.
  apply lt_0_INR in Hw, Hh.
  apply le_INR in Hgh. simpl in Hgh.
  set (G := INR gh) in *.
  set (pw := INR (orElse originalWidth w)) in *.
  set (ph := INR (orElse originalHeight h)) in *.
  assert (Hr : 0 < ph / pw) by now apply Rdiv_lt_0_compat.
  set (r := ph / pw) in *. unfold Rdiv.
  assert (Hi : 0 < / (G - 1)) by (apply Rinv_0_lt_compat; lra).
  replace (((G - 1 - (INR y + 1)) * / (G - 1) - 1 * / 2) * 10 * r
           - ((G - 1 - INR y) * / (G - 1) - 1 * / 2) * 10 * r)
    with (- (/ (G - 1) * (10 * r))) by ring.
  assert (0 < / (G - 1) * (10 * r)) by (apply Rmult_lt_0_compat; lra).
  lra.
Qed.

(** Every triangle has its three corners among the vertices and a face
    normal that points up. *)
Lemma triangles_up t :
  (2 <= gw)%nat -> (2 <= gh)%nat ->
  (t < 2 * ((gh - 1) * (gw - 1)))%nat ->
  (natAt (faces fl) (3 * t) < gh * gw)%nat /\
  (natAt (faces fl) (3 * t + 1) < gh * gw)%nat /\
  (natAt (faces fl) (3 * t + 2) < gh * gw)%nat /\
  0 < snd (faceNormal (vertices vl) (faces fl) (t * 3)).
Proof.
  intros Hgw Hgh Ht.
  assert (Hq : (t / 2 < (gw - 1) * (gh - 1))%nat).
  { apply Nat.Div0.div_lt_upper_bound. lia. }
  destruct (cell_split _ _ _ Hq) as (x & y & Hx & Hy & Exy).
  destruct faceLoop_content as (_ & _ & _ & Hcontent).
  destruct (Hcontent x y Hx Hy) as [T1 T2]. cbv zeta in T1, T2.
  rewrite <- Exy in T1, T2.
  pose proof (Nat.div_mod_eq t 2) as Et.
  pose proof (Nat.mod_upper_bound t 2 ltac:(lia)) as Hr.
  pose proof (worldX_step x Hgw) as HX.
  pose proof (worldY_step y Hgw Hgh) as HY.
  set (g := gw) in *.
  assert (Hrow : ((y + 1) * g + g <= gh * g)%nat).
  { replace ((y + 1) * g + g)%nat with ((y + 2) * g)%nat by lia.
    apply Nat.mul_le_mono_r. lia. }
  destruct (vertexLoop_vertex x y ltac:(lia) ltac:(lia)) as [Vtl _].
  destruct (vertexLoop_vertex (x + 1) y ltac:(lia) ltac:(lia)) as [Vtr _].
  destruct (vertexLoop_vertex x (y + 1) ltac:(lia) ltac:(lia)) as [Vbl _].
  destruct (vertexLoop_vertex (x + 1) (y + 1) ltac:(lia) ltac:(lia))
    as [Vbr _].
  fold g in Vtl, Vtr, Vbl, Vbr.
  assert (Hcases : t = (2 * (t / 2))%nat \/ t = (2 * (t / 2) + 1)%nat) by lia.
  destruct Hcases as [E | E].
  - rewrite <- E in T1. components T1 Ea Eb Ec.
    rewrite Ea, Eb, Ec.
    split; [lia|]. split; [lia|]. split; [lia|].
    apply (faceNormal_up _ _ _ _ _ _ _ _ _ _ _ _ _ _ _ T1 Vtl Vbl Vtr).
    nra.
  - rewrite <- E in T2. components T2 Ea Eb Ec.
    rewrite Ea, Eb, Ec.
    split; [lia|]. split; [lia|]. split; [lia|].
    apply (faceNormal_up _ _ _ _ _ _ _ _ _ _ _ _ _ _ _ T2 Vtr Vbl Vbr).
    nra.
Qed.

(** Every vertex of a grid with two rows and two columns or more is a
    corner of a triangle. *)
Lemma vertex_is_corner v :
  (2 <= gw)%nat -> (2 <= gh)%nat -> (v < gh * gw)%nat ->
  exists t, (t < 2 * ((gh - 1) * (gw - 1)))%nat /\
            cornerOf (faces fl) t v.
Proof.
  intros Hgw Hgh Hv. rewrite (Nat.mul_comm gh gw) in Hv.
  destruct (cell_split _ _ _ Hv) as (x & y & Hx & Hy & ->).
  destruct faceLoop_content as (_ & _ & _ & Hcontent).
  set (g := gw) in *. set (g' := gh) in *.
  set (qx := Nat.min x (g - 2)). set (qy := Nat.min y (g' - 2)).
  assert (Hqx : (qx < g - 1)%nat) by (unfold qx; lia).
  assert (Hqy : (qy < g' - 1)%nat) by (unfold qy; lia).
  destruct (Hcontent qx qy Hqx Hqy) as [T1 T2]. cbv zeta in T1, T2.
  pose proof (cell_lt (g - 1) (g' - 1) qx qy Hqx Hqy) as Hq.
  rewrite (Nat.mul_comm (g - 1) (g' - 1)) in Hq.
  components T1 Ka Kb Kc. components T2 La Lb Lc.
  assert (Hxq : x = qx \/ x = (qx + 1)%nat) by (unfold qx; lia).
  assert (Hyq : y = qy \/ y = (qy + 1)%nat) by (unfold qy; lia).
  clearbody qx qy.
  destruct Hxq as [-> | ->]; destruct Hyq as [-> | ->].
  - exists (2 * (qy * (g - 1) + qx))%nat. split; [lia|].
    left. now rewrite Ka.
  - exists (2 * (qy * (g - 1) + qx))%nat. split; [lia|].
    right. left. now rewrite Kb.
  - exists (2 * (qy * (g - 1) + qx))%nat. split; [lia|].
    right. right. now rewrite Kc.
  - exists (2 * (qy * (g - 1) + qx) + 1)%nat. split; [lia|].
    right. right. now rewrite Lc.
Qed.

End MeshProperties.

(** * Further theorems: the distance field and the edge processor *)

Section ProcessorExtras.

Import EdgeProfile DistanceField EdgeProcessor.

(** X1.  The depth raster depends on the alpha channel of the input only:
    two rasters of the same dimensions whose alpha agrees at every pixel
    give the same result, whatever their R, G and B. *)
Theorem depth_raster_depends_on_alpha_only (src src' : ImageData)
    (options : EdgeProcessorOptions) (fuel : nat) :
  width src = width src' -> height src = height src' ->
  (forall x y, (x < width src)%nat -> (y < height src)%nat ->
     alphaAt src x y = alphaAt src' x y) ->
  processImageWithEdges fuel src options
  = processImageWithEdges fuel src' options.
Proof.
  intros Hw Hh Ha.
  assert (Hc : extractSmartContour src = extractSmartContour src').
  { destruct (extractSmartContour_spec src) as [L1 F1].
    destruct (extractSmartContour_spec src') as [L2 F2].
    apply flag_lists_eq; [rewrite L1, L2, Hw, Hh; reflexivity|].
    intros p Hp. rewrite L1 in Hp.
    rewrite F1 by exact Hp. rewrite F2 by (rewrite <- Hw, <- Hh; exact Hp).
    destruct (cell_split _ _ p Hp) as (x & y & Hx & Hy & ->).
    specialize (Ha x y Hx Hy). unfold alphaAt in Ha.
    rewrite <- Hw in Ha. now rewrite Ha. }
  assert (Hv : forall y x buf, (y < height src)%nat -> (x < width src)%nat ->
            verticalPixel src y x buf = verticalPixel src' y x buf).
  { intros y x buf Hy Hx. rewrite !verticalPixel_writes.
    unfold verticalDepth, keptAlpha. now rewrite <- Hw, (Ha x y Hx Hy). }
  assert (Hp : forall df y x buf, (y < height src)%nat -> (x < width src)%nat ->
            profilePixel src options df y x buf
            = profilePixel src' options df y x buf).
  { intros df y x buf Hy Hx. rewrite !profilePixel_writes.
    unfold profileDepth, keptAlpha. now rewrite <- Hw, (Ha x y Hx Hy). }
  unfold processImageWithEdges. cbv zeta. rewrite <- Hc, <- Hw, <- Hh.
  destruct (edgeType options).
  - f_equal. f_equal. now apply for_yx_ext.
  - destruct (calculateDistanceFieldFast _ _ _ _ _) as [df|]; [|reflexivity].
    f_equal. f_equal. apply for_yx_ext. intros. now apply Hp.
  - destruct (calculateDistanceFieldFast _ _ _ _ _) as [df|]; [|reflexivity].
    f_equal. f_equal. apply for_yx_ext. intros. now apply Hp.
Qed.

Lemma depth_raster_depends_on_alpha_only_witness :
  processImageWithEdges 1 (onePixel 1 2 3 200) (mkOptions rounded 2 None)
  = processImageWithEdges 1 (onePixel 9 8 7 200) (mkOptions rounded 2 None).
Proof.
  apply (depth_raster_depends_on_alpha_only (onePixel 1 2 3 200)
           (onePixel 9 8 7 200)); try reflexivity.
  intros x y Hx Hy. simpl in Hx, Hy.
  assert (x = 0%nat) as -> by lia. assert (y = 0%nat) as -> by lia.
  reflexivity.
Defined.

(** X2.  In the distance field the values of two neighbouring inside pixels
    differ by at most the cost of the step between them (1, or [sqrt 2] on
    a diagonal). *)
Theorem distance_field_is_lipschitz (contour : list bool) (w h : nat)
    (maxDistance : R) :
  0 <= maxDistance ->
  exists fuel0, forall fuel, (fuel0 <= fuel)%nat ->
  exists df,
    calculateDistanceFieldFast fuel contour w h maxDistance = Some df /\
    forall p q, inside contour w h p -> inside contour w h q ->
      adjacent8 p q ->
      Rabs (valueAt w df q - valueAt w df p) <= stepCost p q.
Proof.
  intros Hcap.
  destruct (calculateDistanceFieldFast_exhausted contour w h maxDistance Hcap)
    as [fuel0 H].
  exists fuel0. intros fuel Hf.
  destruct (H fuel Hf) as (qi & st & Hrun & Hs & Hc & Hend).
  exists (distances st). split; [exact Hrun|].
  assert (Hset : forall p, inside contour w h p ->
            settled contour w h (distances st) p).
  { intros p Hp. destruct (Hc p Hp) as [(k & e & Hk & Hlook & _) | Hset];
      [|exact Hset].
    apply lookup_ge_None in Hend. apply lookup_lt_Some in Hlook. lia. }
  intros p q Hp Hq Hadj.
  pose proof (Hset p Hp q Hadj Hq) as H1.
  pose proof (Hset q Hq p (adjacent8_sym _ _ Hadj) Hp) as H2.
  rewrite (stepCost_sym q p) in H2.
  apply Rabs_le. lra.
Qed.

Lemma distance_field_is_lipschitz_witness :
  exists fuel0, forall fuel, (fuel0 <= fuel)%nat ->
  exists df,
    calculateDistanceFieldFast fuel mask3x3 3 3 2 = Some df /\
    Rabs (valueAt 3 df (1, 0)%Z - valueAt 3 df (1, 1)%Z) <= 1.
Proof.
  destruct (distance_field_is_lipschitz mask3x3 3 3 2) as [fuel0 H]; [lra|].
  exists fuel0. intros fuel Hf. destruct (H fuel Hf) as (df & Hrun & Hl).
  exists df. split; [exact Hrun|].
  apply (Hl (1, 1)%Z (1, 0)%Z).
  - split; reflexivity.
  - split; reflexivity.
  - split; [congruence | simpl; lia].
Defined.

(** X3.  With [edgeWidth = 0] the rounded and the chamfered style return
    the raster of the vertical style: every inside pixel is at full
    height. *)
Theorem zero_width_is_vertical (src : ImageData) (style : EdgeType)
    (angle : option R) (fuel : nat) :
  (width src * height src <= fuel)%nat ->
  processImageWithEdges fuel src (mkOptions style 0 angle)
  = processImageWithEdges 0 src (mkOptions vertical 0 None).
Proof.
  intros Hf.
  destruct (calculateDistanceFieldFast_capless (extractSmartContour src)
              (width src) (height src) 0 fuel (Rle_refl 0) Hf)
    as (df & Hdf & _ & Hval).
  assert (Hp : style <> vertical ->
            forall y x buf, (y < height src)%nat -> (x < width src)%nat ->
            profilePixel src (mkOptions style 0 angle) df y x buf
            = verticalPixel src y x buf).
  { intros Hs y x buf Hy Hx.
    rewrite profilePixel_writes, verticalPixel_writes. f_equal.
    unfold verticalDepth.
    destruct (32 <? alphaAt src x y)%Z eqn:Ea.
    - apply Z.ltb_lt in Ea.
      assert (Hd : numAt df (y * width src + x) = 0).
      { rewrite (Hval x y Hx Hy). unfold seedValue.
        rewrite extractSmartContour_alpha by assumption.
        rewrite (proj2 (Z.ltb_lt _ _) Ea). now destruct (isEdge _ _ _ _ _). }
      rewrite profileDepth_inside by (try assumption; rewrite Hd; lra).
      rewrite Hd. cbn [edgeType edgeWidth].
      apply (profile_at_plateau style 0 0 _ Hs). lra.
    - unfold profileDepth. cbv zeta. now rewrite Ea. }
  unfold processImageWithEdges. cbv zeta. cbn [edgeType edgeWidth].
  destruct style; [reflexivity | |]; rewrite Hdf; f_equal; f_equal;
    apply for_yx_ext; intros; apply Hp; (congruence || assumption).
Qed.

Lemma zero_width_is_vertical_witness :
  processImageWithEdges 1 (onePixel 0 0 0 255) (mkOptions chamfered 0 (Some 30))
  = processImageWithEdges 0 (onePixel 0 0 0 255) (mkOptions vertical 0 None).
Proof.
  apply (zero_width_is_vertical (onePixel 0 0 0 255) chamfered (Some 30) 1).
  simpl. lia.
Defined.

(** X4.  With a negative [edgeWidth] the rounded and the chamfered style
    keep the outline only: an edge pixel is at full height, every other
    inside pixel is at depth 0 (with its alpha kept), and an outside pixel
    is transparent black. *)
Theorem negative_width_keeps_the_outline (src : ImageData) (style : EdgeType)
    (edgeWidth : R) (angle : option R) (fuel : nat) :
  style <> vertical -> edgeWidth < 0 ->
  (width src * height src <= fuel)%nat ->
  exists out,
    processImageWithEdges fuel src (mkOptions style edgeWidth angle)
    = Some out /\
    forall x y, (x < width src)%nat -> (y < height src)%nat ->
      let p := (Z.of_nat x, Z.of_nat y) in
      let contour := extractSmartContour src in
      ((alphaAt src x y <= 32)%Z -> pixelAt out x y = (0, 0, 0, 0)%Z) /\
      ((32 < alphaAt src x y)%Z ->
       edgePixel contour (width src) (height src) p ->
       depthAt out x y = 255%Z) /\
      ((32 < alphaAt src x y)%Z ->
       ~ edgePixel contour (width src) (height src) p ->
       depthAt out x y = 0%Z /\
       alphaAt out x y = clampZ (alphaAt src x y)).
Proof.
  intros Hs Hew Hf.
  destruct (calculateDistanceFieldFast_capless (extractSmartContour src)
              (width src) (height src) edgeWidth fuel ltac:(lra) Hf)
    as (df & Hdf & _ & Hval).
  destruct (pixel_loops_spec (width src) (height src)
              (profileDepth src (mkOptions style edgeWidth angle) df)
              (keptAlpha src)
              (profilePixel src (mkOptions style edgeWidth angle) df)
              (data (newImageData (width src) (height src))))
    as [Hl Hp].
  { intros. apply profilePixel_writes. }
  { apply newImageData_length. }
  eexists. split.
  { unfold processImageWithEdges. cbv zeta.
    cbn [edgeType EdgeProcessor.edgeWidth].
    rewrite Hdf. destruct style; [contradiction | reflexivity..]. }
  intros x y Hx Hy. cbv zeta.
  match goal with |- context [pixelAt ?o x y] => set (out := o) in * end.
  assert (Hdepth : depthAt out x y
            = profileDepth src (mkOptions style edgeWidth angle) df y x).
  { rewrite depthAt_first, (Hp x y Hx Hy). cbn [fst].
    apply clampZ_id, profileDepth_range. }
  assert (Halpha : alphaAt out x y = clampZ (keptAlpha src y x)).
  { now rewrite alphaAt_fourth, (Hp x y Hx Hy). }
  pose proof (extractSmartContour_alpha src x y Hx Hy) as Hflag.
  split; [|split].
  - intros Ha. rewrite (Hp x y Hx Hy).
    rewrite (keptAlpha_outside src y x Ha).
    unfold profileDepth. cbv zeta. rewrite (proj2 (Z.ltb_ge _ _) Ha).
    reflexivity.
  - intros Ha He. rewrite Hdepth.
    rewrite (proj2 (Z.ltb_lt _ _) Ha) in Hflag.
    apply (isEdge_edgePixel _ _ _ x y Hx Hy Hflag) in He.
    assert (Hd : numAt df (y * width src + x) = 0).
    { rewrite (Hval x y Hx Hy). unfold seedValue. now rewrite Hflag, He. }
    rewrite profileDepth_inside by (try assumption; rewrite Hd; lra).
    rewrite Hd. cbn [edgeType EdgeProcessor.edgeWidth].
    apply (profile_at_plateau style 0 edgeWidth _ Hs). lra.
  - intros Ha Hne. rewrite Hdepth, Halpha.
    rewrite (proj2 (Z.ltb_lt _ _) Ha) in Hflag.
    assert (He : isEdge (extractSmartContour src) (width src) (height src) x y
                 = false).
    { destruct (isEdge _ _ _ x y) eqn:E; [|reflexivity].
      exfalso. apply Hne. now apply (isEdge_edgePixel _ _ _ x y Hx Hy Hflag). }
    assert (Hd : numAt df (y * width src + x) = edgeWidth).
    { rewrite (Hval x y Hx Hy). unfold seedValue. now rewrite Hflag, He. }
    split; [|now rewrite (keptAlpha_inside src y x Ha)].
    unfold profileDepth. cbv zeta. rewrite Hd.
    rewrite (proj2 (Rleb_false 0 edgeWidth) Hew).
    now rewrite andb_false_r.
Qed.

Lemma negative_width_keeps_the_outline_witness :
  exists out,
    processImageWithEdges 1 (onePixel 0 0 0 255)
      (mkOptions rounded (-1) None) = Some out /\
    depthAt out 0 0 = 255%Z.
Proof.
  destruct (negative_width_keeps_the_outline (onePixel 0 0 0 255) rounded (-1)
              None 1) as (out & Hrun & Hp); [congruence | lra | simpl; lia |].
  exists out. split; [exact Hrun|].
  destruct (Hp 0%nat 0%nat) as (_ & He & _); [simpl; lia | simpl; lia |].
  apply He; [reflexivity|].
  apply (isEdge_edgePixel _ 1 1 0 0); try lia; reflexivity.
Defined.

(** X5.  With [edgeWidth > 0] the rounded and the chamfered style put the
    whole ring of edge pixels at depth 0: the outermost pixels of a shape
    are opaque but at base height. *)
Theorem edge_ring_is_at_base_height (src : ImageData)
    (options : EdgeProcessorOptions) :
  edgeType options <> vertical -> 0 < edgeWidth options ->
  exists fuel0, forall fuel, (fuel0 <= fuel)%nat ->
  exists out,
    processImageWithEdges fuel src options = Some out /\
    forall x y, (x < width src)%nat -> (y < height src)%nat ->
      edgePixel (extractSmartContour src) (width src) (height src)
                (Z.of_nat x, Z.of_nat y) ->
      depthAt out x y = 0%Z /\ alphaAt out x y = clampZ (alphaAt src x y).
Proof.
  intros Hv Hew.
  destruct (processImageWithEdges_exhausted src options Hv ltac:(lra))
    as [fuel0 H].
  exists fuel0. intros fuel Hf.
  destruct (H fuel Hf) as (out & qi & st & Hrun & Hs & _ & _ & Hp).
  exists out. split; [exact Hrun|]. intros x y Hx Hy He.
  pose proof He as [Hin _].
  pose proof (inside_alpha src x y Hx Hy Hin) as Ha.
  destruct Hs as (_ & _ & Hval & _).
  destruct (Hval _ Hin) as (_ & H0 & _). specialize (H0 He).
  unfold valueAt in H0. rewrite cell_of_nat in H0.
  rewrite depthAt_first, alphaAt_fourth, (Hp x y Hx Hy). cbn [fst snd].
  rewrite (keptAlpha_inside src y x Ha). split; [|reflexivity].
  rewrite profileDepth_inside by (try assumption; rewrite H0; lra).
  rewrite H0. now apply profile_at_edge.
Qed.

Lemma edge_ring_is_at_base_height_witness :
  exists fuel0, forall fuel, (fuel0 <= fuel)%nat ->
  exists out,
    processImageWithEdges fuel (onePixel 0 0 0 255) (mkOptions rounded 3 None)
    = Some out /\
    depthAt out 0 0 = 0%Z.
Proof.
  destruct (edge_ring_is_at_base_height (onePixel 0 0 0 255)
              (mkOptions rounded 3 None)) as [fuel0 H];
    [simpl; congruence | simpl; lra |].
  exists fuel0. intros fuel Hf. destruct (H fuel Hf) as (out & Hrun & Hp).
  exists out. split; [exact Hrun|].
  apply (Hp 0%nat 0%nat); [simpl; lia | simpl; lia |].
  apply (isEdge_edgePixel _ 1 1 0 0); try lia; reflexivity.
Defined.



(** X7.  Every raster the edge processor returns is well formed (four bytes
    per pixel, each in [0..255]) and grey: R, G and B agree at every
    pixel. *)
Theorem depth_raster_is_well_formed_and_grey (src : ImageData)
    (options : EdgeProcessorOptions) :
  exists fuel0, forall fuel, (fuel0 <= fuel)%nat ->
  exists out,
    processImageWithEdges fuel src options = Some out /\
    wellFormed out /\
    forall x y, (x < width out)%nat -> (y < height out)%nat -> greyAt out x y.
Proof.
  destruct (processImageWithEdges_raster src options) as [fuel0 H].
  exists fuel0. intros fuel Hf.
  destruct (H fuel Hf) as (out & Hrun & _ & _ & Hwf & Hgrey & _).
  exists out. auto.
Qed.

(** X8.  Clamping commutes with the cap of the distance field: for caps
    [0 <= cap1 <= cap2] the field computed with [cap1] is, at every pixel of
    the mask, the smaller of [cap1] and the field computed with [cap2], and
    both hold -1 off the mask. *)
Theorem distance_field_commutes_with_the_cap (contour : list bool)
    (w h : nat) (cap1 cap2 : R) :
  0 <= cap1 <= cap2 ->
  exists fuel0, forall fuel, (fuel0 <= fuel)%nat ->
  exists df1 df2,
    calculateDistanceFieldFast fuel contour w h cap1 = Some df1 /\
    calculateDistanceFieldFast fuel contour w h cap2 = Some df2 /\
    forall x y, (x < w)%nat -> (y < h)%nat ->
      numAt df1 (y * w + x)
      = if flagAt contour (y * w + x)
        then Rmin cap1 (numAt df2 (y * w + x)) else -1.
Proof.
  intros [H1 H12].
  destruct (calculateDistanceFieldFast_exhausted contour w h cap1 H1)
    as [f1 F1].
  destruct (calculateDistanceFieldFast_exhausted contour w h cap2
              ltac:(lra)) as [f2 F2].
  exists (Nat.max f1 f2). intros fuel Hf.
  destruct (F1 fuel ltac:(lia)) as (q1 & st1 & Hrun1 & Hs1 & Hc1 & He1).
  destruct (F2 fuel ltac:(lia)) as (q2 & st2 & Hrun2 & Hs2 & Hc2 & He2).
  exists (distances st1), (distances st2).
  split; [exact Hrun1|]. split; [exact Hrun2|]. intros x y Hx Hy.
  pose proof (inRaster_of_nat w h x y Hx Hy) as Hr.
  pose proof (cell_of_nat w x y) as Hcell.
  assert (Hval : forall st, valueAt w (distances st) (Z.of_nat x, Z.of_nat y)
                            = numAt (distances st) (y * w + x)).
  { intros st. unfold valueAt. now rewrite Hcell. }
  rewrite <- !Hval.
  destruct (flagAt contour (y * w + x)) eqn:Hflag.
  - assert (Hp : inside contour w h (Z.of_nat x, Z.of_nat y)).
    { split; [exact Hr | now rewrite Hcell]. }
    destruct (exhausted_correct contour w h cap1 q1 st1 Hs1 Hc1 He1 _ Hp)
      as [Hd1 _].
    destruct (exhausted_correct contour w h cap2 q2 st2 Hs2 Hc2 He2 _ Hp)
      as [Hd2 _].
    exact (clampedShortest_cap contour w h cap1 cap2 _ _ _ H12 Hd1 Hd2).
  - destruct Hs1 as (_ & Hout & _). apply Hout; [exact Hr|].
    now rewrite Hcell.
Qed.

Lemma distance_field_commutes_with_the_cap_witness :
  exists fuel0, forall fuel, (fuel0 <= fuel)%nat ->
  exists df1 df2,
    calculateDistanceFieldFast fuel mask3x3 3 3 (1 / 2) = Some df1 /\
    calculateDistanceFieldFast fuel mask3x3 3 3 2 = Some df2 /\
    numAt df1 4 = Rmin (1 / 2) (numAt df2 4).
Proof.
  destruct (distance_field_commutes_with_the_cap mask3x3 3 3 (1 / 2) 2)
    as [fuel0 H]; [lra|].
  exists fuel0. intros fuel Hf.
  destruct (H fuel Hf) as (df1 & df2 & Hr1 & Hr2 & Hp).
  exists df1, df2. split; [exact Hr1|]. split; [exact Hr2|].
  exact (Hp 1%nat 1%nat ltac:(lia) ltac:(lia)).
Defined.

(** X9.  Further inside means higher.  With [edgeWidth > 0] in the rounded
    and chamfered styles (for every angle), of two pixels of the mask the
    one with the larger distance in the field never gets the smaller
    depth. *)
Theorem depth_grows_with_the_distance (src : ImageData)
    (options : EdgeProcessorOptions) :
  edgeType options <> vertical -> 0 < edgeWidth options ->
  exists fuel0, forall fuel, (fuel0 <= fuel)%nat ->
  exists out df,
    processImageWithEdges fuel src options = Some out /\
    calculateDistanceFieldFast fuel (extractSmartContour src) (width src)
      (height src) (edgeWidth options) = Some df /\
    forall x y x' y',
      (x < width src)%nat -> (y < height src)%nat ->
      (x' < width src)%nat -> (y' < height src)%nat ->
      (32 < alphaAt src x y)%Z -> (32 < alphaAt src x' y')%Z ->
      numAt df (y * width src + x) <= numAt df (y' * width src + x') ->
      (depthAt out x y <= depthAt out x' y')%Z.
Proof.
  intros Hv Hew.
  destruct (processImageWithEdges_profile src options Hv) as [f1 F1].
  destruct (calculateDistanceFieldFast_exhausted (extractSmartContour src)
              (width src) (height src) (edgeWidth options) ltac:(lra))
    as [f2 F2].
  exists (Nat.max f1 f2). intros fuel Hf.
  destruct (F1 fuel ltac:(lia)) as (out & df & Hdf & Hrun & Hw & _ & _ & Hp).
  destruct (F2 fuel ltac:(lia)) as (qi & st & Hdf' & Hs & _ & _).
  rewrite Hdf in Hdf'. injection Hdf' as ->.
  exists out, (distances st). split; [exact Hrun|]. split; [exact Hdf|].
  intros x y x' y' Hx Hy Hx' Hy' Ha Ha' Hle.
  assert (Hnonneg : forall x y, (x < width src)%nat -> (y < height src)%nat ->
            (32 < alphaAt src x y)%Z ->
            0 <= numAt (distances st) (y * width src + x)).
  { intros x0 y0 Hx0 Hy0 Ha0.
    destruct Hs as (_ & _ & Hin & _).
    destruct (Hin _ (inside_of_alpha src x0 y0 Hx0 Hy0 Ha0)) as [[H0 _] _].
    unfold valueAt in H0. now rewrite cell_of_nat in H0. }
  rewrite !depthAt_first, (Hp x y Hx Hy), (Hp x' y' Hx' Hy'). cbn [fst].
  rewrite !profileDepth_inside by auto.
  apply profile_mono; [exact Hew|]. split; [auto | exact Hle].
Qed.

Lemma depth_grows_with_the_distance_witness :
  exists fuel0, forall fuel, (fuel0 <= fuel)%nat ->
  exists out df,
    processImageWithEdges fuel grey3x3 (mkOptions rounded 2 None) = Some out /\
    calculateDistanceFieldFast fuel mask3x3 3 3 2 = Some df /\
    numAt df 0 = 0 /\ numAt df 4 = 1 /\
    (depthAt out 0 0 <= depthAt out 1 1)%Z.
Proof.
  destruct (depth_grows_with_the_distance grey3x3
              (mkOptions rounded 2 None)) as [f1 H1];
    [simpl; congruence | simpl; lra |].
  destruct (calculateDistanceFieldFast_exhausted mask3x3 3 3 2 ltac:(lra))
    as [f2 H2].
  exists (Nat.max f1 f2). intros fuel Hf.
  destruct (H1 fuel ltac:(lia)) as (out & df & Hrun & Hdf & Hp).
  destruct (H2 fuel ltac:(lia)) as (qi & st & Hdf' & Hs & Hc & Hend).
  change (calculateDistanceFieldFast fuel mask3x3 3 3 2 = Some df) in Hdf.
  assert (Edf : df = distances st) by congruence.
  assert (H0 : numAt df 0 = 0).
  { rewrite Edf.
    apply (exhausted_correct mask3x3 3 3 2 qi st Hs Hc Hend (0, 0)%Z).
    - split; reflexivity.
    - exact mask3x3_corner. }
  assert (H4 : numAt df 4 = 1).
  { rewrite Edf. apply mask3x3_centre_distance.
    apply (exhausted_correct mask3x3 3 3 2 qi st Hs Hc Hend (1, 1)%Z).
    split; reflexivity. }
  exists out, df. split; [exact Hrun|]. split; [exact Hdf|].
  split; [exact H0|]. split; [exact H4|].
  apply (Hp 0%nat 0%nat 1%nat 1%nat); try (simpl; lia);
    try (vm_compute; reflexivity).
  change (numAt df 0 <= numAt df 4). rewrite H0, H4. lra.
Defined.

(** X10.  An angle of 0, like an omitted angle, means 45 degrees: the
    chamfered style returns the same raster for the angles 0, 45 and none,
    and the other two styles return the same raster for every angle. *)
Theorem zero_angle_means_45_degrees (fuel : nat) (src : ImageData)
    (style : EdgeType) (band : R) :
  processImageWithEdges fuel src (mkOptions style band (Some 0))
  = processImageWithEdges fuel src (mkOptions style band (Some 45)) /\
  processImageWithEdges fuel src (mkOptions style band None)
  = processImageWithEdges fuel src (mkOptions style band (Some 45)) /\
  (style <> chamfered ->
   forall angle angle',
     processImageWithEdges fuel src (mkOptions style band angle)
     = processImageWithEdges fuel src (mkOptions style band angle')).
Proof.
  assert (Hsame : forall angle angle',
            (style = chamfered ->
             angleOrDefault angle = angleOrDefault angle') ->
            processImageWithEdges fuel src (mkOptions style band angle)
            = processImageWithEdges fuel src (mkOptions style band angle')).
  { intros angle angle' Ha. unfold processImageWithEdges. cbv zeta.
    cbn [edgeType edgeWidth]. destruct style; [reflexivity | |].
    - reflexivity.
    - destruct (calculateDistanceFieldFast _ _ _ _ _) as [df|];
        [|reflexivity].
      f_equal. f_equal. apply for_yx_ext. intros y x buf _ _.
      unfold profilePixel. cbn [edgeType edgeWidth chamferAngle].
      now rewrite (Ha eq_refl). }
  split; [|split].
  - apply Hsame. intros _. unfold angleOrDefault.
    destruct (Req_dec_T 0 0) as [_ | H]; [|contradiction].
    destruct (Req_dec_T 45 0) as [H | _]; [lra | reflexivity].
  - apply Hsame. intros _. unfold angleOrDefault.
    destruct (Req_dec_T 45 0) as [H | _]; [lra | reflexivity].
  - intros Hs angle angle'. apply Hsame. intros ->. contradiction.
Qed.

End ProcessorExtras.

(** * Further theorems: the smoother *)

Section SmootherExtras.

Import EdgeSmoother.

(** X11.  With a smoothing strength that is not positive no pass runs: the
    smoother returns its input. *)
Theorem smoothing_without_strength_is_identity (img : ImageData)
    (smoothingStrength : R) :
  wellFormed img -> smoothingStrength <= 0 ->
  intelligentEdgeSmoothing img smoothingStrength = img.
Proof.
  intros [Hlen _] Hs. unfold intelligentEdgeSmoothing. cbv zeta.
  assert (Hn : Z.to_nat (Zceil (smoothingStrength * 4)) = 0%nat).
  { pose proof (Zceil_bound (smoothingStrength * 4)) as [Hlo _].
    assert (Hz : (Zceil (smoothingStrength * 4) < 1)%Z) by (apply lt_IZR; lra).
    lia. }
  rewrite setAll_full by (simpl; rewrite length_replicate; lia).
  rewrite Hn. unfold for_range. simpl fold_left.
  now destruct img.
Qed.

Lemma smoothing_without_strength_is_identity_witness :
  intelligentEdgeSmoothing twoPixels 0 = twoPixels.
Proof.
  apply (smoothing_without_strength_is_identity twoPixels 0); [|lra].
  split; [reflexivity|]. unfold twoPixels. simpl. repeat constructor; lia.
Defined.

(** X12.  A grey raster that holds only the depths 0 and 255 (such as the
    raster of the vertical style) is a fixed point of the smoother for
    every strength up to 1: the two depths are further apart than the
    similarity threshold, so no average mixes them. *)
Theorem smoothing_fixes_binary_rasters (img : ImageData)
    (smoothingStrength : R) :
  wellFormed img -> smoothingStrength <= 1 ->
  (forall x y, (x < width img)%nat -> (y < height img)%nat ->
     greyAt img x y /\ (depthAt img x y = 0%Z \/ depthAt img x y = 255%Z)) ->
  intelligentEdgeSmoothing img smoothingStrength = img.
Proof.
  intros Hwf Hs Hbin.
  apply (intelligentEdgeSmoothing_binary img smoothingStrength Hwf Hbin). lra.
Qed.

Lemma smoothing_fixes_binary_rasters_witness :
  intelligentEdgeSmoothing (onePixel 255 255 255 255) (6 / 10)
  = onePixel 255 255 255 255.
Proof.
  apply (smoothing_fixes_binary_rasters (onePixel 255 255 255 255) (6 / 10)).
  - split; [reflexivity|]. unfold onePixel. simpl. repeat constructor; lia.
  - lra.
  - intros x y Hx Hy. simpl in Hx, Hy.
    assert (x = 0%nat) as -> by lia. assert (y = 0%nat) as -> by lia.
    split; [split; reflexivity | right; reflexivity].
Defined.

Lemma smoothPixel_grey img smoothingStrength tempData y x buf :
  (y < height img)%nat -> (x < width img)%nat ->
  length buf = (4 * (width img * height img))%nat /\
  Forall (fun b => (0 <= b <= 255)%Z) buf /\
  (forall x' y', (x' < width img)%nat -> (y' < height img)%nat ->
     greyAt (mkImageData (width img) (height img) buf) x' y') ->
  let buf' := smoothPixel img smoothingStrength tempData y x buf in
  length buf' = (4 * (width img * height img))%nat /\
  Forall (fun b => (0 <= b <= 255)%Z) buf' /\
  (forall x' y', (x' < width img)%nat -> (y' < height img)%nat ->
     greyAt (mkImageData (width img) (height img) buf') x' y').
Proof.
  intros Hy Hx (Hl & Hr & Hg). cbv zeta. unfold smoothPixel.
  destruct (isEdgePixel _ _ _); [|auto]. cbv zeta.
  pose proof (cell_lt _ _ x y Hx Hy) as Hc.
  split; [now rewrite !storeByte_length|].
  split; [now repeat apply storeByte_range|].
  intros x' y' Hx' Hy'. unfold greyAt. cbn [width data].
  destruct (Nat.eq_dec (y' * width img + x')%nat (y * width img + x)%nat)
    as [E | NE].
  - destruct (cell_inj _ x' y' x y Hx' Hx E) as [-> ->].
    rewrite !(storeByte_other _ (_ + 3)) by lia.
    rewrite !(storeByte_other _ (_ + 2) ((y * width img + x) * 4)) by lia.
    rewrite !(storeByte_other _ (_ + 2) ((y * width img + x) * 4 + 1)) by lia.
    rewrite (storeByte_other _ (_ + 1) ((y * width img + x) * 4)) by lia.
    rewrite !storeByte_read by (rewrite ?storeByte_length; lia).
    split; reflexivity.
  - rewrite !storeByte_other by lia. apply (Hg x' y' Hx' Hy').
Qed.

(** X13.  The smoother keeps a depth raster a depth raster: on a well-formed
    grey input its output is well formed and grey, for every strength. *)
Theorem smoothing_keeps_depth_rasters (img : ImageData)
    (smoothingStrength : R) :
  wellFormed img ->
  (forall x y, (x < width img)%nat -> (y < height img)%nat ->
     greyAt img x y) ->
  let out := intelligentEdgeSmoothing img smoothingStrength in
  wellFormed out /\
  forall x y, (x < width out)%nat -> (y < height out)%nat -> greyAt out x y.
Proof.
  intros [Hlen Hbytes] Hgrey. cbv zeta.
  unfold intelligentEdgeSmoothing. cbv zeta.
  rewrite setAll_full by (simpl; rewrite length_replicate; lia).
  pose (G := fun buf : list Z =>
    length buf = (4 * (width img * height img))%nat /\
    Forall (fun b => (0 <= b <= 255)%Z) buf /\
    (forall x' y', (x' < width img)%nat -> (y' < height img)%nat ->
       greyAt (mkImageData (width img) (height img) buf) x' y')).
  assert (HG : G (for_range (Z.to_nat (Zceil (smoothingStrength * 4)))
                    (fun _ buf => iteration img smoothingStrength buf)
                    (data img))).
  { apply (for_range_ind (fun _ b => G b)).
    - split; [exact Hlen|]. split; [exact Hbytes|]. exact Hgrey.
    - intros i st _ Hst. unfold iteration. cbv zeta.
      apply (for_yx_ind (fun _ b => G b)); [exact Hst|].
      intros y x st' Hy Hx Hst'. now apply smoothPixel_grey. }
  destruct HG as (Hl & Hr & Hg).
  split; [split; [exact Hl | exact Hr]|]. exact Hg.
Qed.

Lemma smoothing_keeps_depth_rasters_witness :
  wellFormed (intelligentEdgeSmoothing twoPixels (6 / 10)).
Proof.
  apply (smoothing_keeps_depth_rasters twoPixels (6 / 10)).
  - split; [reflexivity|]. unfold twoPixels. simpl. repeat constructor; lia.
  - intros x y Hx Hy. simpl in Hx, Hy.
    assert (y = 0%nat) as -> by lia.
    destruct x as [|[|x]]; [split; reflexivity | split; reflexivity | lia].
Defined.

End SmootherExtras.

(** * Further theorems: upscaling and the target density *)

Section ResamplerExtras.

Import Resampler.

(** X14.  Upscaling reproduces the source pixels: wherever a pixel of the
    result maps back exactly onto a pixel of the source (column [x * s],
    row [y * s] for the scale factor [s]), it holds the four bytes of that
    pixel, whether the nearest-neighbour or the bilinear path filled it. *)
Theorem upscale_reproduces_source_pixels (img : ImageData) (scaleFactor : R)
    (X Y x y : nat) :
  wellFormed img -> 0 < scaleFactor ->
  let out := edgePreservingUpscale img scaleFactor in
  (X < width out)%nat -> (Y < height out)%nat ->
  (x < width img)%nat -> (y < height img)%nat ->
  INR X = INR x * scaleFactor -> INR Y = INR y * scaleFactor ->
  pixelAt out X Y = pixelAt img x y.
Proof.
  intros Hwf Hs out HX HY Hx Hy EX EY.
  destruct (edgePreservingUpscale_spec img scaleFactor) as [_ Hp].
  fold out in Hp.
  assert (Hc : forall c, (c < 4)%nat ->
            byteAt (data out) ((Y * width out + X) * 4 + c)
            = byteAt (data img) ((y * width img + x) * 4 + c)).
  { intros c Hc. rewrite (Hp X Y c HX HY Hc).
    rewrite (upscaleValue_on_grid img scaleFactor X Y x y c Hx Hy)
      by (rewrite ?EX, ?EY; field; lra).
    apply clampZ_id. destruct Hwf as [_ Hb]. now apply byteAt_range. }
  unfold pixelAt. cbv zeta.
  pose proof (Hc 0%nat ltac:(lia)) as H0. rewrite !Nat.add_0_r in H0.
  now rewrite H0, (Hc 1%nat), (Hc 2%nat), (Hc 3%nat) by lia.
Qed.

Lemma upscale_reproduces_source_pixels_witness :
  pixelAt (edgePreservingUpscale twoPixels 2) 2 0 = pixelAt twoPixels 1 0.
Proof.
  apply (upscale_reproduces_source_pixels twoPixels 2 2 0 1 0).
  - split; [reflexivity|]. unfold twoPixels. simpl. repeat constructor; lia.
  - lra.
  - unfold edgePreservingUpscale. cbn [width twoPixels].
    replace (EdgeSmoother.round (INR 2 * 2)) with 4%Z
      by (symmetry; apply Zfloor_eq; simpl; lra).
    simpl. lia.
  - unfold edgePreservingUpscale. cbn [height twoPixels].
    replace (EdgeSmoother.round (INR 1 * 2)) with 2%Z
      by (symmetry; apply Zfloor_eq; simpl; lra).
    simpl. lia.
  - simpl. lia.
  - simpl. lia.
  - simpl. lra.
  - simpl. lra.
Defined.

(** X15.  Upscaling by the factor 1 returns the raster it was given. *)
Theorem upscale_by_one_is_identity (img : ImageData) :
  wellFormed img -> edgePreservingUpscale img 1 = img.
Proof.
  intros Hwf.
  destruct (edgePreservingUpscale_spec img 1) as [[Hl _] Hp].
  assert (Hround : forall n, Z.to_nat (EdgeSmoother.round (INR n * 1)) = n).
  { intros n. rewrite Rmult_1_r, INR_as_IZR, round_IZR. apply Nat2Z.id. }
  assert (Hw : width (edgePreservingUpscale img 1) = width img)
    by apply Hround.
  assert (Hh : height (edgePreservingUpscale img 1) = height img)
    by apply Hround.
  assert (Hd : data (edgePreservingUpscale img 1) = data img).
  { destruct Hwf as [Hlen Hb].
    apply (raster_bytes_eq (width img) (height img));
      [now rewrite Hl, Hw, Hh | exact Hlen |].
    intros x y c Hx Hy Hc.
    specialize (Hp x y c ltac:(now rewrite Hw) ltac:(now rewrite Hh) Hc).
    rewrite Hw in Hp. rewrite Hp.
    rewrite (upscaleValue_on_grid img 1 x y x y c Hx Hy)
      by (field; lra).
    apply clampZ_id. now apply byteAt_range. }
  destruct img as [w h d]. destruct (edgePreservingUpscale _ _) as [w' h' d'].
  simpl in *. now subst.
Qed.

Lemma upscale_by_one_is_identity_witness :
  edgePreservingUpscale twoPixels 1 = twoPixels.
Proof.
  apply (upscale_by_one_is_identity twoPixels).
  split; [reflexivity|]. unfold twoPixels. simpl. repeat constructor; lia.
Defined.

(** X16.  Upscaling a raster of one colour gives a raster of that colour,
    for every positive scale factor. *)
Theorem upscale_keeps_uniform_rasters (img : ImageData) (scaleFactor : R)
    (colour : Z * Z * Z * Z) :
  wellFormed img -> (0 < width img)%nat -> (0 < height img)%nat ->
  0 < scaleFactor -> uniform img colour ->
  uniform (edgePreservingUpscale img scaleFactor) colour.
Proof.
  intros Hwf Hw Hh Hs Hu X Y HX HY.
  destruct (edgePreservingUpscale_spec img scaleFactor) as [_ Hp].
  assert (Hc : forall c, (c < 4)%nat ->
            byteAt (data (edgePreservingUpscale img scaleFactor))
                   ((Y * width (edgePreservingUpscale img scaleFactor) + X) * 4
                    + c)
            = channelOf colour c).
  { intros c Hc. rewrite (Hp X Y c HX HY Hc).
    rewrite (upscaleValue_uniform img scaleFactor colour) by assumption.
    apply clampZ_id.
    destruct (uniform_channel img colour 0 0 c Hwf Hu Hw Hh Hc) as [_ Hr].
    exact Hr. }
  unfold pixelAt. cbv zeta.
  pose proof (Hc 0%nat ltac:(lia)) as H0. rewrite !Nat.add_0_r in H0.
  rewrite H0, (Hc 1%nat), (Hc 2%nat), (Hc 3%nat) by lia.
  now destruct colour as [[[r g] b] a].
Qed.

Lemma upscale_keeps_uniform_rasters_witness :
  uniform (edgePreservingUpscale (onePixel 10 20 30 40) 3) (10, 20, 30, 40)%Z.
Proof.
  apply (upscale_keeps_uniform_rasters (onePixel 10 20 30 40) 3).
  - split; [reflexivity|]. unfold onePixel. simpl. repeat constructor; lia.
  - simpl. lia.
  - simpl. lia.
  - lra.
  - intros x y Hx Hy. simpl in Hx, Hy.
    assert (x = 0%nat) as -> by lia. assert (y = 0%nat) as -> by lia.
    reflexivity.
Defined.

(** X17.  The density optimisation never shrinks a raster: with a current
    density that is estimated, or supplied and not negative, the result is
    at least as wide and as high as the input, and it has the dimensions of
    the input when the current density reaches the target. *)
Theorem dpi_optimization_never_shrinks (img : ImageData) (targetDPI : R)
    (originalDPI : option R) (enableEdgeSmoothing : bool)
    (smoothingStrength : R) :
  (forall v, originalDPI = Some v -> 0 <= v) ->
  let out := optimizeDepthMapDPI img targetDPI originalDPI
                                 enableEdgeSmoothing smoothingStrength in
  (width img <= width out)%nat /\ (height img <= height out)%nat /\
  (targetDPI <= currentDPIOf img originalDPI ->
   width out = width img /\ height out = height img).
Proof.
  intros Horig.
  now apply optimizeDepthMapDPI_size.
Qed.

Lemma dpi_optimization_never_shrinks_witness :
  (width twoPixels
   <= width (optimizeDepthMapDPI twoPixels 300 None true (6 / 10)))%nat.
Proof.
  apply (dpi_optimization_never_shrinks twoPixels 300 None true (6 / 10)).
  intros v Hv. discriminate.
Defined.

(** X18.  Downsampling a non-empty raster of one colour to any size gives a
    raster of that colour: every sampled area holds a pixel, so no average
    falls back to 0. *)
Theorem downsample_keeps_uniform_rasters (img : ImageData)
    (targetWidth targetHeight : nat) (colour : Z * Z * Z * Z) :
  wellFormed img -> (0 < width img)%nat -> (0 < height img)%nat ->
  uniform img colour ->
  uniform (highQualityDownsample img targetWidth targetHeight) colour.
Proof.
  intros Hwf Hw Hh Hu X Y HX HY.
  destruct (highQualityDownsample_spec img targetWidth targetHeight)
    as [_ Hp].
  cbn [width height highQualityDownsample] in HX, HY.
  assert (Hc : forall c, (c < 4)%nat ->
            byteAt (data (highQualityDownsample img targetWidth targetHeight))
                   ((Y * targetWidth + X) * 4 + c)
            = channelOf colour c).
  { intros c Hc. rewrite (Hp X Y c HX HY Hc).
    rewrite (downsampleValue_uniform img targetWidth targetHeight colour)
      by assumption.
    apply clampZ_id.
    destruct (uniform_channel img colour 0 0 c Hwf Hu Hw Hh Hc) as [_ Hr].
    exact Hr. }
  unfold pixelAt. cbv zeta.
  change (width (highQualityDownsample img targetWidth targetHeight))
    with targetWidth.
  pose proof (Hc 0%nat ltac:(lia)) as H0. rewrite !Nat.add_0_r in H0.
  rewrite H0, (Hc 1%nat), (Hc 2%nat), (Hc 3%nat) by lia.
  now destruct colour as [[[r g] b] a].
Qed.

Lemma downsample_keeps_uniform_rasters_witness :
  uniform (highQualityDownsample (onePixel 10 20 30 40) 3 2)
          (10, 20, 30, 40)%Z.
Proof.
  apply (downsample_keeps_uniform_rasters (onePixel 10 20 30 40) 3 2).
  - split; [reflexivity|]. unfold onePixel. simpl. repeat constructor; lia.
  - simpl. lia.
  - simpl. lia.
  - intros x y Hx Hy. simpl in Hx, Hy.
    assert (x = 0%nat) as -> by lia. assert (y = 0%nat) as -> by lia.
    reflexivity.
Defined.

End ResamplerExtras.

(** * Further theorems: the optimised pipeline *)

Section PipelineExtras.

Import EdgeProcessor Resampler.

(** X19.  In the vertical style the smoothing pass of the optimised
    pipeline does nothing: for every strength up to 1, and with the density
    optimisation off or its target at most 72, the pipeline returns the
    raster of the edge processor unchanged. *)
Theorem vertical_pipeline_is_not_smoothed (fuel : nat) (src : ImageData)
    (options : EdgeProcessorOptions) (enableDPIOptimization : bool)
    (targetDPI : R) (enableEdgeSmoothing : bool) (smoothingStrength : R) :
  edgeType options = vertical -> smoothingStrength <= 1 ->
  (enableDPIOptimization = true -> targetDPI <= 72) ->
  processImageWithEdgesOptimized fuel src options enableDPIOptimization
    targetDPI enableEdgeSmoothing smoothingStrength
  = processImageWithEdges fuel src options.
Proof.
  intros Hv Hs Hdpi.
  destruct (processImageWithEdges_vertical fuel src options Hv)
    as (out & Hrun & Hw & Hh & Hl & Hp).
  unfold processImageWithEdgesOptimized. rewrite Hrun.
  assert (Hbytes : forall x y, (x < width out)%nat -> (y < height out)%nat ->
            pixelAt out x y
            = (verticalDepth src y x, verticalDepth src y x,
               verticalDepth src y x, clampZ (keptAlpha src y x))).
  { intros x y Hx Hy. apply Hp; [now rewrite <- Hw | now rewrite <- Hh]. }
  assert (Hvd : forall y x, verticalDepth src y x = 0%Z
                            \/ verticalDepth src y x = 255%Z).
  { intros y x. unfold verticalDepth. destruct (32 <? _)%Z; auto. }
  assert (Hwf : wellFormed out).
  { split; [now rewrite Hl, Hw, Hh|].
    apply bytes_of_pixels; [now rewrite Hl, Hw, Hh|].
    intros x y c Hx Hy Hc. rewrite pixel_channels by exact Hc.
    rewrite (Hbytes x y Hx Hy). cbn [fst snd].
    pose proof (clampZ_range (keptAlpha src y x)).
    destruct (Hvd y x) as [-> | ->]; destruct c as [|[|[|c]]]; lia. }
  assert (Hbin : forall x y, (x < width out)%nat -> (y < height out)%nat ->
            greyAt out x y /\
            (depthAt out x y = 0%Z \/ depthAt out x y = 255%Z)).
  { intros x y Hx Hy. pose proof (Hbytes x y Hx Hy) as E. split.
    - unfold pixelAt in E. cbv zeta in E. injection E as E0 E1 E2 _.
      unfold greyAt. cbv zeta. now rewrite E0, E1, E2.
    - rewrite depthAt_first, E. cbn [fst]. apply Hvd. }
  assert (Hsm : EdgeSmoother.intelligentEdgeSmoothing out smoothingStrength
                = out).
  { apply (intelligentEdgeSmoothing_binary out smoothingStrength Hwf Hbin).
    lra. }
  destruct enableDPIOptimization.
  - unfold optimizeDepthMapDPI. cbv zeta. cbn [currentDPIOf].
    assert (Hcur : 72 <= estimateDepthMapDPI out).
    { unfold estimateDepthMapDPI. cbv zeta.
      repeat (destruct (_ <? _)%Z); lra. }
    specialize (Hdpi eq_refl).
    rewrite (proj2 (Rleb_true targetDPI (estimateDepthMapDPI out))) by lra.
    destruct enableEdgeSmoothing; [now rewrite Hsm | reflexivity].
  - destruct enableEdgeSmoothing; [now rewrite Hsm | reflexivity].
Qed.

Lemma vertical_pipeline_is_not_smoothed_witness :
  processImageWithEdgesOptimized 0 twoPixels (mkOptions vertical 3 None)
    true 72 true (6 / 10)
  = processImageWithEdges 0 twoPixels (mkOptions vertical 3 None).
Proof.
  apply (vertical_pipeline_is_not_smoothed 0 twoPixels
           (mkOptions vertical 3 None) true 72 true (6 / 10)).
  - reflexivity.
  - lra.
  - intros _. lra.
Defined.

(** X20.  Without the density optimisation the optimised pipeline keeps
    the transparency of the edge processor, smoothed or not: the result has
    the dimensions of the source, and the alpha of each pixel is the alpha
    of the source where that exceeds 32 and 0 elsewhere. *)
Theorem smoothed_pipeline_keeps_the_alpha (src : ImageData)
    (options : EdgeProcessorOptions) (targetDPI : R)
    (enableEdgeSmoothing : bool) (smoothingStrength : R) :
  exists fuel0, forall fuel, (fuel0 <= fuel)%nat ->
  exists out,
    processImageWithEdgesOptimized fuel src options false targetDPI
      enableEdgeSmoothing smoothingStrength = Some out /\
    width out = width src /\ height out = height src /\
    forall x y, (x < width src)%nat -> (y < height src)%nat ->
      alphaAt out x y = clampZ (keptAlpha src y x).
Proof.
  destruct (processImageWithEdges_raster src options) as [fuel0 H].
  exists fuel0. intros fuel Hf.
  destruct (H fuel Hf) as (base & Hrun & Hw & Hh & Hwf & _ & Ha).
  unfold processImageWithEdgesOptimized. rewrite Hrun.
  destruct enableEdgeSmoothing.
  - eexists. split; [reflexivity|].
    cbn [width height EdgeSmoother.intelligentEdgeSmoothing].
    split; [exact Hw|]. split; [exact Hh|]. intros x y Hx Hy.
    destruct (intelligentEdgeSmoothing_framed base smoothingStrength Hwf)
      as [_ Hfr].
    destruct (Hfr x y ltac:(now rewrite Hw) ltac:(now rewrite Hh)) as [E _].
    rewrite <- (Ha x y Hx Hy). unfold alphaAt.
    cbn [width EdgeSmoother.intelligentEdgeSmoothing]. exact E.
  - exists base. auto.
Qed.

(** X21.  The optimised pipeline never returns a raster smaller than its
    source, whatever the switches, the target density and the strength. *)
Theorem optimized_pipeline_never_shrinks (src : ImageData)
    (options : EdgeProcessorOptions) (enableDPIOptimization : bool)
    (targetDPI : R) (enableEdgeSmoothing : bool) (smoothingStrength : R) :
  exists fuel0, forall fuel, (fuel0 <= fuel)%nat ->
  exists out,
    processImageWithEdgesOptimized fuel src options enableDPIOptimization
      targetDPI enableEdgeSmoothing smoothingStrength = Some out /\
    (width src <= width out)%nat /\ (height src <= height out)%nat.
Proof.
  destruct (processImageWithEdges_raster src options) as [fuel0 H].
  exists fuel0. intros fuel Hf.
  destruct (H fuel Hf) as (base & Hrun & Hw & Hh & _).
  unfold processImageWithEdgesOptimized. rewrite Hrun.
  destruct enableDPIOptimization; [|destruct enableEdgeSmoothing].
  - eexists. split; [reflexivity|].
    destruct (optimizeDepthMapDPI_size base targetDPI None enableEdgeSmoothing
                smoothingStrength) as (H1 & H2 & _); [discriminate|].
    rewrite <- Hw, <- Hh. auto.
  - eexists. split; [reflexivity|].
    cbn [width height EdgeSmoother.intelligentEdgeSmoothing]. lia.
  - exists base. split; [reflexivity|]. lia.
Qed.

End PipelineExtras.

(** * Further theorems: the first pipeline *)

Section SimpleExtras.

Import EdgeProcessor SimplePipeline.

(** X22.  Extracting the contour is idempotent: the contour of the contour
    of a well-formed raster is that contour. *)
Theorem simple_contour_is_idempotent (img : ImageData) :
  wellFormed img ->
  extractSimpleContour (extractSimpleContour img) = extractSimpleContour img.
Proof.
  intros Hwf.
  destruct (extractSimpleContour_spec img Hwf) as [Hwf1 Hp1].
  destruct (extractSimpleContour_spec _ Hwf1) as [Hwf2 Hp2].
  set (c := extractSimpleContour img) in *.
  assert (Hd : data (extractSimpleContour c) = data c).
  { apply (raster_bytes_eq (width img) (height img));
      [apply Hwf2 | apply Hwf1 |].
    intros x y ch Hx Hy Hch.
    change (width img) with (width (extractSimpleContour c)) at 1.
    change (width img) with (width c) at 1.
    rewrite !pixel_channels by exact Hch.
    rewrite (Hp2 x y Hx Hy).
    rewrite (luminanceMask_binary c x y _ _ (Hp1 x y Hx Hy)
               (luminanceMask_cases img x y)).
    rewrite (alphaAt_fourth c), (Hp1 x y Hx Hy). reflexivity. }
  unfold extractSimpleContour at 1. cbv zeta.
  change (data (extractSimpleContour c)) with
    (for_step (length (data c)) 4 (contourBody (data c))
              (data (newImageData (width c) (height c)))) in Hd.
  rewrite Hd. reflexivity.
Qed.

Lemma simple_contour_is_idempotent_witness :
  extractSimpleContour (extractSimpleContour twoPixels)
  = extractSimpleContour twoPixels.
Proof.
  apply (simple_contour_is_idempotent twoPixels).
  split; [reflexivity|]. unfold twoPixels. simpl. repeat constructor; lia.
Defined.

(** X23.  The window distance is the smaller of 10 and the distance to the
    nearest pixel of the raster, at most 5 columns and 5 rows away, whose
    red byte is at most 128: it is at most 10, at most the distance to each
    such pixel, and it is 10 or the distance to one of them. *)
Theorem simple_distance_is_the_window_minimum (x y w h : nat) (d : list Z) :
  let candidate := fun dx dy : Z =>
    (-5 <= dx <= 5)%Z /\ (-5 <= dy <= 5)%Z /\
    inRaster w h (Z.of_nat x + dx) (Z.of_nat y + dy) = true /\
    (byteAt d (cellIndex w (Z.of_nat x + dx) (Z.of_nat y + dy) * 4) <= 128)%Z in
  let result := calculateSimpleDistance x y w h d in
  result <= 10 /\
  (forall dx dy, candidate dx dy -> result <= sqrt (IZR (dx * dx + dy * dy))) /\
  (result = 10 \/
   exists dx dy, candidate dx dy /\ result = sqrt (IZR (dx * dx + dy * dy))).
Proof.
  cbv zeta. split; [apply calculateSimpleDistance_range|]. split.
  - intros dx dy (Hdx & Hdy & Hr & Hb). unfold calculateSimpleDistance.
    apply (fold_left_reaches _ _ _ dy).
    + intros m dy'.
      apply (fold_left_preserves (fun m' => m' <= m)); [|lra].
      intros m' dx' Hm'.
      pose proof (proj1 (simple_step_cases x y w h d dy' m' dx')). cbv zeta.
      lra.
    + now apply symRange_5.
    + intros m. apply (fold_left_reaches _ _ _ dx).
      * intros m' dx'. apply (simple_step_cases x y w h d dy m' dx').
      * now apply symRange_5.
      * intros m'.
        now apply (proj1 (proj2 (simple_step_cases x y w h d dy m' dx))).
  - unfold calculateSimpleDistance.
    apply (fold_left_preserves_In
             (fun m => m = 10 \/
                exists dx dy,
                  ((-5 <= dx <= 5)%Z /\ (-5 <= dy <= 5)%Z /\
                   inRaster w h (Z.of_nat x + dx) (Z.of_nat y + dy) = true /\
                   (byteAt d (cellIndex w (Z.of_nat x + dx)
                                        (Z.of_nat y + dy) * 4) <= 128)%Z) /\
                  m = sqrt (IZR (dx * dx + dy * dy)))); [|now left].
    intros m dy Hdy Hm. apply symRange_5 in Hdy.
    apply (fold_left_preserves_In
             (fun m => m = 10 \/
                exists dx dy,
                  ((-5 <= dx <= 5)%Z /\ (-5 <= dy <= 5)%Z /\
                   inRaster w h (Z.of_nat x + dx) (Z.of_nat y + dy) = true /\
                   (byteAt d (cellIndex w (Z.of_nat x + dx)
                                        (Z.of_nat y + dy) * 4) <= 128)%Z) /\
                  m = sqrt (IZR (dx * dx + dy * dy)))); [|exact Hm].
    intros m' dx Hdx Hm'. apply symRange_5 in Hdx.
    destruct (proj2 (proj2 (simple_step_cases x y w h d dy m' dx)))
      as [E | (Hr & Hb & E)]; cbv zeta in E |- *; rewrite E.
    + exact Hm'.
    + right. exists dx, dy. auto.
Qed.

Lemma simple_distance_is_the_window_minimum_witness :
  calculateSimpleDistance 0 0 2 1 [255; 255; 255; 255; 0; 0; 0; 255]%Z
  <= sqrt (IZR (1 * 1 + 0 * 0)).
Proof.
  apply (proj1 (proj2 (simple_distance_is_the_window_minimum 0 0 2 1
                         [255; 255; 255; 255; 0; 0; 0; 255]%Z)) 1%Z 0%Z).
  split; [lia|]. split; [lia|]. split; [reflexivity|].
  vm_compute. discriminate.
Defined.

(** X24.  The grey raster of the first pipeline is opaque and grey, and
    its levels are bounded by the style: a pixel whose red byte is at most
    128 is black; any other pixel is 255 in the vertical style (and for an
    unknown style), between 20 and 200 in the rounded style and between 15
    and 150 in the chamfered style, so the two profiled styles never reach
    the full height. *)
Theorem simple_grayscale_levels (contourData : ImageData)
    (edgeType : option EdgeType) (x y : nat) :
  (x < width contourData)%nat -> (y < height contourData)%nat ->
  exists v,
    pixelAt (createSimpleGrayscale contourData edgeType) x y
    = (v, v, v, 255%Z) /\
    ((depthAt contourData x y <= 128)%Z -> v = 0%Z) /\
    ((128 < depthAt contourData x y)%Z ->
     match edgeType with
     | Some rounded => (20 <= v <= 200)%Z
     | Some chamfered => (15 <= v <= 150)%Z
     | _ => v = 255%Z
     end).
Proof.
  intros Hx Hy.
  destruct (createSimpleGrayscale_spec contourData edgeType) as [_ Hp].
  destruct (grayscaleValue_levels contourData edgeType y x) as [Hout Hin].
  eexists. split; [apply (Hp x y Hx Hy)|]. unfold depthAt. split.
  - intros H. rewrite (Hout H).
    change 0 with (IZR 0). rewrite roundHalfEven_IZR. reflexivity.
  - intros H. specialize (Hin H).
    destruct edgeType as [[| |]|].
    + rewrite Hin. change 255 with (IZR 255). now rewrite roundHalfEven_IZR.
    + pose proof (roundHalfEven_bounds 20 200 _ Hin). rewrite clampZ_id; lia.
    + pose proof (roundHalfEven_bounds 15 150 _ Hin). rewrite clampZ_id; lia.
    + rewrite Hin. change 255 with (IZR 255). now rewrite roundHalfEven_IZR.
Qed.

Lemma simple_grayscale_levels_witness :
  exists v,
    pixelAt (createSimpleGrayscale (onePixel 255 255 255 255) (Some rounded))
            0 0 = (v, v, v, 255%Z) /\
    (20 <= v <= 200)%Z.
Proof.
  destruct (simple_grayscale_levels (onePixel 255 255 255 255) (Some rounded)
              0 0) as (v & Hp & _ & Hin); [simpl; lia | simpl; lia |].
  exists v. split; [exact Hp|]. apply Hin. vm_compute. reflexivity.
Defined.

(** X25.  The two steps of the first pipeline compose to the opaque
    luminance mask: the grey raster made, in the default (vertical) style,
    from the contour of a well-formed raster holds 255 in R, G and B where
    the luminance of the raster exceeds 128 and 0 elsewhere, with alpha 255
    everywhere, so the alpha of the raster is discarded. *)
Theorem simple_pipeline_is_the_opaque_mask (img : ImageData) (x y : nat) :
  wellFormed img -> (x < width img)%nat -> (y < height img)%nat ->
  pixelAt (createSimpleGrayscale (extractSimpleContour img) (Some vertical))
          x y
  = (luminanceMask img x y, luminanceMask img x y, luminanceMask img x y,
     255%Z).
Proof.
  intros Hwf Hx Hy.
  destruct (extractSimpleContour_spec img Hwf) as [_ Hp1].
  destruct (createSimpleGrayscale_spec (extractSimpleContour img)
              (Some vertical)) as [_ Hp].
  rewrite (Hp x y Hx Hy). cbv zeta.
  destruct (grayscaleValue_levels (extractSimpleContour img) (Some vertical)
              y x) as [Hout Hin].
  pose proof (Hp1 x y Hx Hy) as E.
  assert (Hd : byteAt (data (extractSimpleContour img))
                      ((y * width (extractSimpleContour img) + x) * 4)
               = luminanceMask img x y).
  { change (byteAt _ _) with (depthAt (extractSimpleContour img) x y).
    now rewrite depthAt_first, E. }
  rewrite Hd in Hout, Hin.
  destruct (luminanceMask_cases img x y) as [Hm | Hm]; rewrite Hm in *.
  - rewrite Hout by lia. change 0 with (IZR 0).
    rewrite roundHalfEven_IZR. reflexivity.
  - rewrite Hin by lia. change 255 with (IZR 255).
    rewrite roundHalfEven_IZR. reflexivity.
Qed.

Lemma simple_pipeline_is_the_opaque_mask_witness :
  pixelAt (createSimpleGrayscale (extractSimpleContour twoPixels)
                                 (Some vertical)) 1 0
  = (luminanceMask twoPixels 1 0, luminanceMask twoPixels 1 0,
     luminanceMask twoPixels 1 0, 255%Z).
Proof.
  apply (simple_pipeline_is_the_opaque_mask twoPixels 1 0).
  - split; [reflexivity|]. unfold twoPixels. simpl. repeat constructor; lia.
  - simpl. lia.
  - simpl. lia.
Defined.

End SimpleExtras.

(** * Further theorems: the mesh *)

Section MeshExtras.

Import MeshBuilder.

(** X26.  Heights and colours follow the sampled depth.  For a raster whose
    bytes are in [0..255] and a model height that is not negative, the
    vertex in column [x] of row [y] of the grid has the height
    [depth * modelHeight * 0.05], between 0 and [modelHeight * 0.05], and
    the colour [(i, 0.95 i, 0.9 i)] with [i = 0.7 + 0.3 depth] between 0.7
    and 1; [depth] is 0 where the sampled alpha is at most 32 and
    [r / 255] elsewhere. *)
Theorem mesh_heights_follow_the_depth (imageData : ImageData)
    (modelHeight : R) (w h : nat) (originalWidth originalHeight : option nat)
    (quality : Quality) (x y : nat) :
  Forall (fun b => (0 <= b <= 255)%Z) (data imageData) ->
  0 <= modelHeight ->
  (x < gridWidth w quality)%nat -> (y < gridHeight h quality)%nat ->
  let g := buildGeometry imageData modelHeight w h originalWidth
                         originalHeight quality in
  let k := (y * gridWidth w quality + x)%nat in
  let depth := vertexDepth imageData w h quality y x in
  let intensity := 7 / 10 + depth * (3 / 10) in
  0 <= depth <= 1 /\
  snd (tripleAt (vertices g) k) = depth * modelHeight * (5 / 100) /\
  0 <= snd (tripleAt (vertices g) k) <= modelHeight * (5 / 100) /\
  tripleAt (colors g) k
  = (intensity, intensity * (95 / 100), intensity * (9 / 10)) /\
  7 / 10 <= intensity <= 1.
Proof.
  intros Hbytes Hm Hx Hy. cbv zeta.
  destruct (buildGeometry_fields imageData modelHeight w h originalWidth
              originalHeight quality) as (Hv & Hc & _).
  destruct (vertexLoop_vertex imageData modelHeight w h originalWidth
              originalHeight quality x y Hx Hy) as [Vp Vc].
  rewrite Hv, Hc, Vp, Vc. cbn [snd]. unfold worldZ.
  assert (Hd : 0 <= vertexDepth imageData w h quality y x <= 1).
  { unfold vertexDepth. cbv zeta.
    destruct (32 <? _)%Z; [|lra].
    pose proof (byteAt_range (data imageData)
                  ((Nat.min (y * step quality) (h - 1) * w
                    + Nat.min (x * step quality) (w - 1)) * 4) Hbytes)
      as [H0 H255].
    apply IZR_le in H0, H255. lra. }
  set (d := vertexDepth imageData w h quality y x) in *.
  split; [exact Hd|]. split; [reflexivity|]. split; [nra|].
  split; [reflexivity|]. lra.
Qed.

Lemma mesh_heights_follow_the_depth_witness :
  0 <= snd (tripleAt
              (vertices (buildGeometry (onePixel 128 128 128 255) 10 1 1
                                       None None ultra))
              (0 * gridWidth 1 ultra + 0))
    <= 10 * (5 / 100).
Proof.
  assert (Hg : gridSize 1 1 = 1%nat)
    by (rewrite gridSize_div by lia; reflexivity).
  apply (mesh_heights_follow_the_depth (onePixel 128 128 128 255) 10 1 1
           None None ultra 0 0).
  - unfold onePixel. simpl. repeat constructor; lia.
  - lra.
  - unfold gridWidth. simpl step. rewrite Hg. lia.
  - unfold gridHeight. simpl step. rewrite Hg. lia.
Defined.

(** X27.  The footprint of the mesh.  When the grid has two columns and two
    rows or more, the vertices span exactly 10 units in X, from -5 in the
    first column to 5 in the last, and [10 * ratio] units in Y, from
    [5 * ratio] in the first row down to [-5 * ratio] in the last, where
    [ratio] is the physical height over the physical width; this holds for
    every raster size and every quality. *)
Theorem mesh_footprint (imageData : ImageData)
    (modelHeight : R) (w h : nat) (originalWidth originalHeight : option nat)
    (quality : Quality) (x y : nat) :
  (2 <= gridWidth w quality)%nat -> (2 <= gridHeight h quality)%nat ->
  (x < gridWidth w quality)%nat -> (y < gridHeight h quality)%nat ->
  let g := buildGeometry imageData modelHeight w h originalWidth
                         originalHeight quality in
  let k := (y * gridWidth w quality + x)%nat in
  let ratio := INR (orElse originalHeight h) / INR (orElse originalWidth w) in
  let vx := fst (fst (tripleAt (vertices g) k)) in
  let vy := snd (fst (tripleAt (vertices g) k)) in
  0 < ratio /\
  -5 <= vx <= 5 /\ - (5 * ratio) <= vy <= 5 * ratio /\
  (x = 0%nat -> vx = -5) /\
  (x = (gridWidth w quality - 1)%nat -> vx = 5) /\
  (y = 0%nat -> vy = 5 * ratio) /\
  (y = (gridHeight h quality - 1)%nat -> vy = - (5 * ratio)).
Proof.
  intros Hgw Hgh Hx Hy. cbv zeta.
  destruct (buildGeometry_fields imageData modelHeight w h originalWidth
              originalHeight quality) as (Hv & _).
  destruct (vertexLoop_vertex imageData modelHeight w h originalWidth
              originalHeight quality x y Hx Hy) as [Vp _].
  rewrite Hv, Vp. cbn [fst snd]. unfold worldX, worldY.
  pose proof (orElse_pos originalWidth w (grid_nonempty quality w Hgw)) as Hw.
  pose proof (orElse_pos originalHeight h (grid_nonempty quality h Hgh)) as Hh.
  apply lt_0_INR in Hw, Hh.
  assert (Hr : 0 < INR (orElse originalHeight h)
                   / INR (orElse originalWidth w))
    by now apply Rdiv_lt_0_compat.
  set (ratio := INR (orElse originalHeight h)
                / INR (orElse originalWidth w)) in *.
  assert (HX : 0 <= INR x <= INR (gridWidth w quality) - 1).
  { split; [apply pos_INR|].
    assert (Hx' : (x + 1 <= gridWidth w quality)%nat) by lia.
    apply le_INR in Hx'. rewrite plus_INR in Hx'. simpl in Hx'. lra. }
  assert (HY : 0 <= INR y <= INR (gridHeight h quality) - 1).
  { split; [apply pos_INR|].
    assert (Hy' : (y + 1 <= gridHeight h quality)%nat) by lia.
    apply le_INR in Hy'. rewrite plus_INR in Hy'. simpl in Hy'. lra. }
  apply le_INR in Hgw, Hgh. simpl in Hgw, Hgh.
  set (GW := INR (gridWidth w quality)) in *.
  set (GH := INR (gridHeight h quality)) in *.
  assert (Hiw : 0 < / (GW - 1)) by (apply Rinv_0_lt_compat; lra).
  assert (Hih : 0 < / (GH - 1)) by (apply Rinv_0_lt_compat; lra).
  assert (Huw : (GW - 1) * / (GW - 1) = 1) by (apply Rinv_r; lra).
  assert (Huh : (GH - 1) * / (GH - 1) = 1) by (apply Rinv_r; lra).
  unfold Rdiv.
  assert (Hfx : 0 <= INR x * / (GW - 1) <= 1).
  { split; [nra|].
    assert (INR x * / (GW - 1) <= (GW - 1) * / (GW - 1))
      by (apply Rmult_le_compat_r; lra).
    lra. }
  assert (Hfy : 0 <= (GH - 1 - INR y) * / (GH - 1) <= 1).
  { split; [nra|].
    assert ((GH - 1 - INR y) * / (GH - 1) <= (GH - 1) * / (GH - 1))
      by (apply Rmult_le_compat_r; lra).
    lra. }
  split; [exact Hr|]. split; [lra|]. split; [nra|].
  split; [|split; [|split]].
  - intros ->. simpl. lra.
  - intros ->.
    assert (E : INR (gridWidth w quality - 1) = GW - 1).
    { rewrite minus_INR by lia. reflexivity. }
    rewrite E, Huw. lra.
  - intros ->. simpl (INR 0). rewrite Rminus_0_r, Huh. lra.
  - intros ->.
    assert (E : INR (gridHeight h quality - 1) = GH - 1).
    { rewrite minus_INR by lia. reflexivity. }
    rewrite E. replace (GH - 1 - (GH - 1)) with 0 by ring. lra.
Qed.

Lemma mesh_footprint_witness :
  fst (fst (tripleAt
              (vertices (buildGeometry (newImageData 5 3) 10 5 3 None None
                                       high))
              (0 * gridWidth 5 high + 0)))
  = -5.
Proof.
  assert (Hgw : gridWidth 5 high = 3%nat)
    by (unfold gridWidth; rewrite gridSize_div by (simpl; lia); reflexivity).
  assert (Hgh : gridHeight 3 high = 2%nat)
    by (unfold gridHeight; rewrite gridSize_div by (simpl; lia); reflexivity).
  apply (mesh_footprint (newImageData 5 3) 10 5 3 None None high 0 0);
    try reflexivity; lia.
Defined.

(** X28.  Every vertex normal of the geometry is a unit vector, whatever
    the raster: the last loop divides each accumulated normal by its length
    and replaces a null one by [(0, 0, 1)]. *)
Theorem mesh_normals_are_unit_vectors (imageData : ImageData)
    (modelHeight : R) (w h : nat) (originalWidth originalHeight : option nat)
    (quality : Quality) (k : nat) :
  (k < gridHeight h quality * gridWidth w quality)%nat ->
  let g := buildGeometry imageData modelHeight w h originalWidth
                         originalHeight quality in
  normSquared (tripleAt (normals g) k) = 1.
Proof.
  intros Hk. cbv zeta.
  destruct (buildGeometry_fields imageData modelHeight w h originalWidth
              originalHeight quality) as (_ & _ & _ & _ & Hn).
  rewrite (Hn k Hk). apply normalised_unit.
Qed.

Lemma mesh_normals_are_unit_vectors_witness :
  normSquared
    (tripleAt (normals (buildGeometry (newImageData 5 3) 10 5 3 None None
                                      high)) 4)
  = 1.
Proof.
  assert (Hgw : gridWidth 5 high = 3%nat)
    by (unfold gridWidth; rewrite gridSize_div by (simpl; lia); reflexivity).
  assert (Hgh : gridHeight 3 high = 2%nat)
    by (unfold gridHeight; rewrite gridSize_div by (simpl; lia); reflexivity).
  apply (mesh_normals_are_unit_vectors (newImageData 5 3) 10 5 3 None None
           high 4).
  rewrite Hgw, Hgh. lia.
Defined.

(** X29.  The surface faces up.  When the grid has two columns and two rows
    or more, every vertex normal has a positive Z component, whatever the
    depths: both triangles of every quad turn the same way, and every vertex
    is a corner of one of them. *)
Theorem mesh_normals_point_up (imageData : ImageData)
    (modelHeight : R) (w h : nat) (originalWidth originalHeight : option nat)
    (quality : Quality) (k : nat) :
  (2 <= gridWidth w quality)%nat -> (2 <= gridHeight h quality)%nat ->
  (k < gridHeight h quality * gridWidth w quality)%nat ->
  let g := buildGeometry imageData modelHeight w h originalWidth
                         originalHeight quality in
  0 < snd (tripleAt (normals g) k).
Proof.
  intros Hgw Hgh Hk. cbv zeta.
  destruct (buildGeometry_fields imageData modelHeight w h originalWidth
              originalHeight quality) as (_ & _ & _ & _ & Hn).
  rewrite (Hn k Hk).
  destruct (vertex_is_corner imageData modelHeight w h originalWidth
              originalHeight quality k Hgw Hgh Hk) as (t & Ht & Hc).
  destruct (faceLoop_faces imageData modelHeight w h originalWidth
              originalHeight quality) as (_ & Hlen & _).
  cbv zeta in Hlen.
  pose proof (accumulate_up _ _ (gridHeight h quality * gridWidth w quality)
                (2 * ((gridHeight h quality - 1) * (gridWidth w quality - 1)))
                ltac:(rewrite Hlen; lia)
                (fun t Ht =>
                   triangles_up imageData modelHeight w h originalWidth
                                originalHeight quality t Hgw Hgh Ht)
                k t Ht Hc) as Hz.
  unfold tripleAt at 1. now apply normalised_up.
Qed.

Lemma mesh_normals_point_up_witness :
  0 < snd (tripleAt (normals (buildGeometry (newImageData 5 3) 10 5 3 None
                                            None high)) 4).
Proof.
  assert (Hgw : gridWidth 5 high = 3%nat)
    by (unfold gridWidth; rewrite gridSize_div by (simpl; lia); reflexivity).
  assert (Hgh : gridHeight 3 high = 2%nat)
    by (unfold gridHeight; rewrite gridSize_div by (simpl; lia); reflexivity).
  apply (mesh_normals_point_up (newImageData 5 3) 10 5 3 None None high 4);
    rewrite ?Hgw, ?Hgh; lia.
Defined.

(** X30.  A grid with a single column or a single row has no triangle, and
    all its vertex normals are [(0, 0, 1)]: nothing is accumulated, and the
    last loop replaces every null normal. *)
Theorem single_row_grid_has_no_triangles (imageData : ImageData)
    (modelHeight : R) (w h : nat) (originalWidth originalHeight : option nat)
    (quality : Quality) :
  (gridWidth w quality <= 1)%nat \/ (gridHeight h quality <= 1)%nat ->
  let g := buildGeometry imageData modelHeight w h originalWidth
                         originalHeight quality in
  faces g = [] /\
  forall k, (k < gridHeight h quality * gridWidth w quality)%nat ->
    tripleAt (normals g) k = (0, 0, 1).
Proof.
  intros Hgrid. cbv zeta.
  destruct (buildGeometry_fields imageData modelHeight w h originalWidth
              originalHeight quality) as (_ & _ & Hf & _ & Hn).
  destruct (faceLoop_faces imageData modelHeight w h originalWidth
              originalHeight quality) as (_ & Hlen & _).
  cbv zeta in Hlen.
  assert (Hnil : faces (faceLoop imageData modelHeight w h originalWidth
                                 originalHeight quality) = []).
  { apply length_zero_iff_nil. rewrite Hlen. nia. }
  split; [now rewrite Hf|]. intros k Hk.
  rewrite (Hn k Hk), Hnil. cbn [length].
  change (for_step 0 3 ?f ?a) with a.
  unfold tripleAt. rewrite !numAt_replicate_zero.
  unfold normalised. cbv zeta.
  replace (0 * 0 + 0 * 0 + 0 * 0) with 0 by ring. rewrite sqrt_0.
  now rewrite (proj2 (Rltb_false 0 0)) by lra.
Qed.

Lemma single_row_grid_has_no_triangles_witness :
  faces (buildGeometry (onePixel 128 128 128 255) 10 1 1 None None ultra)
  = [].
Proof.
  assert (Hg : gridSize 1 1 = 1%nat)
    by (rewrite gridSize_div by lia; reflexivity).
  apply (single_row_grid_has_no_triangles (onePixel 128 128 128 255) 10 1 1
           None None ultra).
  left. unfold gridWidth. simpl step. rewrite Hg. lia.
Defined.

End MeshExtras.
